(** * Solo 3v3 arena matchmaking: candidate selection and team partition

    A shallow embedding of the matchmaking core of mod-arena-3v3-solo-queue:

    - [Composer]   : class MatchmakingComposer as in src/MatchmakingComposer.h
                     (role quotas, zero-healer fallback, exhaustive split);
    - [ComposerCS] : the later revision of the same header, carried with
                     tests/unit/MatchmakingTest.cpp, which adds the
                     single-healer fallback ([singleHealerDpsTimer]) and the
                     class-stacking filter ([HasClassStackingConflict]);
    - [Solo3v3]    : Solo3v3::CountIgnorePairs, Solo3v3::EnumerateCombinations
                     and the split phase of Solo3v3::CheckSolo3v3Arena from
                     solo3v3.cpp (the production search, with the ignore-pair
                     tie-break);
    - [Arena]      : phases 2 and 3 of Solo3v3::CheckSolo3v3Arena;
    - [Deserter]   : the leave penalty of Solo3v3::CountAsLoss and the
                     first-leaver set, with Solo3v3::CleanUp3v3SoloQ;
    - [Pools]      : Solo3v3::AssignToPool on the queue buckets, and
                     CheckSolo3v3Arena with its phase 4.

    Conventions.  A [uint32_t], [uint8_t] or [uint64_t] value is a [Z]; where
    the C++ arithmetic can wrap ([teamSize * 2], [joinTime + timer],
    [n - (teamSize - depth)]) the reduction modulo 2^32 is written out with
    [wrap32].  Positions in a [std::vector] are [nat].  The [int64_t] rating
    sums are exact: fewer than 2^31 ratings below 2^32 never leave the
    64-bit signed range.  Out-parameters and by-reference arguments are
    threaded explicitly as state.  Reading a vector out of range is undefined
    in C++; the model reads with [nth_error] and says at each place what it
    does with [None]; inside the input range of the theorems
    ([teamSize * 2] and the list length below 2^32) no such read happens:
    the enumerated indices are below [n] ([combos_sound]). *)

From Stdlib Require Import ZArith List Bool Lia Arith PeanoNat Permutation Sorted.
Import ListNotations.

Open Scope Z_scope.

(** ** Machine integers *)

Definition wrap32 (z : Z) : Z := z mod 2 ^ 32.

(** ** Vector operations used by every variant *)

Section VectorOps.
Context {A : Type}.

(** [v.push_back(x)] *)
Definition push_back (v : list A) (x : A) : list A := v ++ [x].

(** [for (uint32_t i = 0; i < k; ++i) dst.push_back(src[i]);]
    Reading [src[i]] past the end is undefined in C++; the guards of the
    callers exclude it, and the model skips such an index. *)
Definition push_first (k : nat) (src dst : list A) : list A :=
  fold_left
    (fun acc i =>
       match nth_error src i with
       | Some x => push_back acc x
       | None => acc
       end)
    (seq 0 k) dst.

(** [v[k] = x]; the callers only write inside the vector. *)
Fixpoint assign_at (v : list A) (k : nat) (x : A) : list A :=
  match v, k with
  | [], _ => []
  | _ :: t, O => x :: t
  | h :: t, S k' => h :: assign_at t k' x
  end.
End VectorOps.

(** [for (uint32_t i = lo; i <= hi; ++i)]: the values taken by [i]. *)
Definition index_range (lo hi : nat) : list nat := seq lo (S hi - lo).

(** The upper bound [n - (teamSize - depth)] of the enumeration loop,
    computed on [uint32_t]. *)
Definition loop_bound (n teamSize depth : nat) : nat :=
  Z.to_nat (wrap32 (Z.of_nat n - wrap32 (Z.of_nat teamSize - Z.of_nat depth))).

(** The complement loop shared by Enumerate, EnumerateCombinations,
    FindBestTeamSplit and CheckSolo3v3Arena:
<<
    uint32_t ci = 0;
    for (uint32_t i = 0; i < n; ++i) {
        if (ci < limit && combo[ci] == i) { ++ci; continue; }
        team2.push_back(i);
    }
>> *)
Definition complement_step (limit : nat) (combo : list nat)
    (acc : nat * list nat) (i : nat) : nat * list nat :=
  let '(ci, team2) := acc in
  if (ci <? limit)%nat
     && match nth_error combo ci with
        | Some x => (x =? i)%nat
        | None => false
        end
  then (S ci, team2)
  else (ci, push_back team2 i).

Definition BuildComplement (limit : nat) (combo : list nat) (n : nat) : list nat :=
  snd (fold_left (complement_step limit combo) (seq 0 n) (0%nat, [])).

(** ** Roles *)

Inductive PlayerRole : Type := DPS | HEALER.

Definition PlayerRole_eqb (a b : PlayerRole) : bool :=
  match a, b with
  | DPS, DPS | HEALER, HEALER => true
  | _, _ => false
  end.

(** ** MatchmakingComposer (src/MatchmakingComposer.h) *)

Module Composer.

Record QueuedCandidate : Type := {
  id : Z;
  role : PlayerRole;
  mmr : Z;
  joinTime : Z
}.

Record TeamSplitResult : Type := {
  valid : bool;
  team1Indices : list nat;
  team2Indices : list nat;
  mmrDiff : Z
}.

(** The two out-parameters of SelectCandidates. *)
Record SelectOut : Type := {
  selected : list QueuedCandidate;
  allDpsMatch : bool
}.

Definition isHealer (c : QueuedCandidate) : bool :=
  PlayerRole_eqb (role c) HEALER.

(** Body of the bucketing loop. *)
Definition bucket_step (acc : list QueuedCandidate * list QueuedCandidate)
    (c : QueuedCandidate) : list QueuedCandidate * list QueuedCandidate :=
  let '(healers, dps) := acc in
  if isHealer c then (push_back healers c, dps)
  else (healers, push_back dps c).

(** Body of the timer loop: [if (c.joinTime + timer <= now) push_back]. *)
Definition timed_step (timer now : Z) (timedDps : list QueuedCandidate)
    (c : QueuedCandidate) : list QueuedCandidate :=
  if wrap32 (joinTime c + timer) <=? now then push_back timedDps c
  else timedDps.

Definition SelectCandidates (candidates : list QueuedCandidate)
    (teamSize : Z) (filterTalents : bool) (allDpsTimer now : Z)
    (out : SelectOut) : bool * SelectOut :=
  (* selected.clear(); allDpsMatch = false; *)
  let out := {| selected := []; allDpsMatch := false |} in
  if Z.of_nat (length candidates) <? wrap32 (teamSize * 2) then (false, out)
  else if negb filterTalents then
    (true, {| selected := firstn (Z.to_nat (wrap32 (teamSize * 2))) candidates;
              allDpsMatch := allDpsMatch out |})
  else
    let '(healers, dps) := fold_left bucket_step candidates ([], []) in
    let healersNeeded := if 1 <? teamSize then 2 else 0 in
    let dpsNeeded := wrap32 (wrap32 (teamSize * 2) - healersNeeded) in
    if (healersNeeded <=? Z.of_nat (length healers))
       && (dpsNeeded <=? Z.of_nat (length dps))
    then
      let sel := push_first (Z.to_nat healersNeeded) healers (selected out) in
      let sel := push_first (Z.to_nat dpsNeeded) dps sel in
      (true, {| selected := sel; allDpsMatch := allDpsMatch out |})
    else if (length healers =? 0)%nat then
      let timedDps := fold_left (timed_step allDpsTimer now) dps [] in
      if wrap32 (teamSize * 2) <=? Z.of_nat (length timedDps) then
        (true, {| selected := push_first (Z.to_nat (wrap32 (teamSize * 2)))
                                timedDps (selected out);
                  allDpsMatch := true |})
      else (false, out)
    else (false, out).

(** The state that Enumerate updates through references. *)
Record Best : Type := {
  bestTeam1 : list nat;
  haveBest : bool;
  bestDiff : Z
}.

Definition at_role (pool : list QueuedCandidate) (i : nat) : bool :=
  match nth_error pool i with
  | Some c => isHealer c
  | None => false
  end.

Definition at_mmr (pool : list QueuedCandidate) (i : nat) : Z :=
  match nth_error pool i with
  | Some c => mmr c
  | None => 0
  end.

(** [for (uint32_t i : team) if (selected[i].role == HEALER) ++h;] *)
Definition CountHealers (team : list nat) (pool : list QueuedCandidate) : Z :=
  fold_left (fun h i => if at_role pool i then h + 1 else h) team 0.

(** [for (uint32_t i : team) sum += selected[i].mmr;] *)
Definition SumMMR (team : list nat) (pool : list QueuedCandidate) : Z :=
  fold_left (fun s i => s + at_mmr pool i) team 0.

(** The composition constraint; [true] when the partition is kept. *)
Definition RoleBalanced (filterTalents allDpsMatch : bool)
    (team1 team2 : list nat) (pool : list QueuedCandidate) : bool :=
  if filterTalents then
    let h1 := CountHealers team1 pool in
    let h2 := CountHealers team2 pool in
    if allDpsMatch && (negb (h1 =? 0) || negb (h2 =? 0)) then false
    else if negb allDpsMatch && (negb (h1 =? 1) || negb (h2 =? 1)) then false
    else true
  else true.

Definition TeamDiff (team1 team2 : list nat) (pool : list QueuedCandidate) : Z :=
  let sum1 := SumMMR team1 pool in
  let sum2 := SumMMR team2 pool in
  if sum1 >? sum2 then sum1 - sum2 else sum2 - sum1.

(** The branch [depth == teamSize] of Enumerate. *)
Definition Visit (combo : list nat) (selected : list QueuedCandidate)
    (teamSize n : nat) (filterTalents allDpsMatch : bool) (b : Best) : Best :=
  let team2 := BuildComplement teamSize combo n in
  if negb (RoleBalanced filterTalents allDpsMatch combo team2 selected) then b
  else
    let diff := TeamDiff combo team2 selected in
    if negb (haveBest b) || (diff <? bestDiff b) then
      {| bestTeam1 := combo; haveBest := true; bestDiff := diff |}
    else b.

(** Enumerate.  The C++ recursion runs [depth] up to [teamSize]; the model
    recurses on [remaining = teamSize - depth], so [remaining = 0] is the
    test [depth == teamSize].  The vector [combo] is shared by all calls
    and is therefore part of the threaded state. *)
Fixpoint Enumerate (remaining start depth : nat)
    (selected : list QueuedCandidate) (teamSize n : nat)
    (filterTalents allDpsMatch : bool)
    (st : list nat * Best) : list nat * Best :=
  match remaining with
  | O => (fst st, Visit (fst st) selected teamSize n filterTalents allDpsMatch (snd st))
  | S remaining' =>
      fold_left
        (fun s i =>
           Enumerate remaining' (S i) (S depth) selected teamSize n
             filterTalents allDpsMatch (assign_at (fst s) depth i, snd s))
        (index_range start (loop_bound n teamSize depth)) st
  end.

Definition FindBestTeamSplit (selected : list QueuedCandidate)
    (teamSize : Z) (filterTalents allDpsMatch : bool) : TeamSplitResult :=
  let result := {| valid := false; team1Indices := []; team2Indices := [];
                   mmrDiff := 0 |} in
  let n := wrap32 (Z.of_nat (length selected)) in
  if n <? wrap32 (teamSize * 2) then result
  else
    let init := {| bestTeam1 := []; haveBest := false; bestDiff := 0 |} in
    let combo := repeat 0%nat (Z.to_nat teamSize) in
    let st := Enumerate (Z.to_nat teamSize) 0 0 selected (Z.to_nat teamSize)
                (Z.to_nat n) filterTalents allDpsMatch (combo, init) in
    let b := snd st in
    if negb (haveBest b) then result
    else
      {| valid := true;
         team1Indices := bestTeam1 b;
         team2Indices :=
           BuildComplement (length (bestTeam1 b)) (bestTeam1 b) (Z.to_nat n);
         mmrDiff := bestDiff b |}.

End Composer.

(** ** MatchmakingComposer with the single-healer fallback and the
       class-stacking filter *)

Module ComposerCS.

Record QueuedCandidate : Type := {
  id : Z;
  role : PlayerRole;
  mmr : Z;
  joinTime : Z;
  classId : Z
}.

Record TeamSplitResult : Type := {
  valid : bool;
  team1Indices : list nat;
  team2Indices : list nat;
  mmrDiff : Z
}.

Record SelectOut : Type := {
  selected : list QueuedCandidate;
  allDpsMatch : bool
}.

Definition isHealer (c : QueuedCandidate) : bool :=
  PlayerRole_eqb (role c) HEALER.

Definition bucket_step (acc : list QueuedCandidate * list QueuedCandidate)
    (c : QueuedCandidate) : list QueuedCandidate * list QueuedCandidate :=
  let '(healers, dps) := acc in
  if isHealer c then (push_back healers c, dps)
  else (healers, push_back dps c).

Definition timed_step (timer now : Z) (timedDps : list QueuedCandidate)
    (c : QueuedCandidate) : list QueuedCandidate :=
  if wrap32 (joinTime c + timer) <=? now then push_back timedDps c
  else timedDps.

Definition SelectCandidates (candidates : list QueuedCandidate)
    (teamSize : Z) (filterTalents : bool)
    (allDpsTimer singleHealerDpsTimer now : Z)
    (out : SelectOut) : bool * SelectOut :=
  (* selected.clear(); allDpsMatch = false; *)
  let out := {| selected := []; allDpsMatch := false |} in
  if Z.of_nat (length candidates) <? wrap32 (teamSize * 2) then (false, out)
  else if negb filterTalents then
    (true, {| selected := firstn (Z.to_nat (wrap32 (teamSize * 2))) candidates;
              allDpsMatch := allDpsMatch out |})
  else
    let '(healers, dps) := fold_left bucket_step candidates ([], []) in
    let healersNeeded := if 1 <? teamSize then 2 else 0 in
    let dpsNeeded := wrap32 (wrap32 (teamSize * 2) - healersNeeded) in
    if (healersNeeded <=? Z.of_nat (length healers))
       && (dpsNeeded <=? Z.of_nat (length dps))
    then
      let sel := push_first (Z.to_nat healersNeeded) healers (selected out) in
      let sel := push_first (Z.to_nat dpsNeeded) dps sel in
      (true, {| selected := sel; allDpsMatch := allDpsMatch out |})
    else if (length healers =? 0)%nat then
      let timedDps := fold_left (timed_step allDpsTimer now) dps [] in
      if wrap32 (teamSize * 2) <=? Z.of_nat (length timedDps) then
        (true, {| selected := push_first (Z.to_nat (wrap32 (teamSize * 2)))
                                timedDps (selected out);
                  allDpsMatch := true |})
      else (false, out)
    else if (length healers =? 1)%nat then
      let timedDps := fold_left (timed_step singleHealerDpsTimer now) dps [] in
      if wrap32 (teamSize * 2) <=? Z.of_nat (length timedDps) then
        (true, {| selected := push_first (Z.to_nat (wrap32 (teamSize * 2)))
                                timedDps (selected out);
                  allDpsMatch := true |})
      else (false, out)
    else (false, out).

(** [1u << (classId - 1)] for classes 1-9, [1u << 10] for the druid. *)
Definition ClassIdToMaskBit (classId : Z) : Z :=
  if (1 <=? classId) && (classId <=? 9) then Z.shiftl 1 (classId - 1)
  else if classId =? 11 then Z.shiftl 1 10
  else 0.

(** The body of the pair loop of HasClassStackingConflict: [true] when the
    pair makes the function return [true], [false] when the loop goes on. *)
Definition StackingPair (a b : QueuedCandidate)
    (preventLevel classMask : Z) : bool :=
  if negb (classId a =? classId b) then false
  else if negb (classMask =? 0)
          && (Z.land classMask (ClassIdToMaskBit (classId a)) =? 0)
  then false
  else
    let aIsMelee := PlayerRole_eqb (role a) DPS in
    let aIsHealer := PlayerRole_eqb (role a) HEALER in
    let bIsMelee := PlayerRole_eqb (role b) DPS in
    let bIsHealer := PlayerRole_eqb (role b) HEALER in
    match preventLevel with
    | 1 => true
    | 2 | 3 | 4 => aIsMelee && bIsMelee
    | 5 | 6 => (aIsMelee || aIsHealer) && (bIsMelee || bIsHealer)
    | _ => false
    end.

Definition PoolPair (pool : list QueuedCandidate) (preventLevel classMask : Z)
    (i j : nat) : bool :=
  match nth_error pool i, nth_error pool j with
  | Some a, Some b => StackingPair a b preventLevel classMask
  | _, _ => false
  end.

(** The outer loop takes each member in turn, the inner loop the members
    after it; the function returns [true] at the first conflicting pair. *)
Fixpoint HasClassStackingConflict (indices : list nat)
    (pool : list QueuedCandidate) (preventLevel classMask : Z) : bool :=
  match indices with
  | [] => false
  | i :: rest =>
      existsb (PoolPair pool preventLevel classMask i) rest
      || HasClassStackingConflict rest pool preventLevel classMask
  end.

Record Best : Type := {
  bestTeam1 : list nat;
  haveBest : bool;
  bestDiff : Z
}.

Definition at_role (pool : list QueuedCandidate) (i : nat) : bool :=
  match nth_error pool i with
  | Some c => isHealer c
  | None => false
  end.

Definition at_mmr (pool : list QueuedCandidate) (i : nat) : Z :=
  match nth_error pool i with
  | Some c => mmr c
  | None => 0
  end.

Definition CountHealers (team : list nat) (pool : list QueuedCandidate) : Z :=
  fold_left (fun h i => if at_role pool i then h + 1 else h) team 0.

Definition SumMMR (team : list nat) (pool : list QueuedCandidate) : Z :=
  fold_left (fun s i => s + at_mmr pool i) team 0.

Definition RoleBalanced (filterTalents allDpsMatch : bool)
    (team1 team2 : list nat) (pool : list QueuedCandidate) : bool :=
  if filterTalents then
    let h1 := CountHealers team1 pool in
    let h2 := CountHealers team2 pool in
    if allDpsMatch && (negb (h1 =? 0) || negb (h2 =? 0)) then false
    else if negb allDpsMatch && (negb (h1 =? 1) || negb (h2 =? 1)) then false
    else true
  else true.

(** The class-stacking constraint; [true] when the partition is kept. *)
Definition ClassDiverse (preventClassStacking classStackMask : Z)
    (team1 team2 : list nat) (pool : list QueuedCandidate) : bool :=
  if 0 <? preventClassStacking then
    negb (HasClassStackingConflict team1 pool preventClassStacking classStackMask
          || HasClassStackingConflict team2 pool preventClassStacking classStackMask)
  else true.

Definition TeamDiff (team1 team2 : list nat) (pool : list QueuedCandidate) : Z :=
  let sum1 := SumMMR team1 pool in
  let sum2 := SumMMR team2 pool in
  if sum1 >? sum2 then sum1 - sum2 else sum2 - sum1.

Definition Visit (combo : list nat) (selected : list QueuedCandidate)
    (teamSize n : nat) (filterTalents allDpsMatch : bool)
    (preventClassStacking classStackMask : Z) (b : Best) : Best :=
  let team2 := BuildComplement teamSize combo n in
  if negb (RoleBalanced filterTalents allDpsMatch combo team2 selected) then b
  else if negb (ClassDiverse preventClassStacking classStackMask combo team2 selected)
  then b
  else
    let diff := TeamDiff combo team2 selected in
    if negb (haveBest b) || (diff <? bestDiff b) then
      {| bestTeam1 := combo; haveBest := true; bestDiff := diff |}
    else b.

Fixpoint Enumerate (remaining start depth : nat)
    (selected : list QueuedCandidate) (teamSize n : nat)
    (filterTalents allDpsMatch : bool)
    (preventClassStacking classStackMask : Z)
    (st : list nat * Best) : list nat * Best :=
  match remaining with
  | O => (fst st, Visit (fst st) selected teamSize n filterTalents allDpsMatch
                    preventClassStacking classStackMask (snd st))
  | S remaining' =>
      fold_left
        (fun s i =>
           Enumerate remaining' (S i) (S depth) selected teamSize n
             filterTalents allDpsMatch preventClassStacking classStackMask
             (assign_at (fst s) depth i, snd s))
        (index_range start (loop_bound n teamSize depth)) st
  end.

Definition FindBestTeamSplit (selected : list QueuedCandidate)
    (teamSize : Z) (filterTalents allDpsMatch : bool)
    (preventClassStacking classStackMask : Z) : TeamSplitResult :=
  let result := {| valid := false; team1Indices := []; team2Indices := [];
                   mmrDiff := 0 |} in
  let n := wrap32 (Z.of_nat (length selected)) in
  if n <? wrap32 (teamSize * 2) then result
  else
    let init := {| bestTeam1 := []; haveBest := false; bestDiff := 0 |} in
    let combo := repeat 0%nat (Z.to_nat teamSize) in
    let st := Enumerate (Z.to_nat teamSize) 0 0 selected (Z.to_nat teamSize)
                (Z.to_nat n) filterTalents allDpsMatch
                preventClassStacking classStackMask (combo, init) in
    let b := snd st in
    if negb (haveBest b) then result
    else
      {| valid := true;
         team1Indices := bestTeam1 b;
         team2Indices :=
           BuildComplement (length (bestTeam1 b)) (bestTeam1 b) (Z.to_nat n);
         mmrDiff := bestDiff b |}.

End ComposerCS.

(** ** Solo3v3: the production search (solo3v3.cpp) *)

Module Solo3v3.

(** Modelled from the spec: the enum Solo3v3TalentCat is declared in
    solo3v3.h, which is not part of the sources at hand; solo3v3.cpp uses
    its members MELEE, RANGE and HEALER, and the data model distinguishes
    melee and ranged damage dealers from healers. *)
Inductive Solo3v3TalentCat : Type := MELEE | RANGE | HEALER.

Definition TalentCat_eqb (a b : Solo3v3TalentCat) : bool :=
  match a, b with
  | MELEE, MELEE | RANGE, RANGE | HEALER, HEALER => true
  | _, _ => false
  end.

(** Modelled from the spec: the struct Candidate is declared in solo3v3.h;
    solo3v3.cpp builds it as [{group, player, role, mmr}] and reads these
    four members.  The queue group and the player are kept as handles. *)
Record Candidate : Type := {
  group : Z;
  player : Z;
  role : Solo3v3TalentCat;
  mmr : Z
}.

Record Best : Type := {
  bestTeam1 : list nat;
  haveBest : bool;
  bestDiff : Z;
  bestIgnores : Z
}.

Section Social.
(** [a->GetSocial()->HasIgnore(b->GetGUID())]: the social graph is an
    external collaborator. *)
Variable HasIgnore : Z -> Z -> bool.

Definition IgnorePair (selected : list Candidate) (i j : nat) : bool :=
  match nth_error selected i, nth_error selected j with
  | Some a, Some b =>
      HasIgnore (player a) (player b) || HasIgnore (player b) (player a)
  | _, _ => false
  end.

(** The two nested loops of CountIgnorePairs, threading [pairs]. *)
Fixpoint CountIgnorePairs_loop (indices : list nat)
    (selected : list Candidate) (pairs : Z) : Z :=
  match indices with
  | [] => pairs
  | i :: rest =>
      CountIgnorePairs_loop rest selected
        (fold_left
           (fun p j => if IgnorePair selected i j then p + 1 else p)
           rest pairs)
  end.

Definition CountIgnorePairs (indices : list nat)
    (selected : list Candidate) (avoidIgnore : bool) : Z :=
  if negb avoidIgnore then 0
  else CountIgnorePairs_loop indices selected 0.

Definition at_role (pool : list Candidate) (i : nat) : bool :=
  match nth_error pool i with
  | Some c => TalentCat_eqb (role c) HEALER
  | None => false
  end.

Definition at_mmr (pool : list Candidate) (i : nat) : Z :=
  match nth_error pool i with
  | Some c => mmr c
  | None => 0
  end.

Definition CountHealers (team : list nat) (pool : list Candidate) : Z :=
  fold_left (fun h i => if at_role pool i then h + 1 else h) team 0.

Definition SumMMR (team : list nat) (pool : list Candidate) : Z :=
  fold_left (fun s i => s + at_mmr pool i) team 0.

Definition RoleBalanced (filterTalents allDpsMatch : bool)
    (team1 team2 : list nat) (pool : list Candidate) : bool :=
  if filterTalents then
    let h1 := CountHealers team1 pool in
    let h2 := CountHealers team2 pool in
    if allDpsMatch && (negb (h1 =? 0) || negb (h2 =? 0)) then false
    else if negb allDpsMatch && (negb (h1 =? 1) || negb (h2 =? 1)) then false
    else true
  else true.

Definition TeamDiff (team1 team2 : list nat) (pool : list Candidate) : Z :=
  let sum1 := SumMMR team1 pool in
  let sum2 := SumMMR team2 pool in
  if sum1 >? sum2 then sum1 - sum2 else sum2 - sum1.

Definition TeamIgnores (team1 team2 : list nat) (pool : list Candidate)
    (avoidIgnore : bool) : Z :=
  CountIgnorePairs team1 pool avoidIgnore
  + CountIgnorePairs team2 pool avoidIgnore.

(** The branch [depth == teamSize] of EnumerateCombinations. *)
Definition Visit (combo : list nat) (selected : list Candidate)
    (teamSize n : nat) (filterTalents allDpsMatch avoidIgnore : bool)
    (b : Best) : Best :=
  let team2 := BuildComplement teamSize combo n in
  if negb (RoleBalanced filterTalents allDpsMatch combo team2 selected) then b
  else
    let diff := TeamDiff combo team2 selected in
    let ign := TeamIgnores combo team2 selected avoidIgnore in
    if negb (haveBest b) || (diff <? bestDiff b)
       || ((diff =? bestDiff b) && (ign <? bestIgnores b))
    then
      {| bestTeam1 := combo; haveBest := true; bestDiff := diff;
         bestIgnores := ign |}
    else b.

Fixpoint EnumerateCombinations (remaining start depth : nat)
    (selected : list Candidate) (teamSize n : nat)
    (filterTalents allDpsMatch avoidIgnore : bool)
    (st : list nat * Best) : list nat * Best :=
  match remaining with
  | O => (fst st, Visit (fst st) selected teamSize n filterTalents
                    allDpsMatch avoidIgnore (snd st))
  | S remaining' =>
      fold_left
        (fun s i =>
           EnumerateCombinations remaining' (S i) (S depth) selected
             teamSize n filterTalents allDpsMatch avoidIgnore
             (assign_at (fst s) depth i, snd s))
        (index_range start (loop_bound n teamSize depth)) st
  end.

(** Phase 3 of CheckSolo3v3Arena: the search started on an empty best,
    then the complement of the best team; [None] is [return false]. *)
Definition CheckSolo3v3Arena_split (selected : list Candidate)
    (MinPlayers : Z) (filterTalents allDpsMatch avoidIgnore : bool)
    : option (list nat * list nat) :=
  let n := wrap32 (Z.of_nat (length selected)) in
  let teamSize := MinPlayers in
  let init := {| bestTeam1 := []; haveBest := false; bestDiff := 0;
                 bestIgnores := 0 |} in
  let combo := repeat 0%nat (Z.to_nat teamSize) in
  let st := EnumerateCombinations (Z.to_nat teamSize) 0 0 selected
              (Z.to_nat teamSize) (Z.to_nat n)
              filterTalents allDpsMatch avoidIgnore (combo, init) in
  let b := snd st in
  if negb (haveBest b) then None
  else
    Some (bestTeam1 b,
          BuildComplement (length (bestTeam1 b)) (bestTeam1 b) (Z.to_nat n)).
End Social.

End Solo3v3.

(** ** Specification vocabulary *)

(** The size-[remaining] index combinations over [[start, n)], in the order
    in which the enumeration reaches them: increasing first index first. *)
Fixpoint combos (n remaining start : nat) : list (list nat) :=
  match remaining with
  | O => [[]]
  | S r =>
      flat_map (fun i => map (cons i) (combos n r (S i)))
        (index_range start (n - S r))
  end.

(** Lexicographic order on index lists: the order of increasing-index
    combination enumeration. *)
Fixpoint lex_ltb (a b : list nat) : bool :=
  match a, b with
  | x :: a', y :: b' => (x <? y)%nat || ((x =? y)%nat && lex_ltb a' b')
  | [], _ :: _ => true
  | _, _ => false
  end.

(** [increasing_from lo c]: [c] is strictly increasing and starts at [lo] or
    above. *)
Fixpoint increasing_from (lo : nat) (c : list nat) : Prop :=
  match c with
  | [] => True
  | x :: t => (lo <= x)%nat /\ increasing_from (S x) t
  end.

(** Membership test on index lists. *)
Definition mem (i : nat) (c : list nat) : bool := existsb (Nat.eqb i) c.

(** The indices of [[0, n)] outside [c], in increasing order. *)
Definition complement_of (c : list nat) (n : nat) : list nat :=
  filter (fun i => negb (mem i c)) (seq 0 n).

(** Sum of [f] over an index list. *)
Definition Zsum (f : nat -> Z) (l : list nat) : Z :=
  fold_right (fun i s => f i + s) 0 l.

(** Keeping the first best element of a list: the abstract form of the
    update [if (!haveBest || better) best = combo]. *)
Section Pick.
Context {X S : Type}.
Variable accept : X -> bool.
Variable score : X -> S.
Variable better : S -> S -> bool.

Definition pick (o : option X) (c : X) : option X :=
  if accept c then
    match o with
    | None => Some c
    | Some b => if better (score c) (score b) then Some c else o
    end
  else o.

(** The state of the search after the elements of [seen]. *)
Definition first_best (seen : list X) (o : option X) : Prop :=
  match o with
  | None => forall c, In c seen -> accept c = false
  | Some b =>
      exists pre post,
        seen = pre ++ b :: post
        /\ accept b = true
        /\ (forall c, In c pre -> accept c = true ->
                      better (score b) (score c) = true)
        /\ (forall c, In c post -> accept c = true ->
                      better (score c) (score b) = false)
  end.
End Pick.

(** Lexicographic "strictly better" on (rating difference, ignore pairs). *)
Definition lex_better (a b : Z * Z) : bool :=
  (fst a <? fst b) || ((fst a =? fst b) && (snd a <? snd b)).

Definition Z_better (a b : Z) : bool := a <? b.

(** What each search tests and measures on the combination [c], the second
    team being the complement built from [c]. *)
Definition Composer_keeps (pool : list Composer.QueuedCandidate)
    (teamSize n : nat) (filterTalents allDpsMatch : bool) (c : list nat) : bool :=
  Composer.RoleBalanced filterTalents allDpsMatch c
    (BuildComplement teamSize c n) pool.

Definition Composer_diff (pool : list Composer.QueuedCandidate)
    (teamSize n : nat) (c : list nat) : Z :=
  Composer.TeamDiff c (BuildComplement teamSize c n) pool.

Definition ComposerCS_keeps (pool : list ComposerCS.QueuedCandidate)
    (teamSize n : nat) (filterTalents allDpsMatch : bool)
    (preventClassStacking classStackMask : Z) (c : list nat) : bool :=
  ComposerCS.RoleBalanced filterTalents allDpsMatch c
    (BuildComplement teamSize c n) pool
  && ComposerCS.ClassDiverse preventClassStacking classStackMask c
       (BuildComplement teamSize c n) pool.

Definition ComposerCS_diff (pool : list ComposerCS.QueuedCandidate)
    (teamSize n : nat) (c : list nat) : Z :=
  ComposerCS.TeamDiff c (BuildComplement teamSize c n) pool.

Definition Solo3v3_keeps (pool : list Solo3v3.Candidate)
    (teamSize n : nat) (filterTalents allDpsMatch : bool) (c : list nat) : bool :=
  Solo3v3.RoleBalanced filterTalents allDpsMatch c
    (BuildComplement teamSize c n) pool.

Definition Solo3v3_score (HasIgnore : Z -> Z -> bool)
    (pool : list Solo3v3.Candidate) (teamSize n : nat) (avoidIgnore : bool)
    (c : list nat) : Z * Z :=
  (Solo3v3.TeamDiff c (BuildComplement teamSize c n) pool,
   Solo3v3.TeamIgnores HasIgnore c (BuildComplement teamSize c n) pool avoidIgnore).

(** The by-reference state of a search, read as "the best combination so
    far, if any". *)
Definition Composer_tracks (pool : list Composer.QueuedCandidate)
    (teamSize n : nat) (b : Composer.Best) (o : option (list nat)) : Prop :=
  match o with
  | None => Composer.haveBest b = false
  | Some c => Composer.haveBest b = true /\ Composer.bestTeam1 b = c
              /\ Composer.bestDiff b = Composer_diff pool teamSize n c
  end.

Definition ComposerCS_tracks (pool : list ComposerCS.QueuedCandidate)
    (teamSize n : nat) (b : ComposerCS.Best) (o : option (list nat)) : Prop :=
  match o with
  | None => ComposerCS.haveBest b = false
  | Some c => ComposerCS.haveBest b = true /\ ComposerCS.bestTeam1 b = c
              /\ ComposerCS.bestDiff b = ComposerCS_diff pool teamSize n c
  end.

Definition Solo3v3_tracks (HasIgnore : Z -> Z -> bool)
    (pool : list Solo3v3.Candidate) (teamSize n : nat) (avoidIgnore : bool)
    (b : Solo3v3.Best) (o : option (list nat)) : Prop :=
  match o with
  | None => Solo3v3.haveBest b = false
  | Some c =>
      Solo3v3.haveBest b = true /\ Solo3v3.bestTeam1 b = c
      /\ (Solo3v3.bestDiff b, Solo3v3.bestIgnores b)
         = Solo3v3_score HasIgnore pool teamSize n avoidIgnore c
  end.

(** ** Fixtures, after the unit tests *)

Definition queued (r : PlayerRole) (m jt : Z) : Composer.QueuedCandidate :=
  {| Composer.id := 0; Composer.role := r; Composer.mmr := m;
     Composer.joinTime := jt |}.

Definition queuedCS (r : PlayerRole) (m jt cls : Z) : ComposerCS.QueuedCandidate :=
  {| ComposerCS.id := 0; ComposerCS.role := r; ComposerCS.mmr := m;
     ComposerCS.joinTime := jt; ComposerCS.classId := cls |}.

(** Healers rated 2000 and 1000, four DPS rated 1500. *)
Definition pool_spread : list Composer.QueuedCandidate :=
  [queued HEALER 2000 0; queued HEALER 1000 0; queued DPS 1500 0;
   queued DPS 1500 0; queued DPS 1500 0; queued DPS 1500 0].

(** Restoration druid, priest, balance druid, mage, warrior, warlock. *)
Definition pool_druids : list ComposerCS.QueuedCandidate :=
  [queuedCS HEALER 1500 0 11; queuedCS HEALER 1500 0 5; queuedCS DPS 1500 0 11;
   queuedCS DPS 1500 0 8; queuedCS DPS 1500 0 1; queuedCS DPS 1500 0 9].

(** Three damage dealers, for a one-a-side split. *)
Definition pool_three : list Composer.QueuedCandidate :=
  [queued DPS 1500 0; queued DPS 1400 0; queued DPS 1300 0].

Definition pool_threeCS : list ComposerCS.QueuedCandidate :=
  [queuedCS DPS 1500 0 1; queuedCS DPS 1400 0 4; queuedCS DPS 1300 0 8].

(** Six damage dealers who joined 10 s ago, 17.3 s before the 32-bit
    millisecond clock wraps. *)
Definition pool_near_wrap : list Composer.QueuedCandidate :=
  repeat (queued DPS 1500 4294950000) 6.

Definition pool_near_wrapCS : list ComposerCS.QueuedCandidate :=
  repeat (queuedCS DPS 1500 4294950000 0) 6.

(** One healer and two damage dealers who have just joined. *)
Definition pool_lone_healer : list ComposerCS.QueuedCandidate :=
  [queuedCS HEALER 1500 90 5; queuedCS DPS 1500 90 1; queuedCS DPS 1500 90 4].

(** One healer and six damage dealers who have waited 100 s. *)
Definition pool_healer_six : list ComposerCS.QueuedCandidate :=
  [queuedCS HEALER 1500 0 5; queuedCS DPS 1500 0 1; queuedCS DPS 1500 0 4;
   queuedCS DPS 1500 0 8; queuedCS DPS 1500 0 9; queuedCS DPS 1500 0 3;
   queuedCS DPS 1500 0 6].

(** The queue of the FIFO unit test: players 1-2 are the earliest healers,
    3-6 the earliest damage dealers, 7-8 joined later. *)
Definition player (i : Z) (r : PlayerRole) (jt : Z) : Composer.QueuedCandidate :=
  {| Composer.id := i; Composer.role := r; Composer.mmr := 1500;
     Composer.joinTime := jt |}.

Definition playerCS (i : Z) (r : PlayerRole) (jt : Z) : ComposerCS.QueuedCandidate :=
  {| ComposerCS.id := i; ComposerCS.role := r; ComposerCS.mmr := 1500;
     ComposerCS.joinTime := jt; ComposerCS.classId := 0 |}.

Definition fifo_head : list Composer.QueuedCandidate :=
  [player 1 HEALER 0; player 2 HEALER 100; player 3 DPS 200;
   player 4 DPS 300; player 5 DPS 400].

Definition fifo_headCS : list ComposerCS.QueuedCandidate :=
  [playerCS 1 HEALER 0; playerCS 2 HEALER 100; playerCS 3 DPS 200;
   playerCS 4 DPS 300; playerCS 5 DPS 400].

(** Priest and shaman healers, three warriors and a mage. *)
Definition pool_warriors : list ComposerCS.QueuedCandidate :=
  [queuedCS HEALER 1500 0 5; queuedCS HEALER 1500 0 7; queuedCS DPS 1500 0 1;
   queuedCS DPS 1500 0 1; queuedCS DPS 1500 0 1; queuedCS DPS 1500 0 8].

(** Six equally rated arena players; player 3 ignores player 4. *)
Definition arena_player (g : Z) (r : Solo3v3.Solo3v3TalentCat) : Solo3v3.Candidate :=
  {| Solo3v3.group := g; Solo3v3.player := g; Solo3v3.role := r;
     Solo3v3.mmr := 1500 |}.

Definition arena_pool : list Solo3v3.Candidate :=
  [arena_player 1 Solo3v3.HEALER; arena_player 2 Solo3v3.HEALER;
   arena_player 3 Solo3v3.MELEE; arena_player 4 Solo3v3.RANGE;
   arena_player 5 Solo3v3.MELEE; arena_player 6 Solo3v3.RANGE].

Definition ignores_3_4 (a b : Z) : bool := (a =? 3) && (b =? 4).

(** ** Vocabulary of the further properties *)

(** Pascal's rule: the number of [k]-element subsets of an [n]-element set. *)
Fixpoint choose (n k : nat) : nat :=
  match k, n with
  | O, _ => 1
  | S _, O => 0
  | S k', S n' => choose n' k' + choose n' k
  end.

(** A candidate of the class-stacking revision, read by the earlier one. *)
Definition forget (c : ComposerCS.QueuedCandidate) : Composer.QueuedCandidate :=
  {| Composer.id := ComposerCS.id c; Composer.role := ComposerCS.role c;
     Composer.mmr := ComposerCS.mmr c; Composer.joinTime := ComposerCS.joinTime c |}.

(** MatchmakingTest::RunFullPipeline (tests/unit/MatchmakingTest.cpp), with
    [TEAM_SIZE = 3]; a failed selection returns the default result. *)
Definition TEAM_SIZE : Z := 3.

Definition RunFullPipeline (candidates : list Composer.QueuedCandidate)
    (filterTalents : bool) (allDpsTimer now : Z) : Composer.TeamSplitResult :=
  let '(ok, out) :=
    Composer.SelectCandidates candidates TEAM_SIZE filterTalents allDpsTimer now
      {| Composer.selected := []; Composer.allDpsMatch := false |} in
  if negb ok then
    {| Composer.valid := false; Composer.team1Indices := [];
       Composer.team2Indices := []; Composer.mmrDiff := 0 |}
  else
    Composer.FindBestTeamSplit (Composer.selected out) TEAM_SIZE filterTalents
      (Composer.allDpsMatch out).

(** MatchmakingTest::TeamHasDuplicateClass: two members of the team share a
    non-zero class id. *)
Definition SameClassPair (pool : list ComposerCS.QueuedCandidate) (i j : nat) : bool :=
  match nth_error pool i, nth_error pool j with
  | Some a, Some b =>
      (ComposerCS.classId a =? ComposerCS.classId b)
      && negb (ComposerCS.classId a =? 0)
  | _, _ => false
  end.

Fixpoint TeamHasDuplicateClass (indices : list nat)
    (pool : list ComposerCS.QueuedCandidate) : bool :=
  match indices with
  | [] => false
  | i :: rest =>
      existsb (SameClassPair pool i) rest || TeamHasDuplicateClass rest pool
  end.

(** A production candidate as MatchmakingComposer reads it: healer or
    damage dealer, and the rating. *)
Definition toComposer (c : Solo3v3.Candidate) : Composer.QueuedCandidate :=
  {| Composer.id := Solo3v3.player c;
     Composer.role :=
       if Solo3v3.TalentCat_eqb (Solo3v3.role c) Solo3v3.HEALER then HEALER
       else DPS;
     Composer.mmr := Solo3v3.mmr c;
     Composer.joinTime := 0 |}.

(** ** Solo3v3::CheckSolo3v3Arena, phases 2 and 3 (solo3v3.cpp)

    Phase 1 walks the queue through ObjectAccessor and is taken as done:
    [allCandidates] is its result.  Phase 4 hands the two teams to
    AssignToPool. *)
Module Arena.
Section Phases.
Variable HasIgnore : Z -> Z -> bool.
(** [c.group->JoinTime + allDpsTimerMs <= now]: GroupQueueInfo belongs to
    the core; within one call the test is a predicate on the candidate. *)
Variable waited : Solo3v3.Candidate -> bool.

Definition isHealer (c : Solo3v3.Candidate) : bool :=
  Solo3v3.TalentCat_eqb (Solo3v3.role c) Solo3v3.HEALER.

Definition size (l : list Solo3v3.Candidate) : Z := Z.of_nat (length l).

(** Phase 2: the selected candidates and [allDpsMatch]. *)
Definition SelectPhase (allCandidates : list Solo3v3.Candidate)
    (MinPlayers : Z) (filterTalents : bool)
    : list Solo3v3.Candidate * bool :=
  if negb filterTalents then
    (firstn (Z.to_nat (wrap32 (MinPlayers * 2))) allCandidates, false)
  else
    let healers := filter isHealer allCandidates in
    let dps := filter (fun c => negb (isHealer c)) allCandidates in
    let healersNeeded := if MinPlayers >? 1 then 2 else 0 in
    let dpsNeeded := wrap32 (wrap32 (MinPlayers * 2) - healersNeeded) in
    if (healersNeeded <=? size healers) && (dpsNeeded <=? size dps) then
      (firstn (Z.to_nat healersNeeded) healers
       ++ firstn (Z.to_nat dpsNeeded) dps, false)
    else if size healers =? 0 then
      let timedDps := filter waited dps in
      if wrap32 (MinPlayers * 2) <=? size timedDps then
        (firstn (Z.to_nat (wrap32 (MinPlayers * 2))) timedDps, true)
      else ([], false)
    else ([], false).

(** Phases 2 and 3: [None] is [return false]; otherwise the selected
    candidates with the two index lists given to AssignToPool. *)
Definition CheckSolo3v3Arena (allCandidates : list Solo3v3.Candidate)
    (isArenaTesting filterTalents avoidIgnore : bool)
    : option (list Solo3v3.Candidate * (list nat * list nat)) :=
  let MinPlayers := if isArenaTesting then 1 else 3 in
  if size allCandidates <? wrap32 (MinPlayers * 2) then None
  else
    let '(selected, allDpsMatch) :=
      SelectPhase allCandidates MinPlayers filterTalents in
    if size selected <? wrap32 (MinPlayers * 2) then None
    else
      match Solo3v3.CheckSolo3v3Arena_split HasIgnore selected MinPlayers
              filterTalents allDpsMatch avoidIgnore with
      | None => None
      | Some teams => Some (selected, teams)
      end.
End Phases.
End Arena.

(** ** Solo3v3::CountAsLoss and Solo3v3::CleanUp3v3SoloQ (solo3v3.cpp)

    The leave penalty.  [arenasWithDeserter] is a member declared in
    solo3v3.h and used through [count], [insert] and [erase]: a set of
    instance ids, kept here as a list. *)
Module Deserter.

Record PenaltyConfig : Type := {
  FirstLeaveDuringMatch : Z;
  LeaveDuringMatch : Z;
  LeaveBeforeMatchStart : Z;
  CastDeserterOnLeave : bool
}.

(** What CountAsLoss reads of the player: [instanceId] is 0 when
    [player->GetBattleground()] is null. *)
Record Leaver : Type := {
  IsSpectator : bool;
  hasArenaTeam : bool;
  IsAlive : bool;
  instanceId : Z
}.

(** The penalty decided: the rating loss, and whether spell 26013 is
    cast. *)
Record Charge : Type := {
  ratingLoss : Z;
  deserterCast : bool
}.

Definition count (s : list Z) (x : Z) : Z :=
  Z.of_nat (count_occ Z.eq_dec s x).

Definition insert (x : Z) (s : list Z) : list Z :=
  if count s x =? 0 then x :: s else s.

Definition erase (x : Z) (s : list Z) : list Z :=
  filter (fun y => negb (y =? x)) s.

(** CountAsLoss up to the choice of [ratingLoss]: [None] is an early
    [return], without penalty. *)
Definition CountAsLoss_charge (cfg : PenaltyConfig) (player : Leaver)
    (isInProgress : bool) (arenasWithDeserter : list Z)
    : option Charge * list Z :=
  if IsSpectator player then (None, arenasWithDeserter)
  else if negb (hasArenaTeam player) then (None, arenasWithDeserter)
  else
    let playerLeftAlive := IsAlive player in
    if isInProgress && negb playerLeftAlive then (None, arenasWithDeserter)
    else if isInProgress && playerLeftAlive then
      let isFirstLeaver :=
        negb (instanceId player =? 0)
        && (count arenasWithDeserter (instanceId player) =? 0) in
      let loss := if isFirstLeaver then FirstLeaveDuringMatch cfg
                  else LeaveDuringMatch cfg in
      if isFirstLeaver then
        (Some {| ratingLoss := loss; deserterCast := CastDeserterOnLeave cfg |},
         insert (instanceId player) arenasWithDeserter)
      else
        (Some {| ratingLoss := loss; deserterCast := false |},
         arenasWithDeserter)
    else
      (Some {| ratingLoss := LeaveBeforeMatchStart cfg; deserterCast := true |},
       arenasWithDeserter).

(** The conversion [int32(x)] of an unsigned value. *)
Definition to_int32 (x : Z) : Z := (x + 2 ^ 31) mod 2 ^ 32 - 2 ^ 31.

(** [if (int32(Rating) - ratingLoss < 0) Rating = 0; else Rating -= ratingLoss;]
    on an unsigned field of [bits] bits (the fields [Rating] and
    [MatchMakerRating] are declared by the core; the [int32] subtraction is
    taken not to overflow). *)
Definition ApplyLoss (bits rating loss : Z) : Z :=
  if to_int32 rating - loss <? 0 then 0 else (rating - loss) mod 2 ^ bits.

(** The part of CleanUp3v3SoloQ that touches [arenasWithDeserter]. *)
Definition CleanUp3v3SoloQ (isSoloArena : bool) (bgInstanceId : Z)
    (arenasWithDeserter : list Z) : list Z :=
  if isSoloArena then
    if negb (bgInstanceId =? 0) then erase bgInstanceId arenasWithDeserter
    else arenasWithDeserter
  else arenasWithDeserter.

(** CountAsLoss called for one leaver after the other. *)
Fixpoint CountAsLoss_each (cfg : PenaltyConfig)
    (leavers : list (Leaver * bool)) (arenasWithDeserter : list Z)
    : list (option Charge) * list Z :=
  match leavers with
  | [] => ([], arenasWithDeserter)
  | (p, isInProgress) :: rest =>
      let '(c, s) := CountAsLoss_charge cfg p isInProgress arenasWithDeserter in
      let '(cs, s') := CountAsLoss_each cfg rest s in
      (c :: cs, s')
  end.

(** A player who leaves a running arena alive and is charged for it. *)
Definition deserts (i : Z) (e : Leaver * bool) : bool :=
  negb (IsSpectator (fst e)) && hasArenaTeam (fst e) && IsAlive (fst e)
  && snd e && (instanceId (fst e) =? i).
End Deserter.

(** ** Solo3v3::AssignToPool (solo3v3.cpp)

    Phase 4.  The queue groups are reached through the pointers
    [c.group]; here a group is a handle, and the queue state holds the
    GroupQueueInfo behind each handle, the buckets
    [m_QueuedGroups[bracket_id][type]] by type, and, for each selection
    pool, the groups passed to its AddGroup, in call order. *)
Module Pools.

Record GroupQueueInfo : Type := {
  teamId : Z;
  GroupType : Z;
  JoinTime : Z
}.

Record Queue : Type := {
  groups : Z -> GroupQueueInfo;
  m_QueuedGroups : Z -> list Z;
  m_SelectionPools : Z -> list Z
}.

Definition update {A : Type} (f : Z -> A) (k : Z) (v : A) : Z -> A :=
  fun x => if x =? k then v else f x.

(** The search for [insertPos] and the insertion: after every group that
    joined at the same time or earlier. *)
Fixpoint insert_by_JoinTime (groups : Z -> GroupQueueInfo) (g : Z)
    (dstList : list Z) : list Z :=
  match dstList with
  | [] => [g]
  | x :: rest =>
      if JoinTime (groups x) <=? JoinTime (groups g)
      then x :: insert_by_JoinTime groups g rest
      else g :: x :: rest
  end.

(** [srcList.erase(std::find(srcList.begin(), srcList.end(), c.group))]:
    the first occurrence goes; erasing [end()] is undefined, [None]. *)
Fixpoint erase_first (g : Z) (srcList : list Z) : option (list Z) :=
  match srcList with
  | [] => None
  | x :: rest =>
      if x =? g then Some rest
      else match erase_first g rest with
           | Some rest' => Some (x :: rest')
           | None => None
           end
  end.

Section Teams.
(** [TEAM_ALLIANCE], a TeamId of the core. *)
Variable TEAM_ALLIANCE : Z.

(** The body of the loop of AssignToPool, for the candidate [c]. *)
Definition AssignToPool_step (poolTeam allianceGroupType hordeGroupType : Z)
    (q : Queue) (c : Solo3v3.Candidate) : option Queue :=
  let targetGroupType :=
    if poolTeam =? TEAM_ALLIANCE then allianceGroupType else hordeGroupType in
  let g := Solo3v3.group c in
  let moved :=
    if negb (teamId (groups q g) =? poolTeam) then
      let srcGroupType :=
        if teamId (groups q g) =? TEAM_ALLIANCE then allianceGroupType
        else hordeGroupType in
      let groups' :=
        update (groups q) g
          {| teamId := poolTeam; GroupType := targetGroupType;
             JoinTime := JoinTime (groups q g) |} in
      let queued :=
        update (m_QueuedGroups q) targetGroupType
          (insert_by_JoinTime groups' g (m_QueuedGroups q targetGroupType)) in
      match erase_first g (queued srcGroupType) with
      | None => None
      | Some srcList =>
          Some {| groups := groups';
                  m_QueuedGroups := update queued srcGroupType srcList;
                  m_SelectionPools := m_SelectionPools q |}
      end
    else Some q in
  match moved with
  | None => None
  | Some q' =>
      Some {| groups := groups q';
              m_QueuedGroups := m_QueuedGroups q';
              m_SelectionPools :=
                update (m_SelectionPools q') poolTeam
                  (m_SelectionPools q' poolTeam ++ [g]) |}
  end.

Fixpoint AssignToPool (indices : list nat) (selected : list Solo3v3.Candidate)
    (poolTeam allianceGroupType hordeGroupType : Z) (q : Queue)
    : option Queue :=
  match indices with
  | [] => Some q
  | idx :: rest =>
      match nth_error selected idx with
      | None => None
      | Some c =>
          match AssignToPool_step poolTeam allianceGroupType hordeGroupType
                  q c with
          | None => None
          | Some q' =>
              AssignToPool rest selected poolTeam allianceGroupType
                hordeGroupType q'
          end
      end
  end.
End Teams.

(** The groups of the candidates at [indices], in call order. *)
Definition assigned (indices : list nat) (selected : list Solo3v3.Candidate)
    : list Z :=
  flat_map
    (fun idx => match nth_error selected idx with
                | Some c => [Solo3v3.group c]
                | None => []
                end)
    indices.

(** A group sits in the bucket of its side. *)
Definition housed (TEAM_ALLIANCE allianceGroupType hordeGroupType : Z)
    (q : Queue) (g : Z) : Prop :=
  In g (m_QueuedGroups q
          (if teamId (groups q g) =? TEAM_ALLIANCE then allianceGroupType
           else hordeGroupType)).

(** [m_SelectionPools[team].Init()]: the pool starts a new selection. *)
Definition Init (team : Z) (q : Queue) : Queue :=
  {| groups := groups q;
     m_QueuedGroups := m_QueuedGroups q;
     m_SelectionPools := update (m_SelectionPools q) team [] |}.

(** CheckSolo3v3Arena on the queue: the two pools are initialised, phases
    2 and 3 choose the teams, phase 4 assigns the first team to
    [TEAM_ALLIANCE] and the second to [TEAM_HORDE].  The result is the
    value returned with the queue as the call leaves it. *)
Definition CheckSolo3v3Arena (TEAM_ALLIANCE TEAM_HORDE : Z)
    (HasIgnore : Z -> Z -> bool) (waited : Solo3v3.Candidate -> bool)
    (allCandidates : list Solo3v3.Candidate)
    (isArenaTesting filterTalents avoidIgnore : bool)
    (allianceGroupType hordeGroupType : Z) (q : Queue)
    : option (bool * Queue) :=
  let q0 := Init TEAM_HORDE (Init TEAM_ALLIANCE q) in
  match Arena.CheckSolo3v3Arena HasIgnore waited allCandidates
          isArenaTesting filterTalents avoidIgnore with
  | None => Some (false, q0)
  | Some (selected, (bestTeam1, team2Indices)) =>
      match AssignToPool TEAM_ALLIANCE bestTeam1 selected TEAM_ALLIANCE
              allianceGroupType hordeGroupType q0 with
      | None => None
      | Some q1 =>
          match AssignToPool TEAM_ALLIANCE team2Indices selected TEAM_HORDE
                  allianceGroupType hordeGroupType q1 with
          | None => None
          | Some q2 => Some (true, q2)
          end
      end
  end.

(** Some occurrence of [x] comes before some occurrence of [g]. *)
Fixpoint precedes (x g : Z) (l : list Z) : bool :=
  match l with
  | [] => false
  | y :: rest => ((y =? x) && existsb (Z.eqb g) rest) || precedes x g rest
  end.

(** A bucket in queue order: join times never decrease. *)
Definition fifo (q : Queue) (type : Z) : Prop :=
  StronglySorted
    (fun x y => JoinTime (groups q x) <= JoinTime (groups q y))
    (m_QueuedGroups q type).

(** A queue of four groups, two in each of the buckets 0 and 1. *)
Definition sample_groups (h : Z) : GroupQueueInfo :=
  {| teamId := (if h <=? 2 then 0 else 1);
     GroupType := (if h <=? 2 then 0 else 1);
     JoinTime := 100 * h |}.

Definition sample_queue : Queue :=
  {| groups := sample_groups;
     m_QueuedGroups :=
       fun t => if t =? 0 then [1; 2] else if t =? 1 then [3; 4] else [];
     m_SelectionPools := fun _ => [] |}.

Definition sample_selected : list Solo3v3.Candidate :=
  map (fun h => {| Solo3v3.group := h; Solo3v3.player := h;
                   Solo3v3.role := Solo3v3.MELEE; Solo3v3.mmr := 1500 |})
    [1; 2; 3; 4].

(** Group 1 joined when group 3 did. *)
Definition tied_groups (h : Z) : GroupQueueInfo :=
  {| teamId := (if h <=? 2 then 0 else 1);
     GroupType := (if h <=? 2 then 0 else 1);
     JoinTime := (if h =? 1 then 300 else 100 * h) |}.

Definition tied_queue : Queue :=
  {| groups := tied_groups;
     m_QueuedGroups :=
       fun t => if t =? 0 then [2; 1] else if t =? 1 then [3; 4] else [];
     m_SelectionPools := fun _ => [] |}.

(** The same queue with the groups 5 and 6 behind the others in bucket 1. *)
Definition sample_selected56 : list Solo3v3.Candidate :=
  map (fun h => {| Solo3v3.group := h; Solo3v3.player := h;
                   Solo3v3.role := Solo3v3.MELEE; Solo3v3.mmr := 1500 |})
    [5; 6].

Definition sample_queue6 : Queue :=
  {| groups := sample_groups;
     m_QueuedGroups :=
       fun t => if t =? 0 then [1; 2] else if t =? 1 then [3; 4; 5; 6] else [];
     m_SelectionPools := fun _ => [] |}.
End Pools.

(** The same players, every rating raised by [delta]. *)
Definition raise (delta : Z) (c : Composer.QueuedCandidate)
    : Composer.QueuedCandidate :=
  {| Composer.id := Composer.id c; Composer.role := Composer.role c;
     Composer.mmr := Composer.mmr c + delta;
     Composer.joinTime := Composer.joinTime c |}.

Definition raiseCS (delta : Z) (c : ComposerCS.QueuedCandidate)
    : ComposerCS.QueuedCandidate :=
  {| ComposerCS.id := ComposerCS.id c; ComposerCS.role := ComposerCS.role c;
     ComposerCS.mmr := ComposerCS.mmr c + delta;
     ComposerCS.joinTime := ComposerCS.joinTime c;
     ComposerCS.classId := ComposerCS.classId c |}.

(** A production candidate as MatchmakingComposer reads it, with the join
    time of its group. *)
Definition toComposerAt (JoinTime : Solo3v3.Candidate -> Z)
    (c : Solo3v3.Candidate) : Composer.QueuedCandidate :=
  {| Composer.id := Solo3v3.player c;
     Composer.role :=
       if Solo3v3.TalentCat_eqb (Solo3v3.role c) Solo3v3.HEALER then HEALER
       else DPS;
     Composer.mmr := Solo3v3.mmr c;
     Composer.joinTime := JoinTime c |}.

(** ** Solo3v3::GetFirstAvailableSlot (solo3v3.cpp)

    [soloTeam[t][cat]] tells whether team [t] (0 or 1) already has a player
    of the category. *)
Definition GetFirstAvailableSlot
    (soloTeam : nat -> Solo3v3.Solo3v3TalentCat -> bool)
    : Solo3v3.Solo3v3TalentCat :=
  if negb (soloTeam 0%nat Solo3v3.MELEE) || negb (soloTeam 1%nat Solo3v3.MELEE)
  then Solo3v3.MELEE
  else if negb (soloTeam 0%nat Solo3v3.RANGE)
          || negb (soloTeam 1%nat Solo3v3.RANGE)
  then Solo3v3.RANGE
  else if negb (soloTeam 0%nat Solo3v3.HEALER)
          || negb (soloTeam 1%nat Solo3v3.HEALER)
  then Solo3v3.HEALER
  else Solo3v3.MELEE.

(** * Properties *)

(** ** Machine arithmetic *)

Lemma wrap32_small : forall z, 0 <= z < 2 ^ 32 -> wrap32 z = z.
Proof. intros z Hz. unfold wrap32. apply Z.mod_small. exact Hz. Qed.

Lemma wrap32_range : forall z, 0 <= wrap32 z < 2 ^ 32.
Proof. intro z. unfold wrap32. apply Z.mod_pos_bound. reflexivity. Qed.

Lemma loop_bound_exact : forall n teamSize depth,
  (depth <= teamSize)%nat -> (teamSize - depth <= n)%nat ->
  Z.of_nat n < 2 ^ 32 ->
  loop_bound n teamSize depth = (n - (teamSize - depth))%nat.
Proof.
  intros n teamSize depth Hd Hn Hfit. unfold loop_bound.
  rewrite (wrap32_small (Z.of_nat teamSize - Z.of_nat depth)) by lia.
  rewrite wrap32_small by lia. lia.
Qed.

(** ** Vector loops *)

Lemma push_first_from : forall (A : Type) (src : list A) k a dst,
  (a + k <= length src)%nat ->
  fold_left
    (fun acc i =>
       match nth_error src i with
       | Some x => push_back acc x
       | None => acc
       end) (seq a k) dst
  = dst ++ firstn k (skipn a src).
Proof.
  intros A src k. induction k as [|k IH]; intros a dst Hk; simpl.
  - now rewrite app_nil_r.
  - destruct (nth_error src a) as [x|] eqn:Hx.
    + rewrite IH by lia. unfold push_back. rewrite <- app_assoc. simpl.
      f_equal.
      assert (Hs : skipn a src = x :: skipn (S a) src).
      { clear - Hx. revert src Hx. induction a as [|a IHa]; intros [|y src] Hx;
          simpl in *; try discriminate.
        - now inversion Hx.
        - now apply IHa. }
      rewrite Hs. reflexivity.
    + apply nth_error_None in Hx. lia.
Qed.

Lemma push_first_firstn : forall (A : Type) k (src dst : list A),
  (k <= length src)%nat -> push_first k src dst = dst ++ firstn k src.
Proof.
  intros A k src dst Hk. unfold push_first.
  rewrite push_first_from by lia. reflexivity.
Qed.

Lemma length_assign_at : forall (A : Type) (v : list A) k x,
  length (assign_at v k x) = length v.
Proof.
  intros A v. induction v as [|h t IH]; intros [|k] x; simpl; auto.
Qed.

Lemma firstn_assign_at_next : forall (A : Type) (v : list A) k x,
  (k < length v)%nat ->
  firstn (S k) (assign_at v k x) = firstn k v ++ [x].
Proof.
  intros A v. induction v as [|h t IH]; intros [|k] x Hk; simpl in *; try lia.
  - reflexivity.
  - f_equal. apply IH. lia.
Qed.

(** ** The enumeration visits the combinations in order *)

Lemma fold_left_flat_map_cons : forall (B : Type) (g : list nat -> B -> B)
    (i : nat) (cs : list (list nat)) (b : B),
  fold_left (fun b c => g c b) (map (cons i) cs) b
  = fold_left (fun b c => g (i :: c) b) cs b.
Proof.
  intros B g i cs. induction cs as [|c cs IH]; intro b; simpl; auto.
Qed.

Section Skeleton.
Variable B : Type.
Variable visit : list nat -> B -> B.
Variables teamSize n : nat.
Variable E : nat -> nat -> nat -> list nat * B -> list nat * B.

Hypothesis E_leaf : forall start depth st,
  E 0 start depth st = (fst st, visit (fst st) (snd st)).
Hypothesis E_node : forall r start depth st,
  E (S r) start depth st
  = fold_left
      (fun s i => E r (S i) (S depth) (assign_at (fst s) depth i, snd s))
      (index_range start (loop_bound n teamSize depth)) st.
Hypothesis n_fits : Z.of_nat n < 2 ^ 32.
Hypothesis team_fits : (teamSize <= n)%nat.

(** What a call at [depth] does: the prefix [combo[0..depth)] is left
    alone, and the best-so-far is folded over the combinations extending
    that prefix. *)
Lemma enumerate_visits : forall r start depth combo b,
  (depth + r = teamSize)%nat -> length combo = teamSize ->
  length (fst (E r start depth (combo, b))) = teamSize
  /\ firstn depth (fst (E r start depth (combo, b))) = firstn depth combo
  /\ snd (E r start depth (combo, b))
     = fold_left (fun b c => visit (firstn depth combo ++ c) b)
         (combos n r start) b.
Proof.
  induction r as [|r IH]; intros start depth combo b Hd Hlen.
  - rewrite E_leaf. simpl. repeat split; auto.
    rewrite app_nil_r. rewrite firstn_all2 by lia. reflexivity.
  - rewrite E_node. rewrite loop_bound_exact by lia.
    replace (teamSize - depth)%nat with (S r) by lia.
    simpl combos.
    set (P := firstn depth combo).
    assert (Hgen : forall idx c0 b0,
      length c0 = teamSize -> firstn depth c0 = P ->
      let res := fold_left
        (fun s i => E r (S i) (S depth) (assign_at (fst s) depth i, snd s))
        idx (c0, b0) in
      length (fst res) = teamSize /\ firstn depth (fst res) = P
      /\ snd res
         = fold_left (fun b c => visit (P ++ c) b)
             (flat_map (fun i => map (cons i) (combos n r (S i))) idx) b0).
    { induction idx as [|i idx IHidx]; intros c0 b0 Hl0 Hp0; simpl.
      - auto.
      - destruct (IH (S i) (S depth) (assign_at c0 depth i) b0) as (L1 & L2 & L3).
        + lia.
        + now rewrite length_assign_at.
        + destruct (E r (S i) (S depth) (assign_at c0 depth i, b0)) as [c1 b1] eqn:HE.
          cbn [fst snd] in L1, L2, L3.
          rewrite firstn_assign_at_next in L2 by lia.
          rewrite firstn_assign_at_next in L3 by lia.
          rewrite Hp0 in L2, L3.
          destruct (IHidx c1 b1) as (M1 & M2 & M3).
          * exact L1.
          * assert (HP : length P = depth).
            { unfold P. rewrite length_firstn. lia. }
            assert (Hq : firstn depth c1 = firstn depth (firstn (S depth) c1)).
            { rewrite firstn_firstn. f_equal. lia. }
            rewrite Hq, L2, firstn_app, HP, Nat.sub_diag. simpl.
            rewrite app_nil_r. apply firstn_all2. lia.
          * repeat split; auto.
            rewrite M3. rewrite fold_left_app. f_equal.
            rewrite L3. rewrite fold_left_flat_map_cons.
            clear. generalize b0. induction (combos n r (S i)) as [|c cs IHc];
              intro b; simpl; auto.
            rewrite <- app_assoc. simpl. apply IHc. }
    apply (Hgen _ combo b Hlen eq_refl).
Qed.
End Skeleton.

(** ** Combinations: exactly the increasing index lists *)

Lemma increasing_from_weaken : forall c lo lo',
  (lo' <= lo)%nat -> increasing_from lo c -> increasing_from lo' c.
Proof.
  intros [|x t] lo lo' Hle H; simpl in *; auto.
  destruct H as [H1 H2]. split; [lia | exact H2].
Qed.

Lemma increasing_from_ge : forall c lo x,
  increasing_from lo c -> In x c -> (lo <= x)%nat.
Proof.
  induction c as [|y t IH]; intros lo x H Hin; simpl in *.
  - contradiction.
  - destruct H as [H1 H2]. destruct Hin as [->|Hin]; auto.
    specialize (IH (S y) x H2 Hin). lia.
Qed.

Lemma increasing_from_NoDup : forall c lo, increasing_from lo c -> NoDup c.
Proof.
  induction c as [|y t IH]; intros lo H; simpl in *.
  - constructor.
  - destruct H as [H1 H2]. constructor.
    + intro Hin. pose proof (increasing_from_ge _ _ _ H2 Hin). lia.
    + eapply IH; eauto.
Qed.

(** An increasing list of [k] indices in [[lo, n)] needs [lo + k <= n]. *)
Lemma increasing_from_room : forall c lo n,
  increasing_from lo c -> Forall (fun x => (x < n)%nat) c ->
  (lo + length c <= n)%nat \/ c = [].
Proof.
  induction c as [|y t IH]; intros lo n H HF; simpl in *; auto.
  left. destruct H as [H1 H2]. inversion HF as [|? ? Hy Ht]; subst.
  destruct (IH (S y) n H2 Ht) as [Hr| ->]; simpl; lia.
Qed.

Lemma in_index_range : forall lo hi i,
  In i (index_range lo hi) <-> (lo <= i <= hi)%nat.
Proof.
  intros lo hi i. unfold index_range. rewrite in_seq. lia.
Qed.

Lemma combos_sound : forall n r start c,
  (r <= n)%nat -> In c (combos n r start) ->
  length c = r /\ increasing_from start c /\ Forall (fun x => (x < n)%nat) c.
Proof.
  intros n r. induction r as [|r IH]; intros start c Hr Hin; simpl in Hin.
  - destruct Hin as [<-|[]]. simpl. auto.
  - apply in_flat_map in Hin. destruct Hin as (i & Hi & Hc).
    apply in_map_iff in Hc. destruct Hc as (c' & <- & Hc').
    apply in_index_range in Hi.
    destruct (IH (S i) c') as (L & I & F); [lia | exact Hc' |].
    simpl. repeat split; auto; try lia.
    constructor; auto. lia.
Qed.

Lemma combos_complete : forall n r start c,
  length c = r -> increasing_from start c ->
  Forall (fun x => (x < n)%nat) c ->
  In c (combos n r start).
Proof.
  intros n r. induction r as [|r IH]; intros start c L I F.
  - destruct c; [now left | discriminate].
  - destruct c as [|x t]; [discriminate|].
    simpl in L, I. destruct I as [I1 I2]. inversion F as [|? ? Fx Ft]; subst.
    simpl. apply in_flat_map. exists x. split.
    + apply in_index_range. split; [exact I1|].
      destruct (increasing_from_room _ _ _ I2 Ft) as [Hr| ->]; simpl in *; lia.
    + apply in_map. apply IH; auto.
Qed.

(** The combinations come in strictly increasing lexicographic order. *)
Lemma StronglySorted_app : forall (A : Type) (R : A -> A -> Prop) l1 l2,
  StronglySorted R l1 -> StronglySorted R l2 ->
  (forall a b, In a l1 -> In b l2 -> R a b) ->
  StronglySorted R (l1 ++ l2).
Proof.
  intros A R l1 l2 H1 H2 Hc. induction H1 as [|x l1 Hs IH Hf]; simpl; auto.
  constructor.
  - apply IH. intros a b Ha Hb. apply Hc; auto. now right.
  - apply Forall_app. split; auto.
    apply Forall_forall. intros b Hb. apply Hc; auto. now left.
Qed.

Lemma StronglySorted_map_cons : forall i cs,
  StronglySorted (fun a b => lex_ltb a b = true) cs ->
  StronglySorted (fun a b => lex_ltb a b = true) (map (cons i) cs).
Proof.
  intros i cs H. induction H as [|c cs Hs IH Hf]; simpl; constructor; auto.
  apply Forall_map. eapply Forall_impl; [|exact Hf].
  intros b Hb. simpl. rewrite Nat.eqb_refl, Hb. apply orb_true_r.
Qed.

Lemma combos_lex_sorted : forall n r start,
  StronglySorted (fun a b => lex_ltb a b = true) (combos n r start).
Proof.
  intros n r. induction r as [|r IH]; intro start; simpl.
  - repeat constructor.
  - unfold index_range. generalize (S (n - S r) - start)%nat as len.
    intro len. revert start. induction len as [|len IHlen]; intro start; simpl.
    + constructor.
    + apply StronglySorted_app.
      * apply StronglySorted_map_cons, IH.
      * apply IHlen.
      * intros a b Ha Hb. apply in_map_iff in Ha. destruct Ha as (a' & <- & _).
        apply in_flat_map in Hb. destruct Hb as (j & Hj & Hb).
        apply in_map_iff in Hb. destruct Hb as (b' & <- & _).
        apply in_seq in Hj. simpl.
        assert (H : (start <? j)%nat = true) by (apply Nat.ltb_lt; lia).
        now rewrite H.
Qed.

(** ** The complement loop *)

Lemma mem_true_iff : forall i c, mem i c = true <-> In i c.
Proof.
  intros i c. unfold mem. rewrite existsb_exists. split.
  - intros (x & Hx & Heq). apply Nat.eqb_eq in Heq. now subst.
  - intro H. exists i. split; auto. apply Nat.eqb_refl.
Qed.

Lemma mem_false_iff : forall i c, mem i c = false <-> ~ In i c.
Proof.
  intros i c. rewrite <- mem_true_iff. destruct (mem i c); split; intro H;
    try discriminate; auto. now elim H.
Qed.

Lemma skipn_nth_error_cons : forall (A : Type) (l : list A) k x rest,
  skipn k l = x :: rest ->
  nth_error l k = Some x /\ skipn (S k) l = rest /\ (k < length l)%nat.
Proof.
  intros A l. induction l as [|y l IH]; intros [|k] x rest H; simpl in *;
    try discriminate.
  - inversion H; subst. repeat split; auto. lia.
  - destruct (IH _ _ _ H) as (H1 & H2 & H3). repeat split; auto. lia.
Qed.

Lemma skipn_nil_length : forall (A : Type) (l : list A) k,
  skipn k l = [] -> (length l <= k)%nat.
Proof.
  intros A l. induction l as [|y l IH]; intros [|k] H; simpl in *;
    try discriminate; try lia.
  specialize (IH _ H). lia.
Qed.

Lemma complement_loop : forall combo m a ci acc rest,
  skipn ci combo = rest -> increasing_from a rest ->
  snd (fold_left (complement_step (length combo) combo) (seq a m) (ci, acc))
  = acc ++ filter (fun i => negb (mem i rest)) (seq a m).
Proof.
  intros combo m. induction m as [|m IH]; intros a ci acc rest Hs Hi.
  - simpl. now rewrite app_nil_r.
  - cbn [seq fold_left filter]. destruct rest as [|x rest'].
    + assert (Hlt : (ci <? length combo)%nat = false).
      { apply Nat.ltb_ge. now apply skipn_nil_length. }
      unfold complement_step at 2. rewrite Hlt. cbn [andb].
      rewrite (IH (S a) ci (push_back acc a) []); auto.
      unfold push_back. cbn [mem existsb negb]. rewrite <- app_assoc. reflexivity.
    + destruct (skipn_nth_error_cons _ _ _ _ _ Hs) as (Hn & Hs' & Hlt).
      destruct Hi as [Hle Hi'].
      unfold complement_step at 2. rewrite Hn.
      apply Nat.ltb_lt in Hlt. rewrite Hlt. cbn [andb].
      destruct (x =? a)%nat eqn:Hxa.
      * apply Nat.eqb_eq in Hxa. subst x.
        rewrite (IH (S a) (S ci) acc rest'); auto.
        f_equal. cbn [mem existsb]. rewrite Nat.eqb_refl. cbn [orb negb].
        apply filter_ext_in. intros i Hin. apply in_seq in Hin.
        assert (Hia : (i =? a)%nat = false) by (apply Nat.eqb_neq; lia).
        unfold mem. cbn [existsb]. rewrite Hia. reflexivity.
      * apply Nat.eqb_neq in Hxa.
        assert (Hi2 : increasing_from (S a) (x :: rest')).
        { simpl. split; [lia | exact Hi']. }
        rewrite (IH (S a) ci (push_back acc a) (x :: rest')); auto.
        assert (Hm : mem a (x :: rest') = false).
        { apply mem_false_iff. intro Hin.
          pose proof (increasing_from_ge _ _ _ Hi2 Hin). lia. }
        rewrite Hm. cbn [negb]. unfold push_back. rewrite <- app_assoc.
        reflexivity.
Qed.

(** On an increasing team the loop computes the complement. *)
Lemma BuildComplement_spec : forall combo n,
  increasing_from 0 combo ->
  BuildComplement (length combo) combo n = complement_of combo n.
Proof.
  intros combo n Hi. unfold BuildComplement, complement_of.
  rewrite (complement_loop combo n 0%nat 0%nat [] combo); auto.
Qed.

Lemma complement_of_partition : forall c n,
  NoDup c -> Forall (fun x => (x < n)%nat) c ->
  Permutation (c ++ complement_of c n) (seq 0 n).
Proof.
  intros c n Hnd HF. apply NoDup_Permutation.
  - apply NoDup_app; auto.
    + unfold complement_of. apply NoDup_filter. apply seq_NoDup.
    + intros x Hx Hx'. unfold complement_of in Hx'.
      apply filter_In in Hx'. destruct Hx' as [_ Hm].
      apply mem_true_iff in Hx. rewrite Hx in Hm. discriminate.
  - apply seq_NoDup.
  - intro x. rewrite in_app_iff. unfold complement_of. rewrite filter_In.
    rewrite in_seq. rewrite Forall_forall in HF. split.
    + intros [Hx|[Hx _]]; [specialize (HF _ Hx)|]; lia.
    + intro Hx. destruct (mem x c) eqn:Hm.
      * left. now apply mem_true_iff.
      * right. split; [lia | reflexivity].
Qed.

Lemma partition_complement_unique : forall A B c n,
  Permutation A c -> NoDup c -> Forall (fun x => (x < n)%nat) c ->
  Permutation (A ++ B) (seq 0 n) ->
  Permutation B (complement_of c n).
Proof.
  intros A B c n HA Hnd HF HP.
  apply Permutation_app_inv_l with (l := c).
  rewrite (complement_of_partition c n Hnd HF).
  rewrite <- HP. apply Permutation_app_tail. now symmetry.
Qed.

(** Every duplicate-free list of indices below [n] has an increasing
    presentation. *)
Lemma filter_seq_increasing : forall (p : nat -> bool) m a,
  increasing_from a (filter p (seq a m)).
Proof.
  intros p m. induction m as [|m IH]; intro a; simpl; auto.
  destruct (p a).
  - simpl. split; [lia | apply IH].
  - apply increasing_from_weaken with (lo := S a); [lia | apply IH].
Qed.

Lemma increasing_presentation : forall A n,
  NoDup A -> Forall (fun x => (x < n)%nat) A ->
  exists c, Permutation A c /\ increasing_from 0 c
            /\ Forall (fun x => (x < n)%nat) c.
Proof.
  intros A n Hnd HF. exists (filter (fun i => mem i A) (seq 0 n)).
  assert (HP : Permutation A (filter (fun i => mem i A) (seq 0 n))).
  { apply NoDup_Permutation; auto.
    - apply NoDup_filter, seq_NoDup.
    - intro x. rewrite filter_In, in_seq, mem_true_iff.
      rewrite Forall_forall in HF. split.
      + intro Hx. specialize (HF _ Hx). split; [lia | exact Hx].
      + tauto. }
  split; [exact HP|]. split.
  - apply filter_seq_increasing.
  - apply Forall_forall. intros x Hx. apply filter_In in Hx.
    destruct Hx as [Hx _]. apply in_seq in Hx. lia.
Qed.

(** ** Keeping the first best element *)

Section PickFacts.
Context {X S : Type}.
Variable accept : X -> bool.
Variable score : X -> S.
Variable better : S -> S -> bool.

Hypothesis better_trans : forall x y z,
  better x y = true -> better y z = true -> better x z = true.
Hypothesis better_through : forall x y z,
  better x y = true -> better z y = false -> better x z = true.
Hypothesis better_asym : forall x y,
  better x y = true -> better y x = false.

Lemma pick_step : forall seen o c,
  first_best accept score better seen o -> first_best accept score better (seen ++ [c]) (pick accept score better o c).
Proof.
  intros seen o c Hinv. unfold pick. destruct (accept c) eqn:Hc.
  - destruct o as [b|].
    + destruct Hinv as (pre & post & -> & Hb & Hpre & Hpost).
      destruct (better (score c) (score b)) eqn:Hcb.
      * exists (pre ++ b :: post), [].
        split; [reflexivity|]. split; [exact Hc|]. split.
        -- intros c' Hin Hacc. apply in_app_iff in Hin.
           destruct Hin as [Hin|[<-|Hin]].
           ++ eapply better_trans; eauto.
           ++ exact Hcb.
           ++ eapply better_through; eauto.
        -- intros c' [].
      * exists pre, (post ++ [c]).
        split; [now rewrite <- app_assoc|]. split; [exact Hb|]. split.
        -- exact Hpre.
        -- intros c' Hin Hacc. apply in_app_iff in Hin.
           destruct Hin as [Hin|[<-|[]]]; auto.
    + exists seen, [].
      split; [reflexivity|]. split; [exact Hc|]. split.
      * intros c' Hin Hacc. rewrite (Hinv _ Hin) in Hacc. discriminate.
      * intros c' [].
  - destruct o as [b|].
    + destruct Hinv as (pre & post & -> & Hb & Hpre & Hpost).
      exists pre, (post ++ [c]).
      split; [now rewrite <- app_assoc|]. split; [exact Hb|]. split.
      * exact Hpre.
      * intros c' Hin Hacc. apply in_app_iff in Hin.
        destruct Hin as [Hin|[<-|[]]]; auto. congruence.
    + intros c' Hin. apply in_app_iff in Hin.
      destruct Hin as [Hin|[<-|[]]]; auto.
Qed.

Lemma pick_fold : forall l seen o,
  first_best accept score better seen o ->
  first_best accept score better (seen ++ l) (fold_left (pick accept score better) l o).
Proof.
  induction l as [|c l IH]; intros seen o Hinv; simpl.
  - now rewrite app_nil_r.
  - replace (seen ++ c :: l) with ((seen ++ [c]) ++ l)
      by (now rewrite <- app_assoc).
    apply IH. now apply pick_step.
Qed.

Lemma pick_fold_first_best : forall l,
  first_best accept score better l (fold_left (pick accept score better) l None).
Proof.
  intro l. apply (pick_fold l [] None). intros c [].
Qed.

(** The element kept is at least as good as every accepted one. *)
Lemma first_best_minimal : forall l b c,
  first_best accept score better l (Some b) -> In c l -> accept c = true ->
  better (score c) (score b) = false.
Proof.
  intros l b c (pre & post & -> & Hb & Hpre & Hpost) Hin Hacc.
  apply in_app_iff in Hin. destruct Hin as [Hin|[<-|Hin]].
  - apply better_asym. auto.
  - destruct (better (score b) (score b)) eqn:Hbb; [|reflexivity].
    pose proof (better_asym _ _ Hbb) as Hno. congruence.
  - auto.
Qed.

Lemma first_best_none : forall l c,
  first_best accept score better l None -> In c l -> accept c = false.
Proof. intros l c H Hin. exact (H c Hin). Qed.
End PickFacts.

Lemma lex_better_trans : forall x y z,
  lex_better x y = true -> lex_better y z = true -> lex_better x z = true.
Proof. unfold lex_better. intros [a b] [c d] [e f]; simpl. lia. Qed.

Lemma lex_better_through : forall x y z,
  lex_better x y = true -> lex_better z y = false -> lex_better x z = true.
Proof. unfold lex_better. intros [a b] [c d] [e f]; simpl. lia. Qed.

Lemma lex_better_asym : forall x y,
  lex_better x y = true -> lex_better y x = false.
Proof. unfold lex_better. intros [a b] [c d]; simpl. lia. Qed.

Lemma Z_better_trans : forall x y z,
  Z_better x y = true -> Z_better y z = true -> Z_better x z = true.
Proof. unfold Z_better. lia. Qed.

Lemma Z_better_through : forall x y z,
  Z_better x y = true -> Z_better z y = false -> Z_better x z = true.
Proof. unfold Z_better. lia. Qed.

Lemma Z_better_asym : forall x y,
  Z_better x y = true -> Z_better y x = false.
Proof. unfold Z_better. lia. Qed.

(** ** Sums and counts do not depend on the order of a team *)

Lemma fold_left_Zsum : forall (f : nat -> Z) l a,
  fold_left (fun s i => s + f i) l a = a + Zsum f l.
Proof.
  intros f l. induction l as [|i l IH]; intro a; simpl.
  - lia.
  - rewrite IH. lia.
Qed.

Lemma fold_left_count : forall (p : nat -> bool) l a,
  fold_left (fun h i => if p i then h + 1 else h) l a
  = a + Zsum (fun i => if p i then 1 else 0) l.
Proof.
  intros p l. induction l as [|i l IH]; intro a; simpl.
  - lia.
  - rewrite IH. destruct (p i); lia.
Qed.

Lemma Zsum_Permutation : forall f l l',
  Permutation l l' -> Zsum f l = Zsum f l'.
Proof.
  intros f l l' H. induction H; simpl; lia.
Qed.

Lemma existsb_Permutation : forall (A : Type) (p : A -> bool) l l',
  Permutation l l' -> existsb p l = existsb p l'.
Proof.
  intros A p l l' H. induction H; simpl.
  - reflexivity.
  - now rewrite IHPermutation.
  - destruct (p x), (p y); reflexivity.
  - congruence.
Qed.

(** ** MatchmakingComposer: the search keeps the first best combination *)

Lemma Composer_Visit_tracks : forall pool ts n ft adm c b o,
  Composer_tracks pool ts n b o ->
  Composer_tracks pool ts n (Composer.Visit c pool ts n ft adm b)
    (pick (Composer_keeps pool ts n ft adm) (Composer_diff pool ts n)
       Z_better o c).
Proof.
  intros pool ts n ft adm c b o H. unfold Composer.Visit, pick, Composer_keeps.
  destruct (Composer.RoleBalanced ft adm c (BuildComplement ts c n) pool);
    cbn [negb]; [|exact H].
  destruct o as [c0|]; simpl in H.
  - destruct H as (H1 & H2 & H3). rewrite H1, H3. cbn [negb orb].
    unfold Z_better, Composer_diff.
    destruct (Composer.TeamDiff c (BuildComplement ts c n) pool
              <? Composer.TeamDiff c0 (BuildComplement ts c0 n) pool);
      simpl; auto.
  - rewrite H. simpl. auto.
Qed.

Lemma Composer_Visit_fold : forall pool ts n ft adm l b o,
  Composer_tracks pool ts n b o ->
  Composer_tracks pool ts n
    (fold_left (fun b c => Composer.Visit c pool ts n ft adm b) l b)
    (fold_left (pick (Composer_keeps pool ts n ft adm)
                  (Composer_diff pool ts n) Z_better) l o).
Proof.
  intros pool ts n ft adm l. induction l as [|c l IH]; intros b o H; simpl.
  - exact H.
  - apply IH. now apply Composer_Visit_tracks.
Qed.

Lemma Composer_Enumerate_tracks : forall pool ts n ft adm,
  Z.of_nat n < 2 ^ 32 -> (ts <= n)%nat ->
  Composer_tracks pool ts n
    (snd (Composer.Enumerate ts 0 0 pool ts n ft adm
            (repeat 0%nat ts,
             {| Composer.bestTeam1 := []; Composer.haveBest := false;
                Composer.bestDiff := 0 |})))
    (fold_left (pick (Composer_keeps pool ts n ft adm)
                  (Composer_diff pool ts n) Z_better)
       (combos n ts 0) None).
Proof.
  intros pool ts n ft adm Hn Hts.
  destruct (enumerate_visits Composer.Best
              (fun c b => Composer.Visit c pool ts n ft adm b) ts n
              (fun r start depth st =>
                 Composer.Enumerate r start depth pool ts n ft adm st)
              (fun _ _ _ => eq_refl) (fun _ _ _ _ => eq_refl) Hn Hts
              ts 0%nat 0%nat (repeat 0%nat ts)
              {| Composer.bestTeam1 := []; Composer.haveBest := false;
                 Composer.bestDiff := 0 |})
    as (_ & _ & H).
  - lia.
  - apply repeat_length.
  - rewrite H. cbn [firstn app].
    apply Composer_Visit_fold. reflexivity.
Qed.

Lemma first_best_some_in : forall (X S : Type) (accept : X -> bool)
    (score : X -> S) (better : S -> S -> bool) l b,
  first_best accept score better l (Some b) -> In b l /\ accept b = true.
Proof.
  intros X S accept score better l b (pre & post & -> & Hb & _).
  split; auto. apply in_app_iff. right. now left.
Qed.

Lemma combos_BuildComplement : forall n ts c,
  (ts <= n)%nat -> In c (combos n ts 0) ->
  BuildComplement ts c n = complement_of c n.
Proof.
  intros n ts c Hts Hin. destruct (combos_sound _ _ _ _ Hts Hin) as (L & I & _).
  rewrite <- L. now apply BuildComplement_spec.
Qed.

Lemma Composer_FindBestTeamSplit_valid : forall sel ts ft adm,
  0 <= ts -> ts * 2 < 2 ^ 32 -> Z.of_nat (length sel) < 2 ^ 32 ->
  Composer.valid (Composer.FindBestTeamSplit sel ts ft adm) = true ->
  let r := Composer.FindBestTeamSplit sel ts ft adm in
  let n := length sel in
  let k := Z.to_nat ts in
  (2 * k <= n)%nat
  /\ first_best (Composer_keeps sel k n ft adm) (Composer_diff sel k n)
       Z_better (combos n k 0) (Some (Composer.team1Indices r))
  /\ Composer.team2Indices r = complement_of (Composer.team1Indices r) n
  /\ Composer.mmrDiff r = Composer_diff sel k n (Composer.team1Indices r).
Proof.
  intros sel ts ft adm Hts Hfit Hlen Hvalid r n k.
  unfold r in *. clear r. revert Hvalid. unfold Composer.FindBestTeamSplit.
  rewrite (wrap32_small (Z.of_nat (length sel))) by lia.
  rewrite (wrap32_small (ts * 2)) by lia.
  rewrite Nat2Z.id. fold n. fold k.
  destruct (Z.of_nat n <? ts * 2) eqn:Hguard; [discriminate|].
  apply Z.ltb_ge in Hguard.
  assert (Hk : (2 * k <= n)%nat) by (unfold k; lia).
  assert (Hkn : (k <= n)%nat) by lia.
  pose proof (Composer_Enumerate_tracks sel k n ft adm Hlen Hkn) as Htr.
  pose proof (pick_fold_first_best (Composer_keeps sel k n ft adm)
                (Composer_diff sel k n) Z_better
                Z_better_trans Z_better_through (combos n k 0)) as Hfb.
  destruct (fold_left _ (combos n k 0) None) as [c|]; simpl in Htr.
  - destruct Htr as (H1 & H2 & H3). rewrite H1. cbn [negb].
    intros _. cbn [Composer.team1Indices Composer.team2Indices Composer.mmrDiff].
    rewrite H2, H3.
    destruct (first_best_some_in _ _ _ _ _ _ _ Hfb) as [Hin _].
    destruct (combos_sound _ _ _ _ Hkn Hin) as (L & I & _).
    rewrite BuildComplement_spec by exact I. auto.
  - rewrite Htr. cbn [negb]. discriminate.
Qed.

(** Every partition of [[0, n)] into a team of [k] and the rest is, up to
    the order inside the teams, one of the enumerated combinations with its
    complement. *)
Lemma partition_canonical : forall A B n k,
  length A = k -> Permutation (A ++ B) (seq 0 n) ->
  exists c, In c (combos n k 0) /\ Permutation A c
            /\ Permutation B (complement_of c n).
Proof.
  intros A B n k HL HP.
  assert (Hnd : NoDup (A ++ B)).
  { eapply Permutation_NoDup; [symmetry; exact HP | apply seq_NoDup]. }
  assert (HndA : NoDup A) by (eapply NoDup_app_remove_r; eauto).
  assert (HF : Forall (fun x => (x < n)%nat) A).
  { apply Forall_forall. intros x Hx.
    assert (Hin : In x (seq 0 n)).
    { eapply Permutation_in; [exact HP | apply in_app_iff; now left]. }
    apply in_seq in Hin. lia. }
  destruct (increasing_presentation A n HndA HF) as (c & Hc & Hi & Hb).
  exists c. split; [|split; [exact Hc|]].
  - apply combos_complete; auto.
    rewrite <- HL. symmetry. now apply Permutation_length.
  - eapply partition_complement_unique; eauto.
    eapply increasing_from_NoDup; eauto.
Qed.

Lemma TeamDiff_abs : forall s1 s2 : Z,
  (if s1 >? s2 then s1 - s2 else s2 - s1) = Z.abs (s1 - s2).
Proof. intros s1 s2. destruct (s1 >? s2) eqn:H; lia. Qed.

Lemma Composer_CountHealers_perm : forall pool t t',
  Permutation t t' ->
  Composer.CountHealers t pool = Composer.CountHealers t' pool.
Proof.
  intros pool t t' H. unfold Composer.CountHealers.
  rewrite !fold_left_count. f_equal. now apply Zsum_Permutation.
Qed.

Lemma Composer_SumMMR_perm : forall pool t t',
  Permutation t t' -> Composer.SumMMR t pool = Composer.SumMMR t' pool.
Proof.
  intros pool t t' H. unfold Composer.SumMMR.
  rewrite !fold_left_Zsum. f_equal. now apply Zsum_Permutation.
Qed.

Lemma Composer_RoleBalanced_perm : forall ft adm pool a a' b b',
  Permutation a a' -> Permutation b b' ->
  Composer.RoleBalanced ft adm a b pool = Composer.RoleBalanced ft adm a' b' pool.
Proof.
  intros ft adm pool a a' b b' Ha Hb. unfold Composer.RoleBalanced.
  now rewrite (Composer_CountHealers_perm pool a a' Ha),
              (Composer_CountHealers_perm pool b b' Hb).
Qed.

Lemma Composer_TeamDiff_perm : forall pool a a' b b',
  Permutation a a' -> Permutation b b' ->
  Composer.TeamDiff a b pool = Composer.TeamDiff a' b' pool.
Proof.
  intros pool a a' b b' Ha Hb. unfold Composer.TeamDiff.
  now rewrite (Composer_SumMMR_perm pool a a' Ha),
              (Composer_SumMMR_perm pool b b' Hb).
Qed.

Lemma Composer_split_optimal : forall sel ts ft adm,
  0 <= ts -> ts * 2 < 2 ^ 32 -> Z.of_nat (length sel) < 2 ^ 32 ->
  Composer.valid (Composer.FindBestTeamSplit sel ts ft adm) = true ->
  let r := Composer.FindBestTeamSplit sel ts ft adm in
  Composer.RoleBalanced ft adm (Composer.team1Indices r)
    (Composer.team2Indices r) sel = true
  /\ Composer.mmrDiff r
     = Z.abs (Composer.SumMMR (Composer.team1Indices r) sel
              - Composer.SumMMR (Composer.team2Indices r) sel)
  /\ forall A B,
       length A = Z.to_nat ts ->
       Permutation (A ++ B) (seq 0 (length sel)) ->
       Composer.RoleBalanced ft adm A B sel = true ->
       Composer.mmrDiff r
       <= Z.abs (Composer.SumMMR A sel - Composer.SumMMR B sel).
Proof.
  intros sel ts ft adm Hts Hfit Hlen Hvalid r.
  destruct (Composer_FindBestTeamSplit_valid sel ts ft adm Hts Hfit Hlen Hvalid)
    as (Hk & Hfb & H2 & HD).
  fold r in Hfb, H2, HD.
  set (n := length sel) in *. set (k := Z.to_nat ts) in *.
  assert (Hkn : (k <= n)%nat) by lia.
  destruct (first_best_some_in _ _ _ _ _ _ _ Hfb) as [Hin Hacc].
  pose proof (combos_BuildComplement n k _ Hkn Hin) as Hbc.
  unfold Composer_keeps in Hacc. rewrite Hbc, <- H2 in Hacc.
  unfold Composer_diff in HD. rewrite Hbc, <- H2 in HD.
  split; [exact Hacc|]. split.
  - rewrite HD. unfold Composer.TeamDiff. apply TeamDiff_abs.
  - intros A B HA HP Hrb.
    destruct (partition_canonical A B n k HA HP) as (c & Hc & HAc & HBc).
    pose proof (combos_BuildComplement n k c Hkn Hc) as Hcc.
    assert (Hkeep : Composer_keeps sel k n ft adm c = true).
    { unfold Composer_keeps. rewrite Hcc.
      rewrite <- (Composer_RoleBalanced_perm ft adm sel A c B _ HAc HBc).
      exact Hrb. }
    pose proof (first_best_minimal _ _ _ Z_better_asym _ _ _ Hfb Hc Hkeep) as Hmin.
    unfold Z_better in Hmin. apply Z.ltb_ge in Hmin.
    rewrite <- TeamDiff_abs.
    change (Composer.mmrDiff r <= Composer.TeamDiff A B sel).
    rewrite (Composer_TeamDiff_perm sel A c B _ HAc HBc).
    rewrite <- Hcc. fold (Composer_diff sel k n c).
    rewrite HD. unfold Composer.mmrDiff in *. 
    unfold Composer_diff at 1 in Hmin. rewrite Hbc, <- H2 in Hmin. exact Hmin.
Qed.

Lemma Composer_split_structure : forall sel ts ft adm,
  0 <= ts -> ts * 2 < 2 ^ 32 -> Z.of_nat (length sel) < 2 ^ 32 ->
  Composer.valid (Composer.FindBestTeamSplit sel ts ft adm) = true ->
  let r := Composer.FindBestTeamSplit sel ts ft adm in
  let n := length sel in
  (2 * Z.to_nat ts <= n)%nat
  /\ length (Composer.team1Indices r) = Z.to_nat ts
  /\ length (Composer.team2Indices r) = (n - Z.to_nat ts)%nat
  /\ Composer.team2Indices r = complement_of (Composer.team1Indices r) n
  /\ Forall (fun x => (x < n)%nat) (Composer.team1Indices r)
  /\ Permutation (Composer.team1Indices r ++ Composer.team2Indices r) (seq 0 n).
Proof.
  intros sel ts ft adm Hts Hfit Hlen Hvalid r n.
  destruct (Composer_FindBestTeamSplit_valid sel ts ft adm Hts Hfit Hlen Hvalid)
    as (Hk & Hfb & H2 & _).
  fold r in Hfb, H2. fold n in Hk, Hfb, H2.
  destruct (first_best_some_in _ _ _ _ _ _ _ Hfb) as [Hin _].
  destruct (combos_sound n (Z.to_nat ts) 0 _ ltac:(lia) Hin) as (L & I & F).
  assert (HP : Permutation (Composer.team1Indices r ++ Composer.team2Indices r)
                 (seq 0 n)).
  { rewrite H2. apply complement_of_partition; auto.
    eapply increasing_from_NoDup; eauto. }
  split; [exact Hk|]. split; [exact L|]. split; [|split; [exact H2|split; [exact F|exact HP]]].
  apply Permutation_length in HP. rewrite length_app, length_seq in HP. lia.
Qed.

(** ** The class-stacking revision: the same facts *)

Lemma ComposerCS_Visit_tracks : forall pool ts n ft adm lvl mask c b o,
  ComposerCS_tracks pool ts n b o ->
  ComposerCS_tracks pool ts n (ComposerCS.Visit c pool ts n ft adm lvl mask b)
    (pick (ComposerCS_keeps pool ts n ft adm lvl mask)
       (ComposerCS_diff pool ts n) Z_better o c).
Proof.
  intros pool ts n ft adm lvl mask c b o H.
  unfold ComposerCS.Visit, pick, ComposerCS_keeps.
  destruct (ComposerCS.RoleBalanced ft adm c (BuildComplement ts c n) pool);
    cbn [negb andb]; [|exact H].
  destruct (ComposerCS.ClassDiverse lvl mask c (BuildComplement ts c n) pool);
    cbn [negb]; [|exact H].
  destruct o as [c0|]; simpl in H.
  - destruct H as (H1 & H2 & H3). rewrite H1, H3. cbn [negb orb].
    unfold Z_better, ComposerCS_diff.
    destruct (ComposerCS.TeamDiff c (BuildComplement ts c n) pool
              <? ComposerCS.TeamDiff c0 (BuildComplement ts c0 n) pool);
      simpl; auto.
  - rewrite H. simpl. auto.
Qed.

Lemma ComposerCS_Visit_fold : forall pool ts n ft adm lvl mask l b o,
  ComposerCS_tracks pool ts n b o ->
  ComposerCS_tracks pool ts n
    (fold_left (fun b c => ComposerCS.Visit c pool ts n ft adm lvl mask b) l b)
    (fold_left (pick (ComposerCS_keeps pool ts n ft adm lvl mask)
                  (ComposerCS_diff pool ts n) Z_better) l o).
Proof.
  intros pool ts n ft adm lvl mask l.
  induction l as [|c l IH]; intros b o H; simpl.
  - exact H.
  - apply IH. now apply ComposerCS_Visit_tracks.
Qed.

Lemma ComposerCS_Enumerate_tracks : forall pool ts n ft adm lvl mask,
  Z.of_nat n < 2 ^ 32 -> (ts <= n)%nat ->
  ComposerCS_tracks pool ts n
    (snd (ComposerCS.Enumerate ts 0 0 pool ts n ft adm lvl mask
            (repeat 0%nat ts,
             {| ComposerCS.bestTeam1 := []; ComposerCS.haveBest := false;
                ComposerCS.bestDiff := 0 |})))
    (fold_left (pick (ComposerCS_keeps pool ts n ft adm lvl mask)
                  (ComposerCS_diff pool ts n) Z_better)
       (combos n ts 0) None).
Proof.
  intros pool ts n ft adm lvl mask Hn Hts.
  destruct (enumerate_visits ComposerCS.Best
              (fun c b => ComposerCS.Visit c pool ts n ft adm lvl mask b) ts n
              (fun r start depth st =>
                 ComposerCS.Enumerate r start depth pool ts n ft adm lvl mask st)
              (fun _ _ _ => eq_refl) (fun _ _ _ _ => eq_refl) Hn Hts
              ts 0%nat 0%nat (repeat 0%nat ts)
              {| ComposerCS.bestTeam1 := []; ComposerCS.haveBest := false;
                 ComposerCS.bestDiff := 0 |})
    as (_ & _ & H).
  - lia.
  - apply repeat_length.
  - rewrite H. cbn [firstn app].
    apply ComposerCS_Visit_fold. reflexivity.
Qed.

Lemma ComposerCS_FindBestTeamSplit_valid : forall sel ts ft adm lvl mask,
  0 <= ts -> ts * 2 < 2 ^ 32 -> Z.of_nat (length sel) < 2 ^ 32 ->
  ComposerCS.valid (ComposerCS.FindBestTeamSplit sel ts ft adm lvl mask) = true ->
  let r := ComposerCS.FindBestTeamSplit sel ts ft adm lvl mask in
  let n := length sel in
  let k := Z.to_nat ts in
  (2 * k <= n)%nat
  /\ first_best (ComposerCS_keeps sel k n ft adm lvl mask)
       (ComposerCS_diff sel k n) Z_better (combos n k 0)
       (Some (ComposerCS.team1Indices r))
  /\ ComposerCS.team2Indices r = complement_of (ComposerCS.team1Indices r) n
  /\ ComposerCS.mmrDiff r = ComposerCS_diff sel k n (ComposerCS.team1Indices r).
Proof.
  intros sel ts ft adm lvl mask Hts Hfit Hlen Hvalid r n k.
  unfold r in *. clear r. revert Hvalid. unfold ComposerCS.FindBestTeamSplit.
  rewrite (wrap32_small (Z.of_nat (length sel))) by lia.
  rewrite (wrap32_small (ts * 2)) by lia.
  rewrite Nat2Z.id. fold n. fold k.
  destruct (Z.of_nat n <? ts * 2) eqn:Hguard; [discriminate|].
  apply Z.ltb_ge in Hguard.
  assert (Hk : (2 * k <= n)%nat) by (unfold k; lia).
  assert (Hkn : (k <= n)%nat) by lia.
  pose proof (ComposerCS_Enumerate_tracks sel k n ft adm lvl mask Hlen Hkn) as Htr.
  pose proof (pick_fold_first_best (ComposerCS_keeps sel k n ft adm lvl mask)
                (ComposerCS_diff sel k n) Z_better
                Z_better_trans Z_better_through (combos n k 0)) as Hfb.
  destruct (fold_left _ (combos n k 0) None) as [c|]; simpl in Htr.
  - destruct Htr as (H1 & H2 & H3). rewrite H1. cbn [negb].
    intros _.
    cbn [ComposerCS.team1Indices ComposerCS.team2Indices ComposerCS.mmrDiff].
    rewrite H2, H3.
    destruct (first_best_some_in _ _ _ _ _ _ _ Hfb) as [Hin _].
    destruct (combos_sound _ _ _ _ Hkn Hin) as (L & I & _).
    rewrite BuildComplement_spec by exact I. auto.
  - rewrite Htr. cbn [negb]. discriminate.
Qed.

Lemma ComposerCS_split_structure : forall sel ts ft adm lvl mask,
  0 <= ts -> ts * 2 < 2 ^ 32 -> Z.of_nat (length sel) < 2 ^ 32 ->
  ComposerCS.valid (ComposerCS.FindBestTeamSplit sel ts ft adm lvl mask) = true ->
  let r := ComposerCS.FindBestTeamSplit sel ts ft adm lvl mask in
  let n := length sel in
  (2 * Z.to_nat ts <= n)%nat
  /\ length (ComposerCS.team1Indices r) = Z.to_nat ts
  /\ length (ComposerCS.team2Indices r) = (n - Z.to_nat ts)%nat
  /\ ComposerCS.team2Indices r = complement_of (ComposerCS.team1Indices r) n
  /\ Forall (fun x => (x < n)%nat) (ComposerCS.team1Indices r)
  /\ Permutation (ComposerCS.team1Indices r ++ ComposerCS.team2Indices r)
       (seq 0 n).
Proof.
  intros sel ts ft adm lvl mask Hts Hfit Hlen Hvalid r n.
  destruct (ComposerCS_FindBestTeamSplit_valid sel ts ft adm lvl mask
              Hts Hfit Hlen Hvalid) as (Hk & Hfb & H2 & _).
  fold r in Hfb, H2. fold n in Hk, Hfb, H2.
  destruct (first_best_some_in _ _ _ _ _ _ _ Hfb) as [Hin _].
  destruct (combos_sound n (Z.to_nat ts) 0 _ ltac:(lia) Hin) as (L & I & F).
  assert (HP : Permutation
                 (ComposerCS.team1Indices r ++ ComposerCS.team2Indices r)
                 (seq 0 n)).
  { rewrite H2. apply complement_of_partition; auto.
    eapply increasing_from_NoDup; eauto. }
  split; [exact Hk|]. split; [exact L|]. split; [|split; [exact H2|split; [exact F|exact HP]]].
  apply Permutation_length in HP. rewrite length_app, length_seq in HP. lia.
Qed.

Lemma ComposerCS_CountHealers_perm : forall pool t t',
  Permutation t t' ->
  ComposerCS.CountHealers t pool = ComposerCS.CountHealers t' pool.
Proof.
  intros pool t t' H. unfold ComposerCS.CountHealers.
  rewrite !fold_left_count. f_equal. now apply Zsum_Permutation.
Qed.

Lemma ComposerCS_SumMMR_perm : forall pool t t',
  Permutation t t' -> ComposerCS.SumMMR t pool = ComposerCS.SumMMR t' pool.
Proof.
  intros pool t t' H. unfold ComposerCS.SumMMR.
  rewrite !fold_left_Zsum. f_equal. now apply Zsum_Permutation.
Qed.

Lemma ComposerCS_RoleBalanced_perm : forall ft adm pool a a' b b',
  Permutation a a' -> Permutation b b' ->
  ComposerCS.RoleBalanced ft adm a b pool
  = ComposerCS.RoleBalanced ft adm a' b' pool.
Proof.
  intros ft adm pool a a' b b' Ha Hb. unfold ComposerCS.RoleBalanced.
  now rewrite (ComposerCS_CountHealers_perm pool a a' Ha),
              (ComposerCS_CountHealers_perm pool b b' Hb).
Qed.

Lemma ComposerCS_TeamDiff_perm : forall pool a a' b b',
  Permutation a a' -> Permutation b b' ->
  ComposerCS.TeamDiff a b pool = ComposerCS.TeamDiff a' b' pool.
Proof.
  intros pool a a' b b' Ha Hb. unfold ComposerCS.TeamDiff.
  now rewrite (ComposerCS_SumMMR_perm pool a a' Ha),
              (ComposerCS_SumMMR_perm pool b b' Hb).
Qed.

(** A pair conflicts whichever member is read first. *)
Lemma StackingPair_sym : forall a b lvl mask,
  ComposerCS.StackingPair a b lvl mask = ComposerCS.StackingPair b a lvl mask.
Proof.
  intros a b lvl mask. unfold ComposerCS.StackingPair.
  rewrite (Z.eqb_sym (ComposerCS.classId b) (ComposerCS.classId a)).
  destruct (ComposerCS.classId a =? ComposerCS.classId b) eqn:Hc;
    cbn [negb]; [|reflexivity].
  apply Z.eqb_eq in Hc. rewrite Hc.
  destruct (negb (mask =? 0)
            && (Z.land mask (ComposerCS.ClassIdToMaskBit (ComposerCS.classId b)) =? 0));
    [reflexivity|].
  destruct (ComposerCS.role a), (ComposerCS.role b); reflexivity.
Qed.

Lemma PoolPair_sym : forall pool lvl mask i j,
  ComposerCS.PoolPair pool lvl mask i j = ComposerCS.PoolPair pool lvl mask j i.
Proof.
  intros pool lvl mask i j. unfold ComposerCS.PoolPair.
  destruct (nth_error pool i), (nth_error pool j); auto.
  apply StackingPair_sym.
Qed.

Lemma HasClassStackingConflict_perm : forall pool lvl mask t t',
  Permutation t t' ->
  ComposerCS.HasClassStackingConflict t pool lvl mask
  = ComposerCS.HasClassStackingConflict t' pool lvl mask.
Proof.
  intros pool lvl mask t t' H. induction H; simpl.
  - reflexivity.
  - rewrite IHPermutation.
    now rewrite (existsb_Permutation _ _ _ _ H).
  - rewrite (PoolPair_sym pool lvl mask y x).
    destruct (ComposerCS.PoolPair pool lvl mask x y),
             (existsb (ComposerCS.PoolPair pool lvl mask y) l),
             (existsb (ComposerCS.PoolPair pool lvl mask x) l); reflexivity.
  - congruence.
Qed.

Lemma ComposerCS_ClassDiverse_perm : forall lvl mask pool a a' b b',
  Permutation a a' -> Permutation b b' ->
  ComposerCS.ClassDiverse lvl mask a b pool
  = ComposerCS.ClassDiverse lvl mask a' b' pool.
Proof.
  intros lvl mask pool a a' b b' Ha Hb. unfold ComposerCS.ClassDiverse.
  now rewrite (HasClassStackingConflict_perm pool lvl mask a a' Ha),
              (HasClassStackingConflict_perm pool lvl mask b b' Hb).
Qed.

Lemma ComposerCS_split_optimal : forall sel ts ft adm lvl mask,
  0 <= ts -> ts * 2 < 2 ^ 32 -> Z.of_nat (length sel) < 2 ^ 32 ->
  ComposerCS.valid (ComposerCS.FindBestTeamSplit sel ts ft adm lvl mask) = true ->
  let r := ComposerCS.FindBestTeamSplit sel ts ft adm lvl mask in
  (ComposerCS.RoleBalanced ft adm (ComposerCS.team1Indices r)
     (ComposerCS.team2Indices r) sel = true
   /\ ComposerCS.ClassDiverse lvl mask (ComposerCS.team1Indices r)
        (ComposerCS.team2Indices r) sel = true)
  /\ ComposerCS.mmrDiff r
     = Z.abs (ComposerCS.SumMMR (ComposerCS.team1Indices r) sel
              - ComposerCS.SumMMR (ComposerCS.team2Indices r) sel)
  /\ forall A B,
       length A = Z.to_nat ts ->
       Permutation (A ++ B) (seq 0 (length sel)) ->
       ComposerCS.RoleBalanced ft adm A B sel = true ->
       ComposerCS.ClassDiverse lvl mask A B sel = true ->
       ComposerCS.mmrDiff r
       <= Z.abs (ComposerCS.SumMMR A sel - ComposerCS.SumMMR B sel).
Proof.
  intros sel ts ft adm lvl mask Hts Hfit Hlen Hvalid r.
  destruct (ComposerCS_FindBestTeamSplit_valid sel ts ft adm lvl mask
              Hts Hfit Hlen Hvalid) as (Hk & Hfb & H2 & HD).
  fold r in Hfb, H2, HD.
  set (n := length sel) in *. set (k := Z.to_nat ts) in *.
  assert (Hkn : (k <= n)%nat) by lia.
  destruct (first_best_some_in _ _ _ _ _ _ _ Hfb) as [Hin Hacc].
  pose proof (combos_BuildComplement n k _ Hkn Hin) as Hbc.
  unfold ComposerCS_keeps in Hacc. rewrite Hbc, <- H2 in Hacc.
  apply andb_true_iff in Hacc.
  unfold ComposerCS_diff in HD. rewrite Hbc, <- H2 in HD.
  split; [exact Hacc|]. split.
  - rewrite HD. unfold ComposerCS.TeamDiff. apply TeamDiff_abs.
  - intros A B HA HP Hrb Hcd.
    destruct (partition_canonical A B n k HA HP) as (c & Hc & HAc & HBc).
    pose proof (combos_BuildComplement n k c Hkn Hc) as Hcc.
    assert (Hkeep : ComposerCS_keeps sel k n ft adm lvl mask c = true).
    { unfold ComposerCS_keeps. rewrite Hcc.
      rewrite <- (ComposerCS_RoleBalanced_perm ft adm sel A c B _ HAc HBc).
      rewrite <- (ComposerCS_ClassDiverse_perm lvl mask sel A c B _ HAc HBc).
      rewrite Hrb, Hcd. reflexivity. }
    pose proof (first_best_minimal _ _ _ Z_better_asym _ _ _ Hfb Hc Hkeep) as Hmin.
    unfold Z_better in Hmin. apply Z.ltb_ge in Hmin.
    rewrite <- TeamDiff_abs.
    change (ComposerCS.mmrDiff r <= ComposerCS.TeamDiff A B sel).
    rewrite (ComposerCS_TeamDiff_perm sel A c B _ HAc HBc).
    rewrite <- Hcc. fold (ComposerCS_diff sel k n c).
    rewrite HD.
    unfold ComposerCS_diff at 1 in Hmin. rewrite Hbc, <- H2 in Hmin. exact Hmin.
Qed.

Lemma in_complement_of : forall c n i,
  In i (complement_of c n) <-> (i < n)%nat /\ ~ In i c.
Proof.
  intros c n i. unfold complement_of. rewrite filter_In, in_seq.
  rewrite negb_true_iff, mem_false_iff. split; intros [H1 H2]; split; auto; lia.
Qed.

(** FindBestTeamSplit reports no split only when every combination is
    filtered out. *)
Lemma Composer_split_invalid : forall sel ts ft adm,
  0 <= ts -> ts * 2 < 2 ^ 32 -> Z.of_nat (length sel) < 2 ^ 32 ->
  ts * 2 <= Z.of_nat (length sel) ->
  Composer.valid (Composer.FindBestTeamSplit sel ts ft adm) = false ->
  forall c, In c (combos (length sel) (Z.to_nat ts) 0) ->
            Composer_keeps sel (Z.to_nat ts) (length sel) ft adm c = false.
Proof.
  intros sel ts ft adm Hts Hfit Hlen Hen. unfold Composer.FindBestTeamSplit.
  rewrite (wrap32_small (Z.of_nat (length sel))) by lia.
  rewrite (wrap32_small (ts * 2)) by lia. rewrite Nat2Z.id.
  set (n := length sel). set (k := Z.to_nat ts).
  assert (Hg : (Z.of_nat n <? ts * 2) = false) by (apply Z.ltb_ge; lia).
  rewrite Hg.
  assert (Hkn : (k <= n)%nat) by lia.
  pose proof (Composer_Enumerate_tracks sel k n ft adm Hlen Hkn) as Htr.
  pose proof (pick_fold_first_best (Composer_keeps sel k n ft adm)
                (Composer_diff sel k n) Z_better
                Z_better_trans Z_better_through (combos n k 0)) as Hfb.
  destruct (fold_left _ (combos n k 0) None) as [c0|]; simpl in Htr.
  - destruct Htr as (H1 & _). rewrite H1. cbn. discriminate.
  - intros _ c Hc. exact (first_best_none _ _ _ _ _ Hfb Hc).
Qed.

Lemma ComposerCS_split_invalid : forall sel ts ft adm lvl mask,
  0 <= ts -> ts * 2 < 2 ^ 32 -> Z.of_nat (length sel) < 2 ^ 32 ->
  ts * 2 <= Z.of_nat (length sel) ->
  ComposerCS.valid (ComposerCS.FindBestTeamSplit sel ts ft adm lvl mask) = false ->
  forall c, In c (combos (length sel) (Z.to_nat ts) 0) ->
            ComposerCS_keeps sel (Z.to_nat ts) (length sel) ft adm lvl mask c
            = false.
Proof.
  intros sel ts ft adm lvl mask Hts Hfit Hlen Hen.
  unfold ComposerCS.FindBestTeamSplit.
  rewrite (wrap32_small (Z.of_nat (length sel))) by lia.
  rewrite (wrap32_small (ts * 2)) by lia. rewrite Nat2Z.id.
  set (n := length sel). set (k := Z.to_nat ts).
  assert (Hg : (Z.of_nat n <? ts * 2) = false) by (apply Z.ltb_ge; lia).
  rewrite Hg.
  assert (Hkn : (k <= n)%nat) by lia.
  pose proof (ComposerCS_Enumerate_tracks sel k n ft adm lvl mask Hlen Hkn) as Htr.
  pose proof (pick_fold_first_best (ComposerCS_keeps sel k n ft adm lvl mask)
                (ComposerCS_diff sel k n) Z_better
                Z_better_trans Z_better_through (combos n k 0)) as Hfb.
  destruct (fold_left _ (combos n k 0) None) as [c0|]; simpl in Htr.
  - destruct Htr as (H1 & _). rewrite H1. cbn. discriminate.
  - intros _ c Hc. exact (first_best_none _ _ _ _ _ Hfb Hc).
Qed.

(** ** The unit tests, replayed on the model *)

Example test_select_two_healers_four_dps :
  Composer.SelectCandidates pool_spread 3 true 60000 100000
    {| Composer.selected := []; Composer.allDpsMatch := false |}
  = (true, {| Composer.selected := pool_spread; Composer.allDpsMatch := false |}).
Proof. reflexivity. Qed.

Example test_select_one_healer_five_dps :
  fst (Composer.SelectCandidates
         (queued HEALER 1500 0 :: repeat (queued DPS 1500 0) 5)
         3 true 60000 100000
         {| Composer.selected := []; Composer.allDpsMatch := false |}) = false.
Proof. reflexivity. Qed.

Example test_select_all_dps_after_timer :
  Composer.SelectCandidates (repeat (queued DPS 1500 0) 6) 3 true 60000 65000
    {| Composer.selected := []; Composer.allDpsMatch := false |}
  = (true, {| Composer.selected := repeat (queued DPS 1500 0) 6;
              Composer.allDpsMatch := true |}).
Proof. reflexivity. Qed.

Example test_select_all_dps_before_timer :
  fst (Composer.SelectCandidates (repeat (queued DPS 1500 0) 6) 3 true 60000 30000
         {| Composer.selected := []; Composer.allDpsMatch := false |}) = false.
Proof. reflexivity. Qed.

Example test_split_healer_spread :
  Composer.FindBestTeamSplit pool_spread 3 true false
  = {| Composer.valid := true;
       Composer.team1Indices := [0; 2; 3]%nat;
       Composer.team2Indices := [1; 4; 5]%nat;
       Composer.mmrDiff := 1000 |}.
Proof. reflexivity. Qed.

Example test_split_level6_druids_apart :
  ComposerCS.team1Indices
    (ComposerCS.FindBestTeamSplit pool_druids 3 true false 6 0) = [0; 3; 4]%nat.
Proof. reflexivity. Qed.

Example test_class_mask_bits :
  map ComposerCS.ClassIdToMaskBit [1; 2; 3; 4; 5; 6; 7; 8; 9; 11; 0; 10]
  = [1; 2; 4; 8; 16; 32; 64; 128; 256; 1024; 0; 0].
Proof. reflexivity. Qed.

Example test_combos_4_2 :
  combos 4 2 0 = [[0; 1]; [0; 2]; [0; 3]; [1; 2]; [1; 3]; [2; 3]]%nat.
Proof. reflexivity. Qed.

(** * The partitioner: claims C1, C5, C6 *)

(** C1 (partition optimality).  Whenever FindBestTeamSplit returns a valid
    result, the returned teams pass the filters, [mmrDiff] is the absolute
    difference of their rating sums, and [mmrDiff] is at most
    [|sum(rating, A) - sum(rating, B)|] for every partition of the index
    range into a team [A] of [teamSize] indices and its complement [B] that
    passes the same role-balance (and class-diversity) filters.  Stated for
    MatchmakingComposer and for its class-stacking revision; [teamSize * 2]
    and the list length fit in 32 bits. *)
Theorem C1_partition_optimality :
  (forall sel ts ft adm,
     0 <= ts -> ts * 2 < 2 ^ 32 -> Z.of_nat (length sel) < 2 ^ 32 ->
     Composer.valid (Composer.FindBestTeamSplit sel ts ft adm) = true ->
     let r := Composer.FindBestTeamSplit sel ts ft adm in
     Composer.RoleBalanced ft adm (Composer.team1Indices r)
       (Composer.team2Indices r) sel = true
     /\ Composer.mmrDiff r
        = Z.abs (Composer.SumMMR (Composer.team1Indices r) sel
                 - Composer.SumMMR (Composer.team2Indices r) sel)
     /\ forall A B,
          length A = Z.to_nat ts ->
          Permutation (A ++ B) (seq 0 (length sel)) ->
          Composer.RoleBalanced ft adm A B sel = true ->
          Composer.mmrDiff r
          <= Z.abs (Composer.SumMMR A sel - Composer.SumMMR B sel))
  /\
  (forall sel ts ft adm lvl mask,
     0 <= ts -> ts * 2 < 2 ^ 32 -> Z.of_nat (length sel) < 2 ^ 32 ->
     ComposerCS.valid (ComposerCS.FindBestTeamSplit sel ts ft adm lvl mask) = true ->
     let r := ComposerCS.FindBestTeamSplit sel ts ft adm lvl mask in
     (ComposerCS.RoleBalanced ft adm (ComposerCS.team1Indices r)
        (ComposerCS.team2Indices r) sel = true
      /\ ComposerCS.ClassDiverse lvl mask (ComposerCS.team1Indices r)
           (ComposerCS.team2Indices r) sel = true)
     /\ ComposerCS.mmrDiff r
        = Z.abs (ComposerCS.SumMMR (ComposerCS.team1Indices r) sel
                 - ComposerCS.SumMMR (ComposerCS.team2Indices r) sel)
     /\ forall A B,
          length A = Z.to_nat ts ->
          Permutation (A ++ B) (seq 0 (length sel)) ->
          ComposerCS.RoleBalanced ft adm A B sel = true ->
          ComposerCS.ClassDiverse lvl mask A B sel = true ->
          ComposerCS.mmrDiff r
          <= Z.abs (ComposerCS.SumMMR A sel - ComposerCS.SumMMR B sel)).
Proof.
  split.
  - exact Composer_split_optimal.
  - exact ComposerCS_split_optimal.
Qed.

Lemma perm_example_6 :
  Permutation ([3; 0; 4] ++ [5; 1; 2])%nat (seq 0 6).
Proof.
  apply NoDup_Permutation.
  - repeat constructor; simpl; intuition discriminate.
  - apply seq_NoDup.
  - intro x. simpl. intuition.
Qed.

(** The bound of C1 at the partition {3,0,4} / {5,1,2} of the spread pool and
    of the druid pool (class stacking level 6). *)
Lemma C1_partition_optimality_witness :
  Composer.mmrDiff (Composer.FindBestTeamSplit pool_spread 3 true false)
  <= Z.abs (Composer.SumMMR [3; 0; 4]%nat pool_spread
            - Composer.SumMMR [5; 1; 2]%nat pool_spread)
  /\ ComposerCS.mmrDiff (ComposerCS.FindBestTeamSplit pool_druids 3 true false 6 0)
     <= Z.abs (ComposerCS.SumMMR [3; 0; 4]%nat pool_druids
               - ComposerCS.SumMMR [5; 1; 2]%nat pool_druids).
Proof.
  split.
  - apply (proj1 C1_partition_optimality pool_spread 3 true false);
      try reflexivity; try (apply perm_example_6); lia.
  - apply (proj2 C1_partition_optimality pool_druids 3 true false 6 0);
      try reflexivity; try (apply perm_example_6); lia.
Defined.

(** C5, as stated, fails: a valid split of three candidates one a side
    returns teams of sizes 1 and 2 that cover [[0, 3)], not [[0, 2)]. *)
Lemma C5_team_sizes_counterexample :
  let r := Composer.FindBestTeamSplit pool_three 1 false false in
  let r' := ComposerCS.FindBestTeamSplit pool_threeCS 1 false false 0 0 in
  (2 * 1 <= Z.of_nat (length pool_three)
   /\ Composer.valid r = true
   /\ length (Composer.team2Indices r) <> Z.to_nat 1
   /\ ~ Permutation (Composer.team1Indices r ++ Composer.team2Indices r)
          (seq 0 (Z.to_nat (2 * 1))))
  /\ (2 * 1 <= Z.of_nat (length pool_threeCS)
      /\ ComposerCS.valid r' = true
      /\ length (ComposerCS.team2Indices r') <> Z.to_nat 1
      /\ ~ Permutation (ComposerCS.team1Indices r' ++ ComposerCS.team2Indices r')
             (seq 0 (Z.to_nat (2 * 1)))).
Proof.
  split.
  - split; [vm_compute; discriminate|]. split; [reflexivity|].
    split; [vm_compute; discriminate|].
    intro H. apply Permutation_length in H. vm_compute in H. discriminate.
  - split; [vm_compute; discriminate|]. split; [reflexivity|].
    split; [vm_compute; discriminate|].
    intro H. apply Permutation_length in H. vm_compute in H. discriminate.
Qed.

(** C5, amended.  On a valid result for a list of [n >= 2 * teamSize]
    candidates, [team1Indices] has exactly [teamSize] indices,
    [team2Indices] has the [n - teamSize] others, and together they
    partition [[0, n)]; when [n = 2 * teamSize] both teams have [teamSize]
    indices and they partition [[0, 2 * teamSize)]. *)
Theorem C5_team_sizes :
  (forall sel ts ft adm,
     0 <= ts -> ts * 2 < 2 ^ 32 -> Z.of_nat (length sel) < 2 ^ 32 ->
     Composer.valid (Composer.FindBestTeamSplit sel ts ft adm) = true ->
     let r := Composer.FindBestTeamSplit sel ts ft adm in
     let n := length sel in
     length (Composer.team1Indices r) = Z.to_nat ts
     /\ length (Composer.team2Indices r) = (n - Z.to_nat ts)%nat
     /\ Permutation (Composer.team1Indices r ++ Composer.team2Indices r) (seq 0 n)
     /\ (Z.of_nat n = 2 * ts ->
         length (Composer.team2Indices r) = Z.to_nat ts
         /\ Permutation (Composer.team1Indices r ++ Composer.team2Indices r)
              (seq 0 (Z.to_nat (2 * ts)))))
  /\
  (forall sel ts ft adm lvl mask,
     0 <= ts -> ts * 2 < 2 ^ 32 -> Z.of_nat (length sel) < 2 ^ 32 ->
     ComposerCS.valid (ComposerCS.FindBestTeamSplit sel ts ft adm lvl mask) = true ->
     let r := ComposerCS.FindBestTeamSplit sel ts ft adm lvl mask in
     let n := length sel in
     length (ComposerCS.team1Indices r) = Z.to_nat ts
     /\ length (ComposerCS.team2Indices r) = (n - Z.to_nat ts)%nat
     /\ Permutation (ComposerCS.team1Indices r ++ ComposerCS.team2Indices r)
          (seq 0 n)
     /\ (Z.of_nat n = 2 * ts ->
         length (ComposerCS.team2Indices r) = Z.to_nat ts
         /\ Permutation (ComposerCS.team1Indices r ++ ComposerCS.team2Indices r)
              (seq 0 (Z.to_nat (2 * ts))))).
Proof.
  split.
  - intros sel ts ft adm Hts Hfit Hlen Hvalid r n.
    destruct (Composer_split_structure sel ts ft adm Hts Hfit Hlen Hvalid)
      as (Hk & L1 & L2 & _ & _ & HP).
    fold r in L1, L2, HP. fold n in Hk, L2, HP.
    repeat split; auto.
    + lia.
    + replace (Z.to_nat (2 * ts)) with n by lia. exact HP.
  - intros sel ts ft adm lvl mask Hts Hfit Hlen Hvalid r n.
    destruct (ComposerCS_split_structure sel ts ft adm lvl mask
                Hts Hfit Hlen Hvalid) as (Hk & L1 & L2 & _ & _ & HP).
    fold r in L1, L2, HP. fold n in Hk, L2, HP.
    repeat split; auto.
    + lia.
    + replace (Z.to_nat (2 * ts)) with n by lia. exact HP.
Qed.

Lemma C5_team_sizes_witness :
  (length (Composer.team1Indices
             (Composer.FindBestTeamSplit pool_spread 3 true false)) = 3%nat
   /\ length (Composer.team2Indices
                (Composer.FindBestTeamSplit pool_spread 3 true false)) = 3%nat)
  /\ (length (ComposerCS.team1Indices
                (ComposerCS.FindBestTeamSplit pool_druids 3 true false 6 0)) = 3%nat
      /\ length (ComposerCS.team2Indices
                   (ComposerCS.FindBestTeamSplit pool_druids 3 true false 6 0))
         = 3%nat).
Proof.
  split.
  - destruct (proj1 C5_team_sizes pool_spread 3 true false)
      as (H1 & _ & _ & H4); try reflexivity; try lia.
    split; [exact H1 | apply H4; reflexivity].
  - destruct (proj2 C5_team_sizes pool_druids 3 true false 6 0)
      as (H1 & _ & _ & H4); try reflexivity; try lia.
    split; [exact H1 | apply H4; reflexivity].
Defined.

(** C6 (complement correctness).  Whenever FindBestTeamSplit returns a valid
    result for a list of [n] candidates, [team1Indices] and [team2Indices]
    are disjoint and an index belongs to one of them exactly when it is in
    [[0, n)]. *)
Theorem C6_complement_correct :
  (forall sel ts ft adm,
     0 <= ts -> ts * 2 < 2 ^ 32 -> Z.of_nat (length sel) < 2 ^ 32 ->
     Composer.valid (Composer.FindBestTeamSplit sel ts ft adm) = true ->
     let r := Composer.FindBestTeamSplit sel ts ft adm in
     (forall i, In i (Composer.team1Indices r) ->
                In i (Composer.team2Indices r) -> False)
     /\ (forall i, In i (Composer.team1Indices r) \/ In i (Composer.team2Indices r)
                   <-> (i < length sel)%nat))
  /\
  (forall sel ts ft adm lvl mask,
     0 <= ts -> ts * 2 < 2 ^ 32 -> Z.of_nat (length sel) < 2 ^ 32 ->
     ComposerCS.valid (ComposerCS.FindBestTeamSplit sel ts ft adm lvl mask) = true ->
     let r := ComposerCS.FindBestTeamSplit sel ts ft adm lvl mask in
     (forall i, In i (ComposerCS.team1Indices r) ->
                In i (ComposerCS.team2Indices r) -> False)
     /\ (forall i, In i (ComposerCS.team1Indices r)
                   \/ In i (ComposerCS.team2Indices r)
                   <-> (i < length sel)%nat)).
Proof.
  split.
  - intros sel ts ft adm Hts Hfit Hlen Hvalid r.
    destruct (Composer_split_structure sel ts ft adm Hts Hfit Hlen Hvalid)
      as (_ & _ & _ & H2 & F & _).
    fold r in H2, F. rewrite H2. rewrite Forall_forall in F. split.
    + intros i H1 Hc. apply in_complement_of in Hc. tauto.
    + intro i. rewrite in_complement_of. split.
      * intros [H|[H _]]; auto.
      * intro Hi. destruct (in_dec Nat.eq_dec i (Composer.team1Indices r)); auto.
  - intros sel ts ft adm lvl mask Hts Hfit Hlen Hvalid r.
    destruct (ComposerCS_split_structure sel ts ft adm lvl mask
                Hts Hfit Hlen Hvalid) as (_ & _ & _ & H2 & F & _).
    fold r in H2, F. rewrite H2. rewrite Forall_forall in F. split.
    + intros i H1 Hc. apply in_complement_of in Hc. tauto.
    + intro i. rewrite in_complement_of. split.
      * intros [H|[H _]]; auto.
      * intro Hi. destruct (in_dec Nat.eq_dec i (ComposerCS.team1Indices r)); auto.
Qed.

Lemma C6_complement_correct_witness :
  (In 4%nat (Composer.team1Indices
               (Composer.FindBestTeamSplit pool_spread 3 true false))
   \/ In 4%nat (Composer.team2Indices
                  (Composer.FindBestTeamSplit pool_spread 3 true false)))
  /\ (In 4%nat (ComposerCS.team1Indices
                  (ComposerCS.FindBestTeamSplit pool_druids 3 true false 6 0))
      \/ In 4%nat (ComposerCS.team2Indices
                     (ComposerCS.FindBestTeamSplit pool_druids 3 true false 6 0))).
Proof.
  split.
  - destruct (proj1 C6_complement_correct pool_spread 3 true false)
      as (_ & H); try reflexivity; try lia.
    apply H. vm_compute. lia.
  - destruct (proj2 C6_complement_correct pool_druids 3 true false 6 0)
      as (_ & H); try reflexivity; try lia.
    apply H. vm_compute. lia.
Defined.

(** * The selector *)

Lemma firstn_incl : forall (A : Type) k (l : list A) x,
  In x (firstn k l) -> In x l.
Proof.
  intros A k l x H. rewrite <- (firstn_skipn k l). apply in_app_iff. now left.
Qed.

(** ** The loops of SelectCandidates in closed form *)

Lemma Composer_bucket_fold : forall l h d,
  fold_left Composer.bucket_step l (h, d)
  = (h ++ filter Composer.isHealer l,
     d ++ filter (fun c => negb (Composer.isHealer c)) l).
Proof.
  induction l as [|c l IH]; intros h d; simpl.
  - now rewrite !app_nil_r.
  - destruct (Composer.isHealer c); simpl; rewrite IH; unfold push_back;
      rewrite <- app_assoc; reflexivity.
Qed.

Lemma Composer_timed_fold : forall t now l acc,
  fold_left (Composer.timed_step t now) l acc
  = acc ++ filter (fun c => wrap32 (Composer.joinTime c + t) <=? now) l.
Proof.
  intros t now l. induction l as [|c l IH]; intro acc; simpl.
  - now rewrite app_nil_r.
  - unfold Composer.timed_step at 2.
    destruct (wrap32 (Composer.joinTime c + t) <=? now); rewrite IH;
      unfold push_back; [rewrite <- app_assoc|]; reflexivity.
Qed.

Lemma ComposerCS_bucket_fold : forall l h d,
  fold_left ComposerCS.bucket_step l (h, d)
  = (h ++ filter ComposerCS.isHealer l,
     d ++ filter (fun c => negb (ComposerCS.isHealer c)) l).
Proof.
  induction l as [|c l IH]; intros h d; simpl.
  - now rewrite !app_nil_r.
  - destruct (ComposerCS.isHealer c); simpl; rewrite IH; unfold push_back;
      rewrite <- app_assoc; reflexivity.
Qed.

Lemma ComposerCS_timed_fold : forall t now l acc,
  fold_left (ComposerCS.timed_step t now) l acc
  = acc ++ filter (fun c => wrap32 (ComposerCS.joinTime c + t) <=? now) l.
Proof.
  intros t now l. induction l as [|c l IH]; intro acc; simpl.
  - now rewrite app_nil_r.
  - unfold ComposerCS.timed_step at 2.
    destruct (wrap32 (ComposerCS.joinTime c + t) <=? now); rewrite IH;
      unfold push_back; [rewrite <- app_assoc|]; reflexivity.
Qed.

(** SelectCandidates with its loops replaced by [filter] and [firstn]. *)
Lemma Composer_SelectCandidates_eq : forall cands ts ft t now out,
  Composer.SelectCandidates cands ts ft t now out
  = let empty := {| Composer.selected := []; Composer.allDpsMatch := false |} in
    let k := wrap32 (ts * 2) in
    let healers := filter Composer.isHealer cands in
    let dps := filter (fun c => negb (Composer.isHealer c)) cands in
    let timedDps :=
      filter (fun c => wrap32 (Composer.joinTime c + t) <=? now) dps in
    let hN := if 1 <? ts then 2 else 0 in
    let dN := wrap32 (k - hN) in
    if Z.of_nat (length cands) <? k then (false, empty)
    else if negb ft then
      (true, {| Composer.selected := firstn (Z.to_nat k) cands;
                Composer.allDpsMatch := false |})
    else if (hN <=? Z.of_nat (length healers)) && (dN <=? Z.of_nat (length dps))
    then
      (true, {| Composer.selected :=
                  firstn (Z.to_nat hN) healers ++ firstn (Z.to_nat dN) dps;
                Composer.allDpsMatch := false |})
    else if (length healers =? 0)%nat then
      if k <=? Z.of_nat (length timedDps) then
        (true, {| Composer.selected := firstn (Z.to_nat k) timedDps;
                  Composer.allDpsMatch := true |})
      else (false, empty)
    else (false, empty).
Proof.
  intros cands ts ft t now out. unfold Composer.SelectCandidates.
  cbn zeta. cbn [Composer.selected Composer.allDpsMatch].
  destruct (Z.of_nat (length cands) <? wrap32 (ts * 2)); [reflexivity|].
  destruct (negb ft); [reflexivity|].
  rewrite Composer_bucket_fold. cbn [app].
  destruct ((if 1 <? ts then 2 else 0)
            <=? Z.of_nat (length (filter Composer.isHealer cands))) eqn:Hh;
    cbn [andb].
  - destruct (wrap32 (wrap32 (ts * 2) - (if 1 <? ts then 2 else 0))
              <=? Z.of_nat (length (filter (fun c => negb (Composer.isHealer c)) cands)))
      eqn:Hd.
    + apply Z.leb_le in Hh, Hd.
      rewrite !push_first_firstn by lia. reflexivity.
    + rewrite Composer_timed_fold. cbn [app].
      destruct (length (filter Composer.isHealer cands) =? 0)%nat; [|reflexivity].
      destruct (wrap32 (ts * 2) <=? _) eqn:Hk; [|reflexivity].
      apply Z.leb_le in Hk. pose proof (wrap32_range (ts * 2)).
      rewrite push_first_firstn by lia. reflexivity.
  - rewrite Composer_timed_fold. cbn [app].
    destruct (length (filter Composer.isHealer cands) =? 0)%nat; [|reflexivity].
    destruct (wrap32 (ts * 2) <=? _) eqn:Hk; [|reflexivity].
    apply Z.leb_le in Hk. pose proof (wrap32_range (ts * 2)).
    rewrite push_first_firstn by lia. reflexivity.
Qed.

Lemma ComposerCS_SelectCandidates_eq : forall cands ts ft t0 t1 now out,
  ComposerCS.SelectCandidates cands ts ft t0 t1 now out
  = let empty := {| ComposerCS.selected := []; ComposerCS.allDpsMatch := false |} in
    let k := wrap32 (ts * 2) in
    let healers := filter ComposerCS.isHealer cands in
    let dps := filter (fun c => negb (ComposerCS.isHealer c)) cands in
    let timedDps t :=
      filter (fun c => wrap32 (ComposerCS.joinTime c + t) <=? now) dps in
    let hN := if 1 <? ts then 2 else 0 in
    let dN := wrap32 (k - hN) in
    if Z.of_nat (length cands) <? k then (false, empty)
    else if negb ft then
      (true, {| ComposerCS.selected := firstn (Z.to_nat k) cands;
                ComposerCS.allDpsMatch := false |})
    else if (hN <=? Z.of_nat (length healers)) && (dN <=? Z.of_nat (length dps))
    then
      (true, {| ComposerCS.selected :=
                  firstn (Z.to_nat hN) healers ++ firstn (Z.to_nat dN) dps;
                ComposerCS.allDpsMatch := false |})
    else if (length healers =? 0)%nat then
      if k <=? Z.of_nat (length (timedDps t0)) then
        (true, {| ComposerCS.selected := firstn (Z.to_nat k) (timedDps t0);
                  ComposerCS.allDpsMatch := true |})
      else (false, empty)
    else if (length healers =? 1)%nat then
      if k <=? Z.of_nat (length (timedDps t1)) then
        (true, {| ComposerCS.selected := firstn (Z.to_nat k) (timedDps t1);
                  ComposerCS.allDpsMatch := true |})
      else (false, empty)
    else (false, empty).
Proof.
  intros cands ts ft t0 t1 now out. unfold ComposerCS.SelectCandidates.
  cbn zeta. cbn [ComposerCS.selected ComposerCS.allDpsMatch].
  destruct (Z.of_nat (length cands) <? wrap32 (ts * 2)); [reflexivity|].
  destruct (negb ft); [reflexivity|].
  rewrite ComposerCS_bucket_fold. cbn [app].
  assert (Hfall : forall t,
    (if wrap32 (ts * 2)
        <=? Z.of_nat (length (fold_left (ComposerCS.timed_step t now)
               (filter (fun c => negb (ComposerCS.isHealer c)) cands) []))
     then (true, {| ComposerCS.selected :=
                      push_first (Z.to_nat (wrap32 (ts * 2)))
                        (fold_left (ComposerCS.timed_step t now)
                           (filter (fun c => negb (ComposerCS.isHealer c)) cands) [])
                        [];
                    ComposerCS.allDpsMatch := true |})
     else (false, {| ComposerCS.selected := []; ComposerCS.allDpsMatch := false |}))
    = (if wrap32 (ts * 2)
          <=? Z.of_nat (length (filter
                 (fun c => wrap32 (ComposerCS.joinTime c + t) <=? now)
                 (filter (fun c => negb (ComposerCS.isHealer c)) cands)))
       then (true, {| ComposerCS.selected :=
                        firstn (Z.to_nat (wrap32 (ts * 2)))
                          (filter (fun c => wrap32 (ComposerCS.joinTime c + t) <=? now)
                             (filter (fun c => negb (ComposerCS.isHealer c)) cands));
                      ComposerCS.allDpsMatch := true |})
       else (false, {| ComposerCS.selected := [];
                       ComposerCS.allDpsMatch := false |}))).
  { intro t. rewrite ComposerCS_timed_fold. cbn [app].
    destruct (wrap32 (ts * 2) <=? _) eqn:Hk; [|reflexivity].
    apply Z.leb_le in Hk. pose proof (wrap32_range (ts * 2)).
    rewrite push_first_firstn by lia. reflexivity. }
  rewrite !Hfall.
  destruct ((if 1 <? ts then 2 else 0)
            <=? Z.of_nat (length (filter ComposerCS.isHealer cands))) eqn:Hh;
    cbn [andb]; [|reflexivity].
  destruct (wrap32 (wrap32 (ts * 2) - (if 1 <? ts then 2 else 0))
            <=? Z.of_nat (length (filter (fun c => negb (ComposerCS.isHealer c)) cands)))
    eqn:Hd; [|reflexivity].
  apply Z.leb_le in Hh, Hd.
  rewrite !push_first_firstn by lia. reflexivity.
Qed.

(** ** Claims C9 and C10 *)

(** C9 (minimum pool).  A candidate list with fewer than [2 * teamSize]
    entries makes SelectCandidates fail, whatever the roles, ratings, join
    times, timers and the filterTalents flag ([teamSize * 2] fits in 32
    bits). *)
Theorem C9_minimum_pool :
  (forall cands ts ft t now out,
     0 <= ts -> ts * 2 < 2 ^ 32 ->
     Z.of_nat (length cands) < 2 * ts ->
     fst (Composer.SelectCandidates cands ts ft t now out) = false)
  /\
  (forall cands ts ft t0 t1 now out,
     0 <= ts -> ts * 2 < 2 ^ 32 ->
     Z.of_nat (length cands) < 2 * ts ->
     fst (ComposerCS.SelectCandidates cands ts ft t0 t1 now out) = false).
Proof.
  split.
  - intros cands ts ft t now out Hts Hfit Hlen.
    unfold Composer.SelectCandidates. rewrite wrap32_small by lia.
    assert (H : (Z.of_nat (length cands) <? ts * 2) = true)
      by (apply Z.ltb_lt; lia).
    rewrite H. reflexivity.
  - intros cands ts ft t0 t1 now out Hts Hfit Hlen.
    unfold ComposerCS.SelectCandidates. rewrite wrap32_small by lia.
    assert (H : (Z.of_nat (length cands) <? ts * 2) = true)
      by (apply Z.ltb_lt; lia).
    rewrite H. reflexivity.
Qed.

Lemma C9_minimum_pool_witness :
  fst (Composer.SelectCandidates pool_three 3 true 60000 100000
         {| Composer.selected := []; Composer.allDpsMatch := false |}) = false
  /\ fst (ComposerCS.SelectCandidates pool_threeCS 3 false 60000 60000 100000
            {| ComposerCS.selected := []; ComposerCS.allDpsMatch := false |})
     = false.
Proof.
  split.
  - apply (proj1 C9_minimum_pool); [lia | lia | vm_compute; reflexivity].
  - apply (proj2 C9_minimum_pool); [lia | lia | vm_compute; reflexivity].
Defined.

(** C10 (out-parameters on failure).  Whatever the out-parameters hold on
    entry, when SelectCandidates returns [false] it leaves [selected] empty
    and [allDpsMatch] false. *)
Theorem C10_failure_leaves_outputs_reset :
  (forall cands ts ft t now out,
     fst (Composer.SelectCandidates cands ts ft t now out) = false ->
     Composer.selected (snd (Composer.SelectCandidates cands ts ft t now out)) = []
     /\ Composer.allDpsMatch
          (snd (Composer.SelectCandidates cands ts ft t now out)) = false)
  /\
  (forall cands ts ft t0 t1 now out,
     fst (ComposerCS.SelectCandidates cands ts ft t0 t1 now out) = false ->
     ComposerCS.selected
       (snd (ComposerCS.SelectCandidates cands ts ft t0 t1 now out)) = []
     /\ ComposerCS.allDpsMatch
          (snd (ComposerCS.SelectCandidates cands ts ft t0 t1 now out)) = false).
Proof.
  split.
  - intros cands ts ft t now out. unfold Composer.SelectCandidates.
    destruct (fold_left Composer.bucket_step cands ([], [])) as [healers dps].
    repeat match goal with
           | |- context [if ?c then _ else _] => destruct c
           end; cbn [fst snd Composer.selected Composer.allDpsMatch];
      intro H; try discriminate H; auto.
  - intros cands ts ft t0 t1 now out. unfold ComposerCS.SelectCandidates.
    destruct (fold_left ComposerCS.bucket_step cands ([], [])) as [healers dps].
    repeat match goal with
           | |- context [if ?c then _ else _] => destruct c
           end; cbn [fst snd ComposerCS.selected ComposerCS.allDpsMatch];
      intro H; try discriminate H; auto.
Qed.

Lemma C10_failure_leaves_outputs_reset_witness :
  (Composer.selected
     (snd (Composer.SelectCandidates pool_three 3 true 60000 100000
             {| Composer.selected := pool_spread; Composer.allDpsMatch := true |}))
   = []
   /\ Composer.allDpsMatch
        (snd (Composer.SelectCandidates pool_three 3 true 60000 100000
                {| Composer.selected := pool_spread; Composer.allDpsMatch := true |}))
      = false)
  /\ (ComposerCS.selected
        (snd (ComposerCS.SelectCandidates pool_lone_healer 3 true 60000 60000 100
                {| ComposerCS.selected := pool_druids;
                   ComposerCS.allDpsMatch := true |})) = []
      /\ ComposerCS.allDpsMatch
           (snd (ComposerCS.SelectCandidates pool_lone_healer 3 true 60000 60000 100
                   {| ComposerCS.selected := pool_druids;
                      ComposerCS.allDpsMatch := true |})) = false).
Proof.
  split.
  - apply (proj1 C10_failure_leaves_outputs_reset). reflexivity.
  - apply (proj2 C10_failure_leaves_outputs_reset). reflexivity.
Defined.

(** ** Claim C4: the zero-healer fallback and the 32-bit clock *)

(** Without wrap-around in [joinTime + allDpsTimer], the zero-healer
    fallback only selects candidates who have waited [allDpsTimer]. *)
Lemma Composer_fallback_gated_without_wrap : forall cands ts t now out,
  (forall c, In c cands -> 0 <= Composer.joinTime c + t < 2 ^ 32) ->
  filter Composer.isHealer cands = [] ->
  Composer.allDpsMatch (snd (Composer.SelectCandidates cands ts true t now out))
  = true ->
  Forall (fun c => Composer.joinTime c + t <= now)
    (Composer.selected (snd (Composer.SelectCandidates cands ts true t now out))).
Proof.
  intros cands ts t now out Hfit Hnoh. rewrite Composer_SelectCandidates_eq.
  cbn zeta. rewrite Hnoh.
  repeat match goal with
         | |- context [if ?c then _ else _] => destruct c
         end; cbn [fst snd Composer.selected Composer.allDpsMatch];
    intro H; try discriminate H.
  apply Forall_forall. intros c Hc. apply firstn_incl in Hc.
  apply filter_In in Hc. destruct Hc as [Hc Ht].
  apply filter_In in Hc. destruct Hc as [Hc _].
  rewrite wrap32_small in Ht by (apply Hfit; exact Hc).
  now apply Z.leb_le.
Qed.

(** C4 (fallback gating), on an input where the code departs from it: six
    damage dealers joined at 4294950000 ms, [allDpsTimer] is 60000 ms and
    [now] is 4294960000 ms, so each has waited 10 s.  The 32-bit sum
    [joinTime + allDpsTimer] wraps to 42704, the test [<= now] passes, and
    the zero-healer fallback selects all six although
    [joinTime + allDpsTimer > now] for each of them. *)
Theorem C4_fallback_gating_wraps :
  let res := Composer.SelectCandidates pool_near_wrap 3 true 60000 4294960000
               {| Composer.selected := []; Composer.allDpsMatch := false |} in
  let res' := ComposerCS.SelectCandidates pool_near_wrapCS 3 true 60000 60000
                4294960000
                {| ComposerCS.selected := []; ComposerCS.allDpsMatch := false |} in
  (fst res = true
   /\ Composer.allDpsMatch (snd res) = true
   /\ Composer.selected (snd res) = pool_near_wrap
   /\ Forall (fun c => Composer.joinTime c + 60000 > 4294960000)
        (Composer.selected (snd res)))
  /\ (fst res' = true
      /\ ComposerCS.allDpsMatch (snd res') = true
      /\ ComposerCS.selected (snd res') = pool_near_wrapCS
      /\ Forall (fun c => ComposerCS.joinTime c + 60000 > 4294960000)
           (ComposerCS.selected (snd res'))).
Proof.
  intros res res'.
  assert (H1 : res = (true, {| Composer.selected := pool_near_wrap;
                               Composer.allDpsMatch := true |}))
    by (vm_compute; reflexivity).
  assert (H2 : res' = (true, {| ComposerCS.selected := pool_near_wrapCS;
                                ComposerCS.allDpsMatch := true |}))
    by (vm_compute; reflexivity).
  rewrite H1, H2. cbn [fst snd Composer.selected Composer.allDpsMatch
                       ComposerCS.selected ComposerCS.allDpsMatch].
  repeat split; repeat (constructor; [reflexivity|]); constructor.
Qed.

(** ** Claim C2: exactly one healer in the pool *)

(** C2, as stated, fails for [teamSize = 1]: with one healer and two damage
    dealers who joined 10 ms ago (timers of 60 s), nobody has waited
    [singleHealerDpsTimer], yet SelectCandidates succeeds through the
    standard path, which needs no healer at this team size, and does not
    set [allDpsMatch]. *)
Lemma C2_single_healer_counterexample :
  let res := ComposerCS.SelectCandidates pool_lone_healer 1 true 60000 60000 100
               {| ComposerCS.selected := []; ComposerCS.allDpsMatch := false |} in
  length (filter ComposerCS.isHealer pool_lone_healer) = 1%nat
  /\ filter (fun c => ComposerCS.joinTime c + 60000 <=? 100)
       (filter (fun c => negb (ComposerCS.isHealer c)) pool_lone_healer) = []
  /\ fst res = true
  /\ ComposerCS.allDpsMatch (snd res) = false.
Proof. vm_compute. repeat split. Qed.

Lemma length_filter_le : forall (A : Type) (p : A -> bool) (l : list A),
  (length (filter p l) <= length l)%nat.
Proof.
  intros A p l. induction l as [|x l IH]; simpl; [lia|].
  destruct (p x); simpl; lia.
Qed.

(** C2, amended.  With filterTalents set and exactly one healer in the pool,
    the selection never contains a healer.  For [teamSize >= 2], and as long
    as [joinTime + singleHealerDpsTimer] stays below 2^32: if at least
    [2 * teamSize] damage dealers satisfy
    [joinTime + singleHealerDpsTimer <= now], SelectCandidates succeeds with
    the oldest [2 * teamSize] of them and [allDpsMatch = true]; otherwise it
    fails.  For [teamSize = 1] no healer is required and the standard path
    applies: with two damage dealers or more it returns the oldest two with
    [allDpsMatch = false], whatever their wait; with fewer it fails. *)
Theorem C2_single_healer :
  forall cands ts t0 t1 now out,
    length (filter ComposerCS.isHealer cands) = 1%nat ->
    let res := ComposerCS.SelectCandidates cands ts true t0 t1 now out in
    let waited :=
      filter (fun c => ComposerCS.joinTime c + t1 <=? now)
        (filter (fun c => negb (ComposerCS.isHealer c)) cands) in
    Forall (fun c => ComposerCS.isHealer c = false)
      (ComposerCS.selected (snd res))
    /\ (2 <= ts -> ts * 2 < 2 ^ 32 ->
        (forall c, In c cands -> 0 <= ComposerCS.joinTime c + t1 < 2 ^ 32) ->
        (2 * ts <= Z.of_nat (length waited) ->
         res = (true, {| ComposerCS.selected := firstn (Z.to_nat (2 * ts)) waited;
                         ComposerCS.allDpsMatch := true |}))
        /\ (Z.of_nat (length waited) < 2 * ts ->
            res = (false, {| ComposerCS.selected := [];
                             ComposerCS.allDpsMatch := false |})))
    /\ (ts = 1 ->
        let dps := filter (fun c => negb (ComposerCS.isHealer c)) cands in
        (2 <= Z.of_nat (length dps) ->
         res = (true, {| ComposerCS.selected := firstn 2 dps;
                         ComposerCS.allDpsMatch := false |}))
        /\ (Z.of_nat (length dps) < 2 ->
            res = (false, {| ComposerCS.selected := [];
                             ComposerCS.allDpsMatch := false |}))).
Proof.
  intros cands ts t0 t1 now out Hone res waited.
  assert (Hdps : forall k p c,
            In c (firstn k (filter p
                    (filter (fun c => negb (ComposerCS.isHealer c)) cands))) ->
            ComposerCS.isHealer c = false).
  { intros k p c Hc. apply firstn_incl in Hc. apply filter_In in Hc.
    destruct Hc as [Hc _]. apply filter_In in Hc. destruct Hc as [_ Hc].
    now apply negb_true_iff. }
  split; [|split].
  - unfold res. rewrite ComposerCS_SelectCandidates_eq. cbn zeta.
    rewrite Hone. cbn [negb Nat.eqb].
    destruct (Z.of_nat (length cands) <? wrap32 (ts * 2));
      [constructor|].
    destruct (1 <? ts) eqn:Hts.
    + replace (2 <=? Z.of_nat 1) with false by reflexivity. cbn [andb].
      destruct (wrap32 (ts * 2) <=? _);
        cbn [snd ComposerCS.selected]; [|constructor].
      apply Forall_forall. intros c Hc. eapply Hdps; eauto.
    + replace (0 <=? Z.of_nat 1) with true by reflexivity. cbn [andb].
      destruct (wrap32 (wrap32 (ts * 2) - 0) <=? _);
        cbn [snd ComposerCS.selected].
      * cbn [Z.to_nat firstn app]. apply Forall_forall. intros c Hc.
        apply firstn_incl in Hc. apply filter_In in Hc. destruct Hc as [_ Hc].
        now apply negb_true_iff.
      * destruct (wrap32 (ts * 2) <=? _);
          cbn [snd ComposerCS.selected]; [|constructor].
        apply Forall_forall. intros c Hc. eapply Hdps; eauto.
  - intros Hts Hfit Hnowrap.
    assert (Hw : filter (fun c => wrap32 (ComposerCS.joinTime c + t1) <=? now)
                   (filter (fun c => negb (ComposerCS.isHealer c)) cands)
                 = waited).
    { unfold waited. apply filter_ext_in. intros c Hc.
      apply filter_In in Hc. destruct Hc as [Hc _].
      rewrite wrap32_small by (apply Hnowrap; exact Hc). reflexivity. }
    assert (Hlen : (length waited <= length cands)%nat).
    { unfold waited.
      etransitivity; [apply length_filter_le | apply length_filter_le]. }
    unfold res. rewrite ComposerCS_SelectCandidates_eq. cbn zeta.
    rewrite Hone, Hw. cbn [negb Nat.eqb].
    rewrite (wrap32_small (ts * 2)) by lia.
    assert (H1 : (1 <? ts) = true) by (apply Z.ltb_lt; lia).
    rewrite H1. replace (2 <=? Z.of_nat 1) with false by reflexivity.
    cbn [andb]. split.
    + intro Hen.
      assert (Hg : (Z.of_nat (length cands) <? ts * 2) = false)
        by (apply Z.ltb_ge; lia).
      assert (Hk : (ts * 2 <=? Z.of_nat (length waited)) = true)
        by (apply Z.leb_le; lia).
      rewrite Hg, Hk. replace (ts * 2) with (2 * ts) by lia. reflexivity.
    + intro Hfew.
      assert (Hk : (ts * 2 <=? Z.of_nat (length waited)) = false)
        by (apply Z.leb_gt; lia).
      rewrite Hk. destruct (Z.of_nat (length cands) <? ts * 2); reflexivity.
  - intros -> dps.
    assert (Hlen : (length dps <= length cands)%nat)
      by (apply length_filter_le).
    unfold res. rewrite ComposerCS_SelectCandidates_eq. cbn zeta.
    rewrite Hone. fold dps. cbn [negb Nat.eqb].
    replace (wrap32 (1 * 2)) with 2 by reflexivity.
    replace (1 <? 1) with false by reflexivity.
    replace (wrap32 (2 - 0)) with 2 by reflexivity.
    replace (0 <=? Z.of_nat 1) with true by reflexivity. cbn [andb].
    split.
    + intro Hen.
      assert (Hg : (Z.of_nat (length cands) <? 2) = false)
        by (apply Z.ltb_ge; lia).
      assert (Hd : (2 <=? Z.of_nat (length dps)) = true)
        by (apply Z.leb_le; lia).
      rewrite Hg, Hd. reflexivity.
    + intro Hfew.
      assert (Hd : (2 <=? Z.of_nat (length dps)) = false)
        by (apply Z.leb_gt; lia).
      assert (Ht : (2 <=? Z.of_nat (length (filter
                      (fun c => wrap32 (ComposerCS.joinTime c + t1) <=? now) dps)))
                   = false).
      { apply Z.leb_gt.
        pose proof (length_filter_le _
                      (fun c => wrap32 (ComposerCS.joinTime c + t1) <=? now) dps).
        lia. }
      rewrite Hd, Ht. destruct (Z.of_nat (length cands) <? 2); reflexivity.
Qed.

Lemma C2_single_healer_witness :
  ComposerCS.SelectCandidates pool_healer_six 3 true 60000 60000 100000
    {| ComposerCS.selected := []; ComposerCS.allDpsMatch := false |}
  = (true, {| ComposerCS.selected := tl pool_healer_six;
              ComposerCS.allDpsMatch := true |}).
Proof.
  destruct (C2_single_healer pool_healer_six 3 60000 60000 100000
              {| ComposerCS.selected := []; ComposerCS.allDpsMatch := false |}
              eq_refl) as (_ & H & _).
  destruct H as [H _].
  - lia.
  - lia.
  - intros c Hc. simpl in Hc.
    repeat (destruct Hc as [<-|Hc]; [simpl; lia|]). contradiction.
  - apply H. vm_compute. discriminate.
Defined.

(** MatchmakingComposer as in src/MatchmakingComposer.h has no single-healer
    fallback: with exactly one healer and [teamSize > 1] it always fails
    ("Exactly 1 healer: unbalanced composition"). *)
Lemma Composer_one_healer_fails : forall cands ts t now out,
  1 < ts ->
  length (filter Composer.isHealer cands) = 1%nat ->
  Composer.SelectCandidates cands ts true t now out
  = (false, {| Composer.selected := []; Composer.allDpsMatch := false |}).
Proof.
  intros cands ts t now out Hts Hone.
  rewrite Composer_SelectCandidates_eq. cbn zeta. rewrite Hone.
  assert (H1 : (1 <? ts) = true) by (apply Z.ltb_lt; lia).
  rewrite H1. replace (2 <=? Z.of_nat 1) with false by reflexivity.
  cbn [negb andb Nat.eqb].
  destruct (Z.of_nat (length cands) <? wrap32 (ts * 2)); reflexivity.
Qed.

(** ** Claim C8: first in, first out within a role *)

Lemma NoDup_app_disjoint : forall (A : Type) (l l' : list A) x,
  NoDup (l ++ l') -> In x l -> In x l' -> False.
Proof.
  intros A l. induction l as [|y l IH]; intros l' x Hnd Hl Hl'; simpl in *.
  - contradiction.
  - inversion Hnd as [|? ? Hy Hnd']; subst. destruct Hl as [->|Hl].
    + apply Hy. apply in_app_iff. now right.
    + eapply IH; eauto.
Qed.

Lemma filter_filter_andb : forall (A : Type) (p q : A -> bool) (l : list A),
  filter p (filter q l) = filter (fun x => q x && p x) l.
Proof.
  intros A p q l. induction l as [|x l IH]; simpl; auto.
  destruct (q x); simpl; [destruct (p x)|]; now rewrite IH.
Qed.

(** In a prefix of a filtered list, an element is never taken while an
    earlier element that passes the filter is left out. *)
Lemma firstn_filter_fifo : forall (A : Type) (p : A -> bool) k l1 a l2 b l3,
  NoDup (l1 ++ a :: l2 ++ b :: l3) -> p a = true ->
  In b (firstn k (filter p (l1 ++ a :: l2 ++ b :: l3))) ->
  In a (firstn k (filter p (l1 ++ a :: l2 ++ b :: l3))).
Proof.
  intros A p k l1 a l2 b l3 Hnd Hpa Hb.
  rewrite filter_app in *. cbn [filter] in *. rewrite Hpa in *.
  rewrite firstn_app in *. apply in_app_iff in Hb. apply in_app_iff.
  destruct Hb as [Hb|Hb].
  - exfalso. apply firstn_incl in Hb. apply filter_In in Hb.
    destruct Hb as [Hb _].
    apply (NoDup_app_disjoint _ _ _ b Hnd Hb).
    right. apply in_app_iff. right. now left.
  - right. destruct (k - length (filter p l1))%nat as [|j]; simpl in *.
    + contradiction.
    + now left.
Qed.

Lemma Composer_fifo : forall l1 A l2 B l3 ts t now out,
  NoDup (map Composer.id (l1 ++ A :: l2 ++ B :: l3)) ->
  Composer.role A = Composer.role B ->
  let res := Composer.SelectCandidates (l1 ++ A :: l2 ++ B :: l3) ts true t now out in
  (Composer.allDpsMatch (snd res) = true ->
   wrap32 (Composer.joinTime A + t) <= now) ->
  In B (Composer.selected (snd res)) -> In A (Composer.selected (snd res)).
Proof.
  intros l1 A l2 B l3 ts t now out Hids Hrole res.
  apply NoDup_map_inv in Hids.
  assert (HAB : Composer.isHealer A = Composer.isHealer B)
    by (unfold Composer.isHealer; now rewrite Hrole).
  unfold res. rewrite Composer_SelectCandidates_eq. cbn zeta.
  set (cands := l1 ++ A :: l2 ++ B :: l3) in *.
  destruct (Z.of_nat (length cands) <? wrap32 (ts * 2));
    cbn [snd Composer.selected Composer.allDpsMatch negb]; [contradiction|].
  destruct (_ && _); cbn [snd Composer.selected Composer.allDpsMatch].
  - intros _ HB. apply in_app_iff in HB. apply in_app_iff.
    destruct HB as [HB|HB]; [left|right].
    + apply firstn_filter_fifo; auto.
      apply firstn_incl, filter_In in HB. destruct HB as [_ HB]. congruence.
    + apply firstn_filter_fifo; auto.
      apply firstn_incl, filter_In in HB. destruct HB as [_ HB]. congruence.
  - destruct (length (filter Composer.isHealer cands) =? 0)%nat;
      cbn [snd Composer.selected Composer.allDpsMatch]; [|contradiction].
    destruct (wrap32 (ts * 2) <=? _);
      cbn [snd Composer.selected Composer.allDpsMatch]; [|contradiction].
    intros Hel HB. rewrite filter_filter_andb in *.
    apply firstn_filter_fifo; auto.
    apply firstn_incl, filter_In in HB. destruct HB as [_ HB].
    apply andb_true_iff in HB. destruct HB as [HB _].
    rewrite HAB, HB. cbn [andb]. apply Z.leb_le. now apply Hel.
Qed.

Lemma ComposerCS_fifo : forall l1 A l2 B l3 ts t0 t1 now out,
  NoDup (map ComposerCS.id (l1 ++ A :: l2 ++ B :: l3)) ->
  ComposerCS.role A = ComposerCS.role B ->
  let cands := l1 ++ A :: l2 ++ B :: l3 in
  let res := ComposerCS.SelectCandidates cands ts true t0 t1 now out in
  let timer :=
    if (length (filter ComposerCS.isHealer cands) =? 0)%nat then t0 else t1 in
  (ComposerCS.allDpsMatch (snd res) = true ->
   wrap32 (ComposerCS.joinTime A + timer) <= now) ->
  In B (ComposerCS.selected (snd res)) -> In A (ComposerCS.selected (snd res)).
Proof.
  intros l1 A l2 B l3 ts t0 t1 now out Hids Hrole cands res timer.
  apply NoDup_map_inv in Hids.
  assert (HAB : ComposerCS.isHealer A = ComposerCS.isHealer B)
    by (unfold ComposerCS.isHealer; now rewrite Hrole).
  unfold res, timer. rewrite ComposerCS_SelectCandidates_eq. cbn zeta.
  fold cands in Hids |- *.
  destruct (Z.of_nat (length cands) <? wrap32 (ts * 2));
    cbn [snd ComposerCS.selected ComposerCS.allDpsMatch negb]; [contradiction|].
  destruct (_ && _); cbn [snd ComposerCS.selected ComposerCS.allDpsMatch].
  - intros _ HB. apply in_app_iff in HB. apply in_app_iff.
    destruct HB as [HB|HB]; [left|right].
    + apply firstn_filter_fifo; auto.
      apply firstn_incl, filter_In in HB. destruct HB as [_ HB]. congruence.
    + apply firstn_filter_fifo; auto.
      apply firstn_incl, filter_In in HB. destruct HB as [_ HB]. congruence.
  - destruct (length (filter ComposerCS.isHealer cands) =? 0)%nat;
      cbn [snd ComposerCS.selected ComposerCS.allDpsMatch].
    + destruct (wrap32 (ts * 2) <=? _);
        cbn [snd ComposerCS.selected ComposerCS.allDpsMatch]; [|contradiction].
      intros Hel HB. rewrite filter_filter_andb in *.
      apply firstn_filter_fifo; auto.
      apply firstn_incl, filter_In in HB. destruct HB as [_ HB].
      apply andb_true_iff in HB. destruct HB as [HB _].
      rewrite HAB, HB. cbn [andb]. apply Z.leb_le. now apply Hel.
    + destruct (length (filter ComposerCS.isHealer cands) =? 1)%nat;
        cbn [snd ComposerCS.selected ComposerCS.allDpsMatch]; [|contradiction].
      destruct (wrap32 (ts * 2) <=? _);
        cbn [snd ComposerCS.selected ComposerCS.allDpsMatch]; [|contradiction].
      intros Hel HB. rewrite filter_filter_andb in *.
      apply firstn_filter_fifo; auto.
      apply firstn_incl, filter_In in HB. destruct HB as [_ HB].
      apply andb_true_iff in HB. destruct HB as [HB _].
      rewrite HAB, HB. cbn [andb]. apply Z.leb_le. now apply Hel.
Qed.

Lemma needed_nowrap : forall ts,
  0 <= ts -> ts * 2 < 2 ^ 32 ->
  wrap32 (wrap32 (ts * 2) - (if 1 <? ts then 2 else 0))
  = 2 * ts - (if 1 <? ts then 2 else 0).
Proof.
  intros ts Hts Hfit. rewrite (wrap32_small (ts * 2)) by lia.
  destruct (1 <? ts) eqn:H.
  - apply Z.ltb_lt in H. rewrite wrap32_small by lia. lia.
  - rewrite wrap32_small by lia. lia.
Qed.

Lemma Composer_standard_path : forall cands ts t now out,
  0 <= ts -> ts * 2 < 2 ^ 32 ->
  let res := Composer.SelectCandidates cands ts true t now out in
  let healersNeeded := if 1 <? ts then 2 else 0 in
  fst res = true -> Composer.allDpsMatch (snd res) = false ->
  Composer.selected (snd res)
  = firstn (Z.to_nat healersNeeded) (filter Composer.isHealer cands)
    ++ firstn (Z.to_nat (2 * ts - healersNeeded))
         (filter (fun c => negb (Composer.isHealer c)) cands).
Proof.
  intros cands ts t now out Hts Hfit res hN. unfold res, hN.
  rewrite Composer_SelectCandidates_eq. cbn zeta. cbn [negb].
  rewrite needed_nowrap by assumption.
  repeat match goal with
         | |- context [if ?c then (_, _) else _] => destruct c
         end; cbn [fst snd Composer.selected Composer.allDpsMatch negb];
    intros H1 H2; try discriminate; reflexivity.
Qed.

Lemma ComposerCS_standard_path : forall cands ts t0 t1 now out,
  0 <= ts -> ts * 2 < 2 ^ 32 ->
  let res := ComposerCS.SelectCandidates cands ts true t0 t1 now out in
  let healersNeeded := if 1 <? ts then 2 else 0 in
  fst res = true -> ComposerCS.allDpsMatch (snd res) = false ->
  ComposerCS.selected (snd res)
  = firstn (Z.to_nat healersNeeded) (filter ComposerCS.isHealer cands)
    ++ firstn (Z.to_nat (2 * ts - healersNeeded))
         (filter (fun c => negb (ComposerCS.isHealer c)) cands).
Proof.
  intros cands ts t0 t1 now out Hts Hfit res hN. unfold res, hN.
  rewrite ComposerCS_SelectCandidates_eq. cbn zeta. cbn [negb].
  rewrite needed_nowrap by assumption.
  repeat match goal with
         | |- context [if ?c then (_, _) else _] => destruct c
         end; cbn [fst snd ComposerCS.selected ComposerCS.allDpsMatch negb];
    intros H1 H2; try discriminate; reflexivity.
Qed.

(** C8 (FIFO fairness).  Let the candidate list be in arrival order, with
    unique ids and filterTalents set, and let [A] precede [B] in it, both of
    the same role, [A] being eligible (on the fallback path: [A]'s timer
    test passes).  Then [B] is never selected without [A]; so when the
    selection takes only one of the two, it takes [A] and not [B].  In
    particular the standard path returns exactly the oldest [healersNeeded]
    healers followed by the oldest [dpsNeeded] damage dealers. *)
Theorem C8_fifo_fairness :
  (forall l1 A l2 B l3 ts t now out,
     let cands := l1 ++ A :: l2 ++ B :: l3 in
     let res := Composer.SelectCandidates cands ts true t now out in
     let sel := Composer.selected (snd res) in
     let healersNeeded := if 1 <? ts then 2 else 0 in
     NoDup (map Composer.id cands) ->
     Composer.role A = Composer.role B ->
     (Composer.allDpsMatch (snd res) = true ->
      wrap32 (Composer.joinTime A + t) <= now) ->
     (In B sel -> In A sel)
     /\ ((In A sel \/ In B sel) -> ~ (In A sel /\ In B sel) ->
         In A sel /\ ~ In B sel)
     /\ (0 <= ts -> ts * 2 < 2 ^ 32 ->
         fst res = true -> Composer.allDpsMatch (snd res) = false ->
         sel = firstn (Z.to_nat healersNeeded) (filter Composer.isHealer cands)
               ++ firstn (Z.to_nat (2 * ts - healersNeeded))
                    (filter (fun c => negb (Composer.isHealer c)) cands)))
  /\
  (forall l1 A l2 B l3 ts t0 t1 now out,
     let cands := l1 ++ A :: l2 ++ B :: l3 in
     let res := ComposerCS.SelectCandidates cands ts true t0 t1 now out in
     let sel := ComposerCS.selected (snd res) in
     let healersNeeded := if 1 <? ts then 2 else 0 in
     let timer :=
       if (length (filter ComposerCS.isHealer cands) =? 0)%nat then t0 else t1 in
     NoDup (map ComposerCS.id cands) ->
     ComposerCS.role A = ComposerCS.role B ->
     (ComposerCS.allDpsMatch (snd res) = true ->
      wrap32 (ComposerCS.joinTime A + timer) <= now) ->
     (In B sel -> In A sel)
     /\ ((In A sel \/ In B sel) -> ~ (In A sel /\ In B sel) ->
         In A sel /\ ~ In B sel)
     /\ (0 <= ts -> ts * 2 < 2 ^ 32 ->
         fst res = true -> ComposerCS.allDpsMatch (snd res) = false ->
         sel = firstn (Z.to_nat healersNeeded) (filter ComposerCS.isHealer cands)
               ++ firstn (Z.to_nat (2 * ts - healersNeeded))
                    (filter (fun c => negb (ComposerCS.isHealer c)) cands))).
Proof.
  split.
  - intros l1 A l2 B l3 ts t now out cands res sel hN Hids Hrole Hel.
    assert (Hfifo : In B sel -> In A sel)
      by (apply (Composer_fifo l1 A l2 B l3 ts t now out Hids Hrole Hel)).
    split; [exact Hfifo|]. split.
    + intros [HA|HB] Hnot; split; auto; intro HB'; apply Hnot; auto.
    + intros Hts Hfit. now apply Composer_standard_path.
  - intros l1 A l2 B l3 ts t0 t1 now out cands res sel hN timer Hids Hrole Hel.
    assert (Hfifo : In B sel -> In A sel)
      by (apply (ComposerCS_fifo l1 A l2 B l3 ts t0 t1 now out Hids Hrole Hel)).
    split; [exact Hfifo|]. split.
    + intros [HA|HB] Hnot; split; auto; intro HB'; apply Hnot; auto.
    + intros Hts Hfit. now apply ComposerCS_standard_path.
Qed.

(** Player 6 is selected, player 7 who joined after it is not. *)
Lemma C8_fifo_fairness_witness :
  (let sel :=
     Composer.selected
       (snd (Composer.SelectCandidates
               (fifo_head ++ player 6 DPS 500 :: [] ++ player 7 DPS 600
                  :: [player 8 DPS 700])
               3 true 60000 100000
               {| Composer.selected := []; Composer.allDpsMatch := false |})) in
   In (player 6 DPS 500) sel /\ ~ In (player 7 DPS 600) sel)
  /\
  (let sel :=
     ComposerCS.selected
       (snd (ComposerCS.SelectCandidates
               (fifo_headCS ++ playerCS 6 DPS 500 :: [] ++ playerCS 7 DPS 600
                  :: [playerCS 8 DPS 700])
               3 true 60000 60000 100000
               {| ComposerCS.selected := []; ComposerCS.allDpsMatch := false |})) in
   In (playerCS 6 DPS 500) sel /\ ~ In (playerCS 7 DPS 600) sel).
Proof.
  split.
  - destruct (proj1 C8_fifo_fairness fifo_head (player 6 DPS 500) []
                (player 7 DPS 600) [player 8 DPS 700] 3 60000 100000
                {| Composer.selected := []; Composer.allDpsMatch := false |})
      as (_ & H & _).
    + vm_compute. repeat constructor; simpl; intuition discriminate.
    + reflexivity.
    + intro H. vm_compute in H. discriminate H.
    + apply H.
      * left. vm_compute. tauto.
      * intros [_ HB]. vm_compute in HB.
        repeat (destruct HB as [HB|HB]; [discriminate HB|]). exact HB.
  - destruct (proj2 C8_fifo_fairness fifo_headCS (playerCS 6 DPS 500) []
                (playerCS 7 DPS 600) [playerCS 8 DPS 700] 3 60000 60000 100000
                {| ComposerCS.selected := []; ComposerCS.allDpsMatch := false |})
      as (_ & H & _).
    + vm_compute. repeat constructor; simpl; intuition discriminate.
    + reflexivity.
    + intro H. vm_compute in H. discriminate H.
    + apply H.
      * left. vm_compute. tauto.
      * intros [_ HB]. vm_compute in HB.
        repeat (destruct HB as [HB|HB]; [discriminate HB|]). exact HB.
Defined.

(** * The class-stacking filter: claim C3 *)

(** HasClassStackingConflict returns [true] exactly when some member and a
    later member of the team form a conflicting pair. *)
Lemma HasClassStackingConflict_iff : forall indices pool lvl mask,
  ComposerCS.HasClassStackingConflict indices pool lvl mask = true
  <-> exists l1 i l2 j l3,
        indices = l1 ++ i :: l2 ++ j :: l3
        /\ ComposerCS.PoolPair pool lvl mask i j = true.
Proof.
  intros indices pool lvl mask. induction indices as [|x rest IH]; simpl.
  - split; [discriminate|]. intros (l1 & i & l2 & j & l3 & H & _).
    destruct l1; discriminate.
  - rewrite orb_true_iff, existsb_exists, IH. split.
    + intros [(j & Hj & Hp)|(l1 & i & l2 & j & l3 & -> & Hp)].
      * apply in_split in Hj. destruct Hj as (l2 & l3 & ->).
        exists [], x, l2, j, l3. auto.
      * exists (x :: l1), i, l2, j, l3. auto.
    + intros (l1 & i & l2 & j & l3 & H & Hp). destruct l1 as [|y l1].
      * simpl in H. inversion H; subst. left. exists j. split; auto.
        apply in_app_iff. right. now left.
      * simpl in H. inversion H; subst. right.
        exists l1, i, l2, j, l3. auto.
Qed.

(** At levels 5 and 6 the pair test does not depend on the roles. *)
Lemma StackingPair_level_5_6 : forall a b lvl mask,
  lvl = 5 \/ lvl = 6 ->
  ComposerCS.StackingPair a b lvl mask
  = (ComposerCS.classId a =? ComposerCS.classId b)
    && ((mask =? 0)
        || negb (Z.land mask (ComposerCS.ClassIdToMaskBit (ComposerCS.classId a))
                 =? 0)).
Proof.
  intros a b lvl mask Hl. unfold ComposerCS.StackingPair.
  destruct (ComposerCS.classId a =? ComposerCS.classId b); cbn [negb andb];
    [|reflexivity].
  destruct (mask =? 0); cbn [negb andb orb].
  - destruct Hl as [-> | ->];
      destruct (ComposerCS.role a), (ComposerCS.role b); reflexivity.
  - destruct (Z.land mask _ =? 0); cbn [negb].
    + reflexivity.
    + destruct Hl as [-> | ->];
        destruct (ComposerCS.role a), (ComposerCS.role b); reflexivity.
Qed.

(** So, in the two-role model, levels 5 and 6 filter as level 1 does. *)
Lemma HasClassStackingConflict_level_5_6_as_1 : forall indices pool lvl mask,
  lvl = 5 \/ lvl = 6 ->
  ComposerCS.HasClassStackingConflict indices pool lvl mask
  = ComposerCS.HasClassStackingConflict indices pool 1 mask.
Proof.
  intros indices pool lvl mask Hl.
  assert (Hp : forall i j, ComposerCS.PoolPair pool lvl mask i j
                           = ComposerCS.PoolPair pool 1 mask i j).
  { intros i j. unfold ComposerCS.PoolPair.
    destruct (nth_error pool i) as [a|]; [|reflexivity].
    destruct (nth_error pool j) as [b|]; [|reflexivity].
    rewrite (StackingPair_level_5_6 a b lvl mask Hl).
    unfold ComposerCS.StackingPair.
    destruct (ComposerCS.classId a =? ComposerCS.classId b); cbn [negb andb];
      [|reflexivity].
    destruct (mask =? 0); cbn [negb andb orb]; [reflexivity|].
    destruct (Z.land mask _ =? 0); reflexivity. }
  induction indices as [|i rest IH]; simpl; [reflexivity|].
  rewrite IH. f_equal. clear IH.
  induction rest as [|j rest IHr]; simpl; [reflexivity|].
  now rewrite Hp, IHr.
Qed.

(** C3, as stated, fails: at levels 5 and 6 two warriors who are both
    damage dealers conflict; the team {warrior, warrior, priest healer}, whose
    only same-class pair is the two damage dealers, is rejected; and the
    pool of two healers, three warriors and a mage has no valid split at
    these levels although no healer shares a class with anyone. *)
Lemma C3_class_stacking_counterexample :
  ComposerCS.role (queuedCS DPS 1500 0 1) = DPS
  /\ ComposerCS.StackingPair (queuedCS DPS 1500 0 1) (queuedCS DPS 1500 0 1) 5 0
     = true
  /\ ComposerCS.StackingPair (queuedCS DPS 1500 0 1) (queuedCS DPS 1500 0 1) 6 0
     = true
  /\ ComposerCS.HasClassStackingConflict [0; 2; 3]%nat pool_warriors 5 0 = true
  /\ ComposerCS.HasClassStackingConflict [0; 2; 3]%nat pool_warriors 6 0 = true
  /\ ComposerCS.valid (ComposerCS.FindBestTeamSplit pool_warriors 3 true false 5 0)
     = false
  /\ ComposerCS.valid (ComposerCS.FindBestTeamSplit pool_warriors 3 true false 6 0)
     = false
  /\ ComposerCS.valid (ComposerCS.FindBestTeamSplit pool_warriors 3 true false 0 0)
     = true.
Proof. vm_compute. repeat split. Qed.

(** C3, amended.  Under class-stacking levels 5 and 6 a team invalidates
    the partition exactly when two of its members share a class tag that
    the mask selects ([classMask = 0] or the bit of the class set in it),
    whatever the roles of the two and whatever the other members of the
    team are.  In particular a same-team pair sharing a non-zero class tag
    selected by the mask invalidates the partition when both are damage
    dealers as it does when one of them is a healer. *)
Theorem C3_class_stacking_levels_5_6 :
  forall lvl indices pool mask,
    lvl = 5 \/ lvl = 6 ->
    (ComposerCS.HasClassStackingConflict indices pool lvl mask = true
     <-> exists l1 i l2 j l3 a b,
           indices = l1 ++ i :: l2 ++ j :: l3
           /\ nth_error pool i = Some a /\ nth_error pool j = Some b
           /\ ComposerCS.classId a = ComposerCS.classId b
           /\ (mask = 0
               \/ Z.land mask (ComposerCS.ClassIdToMaskBit (ComposerCS.classId a))
                  <> 0))
    /\ (forall l1 i l2 j l3 a b,
          indices = l1 ++ i :: l2 ++ j :: l3 ->
          nth_error pool i = Some a -> nth_error pool j = Some b ->
          ComposerCS.classId a = ComposerCS.classId b ->
          ComposerCS.classId a <> 0 ->
          mask = 0
          \/ Z.land mask (ComposerCS.ClassIdToMaskBit (ComposerCS.classId a))
             <> 0 ->
          ComposerCS.HasClassStackingConflict indices pool lvl mask = true
          /\ forall other,
               ComposerCS.ClassDiverse lvl mask indices other pool = false
               /\ ComposerCS.ClassDiverse lvl mask other indices pool = false).
Proof.
  intros lvl indices pool mask Hl.
  assert (Hiff :
    ComposerCS.HasClassStackingConflict indices pool lvl mask = true
    <-> exists l1 i l2 j l3 a b,
          indices = l1 ++ i :: l2 ++ j :: l3
          /\ nth_error pool i = Some a /\ nth_error pool j = Some b
          /\ ComposerCS.classId a = ComposerCS.classId b
          /\ (mask = 0
              \/ Z.land mask (ComposerCS.ClassIdToMaskBit (ComposerCS.classId a))
                 <> 0)).
  { rewrite HasClassStackingConflict_iff. split.
    - intros (l1 & i & l2 & j & l3 & Hi & Hp).
      unfold ComposerCS.PoolPair in Hp.
      destruct (nth_error pool i) as [a|] eqn:Ha; [|discriminate].
      destruct (nth_error pool j) as [b|] eqn:Hb; [|discriminate].
      rewrite (StackingPair_level_5_6 a b lvl mask Hl) in Hp.
      apply andb_true_iff in Hp. destruct Hp as [Hc Hm].
      apply Z.eqb_eq in Hc.
      exists l1, i, l2, j, l3, a, b.
      split; [exact Hi|]. split; [exact Ha|]. split; [exact Hb|].
      split; [exact Hc|].
      apply orb_true_iff in Hm. destruct Hm as [Hm|Hm].
      + left. now apply Z.eqb_eq.
      + right. apply negb_true_iff in Hm. now apply Z.eqb_neq.
    - intros (l1 & i & l2 & j & l3 & a & b & Hi & Ha & Hb & Hc & Hm).
      exists l1, i, l2, j, l3. split; [exact Hi|].
      unfold ComposerCS.PoolPair. rewrite Ha, Hb.
      rewrite (StackingPair_level_5_6 a b lvl mask Hl).
      apply andb_true_iff. split; [now apply Z.eqb_eq|].
      apply orb_true_iff. destruct Hm as [Hm|Hm].
      + left. now apply Z.eqb_eq.
      + right. apply negb_true_iff. now apply Z.eqb_neq. }
  split; [exact Hiff|].
  intros l1 i l2 j l3 a b Hi Ha Hb Hc _ Hm.
  assert (Hyes : ComposerCS.HasClassStackingConflict indices pool lvl mask = true).
  { apply Hiff. exists l1, i, l2, j, l3, a, b. auto. }
  split; [exact Hyes|].
  intro other. unfold ComposerCS.ClassDiverse. rewrite Hyes.
  replace (0 <? lvl) with true by (destruct Hl as [-> | ->]; reflexivity).
  split; [reflexivity|]. now rewrite orb_true_r.
Qed.

(** Two warriors who are both damage dealers, with an untagged player
    (class tag 0): rejected at level 5. *)
Lemma C3_class_stacking_levels_5_6_witness :
  ComposerCS.HasClassStackingConflict [0; 1; 2]%nat
    [queuedCS DPS 1500 0 0; queuedCS DPS 1500 0 1; queuedCS DPS 1500 0 1] 5 0
  = true.
Proof.
  apply (proj1 (proj2 (C3_class_stacking_levels_5_6 5 [0; 1; 2]%nat
                         [queuedCS DPS 1500 0 0; queuedCS DPS 1500 0 1;
                          queuedCS DPS 1500 0 1] 0 (or_introl eq_refl))
                  [0%nat] 1%nat [] 2%nat []
                  (queuedCS DPS 1500 0 1) (queuedCS DPS 1500 0 1)
                  eq_refl eq_refl eq_refl eq_refl
                  ltac:(discriminate) (or_introl eq_refl))).
Defined.

(** * The production search: claim C7 *)

Lemma Solo3v3_Visit_tracks : forall ign pool ts n ft adm ai c b o,
  Solo3v3_tracks ign pool ts n ai b o ->
  Solo3v3_tracks ign pool ts n ai (Solo3v3.Visit ign c pool ts n ft adm ai b)
    (pick (Solo3v3_keeps pool ts n ft adm) (Solo3v3_score ign pool ts n ai)
       lex_better o c).
Proof.
  intros ign pool ts n ft adm ai c b o H.
  unfold Solo3v3.Visit, pick, Solo3v3_keeps.
  destruct (Solo3v3.RoleBalanced ft adm c (BuildComplement ts c n) pool);
    cbn [negb]; [|exact H].
  destruct o as [c0|]; simpl in H.
  - destruct H as (H1 & H2 & H3). rewrite H1. cbn [negb orb].
    unfold lex_better. rewrite <- H3. unfold Solo3v3_score. cbn [fst snd].
    destruct ((Solo3v3.TeamDiff c (BuildComplement ts c n) pool <? Solo3v3.bestDiff b)
              || (Solo3v3.TeamDiff c (BuildComplement ts c n) pool =? Solo3v3.bestDiff b)
                 && (Solo3v3.TeamIgnores ign c (BuildComplement ts c n) pool ai
                     <? Solo3v3.bestIgnores b)).
    + simpl. auto.
    + simpl. auto.
  - rewrite H. simpl. auto.
Qed.

Lemma Solo3v3_Visit_fold : forall ign pool ts n ft adm ai l b o,
  Solo3v3_tracks ign pool ts n ai b o ->
  Solo3v3_tracks ign pool ts n ai
    (fold_left (fun b c => Solo3v3.Visit ign c pool ts n ft adm ai b) l b)
    (fold_left (pick (Solo3v3_keeps pool ts n ft adm)
                  (Solo3v3_score ign pool ts n ai) lex_better) l o).
Proof.
  intros ign pool ts n ft adm ai l.
  induction l as [|c l IH]; intros b o H; simpl.
  - exact H.
  - apply IH. now apply Solo3v3_Visit_tracks.
Qed.

Lemma Solo3v3_Enumerate_tracks : forall ign pool ts n ft adm ai,
  Z.of_nat n < 2 ^ 32 -> (ts <= n)%nat ->
  Solo3v3_tracks ign pool ts n ai
    (snd (Solo3v3.EnumerateCombinations ign ts 0 0 pool ts n ft adm ai
            (repeat 0%nat ts,
             {| Solo3v3.bestTeam1 := []; Solo3v3.haveBest := false;
                Solo3v3.bestDiff := 0; Solo3v3.bestIgnores := 0 |})))
    (fold_left (pick (Solo3v3_keeps pool ts n ft adm)
                  (Solo3v3_score ign pool ts n ai) lex_better)
       (combos n ts 0) None).
Proof.
  intros ign pool ts n ft adm ai Hn Hts.
  destruct (enumerate_visits Solo3v3.Best
              (fun c b => Solo3v3.Visit ign c pool ts n ft adm ai b) ts n
              (fun r start depth st =>
                 Solo3v3.EnumerateCombinations ign r start depth pool ts n
                   ft adm ai st)
              (fun _ _ _ => eq_refl) (fun _ _ _ _ => eq_refl) Hn Hts
              ts 0%nat 0%nat (repeat 0%nat ts)
              {| Solo3v3.bestTeam1 := []; Solo3v3.haveBest := false;
                 Solo3v3.bestDiff := 0; Solo3v3.bestIgnores := 0 |})
    as (_ & _ & H).
  - lia.
  - apply repeat_length.
  - rewrite H. cbn [firstn app].
    apply Solo3v3_Visit_fold. reflexivity.
Qed.

(** One visit either leaves the best alone or replaces it by the visited
    combination, and then only for a strictly smaller rating difference, or
    an equal difference and strictly fewer ignore pairs. *)
Lemma Solo3v3_Visit_replaces : forall ign pool ts n ft adm ai c b,
  Solo3v3.haveBest b = true ->
  let b' := Solo3v3.Visit ign c pool ts n ft adm ai b in
  b' = b
  \/ (Solo3v3.bestTeam1 b' = c
      /\ Solo3v3.haveBest b' = true
      /\ Solo3v3_keeps pool ts n ft adm c = true
      /\ (Solo3v3.bestDiff b', Solo3v3.bestIgnores b')
         = Solo3v3_score ign pool ts n ai c
      /\ (Solo3v3.bestDiff b' < Solo3v3.bestDiff b
          \/ (Solo3v3.bestDiff b' = Solo3v3.bestDiff b
              /\ Solo3v3.bestIgnores b' < Solo3v3.bestIgnores b))).
Proof.
  intros ign pool ts n ft adm ai c b Hb b'. unfold b', Solo3v3.Visit.
  unfold Solo3v3_keeps, Solo3v3_score.
  destruct (Solo3v3.RoleBalanced ft adm c (BuildComplement ts c n) pool);
    cbn [negb]; [|now left].
  rewrite Hb. cbn [negb orb].
  destruct (Solo3v3.TeamDiff c (BuildComplement ts c n) pool <? Solo3v3.bestDiff b)
    eqn:Hd; cbn [orb].
  - right. cbn. apply Z.ltb_lt in Hd. repeat split; auto.
  - destruct (Solo3v3.TeamDiff c (BuildComplement ts c n) pool =? Solo3v3.bestDiff b)
      eqn:He; cbn [andb]; [|now left].
    destruct (Solo3v3.TeamIgnores ign c (BuildComplement ts c n) pool ai
              <? Solo3v3.bestIgnores b) eqn:Hi; [|now left].
    right. cbn. apply Z.eqb_eq in He. apply Z.ltb_lt in Hi. repeat split; auto.
Qed.

Lemma Solo3v3_split_first_best : forall ign sel mp ft adm ai t1 t2,
  0 <= mp -> (Z.to_nat mp <= length sel)%nat ->
  Z.of_nat (length sel) < 2 ^ 32 ->
  Solo3v3.CheckSolo3v3Arena_split ign sel mp ft adm ai = Some (t1, t2) ->
  let n := length sel in
  let k := Z.to_nat mp in
  first_best (Solo3v3_keeps sel k n ft adm) (Solo3v3_score ign sel k n ai)
    lex_better (combos n k 0) (Some t1)
  /\ t2 = complement_of t1 n.
Proof.
  intros ign sel mp ft adm ai t1 t2 Hmp Hk Hlen. intros Hres n k.
  revert Hres. unfold Solo3v3.CheckSolo3v3Arena_split.
  rewrite (wrap32_small (Z.of_nat (length sel))) by lia.
  rewrite Nat2Z.id. fold n. fold k.
  pose proof (Solo3v3_Enumerate_tracks ign sel k n ft adm ai Hlen Hk) as Htr.
  pose proof (pick_fold_first_best (Solo3v3_keeps sel k n ft adm)
                (Solo3v3_score ign sel k n ai) lex_better
                lex_better_trans lex_better_through (combos n k 0)) as Hfb.
  destruct (fold_left _ (combos n k 0) None) as [c|]; simpl in Htr.
  - destruct Htr as (H1 & H2 & H3). rewrite H1. cbn [negb].
    intro Hres. inversion Hres as [[Ht1 Ht2]].
    rewrite H2 in *. subst c. split; [exact Hfb|].
    destruct (first_best_some_in _ _ _ _ _ _ _ Hfb) as [Hin _].
    destruct (combos_sound _ _ _ _ Hk Hin) as (L & I & _).
    rewrite BuildComplement_spec by exact I. reflexivity.
  - rewrite Htr. cbn [negb]. discriminate.
Qed.

(** The production search finds nothing only when every combination fails
    the role test. *)
Lemma Solo3v3_split_none : forall ign sel mp ft adm ai,
  0 <= mp -> (Z.to_nat mp <= length sel)%nat ->
  Z.of_nat (length sel) < 2 ^ 32 ->
  Solo3v3.CheckSolo3v3Arena_split ign sel mp ft adm ai = None ->
  forall c, In c (combos (length sel) (Z.to_nat mp) 0) ->
            Solo3v3_keeps sel (Z.to_nat mp) (length sel) ft adm c = false.
Proof.
  intros ign sel mp ft adm ai Hmp Hk Hlen.
  unfold Solo3v3.CheckSolo3v3Arena_split.
  rewrite (wrap32_small (Z.of_nat (length sel))) by lia.
  rewrite Nat2Z.id.
  set (n := length sel) in *. set (k := Z.to_nat mp) in *.
  pose proof (Solo3v3_Enumerate_tracks ign sel k n ft adm ai Hlen Hk) as Htr.
  pose proof (pick_fold_first_best (Solo3v3_keeps sel k n ft adm)
                (Solo3v3_score ign sel k n ai) lex_better
                lex_better_trans lex_better_through (combos n k 0)) as Hfb.
  destruct (fold_left _ (combos n k 0) None) as [c0|]; simpl in Htr.
  - destruct Htr as (H1 & _). rewrite H1. cbn [negb]. discriminate.
  - intros _ c Hc. exact (first_best_none _ _ _ _ _ Hfb Hc).
Qed.

Lemma Solo3v3_split_some_if_kept : forall ign sel mp ft adm ai c,
  0 <= mp -> (Z.to_nat mp <= length sel)%nat ->
  Z.of_nat (length sel) < 2 ^ 32 ->
  In c (combos (length sel) (Z.to_nat mp) 0) ->
  Solo3v3_keeps sel (Z.to_nat mp) (length sel) ft adm c = true ->
  exists t1 t2,
    Solo3v3.CheckSolo3v3Arena_split ign sel mp ft adm ai = Some (t1, t2).
Proof.
  intros ign sel mp ft adm ai c Hmp Hk Hlen Hc Hkeep.
  destruct (Solo3v3.CheckSolo3v3Arena_split ign sel mp ft adm ai)
    as [[t1 t2]|] eqn:E.
  - exists t1, t2. reflexivity.
  - pose proof (Solo3v3_split_none ign sel mp ft adm ai Hmp Hk Hlen E c Hc).
    congruence.
Qed.

(** C7 (replacement rule and first-best determinism).  In the production
    search a visit leaves the best alone when the visited partition fails
    the role test; otherwise it replaces the best by the visited partition
    when there is no best yet or when the partition is strictly better on
    the rating difference, or equal on it and strictly better on the
    ignore-pair count, and leaves it alone in every other case.
    Consequently the search returns a partition exactly when some
    combination is valid, and the one returned is the first, in
    increasing-index combination order, among the valid partitions with the
    best (difference, ignore pairs) score: every valid combination before
    it is strictly worse, no valid combination after it is better.
    MatchmakingComposer does the same with the rating difference alone. *)
Theorem C7_first_best_partition :
  (forall (ign : Z -> Z -> bool) sel mp ft adm ai,
     0 <= mp -> (Z.to_nat mp <= length sel)%nat ->
     Z.of_nat (length sel) < 2 ^ 32 ->
     let n := length sel in
     let k := Z.to_nat mp in
     let keeps := Solo3v3_keeps sel k n ft adm in
     let score := Solo3v3_score ign sel k n ai in
     let taken c :=
       {| Solo3v3.bestTeam1 := c; Solo3v3.haveBest := true;
          Solo3v3.bestDiff := fst (score c);
          Solo3v3.bestIgnores := snd (score c) |} in
     (forall c b,
        let b' := Solo3v3.Visit ign c sel k n ft adm ai b in
        (keeps c = false -> b' = b)
        /\ (keeps c = true -> Solo3v3.haveBest b = false -> b' = taken c)
        /\ (keeps c = true -> Solo3v3.haveBest b = true ->
            lex_better (score c) (Solo3v3.bestDiff b, Solo3v3.bestIgnores b)
            = true ->
            b' = taken c)
        /\ (keeps c = true -> Solo3v3.haveBest b = true ->
            lex_better (score c) (Solo3v3.bestDiff b, Solo3v3.bestIgnores b)
            = false ->
            b' = b)
        /\ (Solo3v3.haveBest b = true ->
            b' = b
            \/ (Solo3v3.bestTeam1 b' = c
                /\ keeps c = true
                /\ (Solo3v3.bestDiff b', Solo3v3.bestIgnores b') = score c
                /\ (Solo3v3.bestDiff b' < Solo3v3.bestDiff b
                    \/ (Solo3v3.bestDiff b' = Solo3v3.bestDiff b
                        /\ Solo3v3.bestIgnores b' < Solo3v3.bestIgnores b)))))
     /\ (forall t1 t2,
           Solo3v3.CheckSolo3v3Arena_split ign sel mp ft adm ai = Some (t1, t2) ->
           t2 = complement_of t1 n
           /\ exists pre post,
                combos n k 0 = pre ++ t1 :: post
                /\ keeps t1 = true
                /\ (forall c, In c pre -> keeps c = true ->
                              lex_better (score t1) (score c) = true)
                /\ (forall c, In c post -> keeps c = true ->
                              lex_better (score c) (score t1) = false))
     /\ (Solo3v3.CheckSolo3v3Arena_split ign sel mp ft adm ai = None
         <-> forall c, In c (combos n k 0) -> keeps c = false)
     /\ ((exists c, In c (combos n k 0) /\ keeps c = true) ->
         exists t1 t2,
           Solo3v3.CheckSolo3v3Arena_split ign sel mp ft adm ai
           = Some (t1, t2)))
  /\
  (forall sel ts ft adm,
     0 <= ts -> ts * 2 < 2 ^ 32 -> Z.of_nat (length sel) < 2 ^ 32 ->
     let n := length sel in
     let k := Z.to_nat ts in
     let keeps := Composer_keeps sel k n ft adm in
     let diff := Composer_diff sel k n in
     let r := Composer.FindBestTeamSplit sel ts ft adm in
     let taken c :=
       {| Composer.bestTeam1 := c; Composer.haveBest := true;
          Composer.bestDiff := diff c |} in
     (forall c b,
        let b' := Composer.Visit c sel k n ft adm b in
        (keeps c = false -> b' = b)
        /\ (keeps c = true -> Composer.haveBest b = false -> b' = taken c)
        /\ (keeps c = true -> Composer.haveBest b = true ->
            diff c < Composer.bestDiff b -> b' = taken c)
        /\ (keeps c = true -> Composer.haveBest b = true ->
            Composer.bestDiff b <= diff c -> b' = b))
     /\ (Composer.valid r = true ->
         let t1 := Composer.team1Indices r in
         Composer.team2Indices r = complement_of t1 n
         /\ Composer.mmrDiff r = diff t1
         /\ exists pre post,
              combos n k 0 = pre ++ t1 :: post
              /\ keeps t1 = true
              /\ (forall c, In c pre -> keeps c = true -> diff t1 < diff c)
              /\ (forall c, In c post -> keeps c = true -> diff t1 <= diff c))
     /\ (Composer.valid r = false
         <-> Z.of_nat n < ts * 2
             \/ forall c, In c (combos n k 0) -> keeps c = false)
     /\ (ts * 2 <= Z.of_nat n ->
         (exists c, In c (combos n k 0) /\ keeps c = true) ->
         Composer.valid r = true)).
Proof.
  split.
  - intros ign sel mp ft adm ai Hmp Hk Hlen n k keeps score taken.
    assert (Hnone : Solo3v3.CheckSolo3v3Arena_split ign sel mp ft adm ai = None
                    <-> forall c, In c (combos n k 0) -> keeps c = false).
    { split.
      - intro HN. exact (Solo3v3_split_none ign sel mp ft adm ai Hmp Hk Hlen HN).
      - intro Hall.
        destruct (Solo3v3.CheckSolo3v3Arena_split ign sel mp ft adm ai)
          as [[t1 t2]|] eqn:E; [exfalso|reflexivity].
        destruct (Solo3v3_split_first_best ign sel mp ft adm ai t1 t2
                    Hmp Hk Hlen E) as [Hfb _].
        destruct (first_best_some_in _ _ _ _ _ _ _ Hfb) as [Hin Hacc].
        pose proof (Hall _ Hin) as Hf. unfold keeps, n, k in Hf.
        congruence. }
    split; [|split; [|split; [exact Hnone|]]].
    + intros c b b'.
      assert (Hrule : forall r,
                keeps c = r ->
                b' = if r
                     then if negb (Solo3v3.haveBest b)
                             || lex_better (score c)
                                  (Solo3v3.bestDiff b, Solo3v3.bestIgnores b)
                          then taken c else b
                     else b).
      { intros r Hr. unfold b', Solo3v3.Visit.
        unfold keeps, Solo3v3_keeps in Hr. rewrite Hr.
        destruct r; cbn [negb]; [|reflexivity].
        unfold lex_better, taken, score, Solo3v3_score. cbn [fst snd].
        rewrite <- orb_assoc. reflexivity. }
      split; [intro H; exact (Hrule false H)|].
      split; [intros H Hb; rewrite (Hrule true H), Hb; reflexivity|].
      split; [intros H Hb Hl; rewrite (Hrule true H), Hb, Hl; reflexivity|].
      split; [intros H Hb Hl; rewrite (Hrule true H), Hb, Hl; reflexivity|].
      intro Hb.
      destruct (Solo3v3_Visit_replaces ign sel k n ft adm ai c b Hb)
        as [H|(H1 & _ & H3 & H4 & H5)]; [now left|right].
      repeat split; auto.
    + intros t1 t2 Hres.
      destruct (Solo3v3_split_first_best ign sel mp ft adm ai t1 t2
                  Hmp Hk Hlen Hres) as [Hfb Ht2].
      split; [exact Ht2 | exact Hfb].
    + intros (c & Hc & Hkeep).
      destruct (Solo3v3.CheckSolo3v3Arena_split ign sel mp ft adm ai)
        as [[t1 t2]|] eqn:E; [eauto|exfalso].
      pose proof (proj1 Hnone eq_refl c Hc) as Hf. congruence.
  - intros sel ts ft adm Hts Hfit Hlen n k keeps diff r taken.
    assert (Hinv : Composer.valid r = false
                   <-> Z.of_nat n < ts * 2
                       \/ forall c, In c (combos n k 0) -> keeps c = false).
    { split.
      - intro Hv. destruct (Z.lt_ge_cases (Z.of_nat n) (ts * 2)) as [H|H];
          [now left|right].
        exact (Composer_split_invalid sel ts ft adm Hts Hfit Hlen H Hv).
      - intros [Hsmall|Hall].
        + unfold r, Composer.FindBestTeamSplit.
          rewrite (wrap32_small (Z.of_nat (length sel))) by lia.
          rewrite (wrap32_small (ts * 2)) by lia.
          replace (Z.of_nat (length sel) <? ts * 2) with true
            by (symmetry; apply Z.ltb_lt; exact Hsmall).
          reflexivity.
        + destruct (Composer.valid r) eqn:Hv; [exfalso|reflexivity].
          destruct (Composer_FindBestTeamSplit_valid sel ts ft adm
                      Hts Hfit Hlen Hv) as (_ & Hfb & _).
          destruct (first_best_some_in _ _ _ _ _ _ _ Hfb) as [Hin Hacc].
          pose proof (Hall _ Hin) as Hf. unfold keeps, n, k in Hf.
          congruence. }
    split; [|split; [|split; [exact Hinv|]]].
    + intros c b b'.
      assert (Hrule : forall rb,
                keeps c = rb ->
                b' = if rb
                     then if negb (Composer.haveBest b)
                             || (diff c <? Composer.bestDiff b)
                          then taken c else b
                     else b).
      { intros rb Hr. unfold b', Composer.Visit.
        unfold keeps, Composer_keeps in Hr. rewrite Hr.
        destruct rb; reflexivity. }
      split; [intro H; exact (Hrule false H)|].
      split; [intros H Hb; rewrite (Hrule true H), Hb; reflexivity|].
      split.
      * intros H Hb Hl. rewrite (Hrule true H), Hb. cbn [negb orb].
        now replace (diff c <? Composer.bestDiff b) with true
          by (symmetry; apply Z.ltb_lt; exact Hl).
      * intros H Hb Hl. rewrite (Hrule true H), Hb. cbn [negb orb].
        now replace (diff c <? Composer.bestDiff b) with false
          by (symmetry; apply Z.ltb_ge; exact Hl).
    + intros Hvalid t1.
      destruct (Composer_FindBestTeamSplit_valid sel ts ft adm Hts Hfit Hlen Hvalid)
        as (_ & (pre & post & Hc & Hkeep & Hpre & Hpost) & H2 & HD).
      split; [exact H2|]. split; [exact HD|].
      exists pre, post. split; [exact Hc|]. split; [exact Hkeep|]. split.
      * intros c Hin Hacc. specialize (Hpre c Hin Hacc).
        unfold Z_better in Hpre. now apply Z.ltb_lt.
      * intros c Hin Hacc. specialize (Hpost c Hin Hacc).
        unfold Z_better in Hpost. now apply Z.ltb_ge.
    + intros Hen (c & Hc & Hkeep).
      destruct (Composer.valid r) eqn:Hv; [reflexivity|exfalso].
      destruct (proj1 Hinv eq_refl) as [H|H]; [unfold n in H; lia|].
      pose proof (H c Hc) as Hf. congruence.
Qed.

(** With equal ratings every split has difference 0; the first role-balanced
    combination, {0,2,3}, puts players 3 and 4 together, and the search
    settles on the next one, {0,2,4}, the first without an ignore pair. *)
Lemma C7_first_best_partition_witness :
  exists pre post,
    combos 6 3 0 = pre ++ [0; 2; 4]%nat :: post
    /\ (forall c, In c pre -> Solo3v3_keeps arena_pool 3 6 true false c = true ->
                  lex_better
                    (Solo3v3_score ignores_3_4 arena_pool 3 6 true [0; 2; 4]%nat)
                    (Solo3v3_score ignores_3_4 arena_pool 3 6 true c) = true).
Proof.
  destruct (proj1 C7_first_best_partition ignores_3_4 arena_pool 3 true false true)
    as (_ & H & _).
  - lia.
  - vm_compute. lia.
  - vm_compute. reflexivity.
  - destruct (H [0; 2; 4]%nat [1; 3; 5]%nat)
      as (_ & pre & post & H1 & _ & H3 & _).
    + vm_compute. reflexivity.
    + exists pre, post. split; [exact H1 | exact H3].
Defined.

(** * Further properties of the selector *)

Lemma Composer_select_size : forall cands ts ft t now out,
  0 <= ts -> ts * 2 < 2 ^ 32 ->
  fst (Composer.SelectCandidates cands ts ft t now out) = true ->
  Z.of_nat (length (Composer.selected
                      (snd (Composer.SelectCandidates cands ts ft t now out))))
  = 2 * ts.
Proof.
  intros cands ts ft t now out Hts Hfit.
  rewrite Composer_SelectCandidates_eq. cbn zeta.
  rewrite needed_nowrap by assumption.
  rewrite (wrap32_small (ts * 2)) by lia.
  destruct (Z.of_nat (length cands) <? ts * 2) eqn:Hg;
    cbn [fst snd Composer.selected]; [discriminate|].
  apply Z.ltb_ge in Hg.
  destruct (negb ft); cbn [fst snd Composer.selected].
  - intros _. rewrite length_firstn. lia.
  - destruct (_ && _) eqn:Hstd; cbn [fst snd Composer.selected].
    + intros _. apply andb_true_iff in Hstd. destruct Hstd as [Hh Hd].
      apply Z.leb_le in Hh, Hd. rewrite length_app, !length_firstn.
      destruct (1 <? ts) eqn:H1; [apply Z.ltb_lt in H1|apply Z.ltb_ge in H1]; lia.
    + destruct (length (filter Composer.isHealer cands) =? 0)%nat;
        cbn [fst snd Composer.selected]; [|discriminate].
      destruct (ts * 2 <=? _) eqn:Hk; cbn [fst snd Composer.selected];
        [|discriminate].
      intros _. apply Z.leb_le in Hk. rewrite length_firstn. lia.
Qed.

Lemma ComposerCS_select_size : forall cands ts ft t0 t1 now out,
  0 <= ts -> ts * 2 < 2 ^ 32 ->
  fst (ComposerCS.SelectCandidates cands ts ft t0 t1 now out) = true ->
  Z.of_nat (length (ComposerCS.selected
                      (snd (ComposerCS.SelectCandidates cands ts ft t0 t1 now out))))
  = 2 * ts.
Proof.
  intros cands ts ft t0 t1 now out Hts Hfit.
  rewrite ComposerCS_SelectCandidates_eq. cbn zeta.
  rewrite needed_nowrap by assumption.
  rewrite (wrap32_small (ts * 2)) by lia.
  destruct (Z.of_nat (length cands) <? ts * 2) eqn:Hg;
    cbn [fst snd ComposerCS.selected]; [discriminate|].
  apply Z.ltb_ge in Hg.
  destruct (negb ft); cbn [fst snd ComposerCS.selected].
  - intros _. rewrite length_firstn. lia.
  - destruct (_ && _) eqn:Hstd; cbn [fst snd ComposerCS.selected].
    + intros _. apply andb_true_iff in Hstd. destruct Hstd as [Hh Hd].
      apply Z.leb_le in Hh, Hd. rewrite length_app, !length_firstn.
      destruct (1 <? ts) eqn:H1; [apply Z.ltb_lt in H1|apply Z.ltb_ge in H1]; lia.
    + destruct (length (filter ComposerCS.isHealer cands) =? 0)%nat;
        cbn [fst snd ComposerCS.selected].
      * destruct (ts * 2 <=? _) eqn:Hk; cbn [fst snd ComposerCS.selected];
          [|discriminate].
        intros _. apply Z.leb_le in Hk. rewrite length_firstn. lia.
      * destruct (length (filter ComposerCS.isHealer cands) =? 1)%nat;
          cbn [fst snd ComposerCS.selected]; [|discriminate].
        destruct (ts * 2 <=? _) eqn:Hk; cbn [fst snd ComposerCS.selected];
          [|discriminate].
        intros _. apply Z.leb_le in Hk. rewrite length_firstn. lia.
Qed.

(** X1 (size of a selection).  When SelectCandidates returns [true], the
    out-parameter [selected] holds exactly [2 * teamSize] candidates, on
    every path ([teamSize * 2] fits in 32 bits). *)
Theorem X1_selection_size :
  (forall cands ts ft t now out,
     0 <= ts -> ts * 2 < 2 ^ 32 ->
     fst (Composer.SelectCandidates cands ts ft t now out) = true ->
     Z.of_nat (length (Composer.selected
                         (snd (Composer.SelectCandidates cands ts ft t now out))))
     = 2 * ts)
  /\
  (forall cands ts ft t0 t1 now out,
     0 <= ts -> ts * 2 < 2 ^ 32 ->
     fst (ComposerCS.SelectCandidates cands ts ft t0 t1 now out) = true ->
     Z.of_nat (length (ComposerCS.selected
                         (snd (ComposerCS.SelectCandidates cands ts ft t0 t1 now out))))
     = 2 * ts).
Proof.
  split.
  - exact Composer_select_size.
  - exact ComposerCS_select_size.
Qed.

Lemma X1_selection_size_witness :
  Z.of_nat (length (Composer.selected
                      (snd (Composer.SelectCandidates
                              (fifo_head ++ [player 6 DPS 500; player 7 DPS 600])
                              3 true 60000 100000
                              {| Composer.selected := [];
                                 Composer.allDpsMatch := false |})))) = 2 * 3
  /\ Z.of_nat (length (ComposerCS.selected
                         (snd (ComposerCS.SelectCandidates pool_healer_six
                                 3 true 60000 60000 100000
                                 {| ComposerCS.selected := [];
                                    ComposerCS.allDpsMatch := false |})))) = 2 * 3.
Proof.
  split.
  - apply (proj1 X1_selection_size); [lia | reflexivity | reflexivity].
  - apply (proj2 X1_selection_size); [lia | reflexivity | reflexivity].
Defined.

Lemma Forall_firstn_filter : forall (A : Type) (p : A -> bool) k (l : list A),
  Forall (fun x => p x = true) (firstn k (filter p l)).
Proof.
  intros A p k l. apply Forall_forall. intros x Hx.
  apply firstn_incl in Hx. apply filter_In in Hx. tauto.
Qed.

Lemma firstn_two : forall (A : Type) (l : list A),
  (2 <= length l)%nat -> exists a b, firstn 2 l = [a; b].
Proof.
  intros A [|a [|b l]] H; simpl in H; try lia. exists a, b. reflexivity.
Qed.

Lemma Composer_role_quota : forall cands ts t now out,
  2 <= ts -> ts * 2 < 2 ^ 32 ->
  let res := Composer.SelectCandidates cands ts true t now out in
  let sel := Composer.selected (snd res) in
  fst res = true ->
  (Composer.allDpsMatch (snd res) = false ->
   exists h1 h2 dps,
     sel = h1 :: h2 :: dps
     /\ Composer.isHealer h1 = true /\ Composer.isHealer h2 = true
     /\ Forall (fun c => Composer.isHealer c = false) dps
     /\ Z.of_nat (length dps) = 2 * ts - 2)
  /\ (Composer.allDpsMatch (snd res) = true ->
      Forall (fun c => Composer.isHealer c = false) sel
      /\ filter Composer.isHealer cands = []).
Proof.
  intros cands ts t now out Hts Hfit res sel. unfold sel, res.
  rewrite Composer_SelectCandidates_eq. cbn zeta. cbn [negb].
  rewrite needed_nowrap by lia.
  rewrite (wrap32_small (ts * 2)) by lia.
  assert (H1 : (1 <? ts) = true) by (apply Z.ltb_lt; lia). rewrite H1.
  destruct (Z.of_nat (length cands) <? ts * 2);
    cbn [fst snd Composer.selected Composer.allDpsMatch]; [discriminate|].
  destruct (_ && _) eqn:Hstd;
    cbn [fst snd Composer.selected Composer.allDpsMatch].
  - intros _. split; [intros _|discriminate].
    apply andb_true_iff in Hstd. destruct Hstd as [Hh Hd].
    apply Z.leb_le in Hh, Hd.
    destruct (firstn_two _ (filter Composer.isHealer cands)) as (a & b & Hab);
      [lia|].
    change (Z.to_nat 2) with 2%nat. rewrite Hab.
    exists a, b, (firstn (Z.to_nat (2 * ts - 2))
                    (filter (fun c => negb (Composer.isHealer c)) cands)).
    pose proof (Forall_firstn_filter _ Composer.isHealer 2
                  cands) as HF.
    rewrite Hab in HF. inversion HF as [|? ? Ha HF']; subst.
    inversion HF' as [|? ? Hb _]; subst.
    repeat split; auto.
    + eapply Forall_impl;
        [|apply (Forall_firstn_filter _ (fun c => negb (Composer.isHealer c)))].
      intros c Hc. now apply negb_true_iff.
    + rewrite length_firstn. lia.
  - destruct (length (filter Composer.isHealer cands) =? 0)%nat eqn:H0;
      cbn [fst snd Composer.selected Composer.allDpsMatch]; [|discriminate].
    destruct (ts * 2 <=? _);
      cbn [fst snd Composer.selected Composer.allDpsMatch]; [|discriminate].
    intros _. split; [discriminate|intros _]. split.
    + apply Forall_forall. intros c Hc. apply firstn_incl in Hc.
      apply filter_In in Hc. destruct Hc as [Hc _].
      apply filter_In in Hc. destruct Hc as [_ Hc]. now apply negb_true_iff.
    + apply Nat.eqb_eq in H0. now apply length_zero_iff_nil.
Qed.

Lemma ComposerCS_role_quota : forall cands ts t0 t1 now out,
  2 <= ts -> ts * 2 < 2 ^ 32 ->
  let res := ComposerCS.SelectCandidates cands ts true t0 t1 now out in
  let sel := ComposerCS.selected (snd res) in
  fst res = true ->
  (ComposerCS.allDpsMatch (snd res) = false ->
   exists h1 h2 dps,
     sel = h1 :: h2 :: dps
     /\ ComposerCS.isHealer h1 = true /\ ComposerCS.isHealer h2 = true
     /\ Forall (fun c => ComposerCS.isHealer c = false) dps
     /\ Z.of_nat (length dps) = 2 * ts - 2)
  /\ (ComposerCS.allDpsMatch (snd res) = true ->
      Forall (fun c => ComposerCS.isHealer c = false) sel
      /\ (length (filter ComposerCS.isHealer cands) <= 1)%nat).
Proof.
  intros cands ts t0 t1 now out Hts Hfit res sel. unfold sel, res.
  rewrite ComposerCS_SelectCandidates_eq. cbn zeta. cbn [negb].
  rewrite needed_nowrap by lia.
  rewrite (wrap32_small (ts * 2)) by lia.
  assert (H1 : (1 <? ts) = true) by (apply Z.ltb_lt; lia). rewrite H1.
  assert (Hdps : forall k (p : ComposerCS.QueuedCandidate -> bool),
            Forall (fun c => ComposerCS.isHealer c = false)
              (firstn k (filter p
                 (filter (fun c => negb (ComposerCS.isHealer c)) cands)))).
  { intros k p. apply Forall_forall. intros c Hc. apply firstn_incl in Hc.
    apply filter_In in Hc. destruct Hc as [Hc _].
    apply filter_In in Hc. destruct Hc as [_ Hc]. now apply negb_true_iff. }
  destruct (Z.of_nat (length cands) <? ts * 2);
    cbn [fst snd ComposerCS.selected ComposerCS.allDpsMatch]; [discriminate|].
  destruct (_ && _) eqn:Hstd;
    cbn [fst snd ComposerCS.selected ComposerCS.allDpsMatch].
  - intros _. split; [intros _|discriminate].
    apply andb_true_iff in Hstd. destruct Hstd as [Hh Hd].
    apply Z.leb_le in Hh, Hd.
    destruct (firstn_two _ (filter ComposerCS.isHealer cands)) as (a & b & Hab);
      [lia|].
    change (Z.to_nat 2) with 2%nat. rewrite Hab.
    exists a, b, (firstn (Z.to_nat (2 * ts - 2))
                    (filter (fun c => negb (ComposerCS.isHealer c)) cands)).
    pose proof (Forall_firstn_filter _ ComposerCS.isHealer 2 cands) as HF.
    rewrite Hab in HF. inversion HF as [|? ? Ha HF']; subst.
    inversion HF' as [|? ? Hb _]; subst.
    repeat split; auto.
    + eapply Forall_impl;
        [|apply (Forall_firstn_filter _ (fun c => negb (ComposerCS.isHealer c)))].
      intros c Hc. now apply negb_true_iff.
    + rewrite length_firstn. lia.
  - destruct (length (filter ComposerCS.isHealer cands) =? 0)%nat eqn:H0;
      cbn [fst snd ComposerCS.selected ComposerCS.allDpsMatch].
    + destruct (ts * 2 <=? _);
        cbn [fst snd ComposerCS.selected ComposerCS.allDpsMatch]; [|discriminate].
      intros _. split; [discriminate|intros _]. split; [apply Hdps|].
      apply Nat.eqb_eq in H0. lia.
    + destruct (length (filter ComposerCS.isHealer cands) =? 1)%nat eqn:H1';
        cbn [fst snd ComposerCS.selected ComposerCS.allDpsMatch]; [|discriminate].
      destruct (ts * 2 <=? _);
        cbn [fst snd ComposerCS.selected ComposerCS.allDpsMatch]; [|discriminate].
      intros _. split; [discriminate|intros _]. split; [apply Hdps|].
      apply Nat.eqb_eq in H1'. lia.
Qed.

(** X2 (role quota).  With filterTalents set and [teamSize >= 2], a
    successful selection is either the standard one, laid out as two healers
    followed by [2 * teamSize - 2] damage dealers, or a fallback one
    ([allDpsMatch]) made of damage dealers only; the fallback is taken only
    from a pool without healer (with at most one healer in the revision that
    has the single-healer fallback). *)
Theorem X2_role_quota :
  (forall cands ts t now out,
     2 <= ts -> ts * 2 < 2 ^ 32 ->
     let res := Composer.SelectCandidates cands ts true t now out in
     let sel := Composer.selected (snd res) in
     fst res = true ->
     (Composer.allDpsMatch (snd res) = false ->
      exists h1 h2 dps,
        sel = h1 :: h2 :: dps
        /\ Composer.isHealer h1 = true /\ Composer.isHealer h2 = true
        /\ Forall (fun c => Composer.isHealer c = false) dps
        /\ Z.of_nat (length dps) = 2 * ts - 2)
     /\ (Composer.allDpsMatch (snd res) = true ->
         Forall (fun c => Composer.isHealer c = false) sel
         /\ filter Composer.isHealer cands = []))
  /\
  (forall cands ts t0 t1 now out,
     2 <= ts -> ts * 2 < 2 ^ 32 ->
     let res := ComposerCS.SelectCandidates cands ts true t0 t1 now out in
     let sel := ComposerCS.selected (snd res) in
     fst res = true ->
     (ComposerCS.allDpsMatch (snd res) = false ->
      exists h1 h2 dps,
        sel = h1 :: h2 :: dps
        /\ ComposerCS.isHealer h1 = true /\ ComposerCS.isHealer h2 = true
        /\ Forall (fun c => ComposerCS.isHealer c = false) dps
        /\ Z.of_nat (length dps) = 2 * ts - 2)
     /\ (ComposerCS.allDpsMatch (snd res) = true ->
         Forall (fun c => ComposerCS.isHealer c = false) sel
         /\ (length (filter ComposerCS.isHealer cands) <= 1)%nat)).
Proof.
  split.
  - exact Composer_role_quota.
  - exact ComposerCS_role_quota.
Qed.

Lemma X2_role_quota_witness :
  Forall (fun c => ComposerCS.isHealer c = false)
    (ComposerCS.selected
       (snd (ComposerCS.SelectCandidates pool_healer_six 3 true 60000 60000 100000
               {| ComposerCS.selected := []; ComposerCS.allDpsMatch := false |}))).
Proof.
  destruct (proj2 X2_role_quota pool_healer_six 3 60000 60000 100000
              {| ComposerCS.selected := []; ComposerCS.allDpsMatch := false |})
    as [_ H]; [lia | reflexivity | reflexivity |].
  apply H. reflexivity.
Defined.

Lemma length_filter_mono : forall (A : Type) (p q : A -> bool) (l : list A),
  (forall x, p x = true -> q x = true) ->
  (length (filter p l) <= length (filter q l))%nat.
Proof.
  intros A p q l H. induction l as [|x l IH]; simpl; [lia|].
  destruct (p x) eqn:Hp.
  - rewrite (H x Hp). simpl. lia.
  - destruct (q x); simpl; lia.
Qed.

Lemma timed_mono : forall (jt : Z) t now now',
  now <= now' ->
  (wrap32 (jt + t) <=? now) = true -> (wrap32 (jt + t) <=? now') = true.
Proof. intros jt t now now' H H1. apply Z.leb_le in H1. apply Z.leb_le. lia. Qed.

(** X3 (waiting never undoes a match).  For a fixed pool and configuration,
    if SelectCandidates succeeds at time [now] it succeeds at every later
    time: the standard path does not read the clock, and the timer tests of
    the fallback paths only turn from false to true. *)
Theorem X3_success_monotone_in_time :
  (forall cands ts ft t now now' out,
     now <= now' ->
     fst (Composer.SelectCandidates cands ts ft t now out) = true ->
     fst (Composer.SelectCandidates cands ts ft t now' out) = true)
  /\
  (forall cands ts ft t0 t1 now now' out,
     now <= now' ->
     fst (ComposerCS.SelectCandidates cands ts ft t0 t1 now out) = true ->
     fst (ComposerCS.SelectCandidates cands ts ft t0 t1 now' out) = true).
Proof.
  split.
  - intros cands ts ft t now now' out Hle.
    rewrite !Composer_SelectCandidates_eq. cbn zeta.
    destruct (Z.of_nat (length cands) <? wrap32 (ts * 2)); [auto|].
    destruct (negb ft); [auto|].
    destruct (_ && _); [auto|].
    destruct (length (filter Composer.isHealer cands) =? 0)%nat; [|auto].
    destruct (wrap32 (ts * 2) <=? _) eqn:Hk; cbn [fst]; [|discriminate].
    intros _. apply Z.leb_le in Hk.
    pose proof (length_filter_mono _
                  (fun c => wrap32 (Composer.joinTime c + t) <=? now)
                  (fun c => wrap32 (Composer.joinTime c + t) <=? now')
                  (filter (fun c => negb (Composer.isHealer c)) cands)
                  (fun c => timed_mono _ t now now' Hle)) as Hm.
    assert (Hk' : (wrap32 (ts * 2)
                   <=? Z.of_nat (length (filter
                          (fun c => wrap32 (Composer.joinTime c + t) <=? now')
                          (filter (fun c => negb (Composer.isHealer c)) cands))))
                  = true) by (apply Z.leb_le; lia).
    rewrite Hk'. reflexivity.
  - intros cands ts ft t0 t1 now now' out Hle.
    rewrite !ComposerCS_SelectCandidates_eq. cbn zeta.
    assert (Hstep : forall t,
      (wrap32 (ts * 2)
       <=? Z.of_nat (length (filter
              (fun c => wrap32 (ComposerCS.joinTime c + t) <=? now)
              (filter (fun c => negb (ComposerCS.isHealer c)) cands)))) = true ->
      (wrap32 (ts * 2)
       <=? Z.of_nat (length (filter
              (fun c => wrap32 (ComposerCS.joinTime c + t) <=? now')
              (filter (fun c => negb (ComposerCS.isHealer c)) cands)))) = true).
    { intros t Hk. apply Z.leb_le in Hk. apply Z.leb_le.
      pose proof (length_filter_mono _
                    (fun c => wrap32 (ComposerCS.joinTime c + t) <=? now)
                    (fun c => wrap32 (ComposerCS.joinTime c + t) <=? now')
                    (filter (fun c => negb (ComposerCS.isHealer c)) cands)
                    (fun c => timed_mono _ t now now' Hle)). lia. }
    destruct (Z.of_nat (length cands) <? wrap32 (ts * 2)); [auto|].
    destruct (negb ft); [auto|].
    destruct (_ && _); [auto|].
    destruct (length (filter ComposerCS.isHealer cands) =? 0)%nat.
    + destruct (wrap32 (ts * 2) <=? _) eqn:Hk; cbn [fst]; [|discriminate].
      intros _. rewrite (Hstep t0 Hk). reflexivity.
    + destruct (length (filter ComposerCS.isHealer cands) =? 1)%nat; [|auto].
      destruct (wrap32 (ts * 2) <=? _) eqn:Hk; cbn [fst]; [|discriminate].
      intros _. rewrite (Hstep t1 Hk). reflexivity.
Qed.

Lemma X3_success_monotone_in_time_witness :
  fst (Composer.SelectCandidates (repeat (queued DPS 1500 0) 6) 3 true 60000 70000
         {| Composer.selected := []; Composer.allDpsMatch := false |}) = true
  /\ fst (ComposerCS.SelectCandidates pool_healer_six 3 true 60000 60000 200000
            {| ComposerCS.selected := []; ComposerCS.allDpsMatch := false |}) = true.
Proof.
  split.
  - apply (proj1 X3_success_monotone_in_time _ 3 true 60000 65000 70000);
      [lia | reflexivity].
  - apply (proj2 X3_success_monotone_in_time _ 3 true 60000 60000 100000 200000);
      [lia | reflexivity].
Defined.

(** * Selection followed by partition *)

Lemma Composer_split_valid_if_kept : forall sel ts ft adm c,
  0 <= ts -> ts * 2 < 2 ^ 32 -> Z.of_nat (length sel) < 2 ^ 32 ->
  ts * 2 <= Z.of_nat (length sel) ->
  In c (combos (length sel) (Z.to_nat ts) 0) ->
  Composer_keeps sel (Z.to_nat ts) (length sel) ft adm c = true ->
  Composer.valid (Composer.FindBestTeamSplit sel ts ft adm) = true.
Proof.
  intros sel ts ft adm c Hts Hfit Hlen Hen Hc Hk.
  destruct (Composer.valid (Composer.FindBestTeamSplit sel ts ft adm)) eqn:Hv;
    [reflexivity|].
  pose proof (Composer_split_invalid sel ts ft adm Hts Hfit Hlen Hen Hv c Hc).
  congruence.
Qed.

Lemma Composer_split_invalid_if_none : forall sel ts ft adm,
  0 <= ts -> ts * 2 < 2 ^ 32 -> Z.of_nat (length sel) < 2 ^ 32 ->
  (forall c, In c (combos (length sel) (Z.to_nat ts) 0) ->
             Composer_keeps sel (Z.to_nat ts) (length sel) ft adm c = false) ->
  Composer.valid (Composer.FindBestTeamSplit sel ts ft adm) = false.
Proof.
  intros sel ts ft adm Hts Hfit Hlen Hnone.
  destruct (Composer.valid (Composer.FindBestTeamSplit sel ts ft adm)) eqn:Hv;
    [|reflexivity].
  destruct (Composer_FindBestTeamSplit_valid sel ts ft adm Hts Hfit Hlen Hv)
    as (_ & Hfb & _).
  destruct (first_best_some_in _ _ _ _ _ _ _ Hfb) as [Hin Hacc].
  rewrite (Hnone _ Hin) in Hacc. discriminate.
Qed.

(** The first [k] indices are always among the combinations. *)
Lemma increasing_from_seq : forall len a, increasing_from a (seq a len).
Proof.
  induction len as [|len IH]; intro a; simpl; auto.
Qed.

Lemma combos_has_prefix : forall n k,
  (k <= n)%nat -> In (seq 0 k) (combos n k 0).
Proof.
  intros n k Hk. apply combos_complete.
  - apply length_seq.
  - apply increasing_from_seq.
  - apply Forall_forall. intros x Hx. apply in_seq in Hx. lia.
Qed.

Lemma Composer_CountHealers_Zsum : forall team pool,
  Composer.CountHealers team pool
  = Zsum (fun i => if Composer.at_role pool i then 1 else 0) team.
Proof.
  intros team pool. unfold Composer.CountHealers.
  rewrite fold_left_count. lia.
Qed.

Lemma Zsum_app : forall f l1 l2, Zsum f (l1 ++ l2) = Zsum f l1 + Zsum f l2.
Proof.
  intros f l1 l2. induction l1 as [|x l1 IH]; simpl; lia.
Qed.

Lemma Zsum_zero : forall f l,
  (forall i, In i l -> f i = 0) -> Zsum f l = 0.
Proof.
  intros f l H. induction l as [|x l IH]; simpl; [reflexivity|].
  rewrite (H x) by now left. rewrite IH; [lia|].
  intros i Hi. apply H. now right.
Qed.

Lemma Zsum_ext : forall f g l,
  (forall i, In i l -> f i = g i) -> Zsum f l = Zsum g l.
Proof.
  intros f g l H. induction l as [|x l IH]; simpl; [reflexivity|].
  rewrite (H x) by now left. rewrite IH; [lia|].
  intros i Hi. apply H. now right.
Qed.

Lemma Zsum_map_S : forall f l, Zsum f (map S l) = Zsum (fun i => f (S i)) l.
Proof.
  intros f l. induction l as [|x l IH]; simpl; [reflexivity|]. now rewrite IH.
Qed.

(** Without a healer in the pool every team counts none. *)
Lemma Composer_no_healer_count : forall pool team,
  Forall (fun c => Composer.isHealer c = false) pool ->
  Composer.CountHealers team pool = 0.
Proof.
  intros pool team HF. rewrite Composer_CountHealers_Zsum.
  apply Zsum_zero. intros i _. unfold Composer.at_role.
  destruct (nth_error pool i) as [c|] eqn:Hc; [|reflexivity].
  rewrite Forall_forall in HF. rewrite (HF c); [reflexivity|].
  eapply nth_error_In; eauto.
Qed.

(** In the standard layout the team {0, 2, 3, ..} has one healer, and so has
    its complement. *)
Lemma Composer_standard_layout_counts : forall h1 h2 dps k,
  Composer.isHealer h1 = true -> Composer.isHealer h2 = true ->
  Forall (fun c => Composer.isHealer c = false) dps ->
  (2 <= k)%nat -> length dps = (2 * k - 2)%nat ->
  let pool := h1 :: h2 :: dps in
  let c := 0%nat :: seq 2 (k - 1) in
  In c (combos (length pool) k 0)
  /\ Composer.CountHealers c pool = 1
  /\ Composer.CountHealers (complement_of c (length pool)) pool = 1.
Proof.
  intros h1 h2 dps k Hh1 Hh2 HF Hk Hlen pool c.
  assert (Hn : length pool = (2 * k)%nat) by (unfold pool; simpl; lia).
  assert (Hrest : forall i, (2 <= i)%nat ->
            (if Composer.at_role pool i then 1 else 0) = 0).
  { intros i Hi. unfold Composer.at_role, pool.
    destruct i as [|[|i]]; try lia. cbn [nth_error].
    destruct (nth_error dps i) as [x|] eqn:Hx; [|reflexivity].
    rewrite Forall_forall in HF. rewrite (HF x); [reflexivity|].
    eapply nth_error_In; eauto. }
  assert (Hc : In c (combos (length pool) k 0)).
  { apply combos_complete.
    - unfold c. simpl. rewrite length_seq. lia.
    - unfold c. simpl. split; [lia|].
      apply increasing_from_weaken with (lo := 2%nat); [lia|].
      apply increasing_from_seq.
    - unfold c. constructor; [lia|].
      apply Forall_forall. intros x Hx. apply in_seq in Hx. lia. }
  assert (H1 : Composer.CountHealers c pool = 1).
  { rewrite Composer_CountHealers_Zsum. unfold c. cbn [Zsum fold_right].
    fold (Zsum (fun i => if Composer.at_role pool i then 1 else 0) (seq 2 (k - 1))).
    rewrite Zsum_zero.
    - unfold Composer.at_role, pool. cbn [nth_error]. rewrite Hh1. reflexivity.
    - intros i Hi. apply in_seq in Hi. apply Hrest. lia. }
  split; [exact Hc|]. split; [exact H1|].
  assert (Hkn : (k <= length pool)%nat) by lia.
  destruct (combos_sound _ _ _ _ Hkn Hc) as (_ & I & F).
  pose proof (complement_of_partition c (length pool)
                (increasing_from_NoDup _ _ I) F) as HP.
  pose proof (Zsum_Permutation
                (fun i => if Composer.at_role pool i then 1 else 0) _ _ HP) as HS.
  rewrite Zsum_app in HS.
  rewrite <- (Composer_CountHealers_Zsum c pool) in HS.
  rewrite <- (Composer_CountHealers_Zsum (complement_of c (length pool)) pool)
    in HS.
  rewrite H1 in HS.
  assert (Hall : Zsum (fun i => if Composer.at_role pool i then 1 else 0)
                   (seq 0 (length pool)) = 2).
  { rewrite Hn. replace (2 * k)%nat with (S (S (2 * k - 2))) by lia.
    cbn [seq Zsum fold_right].
    fold (Zsum (fun i => if Composer.at_role pool i then 1 else 0)
            (seq 2 (2 * k - 2))).
    rewrite Zsum_zero.
    - unfold Composer.at_role, pool. cbn [nth_error]. rewrite Hh1, Hh2.
      reflexivity.
    - intros i Hi. apply in_seq in Hi. apply Hrest. lia. }
  lia.
Qed.

Lemma Composer_RoleBalanced_counts : forall adm t1 t2 pool,
  Composer.RoleBalanced true adm t1 t2 pool = true ->
  Composer.CountHealers t1 pool = (if adm then 0 else 1)
  /\ Composer.CountHealers t2 pool = (if adm then 0 else 1).
Proof.
  intros adm t1 t2 pool. unfold Composer.RoleBalanced.
  destruct adm; cbn [andb negb].
  - destruct (Composer.CountHealers t1 pool =? 0) eqn:H1;
      destruct (Composer.CountHealers t2 pool =? 0) eqn:H2;
      cbn; try discriminate.
    intros _. apply Z.eqb_eq in H1, H2. auto.
  - destruct (Composer.CountHealers t1 pool =? 1) eqn:H1;
      destruct (Composer.CountHealers t2 pool =? 1) eqn:H2;
      cbn; try discriminate.
    intros _. apply Z.eqb_eq in H1, H2. auto.
Qed.

Lemma Composer_pipeline_valid : forall cands ts ft t now out,
  ts * 2 < 2 ^ 32 -> 2 <= ts \/ (ft = false /\ 0 <= ts) ->
  fst (Composer.SelectCandidates cands ts ft t now out) = true ->
  Composer.valid
    (Composer.FindBestTeamSplit
       (Composer.selected (snd (Composer.SelectCandidates cands ts ft t now out)))
       ts ft
       (Composer.allDpsMatch (snd (Composer.SelectCandidates cands ts ft t now out))))
  = true.
Proof.
  intros cands ts ft t now out Hfit Hcase Hok.
  assert (Hts : 0 <= ts) by (destruct Hcase as [H|[_ H]]; lia).
  pose proof (Composer_select_size cands ts ft t now out Hts Hfit Hok) as Hsz.
  set (res := Composer.SelectCandidates cands ts ft t now out) in *.
  set (sel := Composer.selected (snd res)) in *.
  set (adm := Composer.allDpsMatch (snd res)) in *.
  assert (Hn : length sel = (2 * Z.to_nat ts)%nat) by lia.
  destruct ft.
  - destruct Hcase as [H2|[H _]]; [|discriminate].
    destruct (Composer_role_quota cands ts t now out H2 Hfit Hok) as [Hstd Hfb].
    fold res in Hstd, Hfb. fold sel in Hstd, Hfb. fold adm in Hstd, Hfb.
    destruct adm eqn:Hadm.
    + destruct (Hfb eq_refl) as [HF _].
      apply (Composer_split_valid_if_kept sel ts true true (seq 0 (Z.to_nat ts)));
        try lia.
      * apply combos_has_prefix. lia.
      * unfold Composer_keeps, Composer.RoleBalanced.
        rewrite !(Composer_no_healer_count sel _ HF). reflexivity.
    + destruct (Hstd eq_refl) as (h1 & h2 & dps & Hsel & Hh1 & Hh2 & HF & Hd).
      destruct (Composer_standard_layout_counts h1 h2 dps (Z.to_nat ts)
                  Hh1 Hh2 HF) as (Hc & C1 & C2); [lia | lia |].
      rewrite <- Hsel in Hc, C1, C2.
      assert (Hkn : (Z.to_nat ts <= length sel)%nat) by lia.
      apply (Composer_split_valid_if_kept sel ts true false
               (0%nat :: seq 2 (Z.to_nat ts - 1))); try lia.
      * exact Hc.
      * unfold Composer_keeps.
        rewrite (combos_BuildComplement _ _ _ Hkn Hc).
        unfold Composer.RoleBalanced. rewrite C1, C2. reflexivity.
  - apply (Composer_split_valid_if_kept sel ts false adm (seq 0 (Z.to_nat ts)));
      try lia.
    + apply combos_has_prefix. lia.
    + reflexivity.
Qed.

Lemma length_filter_split : forall (A : Type) (p : A -> bool) (l : list A),
  (length (filter p l) + length (filter (fun x => negb (p x)) l))%nat = length l.
Proof.
  intros A p l. induction l as [|x l IH]; simpl; [reflexivity|].
  destruct (p x); simpl; lia.
Qed.

(** X4 (a selection can always be split).  For [teamSize >= 2], or with
    filterTalents off, every selection returned by SelectCandidates is split
    by FindBestTeamSplit run with the same flags: the result is valid, both
    teams have [teamSize] members and, under filterTalents, each team has
    exactly one healer (none after the all-DPS fallback).  Hence
    RunFullPipeline returns a valid split exactly when the selection
    succeeds. *)
Theorem X4_selection_always_splits :
  (forall cands ts ft t now out,
     ts * 2 < 2 ^ 32 -> 2 <= ts \/ (ft = false /\ 0 <= ts) ->
     let res := Composer.SelectCandidates cands ts ft t now out in
     let sel := Composer.selected (snd res) in
     let adm := Composer.allDpsMatch (snd res) in
     let r := Composer.FindBestTeamSplit sel ts ft adm in
     fst res = true ->
     Composer.valid r = true
     /\ length (Composer.team1Indices r) = Z.to_nat ts
     /\ length (Composer.team2Indices r) = Z.to_nat ts
     /\ (ft = true ->
         Composer.CountHealers (Composer.team1Indices r) sel
         = (if adm then 0 else 1)
         /\ Composer.CountHealers (Composer.team2Indices r) sel
            = (if adm then 0 else 1)))
  /\
  (forall cands ft t now,
     Composer.valid (RunFullPipeline cands ft t now)
     = fst (Composer.SelectCandidates cands TEAM_SIZE ft t now
              {| Composer.selected := []; Composer.allDpsMatch := false |})).
Proof.
  assert (Hmain : forall cands ts ft t now out,
     ts * 2 < 2 ^ 32 -> 2 <= ts \/ (ft = false /\ 0 <= ts) ->
     let res := Composer.SelectCandidates cands ts ft t now out in
     let sel := Composer.selected (snd res) in
     let adm := Composer.allDpsMatch (snd res) in
     let r := Composer.FindBestTeamSplit sel ts ft adm in
     fst res = true ->
     Composer.valid r = true
     /\ length (Composer.team1Indices r) = Z.to_nat ts
     /\ length (Composer.team2Indices r) = Z.to_nat ts
     /\ (ft = true ->
         Composer.CountHealers (Composer.team1Indices r) sel
         = (if adm then 0 else 1)
         /\ Composer.CountHealers (Composer.team2Indices r) sel
            = (if adm then 0 else 1))).
  { intros cands ts ft t now out Hfit Hcase res sel adm r Hok.
    assert (Hts : 0 <= ts) by (destruct Hcase as [H|[_ H]]; lia).
    pose proof (Composer_select_size cands ts ft t now out Hts Hfit Hok) as Hsz.
    fold res in Hsz. fold sel in Hsz.
    pose proof (Composer_pipeline_valid cands ts ft t now out Hfit Hcase Hok)
      as Hv.
    fold res in Hv. fold sel in Hv. fold adm in Hv. fold r in Hv.
    assert (Hlen : Z.of_nat (length sel) < 2 ^ 32) by lia.
    destruct (Composer_split_structure sel ts ft adm Hts Hfit Hlen Hv)
      as (_ & L1 & L2 & _).
    fold r in L1, L2.
    split; [exact Hv|]. split; [exact L1|]. split; [lia|].
    intros ->.
    destruct (Composer_split_optimal sel ts true adm Hts Hfit Hlen Hv)
      as (Hrb & _).
    now apply Composer_RoleBalanced_counts. }
  split; [exact Hmain|].
  intros cands ft t now. unfold RunFullPipeline.
  destruct (Composer.SelectCandidates cands TEAM_SIZE ft t now
              {| Composer.selected := []; Composer.allDpsMatch := false |})
    as [ok o] eqn:Hsel.
  cbn [fst]. destruct ok; cbn [negb]; [|reflexivity].
  destruct (Hmain cands TEAM_SIZE ft t now
              {| Composer.selected := []; Composer.allDpsMatch := false |})
    as [Hv _].
  - reflexivity.
  - left. unfold TEAM_SIZE. lia.
  - rewrite Hsel. reflexivity.
  - rewrite Hsel in Hv. exact Hv.
Qed.

Lemma X4_selection_always_splits_witness :
  Composer.valid
    (Composer.FindBestTeamSplit
       (Composer.selected
          (snd (Composer.SelectCandidates pool_spread 3 true 60000 100000
                  {| Composer.selected := []; Composer.allDpsMatch := false |})))
       3 true
       (Composer.allDpsMatch
          (snd (Composer.SelectCandidates pool_spread 3 true 60000 100000
                  {| Composer.selected := []; Composer.allDpsMatch := false |}))))
  = true.
Proof.
  apply (proj1 X4_selection_always_splits pool_spread 3 true 60000 100000
           {| Composer.selected := []; Composer.allDpsMatch := false |}).
  - reflexivity.
  - left. lia.
  - reflexivity.
Defined.

(** X5 (one a side under filterTalents).  With [teamSize = 1] and
    filterTalents set, SelectCandidates needs no healer and returns
    exactly two candidates, both damage dealers, without the fallback
    flag, while FindBestTeamSplit asks
    for exactly one healer per team: every selection that succeeds is
    rejected by the partitioner. *)
Theorem X5_one_a_side_never_splits :
  forall cands t now out,
    let res := Composer.SelectCandidates cands 1 true t now out in
    fst res = true ->
    Composer.allDpsMatch (snd res) = false
    /\ length (Composer.selected (snd res)) = 2%nat
    /\ Forall (fun c => Composer.isHealer c = false) (Composer.selected (snd res))
    /\ Composer.valid
         (Composer.FindBestTeamSplit (Composer.selected (snd res)) 1 true
            (Composer.allDpsMatch (snd res))) = false.
Proof.
  intros cands t now out res Hok.
  pose proof (Composer_select_size cands 1 true t now out
                ltac:(lia) ltac:(reflexivity) Hok) as Hsz.
  fold res in Hsz.
  assert (Hshape : Composer.allDpsMatch (snd res) = false
                   /\ Forall (fun c => Composer.isHealer c = false)
                        (Composer.selected (snd res))).
  { revert Hok. unfold res. rewrite Composer_SelectCandidates_eq. cbn zeta.
    cbn [negb]. replace (wrap32 (1 * 2)) with 2 by reflexivity.
    replace (1 <? 1) with false by reflexivity.
    replace (wrap32 (2 - 0)) with 2 by reflexivity.
    destruct (Z.of_nat (length cands) <? 2) eqn:Hg;
      cbn [fst snd Composer.selected Composer.allDpsMatch]; [discriminate|].
    apply Z.ltb_ge in Hg.
    destruct (_ && _) eqn:Hstd;
      cbn [fst snd Composer.selected Composer.allDpsMatch].
    - intros _. split; [reflexivity|]. cbn [Z.to_nat firstn app].
      eapply Forall_impl;
        [|apply (Forall_firstn_filter _ (fun c => negb (Composer.isHealer c)))].
      intros c Hc. now apply negb_true_iff.
    - destruct (length (filter Composer.isHealer cands) =? 0)%nat eqn:H0;
        cbn [fst snd Composer.selected Composer.allDpsMatch]; [|discriminate].
      exfalso. apply Nat.eqb_eq in H0.
      pose proof (length_filter_split _ Composer.isHealer cands) as Hs.
      apply andb_false_iff in Hstd. destruct Hstd as [Hstd|Hstd].
      + apply Z.leb_gt in Hstd. lia.
      + apply Z.leb_gt in Hstd. lia. }
  destruct Hshape as [Hadm HF]. split; [exact Hadm|].
  split; [lia|]. split; [exact HF|].
  rewrite Hadm.
  apply Composer_split_invalid_if_none; try lia.
  intros c _. unfold Composer_keeps, Composer.RoleBalanced.
  rewrite !(Composer_no_healer_count _ _ HF). reflexivity.
Qed.

Lemma X5_one_a_side_never_splits_witness :
  Composer.valid
    (Composer.FindBestTeamSplit
       (Composer.selected
          (snd (Composer.SelectCandidates pool_three 1 true 60000 100000
                  {| Composer.selected := []; Composer.allDpsMatch := false |})))
       1 true
       (Composer.allDpsMatch
          (snd (Composer.SelectCandidates pool_three 1 true 60000 100000
                  {| Composer.selected := []; Composer.allDpsMatch := false |}))))
  = false.
Proof.
  apply (X5_one_a_side_never_splits pool_three 60000 100000
           {| Composer.selected := []; Composer.allDpsMatch := false |}).
  reflexivity.
Defined.

(** * Further properties of the class-stacking filter *)

Lemma land_pow2 : forall m k,
  0 <= k -> Z.land m (2 ^ k) = if Z.testbit m k then 2 ^ k else 0.
Proof.
  intros m k Hk. apply Z.bits_inj'. intros i Hi.
  rewrite Z.land_spec, Z.pow2_bits_eqb by assumption.
  destruct (Z.eqb_spec k i) as [->|Hne].
  - destruct (Z.testbit m i).
    + rewrite Z.pow2_bits_eqb by assumption. now rewrite Z.eqb_refl.
    + now rewrite Z.bits_0.
  - rewrite andb_false_r. destruct (Z.testbit m k).
    + rewrite Z.pow2_bits_eqb by assumption.
      symmetry. now apply Z.eqb_neq.
    + now rewrite Z.bits_0.
Qed.

(** The bit position of a class id in the class mask. *)
Lemma ClassIdToMaskBit_pow2 : forall c,
  (1 <= c <= 9 \/ c = 11) ->
  ComposerCS.ClassIdToMaskBit c = 2 ^ (if c =? 11 then 10 else c - 1).
Proof.
  intros c Hc. unfold ComposerCS.ClassIdToMaskBit.
  destruct ((1 <=? c) && (c <=? 9)) eqn:H19.
  - apply andb_true_iff in H19. destruct H19 as [H1 H9].
    apply Z.leb_le in H1, H9.
    assert (H11 : (c =? 11) = false) by (apply Z.eqb_neq; lia).
    rewrite H11. apply Z.shiftl_1_l.
  - assert (c = 11).
    { destruct Hc as [[H1 H9]|H]; [|exact H]. exfalso.
      apply andb_false_iff in H19. destruct H19 as [H|H]; apply Z.leb_gt in H; lia. }
    subst c. reflexivity.
Qed.



(** The pair test, level by level. *)
Lemma StackingPair_level_1 : forall a b mask,
  ComposerCS.StackingPair a b 1 mask
  = (ComposerCS.classId a =? ComposerCS.classId b)
    && ((mask =? 0)
        || negb (Z.land mask (ComposerCS.ClassIdToMaskBit (ComposerCS.classId a))
                 =? 0)).
Proof.
  intros a b mask. unfold ComposerCS.StackingPair.
  destruct (ComposerCS.classId a =? ComposerCS.classId b); cbn [negb andb];
    [|reflexivity].
  destruct (mask =? 0); cbn [negb andb orb]; [reflexivity|].
  destruct (Z.land mask _ =? 0); reflexivity.
Qed.

Lemma StackingPair_level_2_4 : forall a b lvl mask,
  lvl = 2 \/ lvl = 3 \/ lvl = 4 ->
  ComposerCS.StackingPair a b lvl mask
  = ComposerCS.StackingPair a b 1 mask
    && (negb (ComposerCS.isHealer a) && negb (ComposerCS.isHealer b)).
Proof.
  intros a b lvl mask Hl. rewrite StackingPair_level_1.
  unfold ComposerCS.StackingPair, ComposerCS.isHealer.
  destruct (ComposerCS.classId a =? ComposerCS.classId b); cbn [negb andb];
    [|reflexivity].
  destruct (mask =? 0); cbn [negb andb orb].
  - destruct Hl as [-> |[-> | ->]];
      destruct (ComposerCS.role a), (ComposerCS.role b); reflexivity.
  - destruct (Z.land mask _ =? 0); cbn [negb andb]; [reflexivity|].
    destruct Hl as [-> |[-> | ->]];
      destruct (ComposerCS.role a), (ComposerCS.role b); reflexivity.
Qed.

Lemma StackingPair_level_off : forall a b lvl mask,
  lvl < 1 \/ 6 < lvl -> ComposerCS.StackingPair a b lvl mask = false.
Proof.
  intros a b lvl mask Hl. unfold ComposerCS.StackingPair.
  destruct (negb (ComposerCS.classId a =? ComposerCS.classId b)); [reflexivity|].
  destruct (negb (mask =? 0) && _); [reflexivity|].
  destruct lvl as [|p|p]; try reflexivity.
  destruct p as [[[p|p|]|[p|p|]|]|[[p|p|]|[p|p|]|]|]; try reflexivity; lia.
Qed.

(** Whatever the level, a conflicting pair conflicts at level 1. *)
Lemma StackingPair_level_1_strictest : forall a b lvl mask,
  ComposerCS.StackingPair a b lvl mask = true ->
  ComposerCS.StackingPair a b 1 mask = true.
Proof.
  intros a b lvl mask. rewrite StackingPair_level_1.
  unfold ComposerCS.StackingPair.
  destruct (ComposerCS.classId a =? ComposerCS.classId b); cbn [negb andb];
    [|discriminate].
  destruct (mask =? 0); cbn [negb andb orb]; [reflexivity|].
  destruct (Z.land mask _ =? 0); cbn [negb]; [discriminate|reflexivity].
Qed.

Lemma PoolPair_Some : forall pool lvl mask i j,
  ComposerCS.PoolPair pool lvl mask i j = true <->
  exists a b, nth_error pool i = Some a /\ nth_error pool j = Some b
              /\ ComposerCS.StackingPair a b lvl mask = true.
Proof.
  intros pool lvl mask i j. unfold ComposerCS.PoolPair. split.
  - destruct (nth_error pool i) as [a|]; [|discriminate].
    destruct (nth_error pool j) as [b|]; [|discriminate].
    intro H. exists a, b. auto.
  - intros (a & b & -> & -> & H). exact H.
Qed.

(** X7 (stacking levels 1 to 4).  At level 1 a team is rejected exactly
    when two of its members have the same class id and the mask selects it
    ([classMask = 0] or the bit of the class set); at levels 2, 3 and 4
    exactly when, in addition, both members are damage dealers: two
    same-class healers, or a healer and a damage dealer, are let through. *)
Theorem X7_stacking_levels_1_to_4 :
  forall indices pool mask,
    let selected_by_mask c :=
      mask = 0 \/ Z.land mask (ComposerCS.ClassIdToMaskBit c) <> 0 in
    (ComposerCS.HasClassStackingConflict indices pool 1 mask = true
     <-> exists l1 i l2 j l3 a b,
           indices = l1 ++ i :: l2 ++ j :: l3
           /\ nth_error pool i = Some a /\ nth_error pool j = Some b
           /\ ComposerCS.classId a = ComposerCS.classId b
           /\ selected_by_mask (ComposerCS.classId a))
    /\ (forall lvl, lvl = 2 \/ lvl = 3 \/ lvl = 4 ->
        (ComposerCS.HasClassStackingConflict indices pool lvl mask = true
         <-> exists l1 i l2 j l3 a b,
               indices = l1 ++ i :: l2 ++ j :: l3
               /\ nth_error pool i = Some a /\ nth_error pool j = Some b
               /\ ComposerCS.classId a = ComposerCS.classId b
               /\ selected_by_mask (ComposerCS.classId a)
               /\ ComposerCS.role a = DPS /\ ComposerCS.role b = DPS)).
Proof.
  intros indices pool mask sel.
  assert (H1 : forall a b,
            ComposerCS.StackingPair a b 1 mask = true
            <-> ComposerCS.classId a = ComposerCS.classId b
                /\ sel (ComposerCS.classId a)).
  { intros a b. rewrite StackingPair_level_1, andb_true_iff, orb_true_iff.
    unfold sel. rewrite Z.eqb_eq, Z.eqb_eq, negb_true_iff, Z.eqb_neq. tauto. }
  assert (Hdps : forall a, negb (ComposerCS.isHealer a) = true
                           <-> ComposerCS.role a = DPS).
  { intro a. unfold ComposerCS.isHealer.
    destruct (ComposerCS.role a); simpl; split; intro H; congruence. }
  split.
  - rewrite HasClassStackingConflict_iff. split.
    + intros (l1 & i & l2 & j & l3 & Hi & Hp).
      apply PoolPair_Some in Hp. destruct Hp as (a & b & Ha & Hb & Hp).
      apply H1 in Hp. exists l1, i, l2, j, l3, a, b. tauto.
    + intros (l1 & i & l2 & j & l3 & a & b & Hi & Ha & Hb & Hc & Hm).
      exists l1, i, l2, j, l3. split; [exact Hi|].
      apply PoolPair_Some. exists a, b. rewrite H1. tauto.
  - intros lvl Hl. rewrite HasClassStackingConflict_iff. split.
    + intros (l1 & i & l2 & j & l3 & Hi & Hp).
      apply PoolPair_Some in Hp. destruct Hp as (a & b & Ha & Hb & Hp).
      rewrite (StackingPair_level_2_4 a b lvl mask Hl) in Hp.
      apply andb_true_iff in Hp. destruct Hp as [Hp Hr].
      apply andb_true_iff in Hr. destruct Hr as [Hra Hrb].
      apply H1 in Hp. apply Hdps in Hra, Hrb.
      exists l1, i, l2, j, l3, a, b. tauto.
    + intros (l1 & i & l2 & j & l3 & a & b & Hi & Ha & Hb & Hc & Hm & Hra & Hrb).
      exists l1, i, l2, j, l3. split; [exact Hi|].
      apply PoolPair_Some. exists a, b. split; [exact Ha|]. split; [exact Hb|].
      rewrite (StackingPair_level_2_4 a b lvl mask Hl).
      apply andb_true_iff. split; [apply H1; tauto|].
      apply andb_true_iff. split; apply Hdps; assumption.
Qed.

(** Two damage-dealing rogues are rejected at level 4 with an empty
    mask. *)
Lemma X7_stacking_levels_1_to_4_witness :
  ComposerCS.HasClassStackingConflict [2; 3]%nat
    [queuedCS HEALER 1500 0 5; queuedCS HEALER 1500 0 5;
     queuedCS DPS 1500 0 4; queuedCS DPS 1500 0 4] 4 0 = true.
Proof.
  destruct (X7_stacking_levels_1_to_4 [2; 3]%nat
              [queuedCS HEALER 1500 0 5; queuedCS HEALER 1500 0 5;
               queuedCS DPS 1500 0 4; queuedCS DPS 1500 0 4] 0) as [_ H].
  apply (H 4); [now right; right|].
  exists [], 2%nat, [], 3%nat, [],
    (queuedCS DPS 1500 0 4), (queuedCS DPS 1500 0 4).
  repeat split; try reflexivity. now left.
Defined.


Lemma HasClassStackingConflict_level_1_strictest : forall indices pool lvl mask,
  ComposerCS.HasClassStackingConflict indices pool lvl mask = true ->
  ComposerCS.HasClassStackingConflict indices pool 1 mask = true.
Proof.
  intros indices pool lvl mask H.
  apply HasClassStackingConflict_iff in H.
  destruct H as (l1 & i & l2 & j & l3 & Hi & Hp).
  apply HasClassStackingConflict_iff. exists l1, i, l2, j, l3.
  split; [exact Hi|].
  apply PoolPair_Some in Hp. destruct Hp as (a & b & Ha & Hb & Hp).
  apply PoolPair_Some. exists a, b. split; [exact Ha|]. split; [exact Hb|].
  eapply StackingPair_level_1_strictest; eauto.
Qed.

Lemma HasClassStackingConflict_level_off : forall indices pool lvl mask,
  lvl < 1 \/ 6 < lvl ->
  ComposerCS.HasClassStackingConflict indices pool lvl mask = false.
Proof.
  intros indices pool lvl mask Hl.
  destruct (ComposerCS.HasClassStackingConflict indices pool lvl mask) eqn:H;
    [|reflexivity].
  apply HasClassStackingConflict_iff in H.
  destruct H as (l1 & i & l2 & j & l3 & _ & Hp).
  apply PoolPair_Some in Hp. destruct Hp as (a & b & _ & _ & Hp).
  rewrite (StackingPair_level_off a b lvl mask Hl) in Hp. discriminate.
Qed.

Lemma ComposerCS_ClassDiverse_off : forall lvl mask t1 t2 pool,
  lvl < 1 \/ 6 < lvl -> ComposerCS.ClassDiverse lvl mask t1 t2 pool = true.
Proof.
  intros lvl mask t1 t2 pool Hl. unfold ComposerCS.ClassDiverse.
  rewrite !(HasClassStackingConflict_level_off _ pool lvl mask Hl).
  destruct (0 <? lvl); reflexivity.
Qed.

Lemma ComposerCS_ClassDiverse_level_1_strictest : forall lvl mask t1 t2 pool,
  ComposerCS.ClassDiverse 1 mask t1 t2 pool = true ->
  ComposerCS.ClassDiverse lvl mask t1 t2 pool = true.
Proof.
  intros lvl mask t1 t2 pool. unfold ComposerCS.ClassDiverse.
  change (0 <? 1) with true. cbv iota.
  rewrite negb_true_iff, orb_false_iff. intros [H1 H2].
  destruct (0 <? lvl); [|reflexivity].
  rewrite negb_true_iff, orb_false_iff. split.
  - destruct (ComposerCS.HasClassStackingConflict t1 pool lvl mask) eqn:H;
      [|reflexivity].
    apply HasClassStackingConflict_level_1_strictest in H. congruence.
  - destruct (ComposerCS.HasClassStackingConflict t2 pool lvl mask) eqn:H;
      [|reflexivity].
    apply HasClassStackingConflict_level_1_strictest in H. congruence.
Qed.

(** The search depends on the level and the mask through the leaf test
    only. *)
Lemma ComposerCS_Enumerate_ext :
  forall sel ts n ft adm lvl mask lvl' mask',
    (forall c b, ComposerCS.Visit c sel ts n ft adm lvl mask b
                 = ComposerCS.Visit c sel ts n ft adm lvl' mask' b) ->
    forall remaining start depth st,
      ComposerCS.Enumerate remaining start depth sel ts n ft adm lvl mask st
      = ComposerCS.Enumerate remaining start depth sel ts n ft adm lvl' mask' st.
Proof.
  intros sel ts n ft adm lvl mask lvl' mask' HV.
  induction remaining as [|r IH]; intros start depth st; simpl.
  - now rewrite HV.
  - generalize (index_range start (loop_bound n ts depth)). intro l.
    revert st. induction l as [|i l IHl]; intro st; simpl; [reflexivity|].
    rewrite IH. apply IHl.
Qed.

Lemma ComposerCS_split_valid_if_kept : forall sel ts ft adm lvl mask c,
  0 <= ts -> ts * 2 < 2 ^ 32 -> Z.of_nat (length sel) < 2 ^ 32 ->
  ts * 2 <= Z.of_nat (length sel) ->
  In c (combos (length sel) (Z.to_nat ts) 0) ->
  ComposerCS_keeps sel (Z.to_nat ts) (length sel) ft adm lvl mask c = true ->
  ComposerCS.valid (ComposerCS.FindBestTeamSplit sel ts ft adm lvl mask) = true.
Proof.
  intros sel ts ft adm lvl mask c Hts Hfit Hlen Hen Hc Hk.
  destruct (ComposerCS.valid (ComposerCS.FindBestTeamSplit sel ts ft adm lvl mask))
    eqn:Hv; [reflexivity|].
  pose proof (ComposerCS_split_invalid sel ts ft adm lvl mask
                Hts Hfit Hlen Hen Hv c Hc).
  congruence.
Qed.

(** A weaker filter finds a split whenever a stronger one does, and one that
    is at least as even. *)
Lemma ComposerCS_split_relax : forall sel ts ft adm lvl1 mask1 lvl2 mask2,
  0 <= ts -> ts * 2 < 2 ^ 32 -> Z.of_nat (length sel) < 2 ^ 32 ->
  (forall t1 t2, ComposerCS.ClassDiverse lvl1 mask1 t1 t2 sel = true ->
                 ComposerCS.ClassDiverse lvl2 mask2 t1 t2 sel = true) ->
  ComposerCS.valid (ComposerCS.FindBestTeamSplit sel ts ft adm lvl1 mask1) = true ->
  ComposerCS.valid (ComposerCS.FindBestTeamSplit sel ts ft adm lvl2 mask2) = true
  /\ ComposerCS.mmrDiff (ComposerCS.FindBestTeamSplit sel ts ft adm lvl2 mask2)
     <= ComposerCS.mmrDiff (ComposerCS.FindBestTeamSplit sel ts ft adm lvl1 mask1).
Proof.
  intros sel ts ft adm lvl1 mask1 lvl2 mask2 Hts Hfit Hlen Hweak Hv1.
  destruct (ComposerCS_FindBestTeamSplit_valid sel ts ft adm lvl1 mask1
              Hts Hfit Hlen Hv1) as (Hk & Hfb1 & _ & HD1).
  destruct (first_best_some_in _ _ _ _ _ _ _ Hfb1) as [Hin1 Hacc1].
  assert (Hkeep2 : ComposerCS_keeps sel (Z.to_nat ts) (length sel) ft adm
                     lvl2 mask2
                     (ComposerCS.team1Indices
                        (ComposerCS.FindBestTeamSplit sel ts ft adm lvl1 mask1))
                   = true).
  { unfold ComposerCS_keeps in *. apply andb_true_iff in Hacc1.
    destruct Hacc1 as [Hr Hc]. rewrite Hr. cbn [andb]. apply Hweak. exact Hc. }
  assert (Hen : ts * 2 <= Z.of_nat (length sel)) by lia.
  pose proof (ComposerCS_split_valid_if_kept sel ts ft adm lvl2 mask2 _
                Hts Hfit Hlen Hen Hin1 Hkeep2) as Hv2.
  split; [exact Hv2|].
  destruct (ComposerCS_FindBestTeamSplit_valid sel ts ft adm lvl2 mask2
              Hts Hfit Hlen Hv2) as (_ & Hfb2 & _ & HD2).
  pose proof (first_best_minimal _ _ _ Z_better_asym _ _ _ Hfb2 Hin1 Hkeep2)
    as Hmin.
  unfold Z_better in Hmin. apply Z.ltb_ge in Hmin.
  rewrite HD1, HD2. exact Hmin.
Qed.

(** X8 (levels ordered by strictness).  A level above 6 filters nothing:
    the result is that of level 0.  For every level and mask, a pool that
    splits at level 1 splits at that level too, and a pool that splits at
    that level splits with the filter off; each step can only lower the
    reported rating difference. *)
Theorem X8_stacking_level_relaxation :
  forall sel ts ft adm lvl mask,
    0 <= ts -> ts * 2 < 2 ^ 32 -> Z.of_nat (length sel) < 2 ^ 32 ->
    let split l := ComposerCS.FindBestTeamSplit sel ts ft adm l mask in
    (6 < lvl -> split lvl = split 0)
    /\ (ComposerCS.valid (split 1) = true ->
        ComposerCS.valid (split lvl) = true
        /\ ComposerCS.mmrDiff (split lvl) <= ComposerCS.mmrDiff (split 1))
    /\ (ComposerCS.valid (split lvl) = true ->
        ComposerCS.valid (split 0) = true
        /\ ComposerCS.mmrDiff (split 0) <= ComposerCS.mmrDiff (split lvl)).
Proof.
  intros sel ts ft adm lvl mask Hts Hfit Hlen split.
  split; [|split].
  - intro Hl. unfold split, ComposerCS.FindBestTeamSplit.
    destruct (wrap32 (Z.of_nat (length sel)) <? wrap32 (ts * 2)); [reflexivity|].
    rewrite (ComposerCS_Enumerate_ext sel (Z.to_nat ts)
               (Z.to_nat (wrap32 (Z.of_nat (length sel)))) ft adm lvl mask 0 mask);
      [reflexivity|].
    intros c b. unfold ComposerCS.Visit.
    rewrite (ComposerCS_ClassDiverse_off lvl mask) by lia.
    rewrite (ComposerCS_ClassDiverse_off 0 mask) by lia.
    reflexivity.
  - intro Hv. apply ComposerCS_split_relax; auto.
    intros t1 t2. apply ComposerCS_ClassDiverse_level_1_strictest.
  - intro Hv. apply ComposerCS_split_relax; auto.
Qed.

Lemma X8_stacking_level_relaxation_witness :
  ComposerCS.valid (ComposerCS.FindBestTeamSplit pool_druids 3 true false 4 0)
  = true.
Proof.
  apply (X8_stacking_level_relaxation pool_druids 3 true false 4 0);
    [lia | reflexivity | vm_compute; reflexivity | vm_compute; reflexivity].
Defined.

Lemma StackingPair_unmasked : forall a b lvl mask,
  mask <> 0 ->
  Z.land mask (ComposerCS.ClassIdToMaskBit (ComposerCS.classId a)) = 0 ->
  ComposerCS.StackingPair a b lvl mask = false.
Proof.
  intros a b lvl mask Hm Hland. unfold ComposerCS.StackingPair.
  destruct (negb (ComposerCS.classId a =? ComposerCS.classId b)); [reflexivity|].
  rewrite Hland. apply Z.eqb_neq in Hm. rewrite Hm. reflexivity.
Qed.

Lemma land_ClassIdToMaskBit_unflagged : forall mask c,
  ((1 <= c <= 9 \/ c = 11) ->
   Z.testbit mask (if c =? 11 then 10 else c - 1) = false) ->
  Z.land mask (ComposerCS.ClassIdToMaskBit c) = 0.
Proof.
  intros mask c H.
  destruct (Z_le_dec 1 c) as [H1|H1].
  - destruct (Z_le_dec c 9) as [H9|H9].
    + rewrite ClassIdToMaskBit_pow2 by lia.
      rewrite land_pow2 by (destruct (Z.eqb_spec c 11); lia).
      rewrite H by lia. reflexivity.
    + destruct (Z.eq_dec c 11) as [->|H11].
      * rewrite ClassIdToMaskBit_pow2 by lia.
        rewrite land_pow2 by (cbn; lia). rewrite H by lia. reflexivity.
      * unfold ComposerCS.ClassIdToMaskBit.
        replace (c <=? 9) with false by (symmetry; apply Z.leb_gt; lia).
        replace (c =? 11) with false by (symmetry; apply Z.eqb_neq; lia).
        rewrite andb_false_r. apply Z.land_0_r.
  - unfold ComposerCS.ClassIdToMaskBit.
    replace (1 <=? c) with false by (symmetry; apply Z.leb_gt; lia).
    replace (c =? 11) with false by (symmetry; apply Z.eqb_neq; lia).
    cbn [andb]. apply Z.land_0_r.
Qed.

(** X9 (the class mask exempts).  With a non-zero mask, a pool in which no
    player's class is flagged (bit [classId - 1] for classes 1 to 9, bit 10
    for class 11; any other class id has no bit) is never filtered: at every
    level the result is that of the filter switched off. *)
Theorem X9_mask_exempts_unflagged_classes :
  forall sel ts ft adm lvl mask,
    mask <> 0 ->
    (forall a, In a sel ->
       (1 <= ComposerCS.classId a <= 9 \/ ComposerCS.classId a = 11) ->
       Z.testbit mask (if ComposerCS.classId a =? 11 then 10
                       else ComposerCS.classId a - 1) = false) ->
    (forall indices,
       ComposerCS.HasClassStackingConflict indices sel lvl mask = false)
    /\ ComposerCS.FindBestTeamSplit sel ts ft adm lvl mask
       = ComposerCS.FindBestTeamSplit sel ts ft adm 0 mask.
Proof.
  intros sel ts ft adm lvl mask Hm Hbits.
  assert (Hno : forall indices,
            ComposerCS.HasClassStackingConflict indices sel lvl mask = false).
  { intro indices.
    destruct (ComposerCS.HasClassStackingConflict indices sel lvl mask) eqn:H;
      [|reflexivity].
    apply HasClassStackingConflict_iff in H.
    destruct H as (l1 & i & l2 & j & l3 & _ & Hp).
    apply PoolPair_Some in Hp. destruct Hp as (a & b & Ha & _ & Hp).
    rewrite StackingPair_unmasked in Hp; [discriminate|exact Hm|].
    apply land_ClassIdToMaskBit_unflagged. apply Hbits.
    eapply nth_error_In; eauto. }
  split; [exact Hno|].
  unfold ComposerCS.FindBestTeamSplit.
  destruct (wrap32 (Z.of_nat (length sel)) <? wrap32 (ts * 2)); [reflexivity|].
  rewrite (ComposerCS_Enumerate_ext sel (Z.to_nat ts)
             (Z.to_nat (wrap32 (Z.of_nat (length sel)))) ft adm lvl mask 0 mask);
    [reflexivity|].
  intros c b. unfold ComposerCS.Visit, ComposerCS.ClassDiverse.
  rewrite !Hno. change (0 <? 0) with false. cbv iota.
  destruct (0 <? lvl); reflexivity.
Qed.

(** The mask flags the paladin only (bit 1); the druids of [pool_druids]
    are left alone at level 1. *)
Lemma X9_mask_exempts_unflagged_classes_witness :
  ComposerCS.FindBestTeamSplit pool_druids 3 true false 1 2
  = ComposerCS.FindBestTeamSplit pool_druids 3 true false 0 2.
Proof.
  apply (X9_mask_exempts_unflagged_classes pool_druids 3 true false 1 2);
    [lia|].
  intros a Ha _.
  repeat (destruct Ha as [<-|Ha]; [reflexivity|]). destruct Ha.
Defined.

Lemma two_positions : forall (t : list nat) i j,
  In i t -> In j t -> i <> j ->
  exists l1 l2 l3,
    t = l1 ++ i :: l2 ++ j :: l3 \/ t = l1 ++ j :: l2 ++ i :: l3.
Proof.
  intros t i j Hi Hj Hne.
  apply in_split in Hi. destruct Hi as (l1 & r & ->).
  apply in_app_iff in Hj. destruct Hj as [Hj|[Hj|Hj]].
  - apply in_split in Hj. destruct Hj as (a & b & ->).
    exists a, b, r. right. now rewrite <- app_assoc.
  - congruence.
  - apply in_split in Hj. destruct Hj as (a & b & ->).
    exists l1, a, b. now left.
Qed.

Lemma TeamHasDuplicateClass_conflict : forall indices pool,
  TeamHasDuplicateClass indices pool = true ->
  ComposerCS.HasClassStackingConflict indices pool 1 0 = true.
Proof.
  intros indices pool. induction indices as [|i rest IH]; simpl; [discriminate|].
  rewrite !orb_true_iff, !existsb_exists. intros [(j & Hj & Hp)|H].
  - left. exists j. split; [exact Hj|].
    unfold SameClassPair in Hp. unfold ComposerCS.PoolPair.
    destruct (nth_error pool i) as [a|]; [|discriminate].
    destruct (nth_error pool j) as [b|]; [|discriminate].
    rewrite StackingPair_level_1. apply andb_true_iff in Hp.
    destruct Hp as [Hp _]. rewrite Hp. reflexivity.
  - right. auto.
Qed.

(** X10 (level 1 separates every class).  When the filter is at level 1
    with an empty mask, the two teams of a valid result each hold pairwise
    different class ids, the unknown class 0 included; the test suite's
    TeamHasDuplicateClass answers no on both. *)
Theorem X10_level_1_unique_classes :
  forall sel ts ft adm,
    0 <= ts -> ts * 2 < 2 ^ 32 -> Z.of_nat (length sel) < 2 ^ 32 ->
    let r := ComposerCS.FindBestTeamSplit sel ts ft adm 1 0 in
    ComposerCS.valid r = true ->
    forall team,
      team = ComposerCS.team1Indices r \/ team = ComposerCS.team2Indices r ->
      TeamHasDuplicateClass team sel = false
      /\ forall i j a b,
           In i team -> In j team -> i <> j ->
           nth_error sel i = Some a -> nth_error sel j = Some b ->
           ComposerCS.classId a <> ComposerCS.classId b.
Proof.
  intros sel ts ft adm Hts Hfit Hlen r Hv team Hteam.
  destruct (ComposerCS_split_optimal sel ts ft adm 1 0 Hts Hfit Hlen Hv)
    as ((_ & Hcd) & _).
  fold r in Hcd. unfold ComposerCS.ClassDiverse in Hcd.
  change (0 <? 1) with true in Hcd. cbv iota in Hcd.
  apply negb_true_iff, orb_false_iff in Hcd. destruct Hcd as [H1 H2].
  assert (Hno : ComposerCS.HasClassStackingConflict team sel 1 0 = false)
    by (destruct Hteam as [-> | ->]; assumption).
  split.
  - destruct (TeamHasDuplicateClass team sel) eqn:Hd; [|reflexivity].
    apply TeamHasDuplicateClass_conflict in Hd. congruence.
  - intros i j a b Hi Hj Hne Ha Hb Hc.
    assert (Hpair : ComposerCS.PoolPair sel 1 0 i j = true).
    { apply PoolPair_Some. exists a, b. split; [exact Ha|]. split; [exact Hb|].
      rewrite StackingPair_level_1. apply Z.eqb_eq in Hc. rewrite Hc.
      reflexivity. }
    assert (Hyes : ComposerCS.HasClassStackingConflict team sel 1 0 = true).
    { apply HasClassStackingConflict_iff.
      destruct (two_positions team i j Hi Hj Hne) as (l1 & l2 & l3 & [E|E]).
      - exists l1, i, l2, j, l3. auto.
      - exists l1, j, l2, i, l3. split; [exact E|].
        rewrite PoolPair_sym. exact Hpair. }
    congruence.
Qed.

Lemma X10_level_1_unique_classes_witness :
  TeamHasDuplicateClass
    (ComposerCS.team1Indices
       (ComposerCS.FindBestTeamSplit pool_druids 3 true false 1 0))
    pool_druids = false.
Proof.
  apply (X10_level_1_unique_classes pool_druids 3 true false);
    [lia | reflexivity | vm_compute; reflexivity | vm_compute; reflexivity
    | left; reflexivity].
Defined.

(** * Further properties of the production search *)

Lemma pick_fold_ext :
  forall (X S S' : Type) (accept accept' : X -> bool)
         (score : X -> S) (score' : X -> S')
         (better : S -> S -> bool) (better' : S' -> S' -> bool) l o,
    (forall c, accept c = accept' c) ->
    (forall c b, better (score c) (score b) = better' (score' c) (score' b)) ->
    fold_left (pick accept score better) l o
    = fold_left (pick accept' score' better') l o.
Proof.
  intros X S S' accept accept' score score' better better' l o Ha Hb.
  revert o. induction l as [|c l IH]; intro o; simpl; [reflexivity|].
  rewrite IH. f_equal. unfold pick. rewrite Ha.
  destruct (accept' c); [|reflexivity].
  destruct o as [b|]; [|reflexivity]. now rewrite Hb.
Qed.

Lemma toComposer_at_role : forall pool i,
  Composer.at_role (map toComposer pool) i = Solo3v3.at_role pool i.
Proof.
  intros pool i. unfold Composer.at_role, Solo3v3.at_role.
  rewrite nth_error_map. destruct (nth_error pool i) as [c|]; [|reflexivity].
  cbn [option_map]. unfold Composer.isHealer, toComposer. cbn [Composer.role].
  destruct (Solo3v3.TalentCat_eqb (Solo3v3.role c) Solo3v3.HEALER); reflexivity.
Qed.

Lemma toComposer_at_mmr : forall pool i,
  Composer.at_mmr (map toComposer pool) i = Solo3v3.at_mmr pool i.
Proof.
  intros pool i. unfold Composer.at_mmr, Solo3v3.at_mmr.
  rewrite nth_error_map. destruct (nth_error pool i); reflexivity.
Qed.

Lemma toComposer_CountHealers : forall pool t,
  Composer.CountHealers t (map toComposer pool) = Solo3v3.CountHealers t pool.
Proof.
  intros pool t. unfold Composer.CountHealers, Solo3v3.CountHealers.
  rewrite !fold_left_count. f_equal. apply Zsum_ext.
  intros i _. now rewrite toComposer_at_role.
Qed.

Lemma toComposer_SumMMR : forall pool t,
  Composer.SumMMR t (map toComposer pool) = Solo3v3.SumMMR t pool.
Proof.
  intros pool t. unfold Composer.SumMMR, Solo3v3.SumMMR.
  rewrite !fold_left_Zsum. f_equal. apply Zsum_ext.
  intros i _. now rewrite toComposer_at_mmr.
Qed.

Lemma toComposer_RoleBalanced : forall pool ft adm t1 t2,
  Composer.RoleBalanced ft adm t1 t2 (map toComposer pool)
  = Solo3v3.RoleBalanced ft adm t1 t2 pool.
Proof.
  intros pool ft adm t1 t2. unfold Composer.RoleBalanced, Solo3v3.RoleBalanced.
  now rewrite !toComposer_CountHealers.
Qed.

Lemma toComposer_TeamDiff : forall pool t1 t2,
  Composer.TeamDiff t1 t2 (map toComposer pool) = Solo3v3.TeamDiff t1 t2 pool.
Proof.
  intros pool t1 t2. unfold Composer.TeamDiff, Solo3v3.TeamDiff.
  now rewrite !toComposer_SumMMR.
Qed.

Lemma toComposer_keeps : forall pool k n ft adm c,
  Composer_keeps (map toComposer pool) k n ft adm c
  = Solo3v3_keeps pool k n ft adm c.
Proof.
  intros. unfold Composer_keeps, Solo3v3_keeps. apply toComposer_RoleBalanced.
Qed.

Lemma toComposer_diff : forall ign pool k n ai c,
  Composer_diff (map toComposer pool) k n c
  = fst (Solo3v3_score ign pool k n ai c).
Proof.
  intros. unfold Composer_diff, Solo3v3_score. cbn [fst].
  apply toComposer_TeamDiff.
Qed.

Lemma Solo3v3_TeamIgnores_off : forall ign t1 t2 pool,
  Solo3v3.TeamIgnores ign t1 t2 pool false = 0.
Proof. reflexivity. Qed.

(** X11 (the production search and the tested composer agree).  On the
    same players, read as healer or damage dealer with their rating,
    Solo3v3's search with ignore avoidance off returns exactly the teams of
    MatchmakingComposer::FindBestTeamSplit.  With ignore avoidance on it
    finds a split for the same pools, of the same rating difference, and
    with no more ignore pairs than the composer's teams have. *)
Theorem X11_production_search_mirrors_composer :
  forall (ign : Z -> Z -> bool) sel mp ft adm,
    0 <= mp -> mp * 2 <= Z.of_nat (length sel) ->
    Z.of_nat (length sel) < 2 ^ 32 ->
    let r := Composer.FindBestTeamSplit (map toComposer sel) mp ft adm in
    Solo3v3.CheckSolo3v3Arena_split ign sel mp ft adm false
    = (if Composer.valid r
       then Some (Composer.team1Indices r, Composer.team2Indices r)
       else None)
    /\ (Solo3v3.CheckSolo3v3Arena_split ign sel mp ft adm true = None
        <-> Composer.valid r = false)
    /\ forall t1 t2,
         Solo3v3.CheckSolo3v3Arena_split ign sel mp ft adm true = Some (t1, t2) ->
         Solo3v3.TeamDiff t1 t2 sel = Composer.mmrDiff r
         /\ Solo3v3.TeamIgnores ign t1 t2 sel true
            <= Solo3v3.TeamIgnores ign (Composer.team1Indices r)
                 (Composer.team2Indices r) sel true.
Proof.
  intros ign sel mp ft adm Hmp Hen Hlen r.
  assert (Hk : (Z.to_nat mp <= length sel)%nat) by lia.
  assert (Hfit : mp * 2 < 2 ^ 32) by lia.
  assert (HlenC : Z.of_nat (length (map toComposer sel)) < 2 ^ 32)
    by (rewrite length_map; exact Hlen).
  assert (HenC : mp * 2 <= Z.of_nat (length (map toComposer sel)))
    by (rewrite length_map; exact Hen).
  split; [|split].
  - unfold r, Solo3v3.CheckSolo3v3Arena_split, Composer.FindBestTeamSplit.
    rewrite length_map.
    rewrite (wrap32_small (Z.of_nat (length sel))) by lia.
    rewrite (wrap32_small (mp * 2)) by lia. rewrite Nat2Z.id.
    set (n := length sel) in *. set (k := Z.to_nat mp) in *.
    replace (Z.of_nat n <? mp * 2) with false by (symmetry; apply Z.ltb_ge; lia).
    pose proof (Solo3v3_Enumerate_tracks ign sel k n ft adm false Hlen Hk) as HS.
    pose proof (Composer_Enumerate_tracks (map toComposer sel) k n ft adm Hlen Hk)
      as HC.
    rewrite (pick_fold_ext _ _ _ (Composer_keeps (map toComposer sel) k n ft adm)
               (Solo3v3_keeps sel k n ft adm)
               (Composer_diff (map toComposer sel) k n)
               (Solo3v3_score ign sel k n false) Z_better lex_better) in HC.
    + destruct (fold_left _ (combos n k 0) None) as [c|]; simpl in HS, HC.
      * destruct HS as (S1 & S2 & _). destruct HC as (C1 & C2 & _).
        rewrite S1, C1. cbn [negb Composer.valid Composer.team1Indices
                               Composer.team2Indices].
        rewrite S2, C2. reflexivity.
      * rewrite HS, HC. reflexivity.
    + intro c. apply toComposer_keeps.
    + intros c b. rewrite !(toComposer_diff ign sel k n false).
      unfold lex_better, Z_better, Solo3v3_score. cbn [fst snd].
      rewrite !Solo3v3_TeamIgnores_off. cbn [Z.ltb Z.compare].
      now rewrite andb_false_r, orb_false_r.
  - split.
    + intro HN. destruct (Composer.valid r) eqn:Hv; [|reflexivity].
      destruct (Composer_FindBestTeamSplit_valid (map toComposer sel) mp ft adm
                  Hmp Hfit HlenC Hv) as (_ & Hfb & _).
      destruct (first_best_some_in _ _ _ _ _ _ _ Hfb) as [Hin Hacc].
      rewrite length_map in Hin, Hacc. rewrite toComposer_keeps in Hacc.
      pose proof (Solo3v3_split_none ign sel mp ft adm true Hmp Hk Hlen HN _ Hin).
      congruence.
    + intro Hv.
      destruct (Solo3v3.CheckSolo3v3Arena_split ign sel mp ft adm true)
        as [[t1 t2]|] eqn:E; [|reflexivity].
      destruct (Solo3v3_split_first_best ign sel mp ft adm true t1 t2
                  Hmp Hk Hlen E) as (Hfb & _).
      destruct (first_best_some_in _ _ _ _ _ _ _ Hfb) as [Hin Hacc].
      rewrite <- toComposer_keeps in Hacc.
      pose proof (Composer_split_invalid (map toComposer sel) mp ft adm
                    Hmp Hfit HlenC HenC Hv t1) as Hno.
      rewrite length_map in Hno. rewrite (Hno Hin) in Hacc. discriminate.
  - intros t1 t2 E.
    destruct (Solo3v3_split_first_best ign sel mp ft adm true t1 t2
                Hmp Hk Hlen E) as (Hfb & Ht2).
    destruct (first_best_some_in _ _ _ _ _ _ _ Hfb) as [Hin Hacc].
    set (n := length sel) in *. set (k := Z.to_nat mp) in *.
    assert (Hv : Composer.valid r = true).
    { apply (Composer_split_valid_if_kept (map toComposer sel) mp ft adm t1);
        auto; rewrite length_map; [exact Hin|].
      rewrite toComposer_keeps. exact Hacc. }
    destruct (Composer_FindBestTeamSplit_valid (map toComposer sel) mp ft adm
                Hmp Hfit HlenC Hv) as (_ & HfbC & HC2 & HD).
    fold r in HfbC, HC2, HD. rewrite length_map in HfbC, HC2, HD.
    fold n in HfbC, HC2, HD. fold k in HfbC, HD.
    destruct (first_best_some_in _ _ _ _ _ _ _ HfbC) as [HinC HaccC].
    rewrite toComposer_keeps in HaccC.
    pose proof (first_best_minimal _ _ _ lex_better_asym _ _ _ Hfb HinC HaccC)
      as HminS.
    rewrite <- toComposer_keeps in Hacc.
    pose proof (first_best_minimal _ _ _ Z_better_asym _ _ _ HfbC Hin Hacc)
      as HminC.
    unfold Z_better in HminC. apply Z.ltb_ge in HminC.
    rewrite !(toComposer_diff ign sel k n true) in HminC.
    unfold lex_better in HminS.
    apply orb_false_iff in HminS. destruct HminS as [Hlt Heq].
    apply Z.ltb_ge in Hlt.
    assert (Hd : fst (Solo3v3_score ign sel k n true (Composer.team1Indices r))
                 = fst (Solo3v3_score ign sel k n true t1)) by lia.
    rewrite Hd, Z.eqb_refl in Heq. cbn [andb] in Heq. apply Z.ltb_ge in Heq.
    assert (Hk' : (k <= n)%nat) by exact Hk.
    pose proof (combos_BuildComplement n k _ Hk' Hin) as B1.
    pose proof (combos_BuildComplement n k _ Hk' HinC) as B2.
    unfold Solo3v3_score in Hd, Heq. cbn [fst snd] in Hd, Heq.
    rewrite B1, <- Ht2 in Hd, Heq. rewrite B2, <- HC2 in Hd, Heq.
    split; [|exact Heq].
    rewrite HD, (toComposer_diff ign sel k n true).
    unfold Solo3v3_score. cbn [fst]. rewrite B2, <- HC2. symmetry. exact Hd.
Qed.

Lemma X11_production_search_mirrors_composer_witness :
  Solo3v3.CheckSolo3v3Arena_split ignores_3_4 arena_pool 3 true false false
  = Some ([0; 2; 3]%nat, [1; 4; 5]%nat).
Proof.
  rewrite (proj1 (X11_production_search_mirrors_composer ignores_3_4 arena_pool
                    3 true false ltac:(lia) ltac:(vm_compute; discriminate)
                    ltac:(vm_compute; reflexivity))).
  vm_compute. reflexivity.
Defined.

Lemma Solo3v3_split_structure : forall ign sel mp ft adm ai t1 t2,
  0 <= mp -> mp * 2 <= Z.of_nat (length sel) ->
  Z.of_nat (length sel) < 2 ^ 32 ->
  Solo3v3.CheckSolo3v3Arena_split ign sel mp ft adm ai = Some (t1, t2) ->
  length t1 = Z.to_nat mp
  /\ length t2 = (length sel - Z.to_nat mp)%nat
  /\ t2 = complement_of t1 (length sel)
  /\ In t1 (combos (length sel) (Z.to_nat mp) 0)
  /\ Permutation (t1 ++ t2) (seq 0 (length sel))
  /\ Solo3v3.RoleBalanced ft adm t1 t2 sel = true.
Proof.
  intros ign sel mp ft adm ai t1 t2 Hmp Hen Hlen E.
  assert (Hk : (Z.to_nat mp <= length sel)%nat) by lia.
  destruct (Solo3v3_split_first_best ign sel mp ft adm ai t1 t2 Hmp Hk Hlen E)
    as (Hfb & Ht2).
  destruct (first_best_some_in _ _ _ _ _ _ _ Hfb) as [Hin Hacc].
  destruct (combos_sound _ _ _ _ Hk Hin) as (L & I & F).
  assert (HP : Permutation (t1 ++ t2) (seq 0 (length sel))).
  { rewrite Ht2. apply complement_of_partition; auto.
    eapply increasing_from_NoDup; eauto. }
  split; [exact L|]. split.
  { apply Permutation_length in HP. rewrite length_app, length_seq in HP. lia. }
  split; [exact Ht2|]. split; [exact Hin|]. split; [exact HP|].
  unfold Solo3v3_keeps in Hacc.
  rewrite (combos_BuildComplement _ _ _ Hk Hin), <- Ht2 in Hacc. exact Hacc.
Qed.

Lemma Solo3v3_RoleBalanced_counts : forall adm t1 t2 pool,
  Solo3v3.RoleBalanced true adm t1 t2 pool = true ->
  Solo3v3.CountHealers t1 pool = (if adm then 0 else 1)
  /\ Solo3v3.CountHealers t2 pool = (if adm then 0 else 1).
Proof.
  intros adm t1 t2 pool H. rewrite <- toComposer_RoleBalanced in H.
  rewrite <- !toComposer_CountHealers.
  now apply Composer_RoleBalanced_counts.
Qed.

Lemma toComposer_isHealer : forall c,
  Composer.isHealer (toComposer c) = Arena.isHealer c.
Proof.
  intro c. unfold Composer.isHealer, Arena.isHealer, toComposer.
  cbn [Composer.role].
  destruct (Solo3v3.TalentCat_eqb (Solo3v3.role c) Solo3v3.HEALER); reflexivity.
Qed.

Lemma Forall_toComposer_dps : forall l,
  Forall (fun c => Arena.isHealer c = false) l ->
  Forall (fun c => Composer.isHealer c = false) (map toComposer l).
Proof.
  intros l H. apply Forall_map. eapply Forall_impl; [|exact H].
  intros c Hc. now rewrite toComposer_isHealer.
Qed.

Lemma Forall_firstn_filter_negb : forall (A : Type) (p : A -> bool) k (l : list A),
  Forall (fun x => p x = false) (firstn k (filter (fun x => negb (p x)) l)).
Proof.
  intros A p k l. apply Forall_forall. intros x Hx.
  apply firstn_incl in Hx. apply filter_In in Hx.
  destruct Hx as [_ Hx]. now apply negb_true_iff in Hx.
Qed.

(** Phase 2 at [MinPlayers = 3]. *)
Lemma Arena_SelectPhase_3 : forall waited all ft,
  Arena.SelectPhase waited all 3 ft
  = if negb ft then (firstn 6 all, false)
    else
      let h := filter Arena.isHealer all in
      let d := filter (fun c => negb (Arena.isHealer c)) all in
      if (2 <=? Arena.size h) && (4 <=? Arena.size d) then
        (firstn 2 h ++ firstn 4 d, false)
      else if Arena.size h =? 0 then
        if 6 <=? Arena.size (filter waited d) then
          (firstn 6 (filter waited d), true)
        else ([], false)
      else ([], false).
Proof. reflexivity. Qed.

(** Phase 2 at [MinPlayers = 1]: the healer quota is zero. *)
Lemma Arena_SelectPhase_1 : forall waited all,
  Arena.SelectPhase waited all 1 true
  = let d := filter (fun c => negb (Arena.isHealer c)) all in
    if 2 <=? Arena.size d then (firstn 2 d, false)
    else if Arena.size (filter Arena.isHealer all) =? 0 then
      if 2 <=? Arena.size (filter waited d) then
        (firstn 2 (filter waited d), true)
      else ([], false)
    else ([], false).
Proof.
  intros waited all. unfold Arena.SelectPhase. cbn [negb].
  change (1 >? 1) with false. cbv iota.
  change (wrap32 (1 * 2)) with 2. change (wrap32 (2 - 0)) with 2.
  change (Z.to_nat 0) with 0%nat. change (Z.to_nat 2) with 2%nat.
  cbn [firstn app].
  replace (0 <=? Arena.size (filter Arena.isHealer all)) with true
    by (symmetry; apply Z.leb_le; unfold Arena.size; lia).
  reflexivity.
Qed.

(** X12 (arena testing with the talent filter never matches).  In
    arena-testing mode [MinPlayers] is 1 and the healer quota of phase 2 is
    zero, so phase 2 can only select two damage dealers with [allDpsMatch]
    unset; phase 3 then asks for one healer a side and rejects the pair.
    CheckSolo3v3Arena returns false whatever the queue holds. *)
Theorem X12_arena_testing_with_filter_never_matches :
  forall (ign : Z -> Z -> bool) (waited : Solo3v3.Candidate -> bool)
         allCandidates avoidIgnore,
    Arena.CheckSolo3v3Arena ign waited allCandidates true true avoidIgnore
    = None.
Proof.
  intros ign waited all ai. unfold Arena.CheckSolo3v3Arena.
  change (wrap32 (1 * 2)) with 2.
  destruct (Arena.size all <? 2); [reflexivity|].
  rewrite Arena_SelectPhase_1. cbv zeta.
  set (d := filter (fun c => negb (Arena.isHealer c)) all).
  destruct (2 <=? Arena.size d) eqn:Hd.
  - apply Z.leb_le in Hd. unfold Arena.size in Hd.
    assert (Hlen : length (firstn 2 d) = 2%nat)
      by (rewrite length_firstn; lia).
    unfold Arena.size at 1. rewrite Hlen. change (Z.of_nat 2 <? 2) with false.
    cbv iota.
    destruct (Solo3v3.CheckSolo3v3Arena_split ign (firstn 2 d) 1 true false ai)
      as [[t1 t2]|] eqn:E; [|reflexivity].
    exfalso.
    destruct (Solo3v3_split_structure ign (firstn 2 d) 1 true false ai t1 t2)
      as (_ & _ & _ & _ & _ & Hrb); try (rewrite ?Hlen; cbn; lia); [exact E|].
    apply Solo3v3_RoleBalanced_counts in Hrb. destruct Hrb as [H1 _].
    rewrite <- toComposer_CountHealers in H1.
    rewrite Composer_no_healer_count in H1; [discriminate|].
    apply Forall_toComposer_dps. apply Forall_firstn_filter_negb.
  - destruct (Arena.size (filter Arena.isHealer all) =? 0).
    + replace (2 <=? Arena.size (filter waited d)) with false; [reflexivity|].
      symmetry. apply Z.leb_gt. apply Z.leb_gt in Hd. unfold Arena.size in *.
      pose proof (length_filter_le _ waited d). lia.
    + reflexivity.
Qed.

Lemma firstn_two_four : forall (h d : list Solo3v3.Candidate),
  (2 <= length h)%nat -> (4 <= length d)%nat ->
  exists h1 h2,
    firstn 2 h ++ firstn 4 d = h1 :: h2 :: firstn 4 d
    /\ In h1 h /\ In h2 h.
Proof.
  intros [|h1 [|h2 h]] d Hh Hd; simpl in Hh; try lia.
  exists h1, h2. simpl. auto.
Qed.

(** Phases 2 and 3 outside arena testing: when a match is formed, and
    which. *)
Lemma Arena_CheckSolo3v3Arena_spec :
  forall (ign : Z -> Z -> bool) (waited : Solo3v3.Candidate -> bool)
         allCandidates filterTalents avoidIgnore,
    let h := filter Arena.isHealer allCandidates in
    let d := filter (fun c => negb (Arena.isHealer c)) allCandidates in
    let w := filter waited d in
    match Arena.CheckSolo3v3Arena ign waited allCandidates false
            filterTalents avoidIgnore with
    | None =>
        if filterTalents
        then ~ (((2 <= length h)%nat /\ (4 <= length d)%nat)
                \/ (h = [] /\ (6 <= length w)%nat))
        else (length allCandidates < 6)%nat
    | Some (selected, (team1, team2)) =>
        selected
        = (if filterTalents
           then if (2 <=? length h)%nat && (4 <=? length d)%nat
                then firstn 2 h ++ firstn 4 d
                else firstn 6 w
           else firstn 6 allCandidates)
        /\ length selected = 6%nat
        /\ length team1 = 3%nat /\ length team2 = 3%nat
        /\ Permutation (team1 ++ team2) (seq 0 6)
        /\ (filterTalents = true ->
            Solo3v3.CountHealers team1 selected
            = (if (length h =? 0)%nat then 0 else 1)
            /\ Solo3v3.CountHealers team2 selected
               = (if (length h =? 0)%nat then 0 else 1))
    end.
Proof.
  intros ign waited all ft ai h d w.
  assert (Hsplit : forall sel adm,
            length sel = 6%nat ->
            (exists c, In c (combos 6 3 0)
                       /\ Solo3v3_keeps sel 3 6 ft adm c = true) ->
            exists t1 t2,
              Solo3v3.CheckSolo3v3Arena_split ign sel 3 ft adm ai = Some (t1, t2)
              /\ length t1 = 3%nat /\ length t2 = 3%nat
              /\ Permutation (t1 ++ t2) (seq 0 6)
              /\ Solo3v3.RoleBalanced ft adm t1 t2 sel = true).
  { intros sel adm Hlen (c & Hc & Hkeep).
    destruct (Solo3v3_split_some_if_kept ign sel 3 ft adm ai c) as (t1 & t2 & E);
      try (rewrite ?Hlen; cbn; lia).
    - rewrite Hlen. exact Hc.
    - rewrite Hlen. exact Hkeep.
    - exists t1, t2. split; [exact E|].
      destruct (Solo3v3_split_structure ign sel 3 ft adm ai t1 t2)
        as (L1 & L2 & _ & _ & HP & Hrb); try (rewrite ?Hlen; cbn; lia);
        [exact E|].
      rewrite Hlen in L2, HP. auto. }
  assert (Hall : (length h + length d)%nat = length all)
    by apply length_filter_split.
  unfold Arena.CheckSolo3v3Arena. change (wrap32 (3 * 2)) with 6.
  rewrite Arena_SelectPhase_3. cbv zeta. fold h. fold d. fold w.
  unfold Arena.size.
  destruct ft; cbn [negb].
  - destruct ((2 <=? Z.of_nat (length h)) && (4 <=? Z.of_nat (length d)))
      eqn:Hstd.
    + apply andb_true_iff in Hstd. destruct Hstd as [Hh Hd].
      apply Z.leb_le in Hh, Hd.
      replace (Z.of_nat (length all) <? 6) with false
        by (symmetry; apply Z.ltb_ge; lia).
      assert (Hlen : length (firstn 2 h ++ firstn 4 d) = 6%nat)
        by (rewrite length_app, !length_firstn; lia).
      rewrite Hlen. change (Z.of_nat 6 <? 6) with false. cbv iota.
      replace ((2 <=? length h)%nat && (4 <=? length d)%nat) with true
        by (symmetry; apply andb_true_iff; split; apply Nat.leb_le; lia).
      replace (length h =? 0)%nat with false
        by (symmetry; apply Nat.eqb_neq; lia).
      destruct (Hsplit (firstn 2 h ++ firstn 4 d) false Hlen)
        as (t1 & t2 & E & L1 & L2 & HP & Hrb).
      { destruct (firstn_two_four h d) as (h1 & h2 & Hsel & Hh1 & Hh2);
          try lia.
        rewrite Hsel.
        assert (I1 : Composer.isHealer (toComposer h1) = true).
        { rewrite toComposer_isHealer. apply filter_In in Hh1. tauto. }
        assert (I2 : Composer.isHealer (toComposer h2) = true).
        { rewrite toComposer_isHealer. apply filter_In in Hh2. tauto. }
        assert (HF : Forall (fun c => Composer.isHealer c = false)
                       (map toComposer (firstn 4 d))).
        { apply Forall_toComposer_dps. apply Forall_firstn_filter_negb. }
        assert (Hd4 : length (map toComposer (firstn 4 d)) = (2 * 3 - 2)%nat).
        { rewrite length_map, length_firstn. lia. }
        destruct (Composer_standard_layout_counts _ _ _ 3%nat I1 I2 HF
                    ltac:(lia) Hd4) as (Hc & C1 & C2).
        cbn [length] in Hc, C2. rewrite length_map, length_firstn in Hc, C2.
        replace (S (S (Nat.min 4 (length d)))) with 6%nat in Hc, C2 by lia.
        exists (0%nat :: seq 2 (3 - 1)). split; [exact Hc|].
        unfold Solo3v3_keeps.
        rewrite (combos_BuildComplement 6 3 _ ltac:(lia) Hc).
        rewrite <- toComposer_RoleBalanced. cbn [map].
        unfold Composer.RoleBalanced. rewrite C1, C2. reflexivity. }
      rewrite E. split; [reflexivity|]. split; [exact Hlen|].
      split; [exact L1|]. split; [exact L2|]. split; [exact HP|].
      intros _. now apply Solo3v3_RoleBalanced_counts in Hrb.
    + assert (Hnstd : ~ ((2 <= length h)%nat /\ (4 <= length d)%nat)).
      { intros [A B]. apply andb_false_iff in Hstd.
        destruct Hstd as [H|H]; apply Z.leb_gt in H; lia. }
      replace ((2 <=? length h)%nat && (4 <=? length d)%nat) with false.
      2:{ symmetry. apply andb_false_iff.
          destruct (Nat.leb_spec 2 (length h)); [|now left].
          destruct (Nat.leb_spec 4 (length d)); [|now right].
          exfalso. apply Hnstd. lia. }
      destruct (Z.of_nat (length h) =? 0) eqn:Hh0.
      * apply Z.eqb_eq in Hh0.
        assert (Hhn : length h = 0%nat) by lia.
        destruct (6 <=? Z.of_nat (length w)) eqn:Hw.
        -- apply Z.leb_le in Hw.
           pose proof (length_filter_le _ waited d) as Hwd. fold w in Hwd.
           replace (Z.of_nat (length all) <? 6) with false
             by (symmetry; apply Z.ltb_ge; lia).
           assert (Hlen : length (firstn 6 w) = 6%nat)
             by (rewrite length_firstn; lia).
           rewrite Hlen. change (Z.of_nat 6 <? 6) with false. cbv iota.
           rewrite Hhn. cbn [Nat.eqb].
           assert (HF : Forall (fun c => Composer.isHealer c = false)
                          (map toComposer (firstn 6 w))).
           { apply Forall_toComposer_dps. apply Forall_forall. intros x Hx.
             apply firstn_incl in Hx. unfold w in Hx.
             apply filter_In in Hx. destruct Hx as [Hx _].
             apply filter_In in Hx. destruct Hx as [_ Hx].
             now apply negb_true_iff in Hx. }
           destruct (Hsplit (firstn 6 w) true Hlen)
             as (t1 & t2 & E & L1 & L2 & HP & Hrb).
           { exists (seq 0 3). split; [apply combos_has_prefix; lia|].
             unfold Solo3v3_keeps. rewrite <- toComposer_RoleBalanced.
             unfold Composer.RoleBalanced.
             rewrite !(Composer_no_healer_count _ _ HF). reflexivity. }
           rewrite E. split; [reflexivity|]. split; [exact Hlen|].
           split; [exact L1|]. split; [exact L2|]. split; [exact HP|].
           intros _. now apply Solo3v3_RoleBalanced_counts in Hrb.
        -- apply Z.leb_gt in Hw. cbn [length Z.of_nat].
           change (0 <? 6) with true. cbv iota.
           destruct (Z.of_nat (length all) <? 6);
             (intros [A|[_ B]]; [exact (Hnstd A) | lia]).
      * apply Z.eqb_neq in Hh0. cbn [length Z.of_nat].
        change (0 <? 6) with true. cbv iota.
        destruct (Z.of_nat (length all) <? 6);
          (intros [A|[B _]]; [exact (Hnstd A) | rewrite B in Hh0; apply Hh0; reflexivity]).
  - destruct (Z.of_nat (length all) <? 6) eqn:Hn.
    + apply Z.ltb_lt in Hn. lia.
    + apply Z.ltb_ge in Hn.
      assert (Hlen : length (firstn 6 all) = 6%nat)
        by (rewrite length_firstn; lia).
      rewrite Hlen. change (Z.of_nat 6 <? 6) with false. cbv iota.
      destruct (Hsplit (firstn 6 all) false Hlen)
        as (t1 & t2 & E & L1 & L2 & HP & Hrb).
      { exists (seq 0 3). split; [apply combos_has_prefix; lia|]. reflexivity. }
      rewrite E. split; [reflexivity|]. split; [exact Hlen|].
      split; [exact L1|]. split; [exact L2|]. split; [exact HP|].
      discriminate.
Qed.


(** ** Ignore pairs *)

Lemma IgnorePair_sym : forall ign sel i j,
  Solo3v3.IgnorePair ign sel i j = Solo3v3.IgnorePair ign sel j i.
Proof.
  intros ign sel i j. unfold Solo3v3.IgnorePair.
  destruct (nth_error sel i), (nth_error sel j); auto. apply orb_comm.
Qed.

Lemma CountIgnorePairs_loop_acc : forall ign sel l p,
  Solo3v3.CountIgnorePairs_loop ign l sel p
  = p + Solo3v3.CountIgnorePairs_loop ign l sel 0.
Proof.
  intros ign sel l. induction l as [|i rest IH]; intro p; simpl; [lia|].
  rewrite IH, (IH (fold_left _ rest 0)), !fold_left_count. lia.
Qed.

Lemma CountIgnorePairs_loop_cons : forall ign sel i rest,
  Solo3v3.CountIgnorePairs_loop ign (i :: rest) sel 0
  = Zsum (fun j => if Solo3v3.IgnorePair ign sel i j then 1 else 0) rest
    + Solo3v3.CountIgnorePairs_loop ign rest sel 0.
Proof.
  intros ign sel i rest. simpl.
  rewrite CountIgnorePairs_loop_acc, fold_left_count. lia.
Qed.

Lemma CountIgnorePairs_loop_perm : forall ign sel l l',
  Permutation l l' ->
  Solo3v3.CountIgnorePairs_loop ign l sel 0
  = Solo3v3.CountIgnorePairs_loop ign l' sel 0.
Proof.
  intros ign sel l l' H. induction H.
  - reflexivity.
  - rewrite !CountIgnorePairs_loop_cons, IHPermutation.
    now rewrite (Zsum_Permutation _ _ _ H).
  - rewrite !CountIgnorePairs_loop_cons. unfold Zsum. cbn [fold_right].
    rewrite (IgnorePair_sym ign sel x y). lia.
  - congruence.
Qed.

Lemma CountIgnorePairs_perm : forall ign sel ai l l',
  Permutation l l' ->
  Solo3v3.CountIgnorePairs ign l sel ai = Solo3v3.CountIgnorePairs ign l' sel ai.
Proof.
  intros ign sel ai l l' H. unfold Solo3v3.CountIgnorePairs.
  destruct (negb ai); [reflexivity|]. now apply CountIgnorePairs_loop_perm.
Qed.

Lemma Zsum_indicator_bounds : forall (p : nat -> bool) l,
  0 <= Zsum (fun j => if p j then 1 else 0) l <= Z.of_nat (length l).
Proof.
  intros p l. induction l as [|x l IH]; cbn [Zsum fold_right length].
  - lia.
  - fold (Zsum (fun j => if p j then 1 else 0) l). destruct (p x); lia.
Qed.

Lemma Zsum_indicator_zero : forall (p : nat -> bool) l,
  Zsum (fun j => if p j then 1 else 0) l = 0
  <-> forall j, In j l -> p j = false.
Proof.
  intros p l. induction l as [|x l IH]; cbn [Zsum fold_right].
  - split; [intros _ j []|reflexivity].
  - fold (Zsum (fun j => if p j then 1 else 0) l).
    pose proof (Zsum_indicator_bounds p l) as Hb.
    split.
    + intros H j [<-|Hj].
      * destruct (p x); [lia|reflexivity].
      * apply IH; [|exact Hj]. destruct (p x); lia.
    + intro H. rewrite (H x (or_introl eq_refl)).
      apply IH. intros j Hj. apply H. now right.
Qed.

Lemma CountIgnorePairs_loop_bounds : forall ign sel l,
  0 <= Solo3v3.CountIgnorePairs_loop ign l sel 0
  /\ 2 * Solo3v3.CountIgnorePairs_loop ign l sel 0
     <= Z.of_nat (length l) * (Z.of_nat (length l) - 1).
Proof.
  intros ign sel l. induction l as [|i rest IH].
  - simpl. lia.
  - rewrite CountIgnorePairs_loop_cons.
    pose proof (Zsum_indicator_bounds (Solo3v3.IgnorePair ign sel i) rest) as Hb.
    cbn [length]. nia.
Qed.

Lemma CountIgnorePairs_loop_zero : forall ign sel l,
  Solo3v3.CountIgnorePairs_loop ign l sel 0 = 0
  <-> forall l1 i l2 j l3,
        l = l1 ++ i :: l2 ++ j :: l3 ->
        Solo3v3.IgnorePair ign sel i j = false.
Proof.
  intros ign sel l. induction l as [|x rest IH].
  - split; [|reflexivity]. intros _ l1 i l2 j l3 H.
    destruct l1; discriminate.
  - rewrite CountIgnorePairs_loop_cons.
    pose proof (Zsum_indicator_bounds (Solo3v3.IgnorePair ign sel x) rest) as Hb.
    pose proof (CountIgnorePairs_loop_bounds ign sel rest) as [Hr _].
    split.
    + intros H l1 i l2 j l3 E.
      assert (Hz : Zsum (fun j => if Solo3v3.IgnorePair ign sel x j then 1 else 0)
                     rest = 0) by lia.
      assert (Hrest : Solo3v3.CountIgnorePairs_loop ign rest sel 0 = 0) by lia.
      destruct l1 as [|y l1]; cbn [app] in E; inversion E; subst.
      * apply (proj1 (Zsum_indicator_zero _ _) Hz).
        apply in_or_app. right. now left.
      * eapply (proj1 IH Hrest). reflexivity.
    + intro H.
      assert (Hz : Zsum (fun j => if Solo3v3.IgnorePair ign sel x j then 1 else 0)
                     rest = 0).
      { apply Zsum_indicator_zero. intros j Hj.
        apply in_split in Hj. destruct Hj as (l2 & l3 & ->).
        apply (H [] x l2 j l3). reflexivity. }
      assert (Hrest : Solo3v3.CountIgnorePairs_loop ign rest sel 0 = 0).
      { apply IH. intros l1 i l2 j l3 E. apply (H (x :: l1) i l2 j l3).
        rewrite E. reflexivity. }
      lia.
Qed.

(** X14 (what CountIgnorePairs counts).  With ignore avoidance off the
    count is 0.  With it on, the count of a team of [k] members lies
    between 0 and [k (k - 1) / 2], does not depend on the order of the
    members, and is 0 exactly when no two members ignore each other in
    either direction. *)
Theorem X14_ignore_pair_count :
  forall (ign : Z -> Z -> bool) indices selected,
    Solo3v3.CountIgnorePairs ign indices selected false = 0
    /\ 0 <= Solo3v3.CountIgnorePairs ign indices selected true
    /\ 2 * Solo3v3.CountIgnorePairs ign indices selected true
       <= Z.of_nat (length indices) * (Z.of_nat (length indices) - 1)
    /\ (forall indices',
          Permutation indices indices' ->
          Solo3v3.CountIgnorePairs ign indices' selected true
          = Solo3v3.CountIgnorePairs ign indices selected true)
    /\ (Solo3v3.CountIgnorePairs ign indices selected true = 0
        <-> forall l1 i l2 j l3 a b,
              indices = l1 ++ i :: l2 ++ j :: l3 ->
              nth_error selected i = Some a ->
              nth_error selected j = Some b ->
              ign (Solo3v3.player a) (Solo3v3.player b) = false
              /\ ign (Solo3v3.player b) (Solo3v3.player a) = false).
Proof.
  intros ign indices sel.
  split; [reflexivity|].
  unfold Solo3v3.CountIgnorePairs. cbn [negb].
  pose proof (CountIgnorePairs_loop_bounds ign sel indices) as [B1 B2].
  split; [exact B1|]. split; [exact B2|]. split.
  - intros indices' HP. symmetry. now apply CountIgnorePairs_loop_perm.
  - rewrite CountIgnorePairs_loop_zero. split.
    + intros H l1 i l2 j l3 a b E Ha Hb.
      specialize (H l1 i l2 j l3 E). unfold Solo3v3.IgnorePair in H.
      rewrite Ha, Hb in H. now apply orb_false_iff in H.
    + intros H l1 i l2 j l3 E. unfold Solo3v3.IgnorePair.
      destruct (nth_error sel i) as [a|] eqn:Ha; [|reflexivity].
      destruct (nth_error sel j) as [b|] eqn:Hb; [|reflexivity].
      apply orb_false_iff. exact (H l1 i l2 j l3 a b E Ha Hb).
Qed.

Lemma Solo3v3_TeamIgnores_perm : forall ign sel ai a a' b b',
  Permutation a a' -> Permutation b b' ->
  Solo3v3.TeamIgnores ign a b sel ai = Solo3v3.TeamIgnores ign a' b' sel ai.
Proof.
  intros ign sel ai a a' b b' Ha Hb. unfold Solo3v3.TeamIgnores.
  now rewrite (CountIgnorePairs_perm ign sel ai a a' Ha),
              (CountIgnorePairs_perm ign sel ai b b' Hb).
Qed.

Lemma Solo3v3_RoleBalanced_perm : forall ft adm pool a a' b b',
  Permutation a a' -> Permutation b b' ->
  Solo3v3.RoleBalanced ft adm a b pool = Solo3v3.RoleBalanced ft adm a' b' pool.
Proof.
  intros ft adm pool a a' b b' Ha Hb. rewrite <- !toComposer_RoleBalanced.
  now apply Composer_RoleBalanced_perm.
Qed.

Lemma Solo3v3_TeamDiff_perm : forall pool a a' b b',
  Permutation a a' -> Permutation b b' ->
  Solo3v3.TeamDiff a b pool = Solo3v3.TeamDiff a' b' pool.
Proof.
  intros pool a a' b b' Ha Hb. rewrite <- !toComposer_TeamDiff.
  now apply Composer_TeamDiff_perm.
Qed.

(** X15 (the production split is the best partition).  The teams returned
    by phase 3 have [MinPlayers] and [n - MinPlayers] members, partition
    the seats [0 .. n-1] and pass the role test; their rating difference is
    [|sum1 - sum2|]; and no way of dividing the seats into a first team of
    [MinPlayers] and the rest that passes the role test has a smaller
    rating difference, or the same difference with fewer ignore pairs. *)
Theorem X15_production_split_optimal :
  forall (ign : Z -> Z -> bool) sel mp ft adm ai t1 t2,
    0 <= mp -> mp * 2 <= Z.of_nat (length sel) ->
    Z.of_nat (length sel) < 2 ^ 32 ->
    Solo3v3.CheckSolo3v3Arena_split ign sel mp ft adm ai = Some (t1, t2) ->
    length t1 = Z.to_nat mp
    /\ length t2 = (length sel - Z.to_nat mp)%nat
    /\ Permutation (t1 ++ t2) (seq 0 (length sel))
    /\ Solo3v3.RoleBalanced ft adm t1 t2 sel = true
    /\ Solo3v3.TeamDiff t1 t2 sel
       = Z.abs (Solo3v3.SumMMR t1 sel - Solo3v3.SumMMR t2 sel)
    /\ forall A B,
         length A = Z.to_nat mp ->
         Permutation (A ++ B) (seq 0 (length sel)) ->
         Solo3v3.RoleBalanced ft adm A B sel = true ->
         Solo3v3.TeamDiff t1 t2 sel < Solo3v3.TeamDiff A B sel
         \/ (Solo3v3.TeamDiff t1 t2 sel = Solo3v3.TeamDiff A B sel
             /\ Solo3v3.TeamIgnores ign t1 t2 sel ai
                <= Solo3v3.TeamIgnores ign A B sel ai).
Proof.
  intros ign sel mp ft adm ai t1 t2 Hmp Hen Hlen E.
  destruct (Solo3v3_split_structure ign sel mp ft adm ai t1 t2 Hmp Hen Hlen E)
    as (L1 & L2 & Ht2 & Hin & HP & Hrb).
  split; [exact L1|]. split; [exact L2|]. split; [exact HP|].
  split; [exact Hrb|]. split; [apply TeamDiff_abs|].
  intros A B HA HPA HrbA.
  assert (Hk : (Z.to_nat mp <= length sel)%nat) by lia.
  destruct (Solo3v3_split_first_best ign sel mp ft adm ai t1 t2 Hmp Hk Hlen E)
    as (Hfb & _).
  set (n := length sel) in *. set (k := Z.to_nat mp) in *.
  destruct (partition_canonical A B n k HA HPA) as (c & Hc & HAc & HBc).
  pose proof (combos_BuildComplement n k c Hk Hc) as Hcc.
  pose proof (combos_BuildComplement n k t1 Hk Hin) as Hbc.
  assert (Hkeep : Solo3v3_keeps sel k n ft adm c = true).
  { unfold Solo3v3_keeps. rewrite Hcc.
    rewrite <- (Solo3v3_RoleBalanced_perm ft adm sel A c B _ HAc HBc).
    exact HrbA. }
  pose proof (first_best_minimal _ _ _ lex_better_asym _ _ _ Hfb Hc Hkeep)
    as Hmin.
  unfold lex_better, Solo3v3_score in Hmin. cbn [fst snd] in Hmin.
  rewrite Hcc, Hbc, <- Ht2 in Hmin.
  rewrite <- (Solo3v3_TeamDiff_perm sel A c B _ HAc HBc) in Hmin.
  rewrite <- (Solo3v3_TeamIgnores_perm ign sel ai A c B _ HAc HBc) in Hmin.
  apply orb_false_iff in Hmin. destruct Hmin as [Hlt Heq].
  apply Z.ltb_ge in Hlt.
  destruct (Z.eqb_spec (Solo3v3.TeamDiff A B sel) (Solo3v3.TeamDiff t1 t2 sel))
    as [Hd|Hd].
  - right. cbn [andb] in Heq. apply Z.ltb_ge in Heq. split; [lia|exact Heq].
  - left. lia.
Qed.

(** With player 3 ignoring player 4, the split of [arena_pool] keeps them
    apart: the first team of equal rating difference without an ignore
    pair is {0, 2, 4}. *)
Lemma X15_production_split_optimal_witness :
  Solo3v3.TeamDiff [0; 2; 4]%nat [1; 3; 5]%nat arena_pool
  < Solo3v3.TeamDiff [0; 2; 3]%nat [1; 4; 5]%nat arena_pool
  \/ (Solo3v3.TeamDiff [0; 2; 4]%nat [1; 3; 5]%nat arena_pool
      = Solo3v3.TeamDiff [0; 2; 3]%nat [1; 4; 5]%nat arena_pool
      /\ Solo3v3.TeamIgnores ignores_3_4 [0; 2; 4]%nat [1; 3; 5]%nat
           arena_pool true
         <= Solo3v3.TeamIgnores ignores_3_4 [0; 2; 3]%nat [1; 4; 5]%nat
              arena_pool true).
Proof.
  apply (X15_production_split_optimal ignores_3_4 arena_pool 3 true false true
           [0; 2; 4]%nat [1; 3; 5]%nat).
  - lia.
  - vm_compute. discriminate.
  - vm_compute. reflexivity.
  - vm_compute. reflexivity.
  - reflexivity.
  - change (length arena_pool) with 6%nat. cbn [seq app].
    apply perm_skip.
    apply (perm_trans (l' := [2; 1; 3; 4; 5]%nat));
      [apply perm_skip; apply perm_swap | apply perm_swap].
  - vm_compute. reflexivity.
Defined.

(** * The enumeration *)

Lemma choose_lt : forall n k, (n < k)%nat -> choose n k = 0%nat.
Proof.
  induction n as [|n IH]; intros [|k] H; simpl; try lia.
  rewrite !IH by lia. reflexivity.
Qed.

Lemma combos_length : forall n r start,
  (r <= n)%nat -> length (combos n r start) = choose (n - start) r.
Proof.
  intros n r. induction r as [|r IH]; intros start Hr.
  - simpl. destruct (n - start)%nat; reflexivity.
  - cbn [combos]. unfold index_range.
    assert (Hgen : forall len s,
              (s + len = S (n - S r))%nat ->
              length (flat_map (fun i => map (cons i) (combos n r (S i)))
                        (seq s len))
              = choose (n - s) (S r)).
    { induction len as [|len IHlen]; intros s Hs.
      - simpl. rewrite choose_lt by lia. reflexivity.
      - cbn [seq flat_map]. rewrite length_app, length_map.
        rewrite IH by lia. rewrite IHlen by lia.
        replace (n - s)%nat with (S (n - S s)) by lia. reflexivity. }
    destruct (Nat.le_gt_cases start (S (n - S r))) as [Hle|Hgt].
    + apply Hgen. lia.
    + replace (S (n - S r) - start)%nat with 0%nat by lia. simpl.
      rewrite choose_lt by lia. reflexivity.
Qed.

Lemma lex_ltb_irrefl : forall c, lex_ltb c c = false.
Proof.
  induction c as [|x c IH]; simpl; [reflexivity|].
  rewrite Nat.ltb_irrefl, Nat.eqb_refl, IH. reflexivity.
Qed.

Lemma StronglySorted_irrefl_NoDup :
  forall (A : Type) (R : A -> A -> Prop) (l : list A),
    (forall x, ~ R x x) -> StronglySorted R l -> NoDup l.
Proof.
  intros A R l Hirr H. induction H as [|x l Hs IH HF]; constructor; auto.
  intro Hin. rewrite Forall_forall in HF. exact (Hirr x (HF x Hin)).
Qed.

(** X16 (the enumeration visits every team once).  Called as
    FindBestTeamSplit calls it, Enumerate applies the leaf test to the
    combinations of [teamSize] seats out of [n] one after the other, in
    lexicographic order: each strictly increasing choice of seats below [n]
    is visited, none twice, so there are [C(n, teamSize)] visits (20 for
    six players in teams of three).  The production EnumerateCombinations
    walks the same sequence. *)
Theorem X16_enumeration_visits_each_team_once :
  forall n k, (k <= n)%nat -> Z.of_nat n < 2 ^ 32 ->
    (forall sel ft adm b,
       snd (Composer.Enumerate k 0 0 sel k n ft adm (repeat 0%nat k, b))
       = fold_left (fun b c => Composer.Visit c sel k n ft adm b)
           (combos n k 0) b)
    /\ (forall ign sel ft adm ai b,
          snd (Solo3v3.EnumerateCombinations ign k 0 0 sel k n ft adm ai
                 (repeat 0%nat k, b))
          = fold_left (fun b c => Solo3v3.Visit ign c sel k n ft adm ai b)
              (combos n k 0) b)
    /\ (forall c, In c (combos n k 0)
                  <-> length c = k /\ increasing_from 0 c
                      /\ Forall (fun x => (x < n)%nat) c)
    /\ NoDup (combos n k 0)
    /\ StronglySorted (fun a b => lex_ltb a b = true) (combos n k 0)
    /\ length (combos n k 0) = choose n k.
Proof.
  intros n k Hk Hn. split; [|split; [|split; [|split; [|split]]]].
  - intros sel ft adm b.
    destruct (enumerate_visits Composer.Best
                (fun c b => Composer.Visit c sel k n ft adm b) k n
                (fun r start depth st =>
                   Composer.Enumerate r start depth sel k n ft adm st)
                (fun _ _ _ => eq_refl) (fun _ _ _ _ => eq_refl) Hn Hk
                k 0%nat 0%nat (repeat 0%nat k) b) as (_ & _ & H).
    + lia.
    + apply repeat_length.
    + exact H.
  - intros ign sel ft adm ai b.
    destruct (enumerate_visits Solo3v3.Best
                (fun c b => Solo3v3.Visit ign c sel k n ft adm ai b) k n
                (fun r start depth st =>
                   Solo3v3.EnumerateCombinations ign r start depth sel k n
                     ft adm ai st)
                (fun _ _ _ => eq_refl) (fun _ _ _ _ => eq_refl) Hn Hk
                k 0%nat 0%nat (repeat 0%nat k) b) as (_ & _ & H).
    + lia.
    + apply repeat_length.
    + exact H.
  - intro c. split.
    + apply combos_sound. exact Hk.
    + intros (L & I & F). now apply combos_complete.
  - apply (StronglySorted_irrefl_NoDup _ (fun a b => lex_ltb a b = true)).
    + intros x Hx. rewrite lex_ltb_irrefl in Hx. discriminate.
    + apply combos_lex_sorted.
  - apply combos_lex_sorted.
  - rewrite combos_length by exact Hk. now rewrite Nat.sub_0_r.
Qed.

Lemma X16_enumeration_visits_each_team_once_witness :
  length (combos 6 3 0) = 20%nat.
Proof.
  rewrite (proj2 (proj2 (proj2 (proj2 (proj2
             (X16_enumeration_visits_each_team_once 6 3 ltac:(lia)
                ltac:(lia))))))).
  reflexivity.
Defined.

(** * The two revisions of the composer *)

Lemma forget_isHealer : forall c,
  Composer.isHealer (forget c) = ComposerCS.isHealer c.
Proof. reflexivity. Qed.

Lemma forget_at_role : forall pool i,
  Composer.at_role (map forget pool) i = ComposerCS.at_role pool i.
Proof.
  intros pool i. unfold Composer.at_role, ComposerCS.at_role.
  rewrite nth_error_map. destruct (nth_error pool i); reflexivity.
Qed.

Lemma forget_at_mmr : forall pool i,
  Composer.at_mmr (map forget pool) i = ComposerCS.at_mmr pool i.
Proof.
  intros pool i. unfold Composer.at_mmr, ComposerCS.at_mmr.
  rewrite nth_error_map. destruct (nth_error pool i); reflexivity.
Qed.

Lemma forget_RoleBalanced : forall pool ft adm t1 t2,
  Composer.RoleBalanced ft adm t1 t2 (map forget pool)
  = ComposerCS.RoleBalanced ft adm t1 t2 pool.
Proof.
  intros pool ft adm t1 t2.
  unfold Composer.RoleBalanced, ComposerCS.RoleBalanced,
    Composer.CountHealers, ComposerCS.CountHealers.
  rewrite !fold_left_count.
  rewrite (Zsum_ext (fun i => if Composer.at_role (map forget pool) i then 1 else 0)
             (fun i => if ComposerCS.at_role pool i then 1 else 0) t1)
    by (intros i _; now rewrite forget_at_role).
  rewrite (Zsum_ext (fun i => if Composer.at_role (map forget pool) i then 1 else 0)
             (fun i => if ComposerCS.at_role pool i then 1 else 0) t2)
    by (intros i _; now rewrite forget_at_role).
  reflexivity.
Qed.

Lemma forget_TeamDiff : forall pool t1 t2,
  Composer.TeamDiff t1 t2 (map forget pool) = ComposerCS.TeamDiff t1 t2 pool.
Proof.
  intros pool t1 t2.
  unfold Composer.TeamDiff, ComposerCS.TeamDiff, Composer.SumMMR,
    ComposerCS.SumMMR.
  rewrite !fold_left_Zsum.
  rewrite (Zsum_ext (Composer.at_mmr (map forget pool)) (ComposerCS.at_mmr pool) t1)
    by (intros i _; apply forget_at_mmr).
  rewrite (Zsum_ext (Composer.at_mmr (map forget pool)) (ComposerCS.at_mmr pool) t2)
    by (intros i _; apply forget_at_mmr).
  reflexivity.
Qed.

Lemma filter_map_forget : forall (p : Composer.QueuedCandidate -> bool) l,
  filter p (map forget l) = map forget (filter (fun c => p (forget c)) l).
Proof.
  intros p l. induction l as [|c l IH]; simpl; [reflexivity|].
  destruct (p (forget c)); simpl; now rewrite IH.
Qed.

Lemma firstn_map_forget : forall k l,
  firstn k (map forget l) = map forget (firstn k l).
Proof. intros k l. apply firstn_map. Qed.

(** X17 (the class-stacking revision extends the first one).  Read
    without their class id, the players get, from the revision of
    MatchmakingComposer that knows class stacking, the same answers as from
    the first revision: the same split when the stacking level is 0, and
    the same selection whenever the pool does not hold exactly one healer
    (the case the single-healer timer was added for). *)
Theorem X17_revisions_agree :
  (forall sel ts ft adm mask,
     0 <= ts -> ts * 2 < 2 ^ 32 -> Z.of_nat (length sel) < 2 ^ 32 ->
     let r := ComposerCS.FindBestTeamSplit sel ts ft adm 0 mask in
     let r' := Composer.FindBestTeamSplit (map forget sel) ts ft adm in
     Composer.valid r' = ComposerCS.valid r
     /\ Composer.team1Indices r' = ComposerCS.team1Indices r
     /\ Composer.team2Indices r' = ComposerCS.team2Indices r
     /\ Composer.mmrDiff r' = ComposerCS.mmrDiff r)
  /\
  (forall cands ts ft t0 t1 now out out',
     length (filter ComposerCS.isHealer cands) <> 1%nat \/ ft = false ->
     let res := ComposerCS.SelectCandidates cands ts ft t0 t1 now out in
     let res' := Composer.SelectCandidates (map forget cands) ts ft t0 now out' in
     fst res' = fst res
     /\ Composer.selected (snd res') = map forget (ComposerCS.selected (snd res))
     /\ Composer.allDpsMatch (snd res') = ComposerCS.allDpsMatch (snd res)).
Proof.
  split.
  - intros sel ts ft adm mask Hts Hfit Hlen r r'. unfold r, r'.
    unfold ComposerCS.FindBestTeamSplit, Composer.FindBestTeamSplit.
    rewrite length_map.
    rewrite (wrap32_small (Z.of_nat (length sel))) by lia.
    rewrite (wrap32_small (ts * 2)) by lia. rewrite Nat2Z.id.
    set (n := length sel) in *. set (k := Z.to_nat ts) in *.
    destruct (Z.of_nat n <? ts * 2) eqn:Hg; [repeat split|].
    apply Z.ltb_ge in Hg.
    assert (Hk : (k <= n)%nat) by (unfold k; lia).
    pose proof (ComposerCS_Enumerate_tracks sel k n ft adm 0 mask Hlen Hk) as HS.
    pose proof (Composer_Enumerate_tracks (map forget sel) k n ft adm Hlen Hk)
      as HC.
    rewrite (pick_fold_ext _ _ _ (Composer_keeps (map forget sel) k n ft adm)
               (ComposerCS_keeps sel k n ft adm 0 mask)
               (Composer_diff (map forget sel) k n)
               (ComposerCS_diff sel k n) Z_better Z_better) in HC.
    + destruct (fold_left _ (combos n k 0) None) as [c|]; simpl in HS, HC.
      * destruct HS as (S1 & S2 & S3). destruct HC as (C1 & C2 & C3).
        rewrite S1, C1. cbn [negb Composer.valid Composer.team1Indices
                               Composer.team2Indices Composer.mmrDiff
                               ComposerCS.valid ComposerCS.team1Indices
                               ComposerCS.team2Indices ComposerCS.mmrDiff].
        rewrite S2, C2, S3, C3. repeat split.
        unfold Composer_diff, ComposerCS_diff. apply forget_TeamDiff.
      * rewrite HS, HC. repeat split.
    + intro c. unfold Composer_keeps, ComposerCS_keeps.
      rewrite forget_RoleBalanced. unfold ComposerCS.ClassDiverse.
      change (0 <? 0) with false. cbv iota. now rewrite andb_true_r.
    + intros c b. unfold Composer_diff, ComposerCS_diff.
      now rewrite !forget_TeamDiff.
  - intros cands ts ft t0 t1 now out out' Hone res res'. unfold res, res'.
    rewrite Composer_SelectCandidates_eq, ComposerCS_SelectCandidates_eq.
    cbv zeta. rewrite length_map.
    rewrite !filter_map_forget.
    rewrite !length_map.
    change (fun c => Composer.isHealer (forget c)) with ComposerCS.isHealer.
    change (fun c => negb (Composer.isHealer (forget c)))
      with (fun c => negb (ComposerCS.isHealer c)).
    change (fun c => wrap32 (Composer.joinTime (forget c) + t0) <=? now)
      with (fun c => wrap32 (ComposerCS.joinTime c + t0) <=? now).
    destruct (Z.of_nat (length cands) <? wrap32 (ts * 2)); [repeat split|].
    destruct ft; cbn [negb].
    + destruct Hone as [Hone|Hone]; [|discriminate].
      destruct (_ && _).
      * cbn [fst snd Composer.selected Composer.allDpsMatch
               ComposerCS.selected ComposerCS.allDpsMatch].
        rewrite map_app, !firstn_map_forget. repeat split.
      * destruct (length (filter ComposerCS.isHealer cands) =? 0)%nat.
        -- destruct (wrap32 (ts * 2) <=? _);
             cbn [fst snd Composer.selected Composer.allDpsMatch
                    ComposerCS.selected ComposerCS.allDpsMatch];
             rewrite ?firstn_map_forget; repeat split.
        -- replace (length (filter ComposerCS.isHealer cands) =? 1)%nat
             with false by (symmetry; apply Nat.eqb_neq; exact Hone).
           repeat split.
    + cbn [fst snd Composer.selected Composer.allDpsMatch
             ComposerCS.selected ComposerCS.allDpsMatch].
      rewrite firstn_map_forget. repeat split.
Qed.

Lemma X17_revisions_agree_witness :
  Composer.valid
    (Composer.FindBestTeamSplit (map forget pool_druids) 3 true false)
  = ComposerCS.valid (ComposerCS.FindBestTeamSplit pool_druids 3 true false 0 0)
  /\ fst (Composer.SelectCandidates (map forget pool_druids) 3 true 60000 0
            {| Composer.selected := []; Composer.allDpsMatch := false |})
     = fst (ComposerCS.SelectCandidates pool_druids 3 true 60000 120000 0
              {| ComposerCS.selected := []; ComposerCS.allDpsMatch := false |}).
Proof.
  split.
  - apply (proj1 X17_revisions_agree pool_druids 3 true false 0);
      [lia | reflexivity | vm_compute; reflexivity].
  - apply (proj2 X17_revisions_agree pool_druids 3 true 60000 120000 0).
    left. vm_compute. discriminate.
Defined.

(** * The leave penalty *)

Lemma Deserter_count_zero : forall s x,
  (Deserter.count s x =? 0) = true <-> ~ In x s.
Proof.
  intros s x. unfold Deserter.count. rewrite Z.eqb_eq.
  rewrite (count_occ_not_In Z.eq_dec). lia.
Qed.

Lemma Deserter_insert_In : forall s x j,
  In j (Deserter.insert x s) <-> j = x \/ In j s.
Proof.
  intros s x j. unfold Deserter.insert.
  destruct (Deserter.count s x =? 0) eqn:H.
  - simpl. intuition congruence.
  - split; [auto|]. intros [->|Hj]; [|exact Hj].
    destruct (in_dec Z.eq_dec x s) as [Hin|Hnin]; [exact Hin|].
    apply Deserter_count_zero in Hnin. congruence.
Qed.

Lemma Deserter_erase_In : forall s x j,
  In j (Deserter.erase x s) <-> j <> x /\ In j s.
Proof.
  intros s x j. unfold Deserter.erase. rewrite filter_In, negb_true_iff, Z.eqb_neq.
  tauto.
Qed.

(** One call: which instances are marked afterwards. *)
Lemma Deserter_charge_In : forall cfg p b s i,
  i <> 0 ->
  (In i (snd (Deserter.CountAsLoss_charge cfg p b s))
   <-> In i s \/ Deserter.deserts i (p, b) = true).
Proof.
  intros cfg p b s i Hi.
  unfold Deserter.CountAsLoss_charge, Deserter.deserts. cbn [fst snd].
  destruct (Deserter.IsSpectator p); cbn [negb andb snd]; [intuition discriminate|].
  destruct (Deserter.hasArenaTeam p); cbn [negb andb snd]; [|intuition discriminate].
  destruct b, (Deserter.IsAlive p); cbn [negb andb snd];
    try (intuition discriminate).
  destruct (Z.eqb_spec (Deserter.instanceId p) 0) as [E0|E0]; cbn [negb andb snd].
  - split; [auto|]. intros [H|H]; [exact H|]. apply Z.eqb_eq in H. lia.
  - destruct (Deserter.count s (Deserter.instanceId p) =? 0) eqn:Hc; cbn [snd].
    + rewrite Deserter_insert_In, Z.eqb_eq. intuition congruence.
    + split; [auto|]. intros [H|H]; [exact H|]. apply Z.eqb_eq in H. subst i.
      destruct (in_dec Z.eq_dec (Deserter.instanceId p) s) as [Hin|Hnin];
        [exact Hin|].
      apply Deserter_count_zero in Hnin. congruence.
Qed.

Lemma Deserter_each_cons : forall cfg e rest s,
  Deserter.CountAsLoss_each cfg (e :: rest) s
  = (fst (Deserter.CountAsLoss_charge cfg (fst e) (snd e) s)
       :: fst (Deserter.CountAsLoss_each cfg rest
                 (snd (Deserter.CountAsLoss_charge cfg (fst e) (snd e) s))),
     snd (Deserter.CountAsLoss_each cfg rest
            (snd (Deserter.CountAsLoss_charge cfg (fst e) (snd e) s)))).
Proof.
  intros cfg [p b] rest s. cbn [Deserter.CountAsLoss_each fst snd].
  destruct (Deserter.CountAsLoss_charge cfg p b s) as [c s1]. cbn [fst snd].
  destruct (Deserter.CountAsLoss_each cfg rest s1) as [cs s2]. reflexivity.
Qed.

Lemma Deserter_each_In : forall cfg l s i,
  i <> 0 ->
  (In i (snd (Deserter.CountAsLoss_each cfg l s))
   <-> In i s \/ exists e, In e l /\ Deserter.deserts i e = true).
Proof.
  intros cfg l. induction l as [|e rest IH]; intros s i Hi.
  - simpl. split; [auto|]. intros [H|(e & [] & _)]. exact H.
  - rewrite Deserter_each_cons. cbn [snd]. rewrite IH by exact Hi.
    rewrite Deserter_charge_In by exact Hi.
    replace (fst e, snd e) with e by (destruct e; reflexivity).
    split.
    + intros [[H|H]|(e' & He' & Hd)]; auto.
      * right. exists e. split; [now left|exact H].
      * right. exists e'. split; [now right|exact Hd].
    + intros [H|(e' & [<-|He'] & Hd)]; auto.
      right. exists e'. auto.
Qed.

Lemma Deserter_each_app : forall cfg l1 l2 s,
  fst (Deserter.CountAsLoss_each cfg (l1 ++ l2) s)
  = fst (Deserter.CountAsLoss_each cfg l1 s)
    ++ fst (Deserter.CountAsLoss_each cfg l2
              (snd (Deserter.CountAsLoss_each cfg l1 s))).
Proof.
  intros cfg l1. induction l1 as [|e l1 IH]; intros l2 s.
  - reflexivity.
  - cbn [app]. rewrite !Deserter_each_cons. cbn [fst snd app].
    now rewrite IH.
Qed.

Lemma Deserter_each_length : forall cfg l s,
  length (fst (Deserter.CountAsLoss_each cfg l s)) = length l.
Proof.
  intros cfg l. induction l as [|e l IH]; intro s; [reflexivity|].
  rewrite Deserter_each_cons. cbn [fst length]. now rewrite IH.
Qed.

(** The charge of a deserter, by whether the instance is marked. *)
Lemma Deserter_charge_deserts : forall cfg e s i,
  i <> 0 -> Deserter.deserts i e = true ->
  fst (Deserter.CountAsLoss_charge cfg (fst e) (snd e) s)
  = if in_dec Z.eq_dec i s
    then Some {| Deserter.ratingLoss := Deserter.LeaveDuringMatch cfg;
                 Deserter.deserterCast := false |}
    else Some {| Deserter.ratingLoss := Deserter.FirstLeaveDuringMatch cfg;
                 Deserter.deserterCast := Deserter.CastDeserterOnLeave cfg |}.
Proof.
  intros cfg [p b] s i Hi Hd. unfold Deserter.deserts in Hd. cbn [fst snd] in *.
  repeat (apply andb_true_iff in Hd; destruct Hd as [Hd ?]).
  apply negb_true_iff in Hd. apply Z.eqb_eq in H. subst b i.
  unfold Deserter.CountAsLoss_charge. rewrite Hd, H1, H2. cbn [negb andb].
  replace (Deserter.instanceId p =? 0) with false
    by (symmetry; apply Z.eqb_neq; exact Hi).
  cbn [negb andb].
  destruct (in_dec Z.eq_dec (Deserter.instanceId p) s) as [Hin|Hnin].
  - destruct (Deserter.count s (Deserter.instanceId p) =? 0) eqn:Hc.
    + apply Deserter_count_zero in Hc. contradiction.
    + reflexivity.
  - apply Deserter_count_zero in Hnin. rewrite Hnin. reflexivity.
Qed.

(** X18 (one first leaver per arena).  Among the players who leave a
    running arena alive, CountAsLoss charges FirstLeaveDuringMatch (and the
    deserter debuff, if configured) to the first of each arena instance, and
    LeaveDuringMatch without debuff to every later one of that instance;
    the mark is only taken away by CleanUp3v3SoloQ.  A player without a
    battleground (instance id 0) is never the first leaver. *)
Theorem X18_one_first_leaver_per_arena :
  forall cfg (before : list (Deserter.Leaver * bool)) e after s i,
    Deserter.deserts i e = true ->
    let charges :=
      fst (Deserter.CountAsLoss_each cfg (before ++ e :: after) s) in
    let first :=
      Some {| Deserter.ratingLoss := Deserter.FirstLeaveDuringMatch cfg;
              Deserter.deserterCast := Deserter.CastDeserterOnLeave cfg |} in
    let later :=
      Some {| Deserter.ratingLoss := Deserter.LeaveDuringMatch cfg;
              Deserter.deserterCast := false |} in
    (i = 0 -> nth_error charges (length before) = Some later)
    /\ (i <> 0 ->
        (nth_error charges (length before) = Some first
         <-> (~ In i s
              /\ forall e', In e' before -> Deserter.deserts i e' = false)
             \/ first = later)
        /\ (nth_error charges (length before) = Some first
            \/ nth_error charges (length before) = Some later)
        /\ (forall after1 e2 after2,
              after = after1 ++ e2 :: after2 ->
              Deserter.deserts i e2 = true ->
              nth_error charges (length before + 1 + length after1)
              = Some later)
        /\ (forall p,
              Deserter.deserts i (p, true) = true ->
              fst (Deserter.CountAsLoss_charge cfg p true
                     (Deserter.CleanUp3v3SoloQ true i
                        (snd (Deserter.CountAsLoss_each cfg
                                (before ++ e :: after) s))))
              = first)).
Proof.
  intros cfg before e after s i Hd charges first later.
  assert (Hat : nth_error charges (length before)
                = Some (fst (Deserter.CountAsLoss_charge cfg (fst e) (snd e)
                               (snd (Deserter.CountAsLoss_each cfg before s))))).
  { unfold charges. rewrite Deserter_each_app.
    rewrite nth_error_app2 by (rewrite Deserter_each_length; lia).
    rewrite Deserter_each_length, Nat.sub_diag, Deserter_each_cons.
    reflexivity. }
  split.
  - intros ->. rewrite Hat. f_equal.
    destruct e as [p b]. unfold Deserter.deserts in Hd. cbn [fst snd] in *.
    repeat (apply andb_true_iff in Hd; destruct Hd as [Hd ?]).
    apply negb_true_iff in Hd. subst b.
    unfold Deserter.CountAsLoss_charge. rewrite Hd, H1, H2, H. reflexivity.
  - intro Hi.
    set (s1 := snd (Deserter.CountAsLoss_each cfg before s)) in *.
    pose proof (Deserter_charge_deserts cfg e s1 i Hi Hd) as Hc.
    pose proof (Deserter_each_In cfg before s i Hi) as Hin. fold s1 in Hin.
    split; [|split; [|split]].
    + rewrite Hat, Hc. destruct (in_dec Z.eq_dec i s1) as [H1|H1].
      * split.
        -- intro H. right. injection H as H H'. unfold first, later.
           now rewrite H, H'.
        -- intros [[Hns Hnone]|Heq].
           ++ exfalso. apply Hin in H1. destruct H1 as [H1|(e' & He' & Hd')];
                [contradiction|]. rewrite (Hnone e' He') in Hd'. discriminate.
           ++ now rewrite Heq.
      * split; [|reflexivity]. intros _. left. split.
        -- intro H. apply H1. apply Hin. now left.
        -- intros e' He'. destruct (Deserter.deserts i e') eqn:Hd'; [|reflexivity].
           exfalso. apply H1. apply Hin. right. exists e'. auto.
    + rewrite Hat, Hc. destruct (in_dec Z.eq_dec i s1); auto.
    + intros after1 e2 after2 -> Hd2. clear Hc Hat. unfold charges.
      replace (before ++ e :: after1 ++ e2 :: after2)
        with ((before ++ e :: after1) ++ e2 :: after2)
        by (rewrite <- app_assoc; reflexivity).
      rewrite Deserter_each_app.
      rewrite nth_error_app2
        by (rewrite Deserter_each_length, length_app; cbn [length]; lia).
      rewrite Deserter_each_length, length_app. cbn [length].
      replace (length before + 1 + length after1
               - (length before + S (length after1)))%nat with 0%nat by lia.
      rewrite Deserter_each_cons. cbn [fst nth_error].
      rewrite (Deserter_charge_deserts cfg e2 _ i Hi Hd2).
      destruct (in_dec Z.eq_dec i _) as [H1|H1]; [reflexivity|].
      exfalso. apply H1. apply Deserter_each_In; [exact Hi|].
      right. exists e. split; [|exact Hd]. apply in_or_app. right. now left.
    + intros p Hp. clear Hc Hat.
      rewrite (Deserter_charge_deserts cfg (p, true) _ i Hi Hp).
      destruct (in_dec Z.eq_dec i _) as [H1|H1]; [|reflexivity].
      exfalso. unfold Deserter.CleanUp3v3SoloQ in H1.
      replace (i =? 0) with false in H1 by (symmetry; apply Z.eqb_neq; exact Hi).
      cbn [negb] in H1. apply Deserter_erase_In in H1. tauto.
Qed.

(** Two players leave instance 7 alive during the match. *)
Lemma X18_one_first_leaver_per_arena_witness :
  nth_error
    (fst (Deserter.CountAsLoss_each
            {| Deserter.FirstLeaveDuringMatch := 50;
               Deserter.LeaveDuringMatch := 24;
               Deserter.LeaveBeforeMatchStart := 50;
               Deserter.CastDeserterOnLeave := true |}
            ([] ++ ({| Deserter.IsSpectator := false;
                       Deserter.hasArenaTeam := true;
                       Deserter.IsAlive := true;
                       Deserter.instanceId := 7 |}, true)
                :: [({| Deserter.IsSpectator := false;
                        Deserter.hasArenaTeam := true;
                        Deserter.IsAlive := true;
                        Deserter.instanceId := 7 |}, true)])
            []))
    (0 + 1 + 0)
  = Some (Some {| Deserter.ratingLoss := 24; Deserter.deserterCast := false |}).
Proof.
  pose (p := ({| Deserter.IsSpectator := false; Deserter.hasArenaTeam := true;
                 Deserter.IsAlive := true; Deserter.instanceId := 7 |}, true)).
  assert (H7 : 7 <> 0) by lia.
  exact (proj1 (proj2 (proj2 (proj2
           (X18_one_first_leaver_per_arena
              {| Deserter.FirstLeaveDuringMatch := 50;
                 Deserter.LeaveDuringMatch := 24;
                 Deserter.LeaveBeforeMatchStart := 50;
                 Deserter.CastDeserterOnLeave := true |}
              [] p [p] [] 7 eq_refl) H7)))
           [] p [] eq_refl eq_refl).
Defined.

(** X19 (the rating never goes below zero).  For a penalty that is not
    negative, the rating after CountAsLoss is [max 0 (rating - penalty)],
    whatever the width of the field (up to 31 bits): it is never negative,
    never above the old rating, and lower by exactly the penalty when the
    rating covers it. *)
Theorem X19_rating_saturates_at_zero :
  forall bits rating loss,
    0 <= bits <= 31 -> 0 <= rating < 2 ^ bits -> 0 <= loss ->
    Deserter.ApplyLoss bits rating loss = Z.max 0 (rating - loss)
    /\ 0 <= Deserter.ApplyLoss bits rating loss <= rating
    /\ (loss <= rating -> Deserter.ApplyLoss bits rating loss = rating - loss)
    /\ (rating <= loss -> Deserter.ApplyLoss bits rating loss = 0).
Proof.
  intros bits rating loss Hb Hr Hl. unfold Deserter.ApplyLoss.
  assert (H31 : 2 ^ bits <= 2 ^ 31) by (apply Z.pow_le_mono_r; lia).
  assert (Hcast : Deserter.to_int32 rating = rating).
  { unfold Deserter.to_int32. rewrite Z.mod_small; lia. }
  rewrite Hcast.
  destruct (rating - loss <? 0) eqn:H.
  - apply Z.ltb_lt in H. repeat split; lia.
  - apply Z.ltb_ge in H. rewrite Z.mod_small by lia. repeat split; lia.
Qed.

Lemma X19_rating_saturates_at_zero_witness :
  Deserter.ApplyLoss 16 30 50 = Z.max 0 (30 - 50).
Proof.
  assert (H0 : 0 <= 16 <= 31) by lia.
  assert (H1 : 0 <= 30 < 2 ^ 16) by (split; [lia | reflexivity]).
  assert (H2 : 0 <= 50) by lia.
  exact (proj1 (X19_rating_saturates_at_zero 16 30 50 H0 H1 H2)).
Defined.

(** * Reclassifying the queue groups *)

Lemma Pools_insert_ext : forall gs gs' g l,
  (forall x, Pools.JoinTime (gs' x) = Pools.JoinTime (gs x)) ->
  Pools.insert_by_JoinTime gs' g l = Pools.insert_by_JoinTime gs g l.
Proof.
  intros gs gs' g l H. induction l as [|x l IH]; simpl; [reflexivity|].
  rewrite !H, IH. reflexivity.
Qed.

(** Where the group lands: behind every group that joined no later, in
    front of the first that joined later. *)
Lemma Pools_insert_split : forall gs g l,
  exists l1 l2,
    l = l1 ++ l2
    /\ Pools.insert_by_JoinTime gs g l = l1 ++ g :: l2
    /\ Forall (fun x => Pools.JoinTime (gs x) <= Pools.JoinTime (gs g)) l1
    /\ match l2 with
       | [] => True
       | y :: _ => Pools.JoinTime (gs g) < Pools.JoinTime (gs y)
       end.
Proof.
  intros gs g l. induction l as [|x l IH]; simpl.
  - exists [], []. repeat split; auto.
  - destruct (Z.leb_spec (Pools.JoinTime (gs x)) (Pools.JoinTime (gs g))) as [H|H].
    + destruct IH as (l1 & l2 & E & Ei & F & Hh).
      exists (x :: l1), l2. simpl. rewrite E at 1. rewrite Ei.
      repeat split; auto.
    + exists [], (x :: l). simpl. repeat split; auto.
Qed.

Lemma Pools_insert_perm : forall gs g l,
  Permutation (Pools.insert_by_JoinTime gs g l) (g :: l).
Proof.
  intros gs g l. destruct (Pools_insert_split gs g l) as (l1 & l2 & E & Ei & _).
  rewrite Ei, E. symmetry. apply Permutation_middle.
Qed.

Lemma Pools_insert_sorted : forall gs g l,
  StronglySorted
    (fun x y => Pools.JoinTime (gs x) <= Pools.JoinTime (gs y)) l ->
  StronglySorted
    (fun x y => Pools.JoinTime (gs x) <= Pools.JoinTime (gs y))
    (Pools.insert_by_JoinTime gs g l).
Proof.
  intros gs g l H. induction H as [|x l Hs IH HF]; simpl.
  - repeat constructor.
  - destruct (Z.leb_spec (Pools.JoinTime (gs x)) (Pools.JoinTime (gs g))) as [Hle|Hgt].
    + constructor; [exact IH|].
      apply Forall_forall. intros y Hy.
      apply (Permutation_in _ (Pools_insert_perm gs g l)) in Hy.
      destruct Hy as [<-|Hy]; [exact Hle|].
      rewrite Forall_forall in HF. auto.
    + constructor; [constructor; assumption|].
      constructor; [lia|].
      eapply Forall_impl; [|exact HF]. intros y Hy. cbv beta in Hy. lia.
Qed.

Lemma Pools_erase_first_split : forall g l l',
  Pools.erase_first g l = Some l' ->
  exists l1 l2, l = l1 ++ g :: l2 /\ l' = l1 ++ l2 /\ ~ In g l1.
Proof.
  intros g l. induction l as [|x l IH]; intros l' H; simpl in H; [discriminate|].
  destruct (Z.eqb_spec x g) as [->|Hne].
  - inversion H; subst. exists [], l'. auto.
  - destruct (Pools.erase_first g l) as [r|] eqn:E; [|discriminate].
    inversion H; subst. destruct (IH r eq_refl) as (l1 & l2 & -> & -> & Hn).
    exists (x :: l1), l2. repeat split; auto.
    intros [H1|H1]; auto.
Qed.

Lemma Pools_erase_first_In : forall g l,
  In g l -> exists l', Pools.erase_first g l = Some l'.
Proof.
  intros g l. induction l as [|x l IH]; intro H; [destruct H|]. simpl.
  destruct (Z.eqb_spec x g) as [->|Hne]; [eauto|].
  destruct H as [H|H]; [congruence|].
  destruct (IH H) as (l' & ->). eauto.
Qed.

Lemma Pools_erase_first_None : forall g l,
  Pools.erase_first g l = None -> ~ In g l.
Proof.
  intros g l H Hin. destruct (Pools_erase_first_In g l Hin) as (l' & E).
  congruence.
Qed.

Lemma Pools_erase_first_perm : forall g l l',
  Pools.erase_first g l = Some l' -> Permutation l (g :: l').
Proof.
  intros g l l' H.
  destruct (Pools_erase_first_split g l l' H) as (l1 & l2 & -> & -> & _).
  symmetry. apply Permutation_middle.
Qed.

Lemma StronglySorted_after :
  forall (A : Type) (R : A -> A -> Prop) (l1 l2 : list A) (x y : A),
    StronglySorted R (l1 ++ x :: l2) -> In y l2 -> R x y.
Proof.
  intros A R l1 l2 x y. induction l1 as [|z l1 IH]; simpl; intros H Hy.
  - inversion H as [|? ? _ HF]; subst. rewrite Forall_forall in HF. auto.
  - inversion H; subst. auto.
Qed.

Lemma StronglySorted_remove_middle :
  forall (A : Type) (R : A -> A -> Prop) (l1 l2 : list A) (x : A),
    StronglySorted R (l1 ++ x :: l2) -> StronglySorted R (l1 ++ l2).
Proof.
  intros A R l1 l2 x. induction l1 as [|y l1 IH]; simpl; intro H.
  - now inversion H.
  - inversion H as [|? ? Hs HF]; subst. constructor; [auto|].
    rewrite Forall_forall in *. intros z Hz. apply HF.
    apply in_app_iff in Hz. apply in_app_iff.
    destruct Hz; [now left | right; now right].
Qed.

Lemma Pools_erase_first_sorted : forall (R : Z -> Z -> Prop) g l l',
  Pools.erase_first g l = Some l' ->
  StronglySorted R l -> StronglySorted R l'.
Proof.
  intros R g l l' H Hs.
  destruct (Pools_erase_first_split g l l' H) as (l1 & l2 & -> & -> & _).
  eapply StronglySorted_remove_middle; eauto.
Qed.

Lemma StronglySorted_ext :
  forall (A : Type) (R R' : A -> A -> Prop) (l : list A),
    (forall x y, R x y -> R' x y) -> StronglySorted R l -> StronglySorted R' l.
Proof.
  intros A R R' l H Hs. induction Hs as [|x l Hs IH HF]; constructor; auto.
  eapply Forall_impl; [|exact HF]. auto.
Qed.

Lemma Pools_update_same : forall (A : Type) (f : Z -> A) k v,
  Pools.update f k v k = v.
Proof. intros. unfold Pools.update. now rewrite Z.eqb_refl. Qed.

Lemma Pools_update_other : forall (A : Type) (f : Z -> A) k v x,
  x <> k -> Pools.update f k v x = f x.
Proof.
  intros A f k v x H. unfold Pools.update.
  now replace (x =? k) with false by (symmetry; apply Z.eqb_neq; exact H).
Qed.

(** The two ways a step can end. *)
Lemma Pools_step_inv : forall TA pt a h q c q',
  Pools.AssignToPool_step TA pt a h q c = Some q' ->
  let g := Solo3v3.group c in
  let target := if pt =? TA then a else h in
  let src := if Pools.teamId (Pools.groups q g) =? TA then a else h in
  let pools' :=
    Pools.update (Pools.m_SelectionPools q) pt
      (Pools.m_SelectionPools q pt ++ [g]) in
  (Pools.teamId (Pools.groups q g) = pt
   /\ q' = {| Pools.groups := Pools.groups q;
              Pools.m_QueuedGroups := Pools.m_QueuedGroups q;
              Pools.m_SelectionPools := pools' |})
  \/ (Pools.teamId (Pools.groups q g) <> pt
      /\ exists srcList,
           let groups' :=
             Pools.update (Pools.groups q) g
               {| Pools.teamId := pt; Pools.GroupType := target;
                  Pools.JoinTime := Pools.JoinTime (Pools.groups q g) |} in
           let queued :=
             Pools.update (Pools.m_QueuedGroups q) target
               (Pools.insert_by_JoinTime groups' g
                  (Pools.m_QueuedGroups q target)) in
           Pools.erase_first g (queued src) = Some srcList
           /\ q' = {| Pools.groups := groups';
                      Pools.m_QueuedGroups := Pools.update queued src srcList;
                      Pools.m_SelectionPools := pools' |}).
Proof.
  intros TA pt a h q c q' H g target src pools'.
  unfold Pools.AssignToPool_step in H. cbv zeta in H.
  fold g in H. fold target in H. fold src in H.
  destruct (Z.eqb_spec (Pools.teamId (Pools.groups q g)) pt) as [E|E];
    cbn [negb] in H.
  - left. split; [exact E|]. inversion H. reflexivity.
  - right. split; [exact E|].
    destruct (Pools.erase_first g _) as [srcList|] eqn:Her; [|discriminate].
    exists srcList. split; [exact Her|]. inversion H. reflexivity.
Qed.

Lemma Pools_step_JoinTime : forall TA pt a h q c q',
  Pools.AssignToPool_step TA pt a h q c = Some q' ->
  forall x, Pools.JoinTime (Pools.groups q' x) = Pools.JoinTime (Pools.groups q x).
Proof.
  intros TA pt a h q c q' H x.
  destruct (Pools_step_inv TA pt a h q c q' H) as [[_ ->]|[_ (l & _ & ->)]];
    cbn [Pools.groups]; [reflexivity|].
  unfold Pools.update. destruct (Z.eqb_spec x (Solo3v3.group c)) as [->|_];
    reflexivity.
Qed.

Lemma Pools_step_fifo : forall TA pt a h q c q',
  Pools.AssignToPool_step TA pt a h q c = Some q' ->
  forall t, Pools.fifo q t -> Pools.fifo q' t.
Proof.
  intros TA pt a h q c q' H t Hs. unfold Pools.fifo in *.
  apply (StronglySorted_ext _
           (fun x y => Pools.JoinTime (Pools.groups q x)
                       <= Pools.JoinTime (Pools.groups q y))).
  { intros x y. now rewrite !(Pools_step_JoinTime TA pt a h q c q' H). }
  destruct (Pools_step_inv TA pt a h q c q' H) as [[_ ->]|[_ (l & Her & ->)]];
    cbn [Pools.m_QueuedGroups]; [exact Hs|].
  cbv zeta in Her.
  set (g := Solo3v3.group c) in *.
  set (target := if pt =? TA then a else h) in *.
  set (src := if Pools.teamId (Pools.groups q g) =? TA then a else h) in *.
  rewrite Pools_insert_ext with (gs := Pools.groups q) in Her |- *.
  2,3: (intro x; unfold Pools.update;
        destruct (Z.eqb_spec x g) as [->|_]; reflexivity).
  assert (Hins : forall t',
            StronglySorted
              (fun x y => Pools.JoinTime (Pools.groups q x)
                          <= Pools.JoinTime (Pools.groups q y))
              (Pools.m_QueuedGroups q t') ->
            StronglySorted
              (fun x y => Pools.JoinTime (Pools.groups q x)
                          <= Pools.JoinTime (Pools.groups q y))
              (Pools.update (Pools.m_QueuedGroups q) target
                 (Pools.insert_by_JoinTime (Pools.groups q) g
                    (Pools.m_QueuedGroups q target)) t')).
  { intros t' Ht'. unfold Pools.update.
    destruct (Z.eqb_spec t' target) as [->|_]; [|exact Ht'].
    now apply Pools_insert_sorted. }
  unfold Pools.update at 1. destruct (Z.eqb_spec t src) as [->|Hne].
  - eapply Pools_erase_first_sorted; [exact Her|]. apply Hins. exact Hs.
  - apply Hins. exact Hs.
Qed.

Lemma Pools_step_groups : forall TA pt a h q c q',
  Pools.AssignToPool_step TA pt a h q c = Some q' ->
  let g := Solo3v3.group c in
  (forall x, x <> g -> Pools.groups q' x = Pools.groups q x)
  /\ Pools.teamId (Pools.groups q' g) = pt
  /\ Pools.GroupType (Pools.groups q' g)
     = (if Pools.teamId (Pools.groups q g) =? pt
        then Pools.GroupType (Pools.groups q g)
        else if pt =? TA then a else h).
Proof.
  intros TA pt a h q c q' H g.
  destruct (Pools_step_inv TA pt a h q c q' H) as [[E ->]|[E (l & _ & ->)]];
    cbn [Pools.groups]; fold g in E |- *.
  - split; [reflexivity|]. split; [exact E|].
    now rewrite (proj2 (Z.eqb_eq _ _) E).
  - split; [intros x Hx; now apply Pools_update_other|].
    rewrite Pools_update_same. cbn [Pools.teamId Pools.GroupType].
    split; [reflexivity|].
    now replace (Pools.teamId (Pools.groups q g) =? pt) with false
      by (symmetry; apply Z.eqb_neq; exact E).
Qed.

Lemma Pools_step_pools : forall TA pt a h q c q',
  Pools.AssignToPool_step TA pt a h q c = Some q' ->
  forall team,
    Pools.m_SelectionPools q' team
    = if team =? pt
      then Pools.m_SelectionPools q pt ++ [Solo3v3.group c]
      else Pools.m_SelectionPools q team.
Proof.
  intros TA pt a h q c q' H team.
  destruct (Pools_step_inv TA pt a h q c q' H) as [[_ ->]|[_ (l & _ & ->)]];
    cbn [Pools.m_SelectionPools]; unfold Pools.update;
    destruct (Z.eqb_spec team pt) as [->|_]; reflexivity.
Qed.

(** The two faction buckets together hold the same groups before and
    after; no other bucket is touched. *)
Lemma Pools_step_buckets : forall TA pt a h q c q',
  a <> h ->
  Pools.AssignToPool_step TA pt a h q c = Some q' ->
  Permutation (Pools.m_QueuedGroups q' a ++ Pools.m_QueuedGroups q' h)
    (Pools.m_QueuedGroups q a ++ Pools.m_QueuedGroups q h)
  /\ forall t, t <> a -> t <> h ->
               Pools.m_QueuedGroups q' t = Pools.m_QueuedGroups q t.
Proof.
  intros TA pt a h q c q' Hah H.
  destruct (Pools_step_inv TA pt a h q c q' H) as [[_ ->]|[_ (l & Her & ->)]];
    cbn [Pools.m_QueuedGroups]; [split; [apply Permutation_refl|reflexivity]|].
  cbv zeta in Her.
  set (g := Solo3v3.group c) in *.
  set (gs' := Pools.update (Pools.groups q) g _) in *.
  set (target := if pt =? TA then a else h) in *.
  set (src := if Pools.teamId (Pools.groups q g) =? TA then a else h) in *.
  set (ins := Pools.insert_by_JoinTime gs' g (Pools.m_QueuedGroups q target)) in *.
  pose proof (Pools_insert_perm gs' g (Pools.m_QueuedGroups q target)) as Hins.
  fold ins in Hins.
  pose proof (Pools_erase_first_perm g _ l Her) as Hl.
  assert (Ht : target = a \/ target = h)
    by (unfold target; destruct (pt =? TA); auto).
  assert (Hs : src = a \/ src = h)
    by (unfold src; destruct (Pools.teamId (Pools.groups q g) =? TA); auto).
  split.
  - destruct (Z.eq_dec src target) as [Est|Est].
    + rewrite Est in *. rewrite Pools_update_same in Hl.
      assert (Hq : Permutation l (Pools.m_QueuedGroups q target)).
      { apply Permutation_cons_inv with (a := g).
        rewrite <- Hl. exact Hins. }
      destruct Ht as [Ht|Ht]; rewrite Ht in *.
      * rewrite Pools_update_same.
        rewrite !(Pools_update_other _ _ a _ h) by congruence.
        now apply Permutation_app_tail.
      * rewrite Pools_update_same.
        rewrite !(Pools_update_other _ _ h _ a) by congruence.
        now apply Permutation_app_head.
    + rewrite (Pools_update_other _ _ target _ src Est) in Hl.
      assert (Hmove : Permutation (ins ++ l)
                        (Pools.m_QueuedGroups q target
                         ++ Pools.m_QueuedGroups q src)).
      { rewrite Hins, Hl. cbn [app]. apply Permutation_middle. }
      destruct Ht as [Ht|Ht], Hs as [Hs|Hs]; try congruence;
        rewrite Ht, Hs in *.
      * rewrite Pools_update_same.
        rewrite (Pools_update_other _ _ h _ a) by congruence.
        rewrite Pools_update_same. exact Hmove.
      * rewrite Pools_update_same.
        rewrite (Pools_update_other _ _ a _ h) by congruence.
        rewrite Pools_update_same.
        rewrite Permutation_app_comm, Hmove. apply Permutation_app_comm.
  - intros t Hta Hth.
    rewrite !Pools_update_other; try reflexivity.
    + destruct Ht; congruence.
    + destruct Hs; congruence.
Qed.

(** A step fails only when it must erase a group that is not in the
    bucket of its side. *)
Lemma Pools_step_succeeds : forall TA pt a h q c,
  let g := Solo3v3.group c in
  In g (Pools.m_QueuedGroups q
          (if Pools.teamId (Pools.groups q g) =? TA then a else h)) ->
  exists q', Pools.AssignToPool_step TA pt a h q c = Some q'.
Proof.
  intros TA pt a h q c g Hin. unfold Pools.AssignToPool_step. cbv zeta.
  fold g.
  destruct (negb (Pools.teamId (Pools.groups q g) =? pt)); [|eauto].
  set (gs' := Pools.update (Pools.groups q) g _).
  set (target := if pt =? TA then a else h).
  set (src := if Pools.teamId (Pools.groups q g) =? TA then a else h) in *.
  destruct (Pools_erase_first_In g
              (Pools.update (Pools.m_QueuedGroups q) target
                 (Pools.insert_by_JoinTime gs' g
                    (Pools.m_QueuedGroups q target)) src)) as (l & ->);
    [|eauto].
  unfold Pools.update. destruct (Z.eqb_spec src target) as [E|E]; [|exact Hin].
  apply (Permutation_in _ (Permutation_sym (Pools_insert_perm gs' g _))).
  now left.
Qed.

(** Every group in the bucket of its side stays in the bucket of its
    side. *)
Lemma Pools_step_housed : forall TA pt a h q c q',
  Pools.AssignToPool_step TA pt a h q c = Some q' ->
  forall x,
    In x (Pools.m_QueuedGroups q
            (if Pools.teamId (Pools.groups q x) =? TA then a else h)) ->
    In x (Pools.m_QueuedGroups q'
            (if Pools.teamId (Pools.groups q' x) =? TA then a else h)).
Proof.
  intros TA pt a h q c q' H x Hx.
  destruct (Pools_step_inv TA pt a h q c q' H) as [[_ ->]|[E (l & Her & ->)]];
    cbn [Pools.m_QueuedGroups Pools.groups]; [exact Hx|].
  cbv zeta in Her.
  set (g := Solo3v3.group c) in *.
  set (target := if pt =? TA then a else h) in *.
  set (src := if Pools.teamId (Pools.groups q g) =? TA then a else h) in *.
  set (gs' := Pools.update (Pools.groups q) g _) in *.
  set (ins := Pools.insert_by_JoinTime gs' g (Pools.m_QueuedGroups q target)) in *.
  pose proof (Pools_insert_perm gs' g (Pools.m_QueuedGroups q target)) as Hins.
  fold ins in Hins.
  destruct (Pools_erase_first_split g _ l Her) as (l1 & l2 & E1 & E2 & Hn).
  assert (Hkeep : forall y, y <> g ->
            In y (Pools.update (Pools.m_QueuedGroups q) target ins src) ->
            In y l).
  { intros y Hy Hin. rewrite E1 in Hin. rewrite E2.
    apply in_app_iff in Hin. apply in_app_iff.
    destruct Hin as [Hin|[Hin|Hin]]; auto. congruence. }
  assert (Hgrow : forall y t, In y (Pools.m_QueuedGroups q t) ->
            In y (Pools.update (Pools.m_QueuedGroups q) target ins t)).
  { intros y t Hy. unfold Pools.update.
    destruct (Z.eqb_spec t target) as [->|_]; [|exact Hy].
    apply (Permutation_in _ (Permutation_sym Hins)). now right. }
  destruct (Z.eq_dec x g) as [->|Hxg].
  - unfold gs' at 1. rewrite Pools_update_same. cbn [Pools.teamId].
    fold target. fold src in Hx.
    unfold Pools.update at 1. destruct (Z.eqb_spec target src) as [Ets|Ets].
    + (* erased from the bucket it was inserted into *)
      rewrite <- Ets in E1. rewrite Pools_update_same in E1.
      assert (Hg2 : In g (g :: l)).
      { now left. }
      assert (Hcount : Permutation (g :: l) (g :: Pools.m_QueuedGroups q target)).
      { rewrite <- Hins. rewrite E1, E2. apply Permutation_middle. }
      apply Permutation_cons_inv in Hcount.
      apply (Permutation_in _ (Permutation_sym Hcount)).
      rewrite Ets. exact Hx.
    + rewrite Pools_update_same.
      apply (Permutation_in _ (Permutation_sym Hins)). now left.
  - unfold gs' at 1. rewrite (Pools_update_other _ _ g _ x Hxg).
    set (s := if Pools.teamId (Pools.groups q x) =? TA then a else h) in *.
    unfold Pools.update at 1. destruct (Z.eqb_spec s src) as [Es|Es].
    + apply Hkeep; [exact Hxg|]. rewrite <- Es. now apply Hgrow.
    + now apply Hgrow.
Qed.

Lemma Pools_assign_cons : forall TA idx rest sel pt a h q q',
  Pools.AssignToPool TA (idx :: rest) sel pt a h q = Some q' ->
  exists c q1,
    nth_error sel idx = Some c
    /\ Pools.AssignToPool_step TA pt a h q c = Some q1
    /\ Pools.AssignToPool TA rest sel pt a h q1 = Some q'
    /\ Pools.assigned (idx :: rest) sel
       = Solo3v3.group c :: Pools.assigned rest sel.
Proof.
  intros TA idx rest sel pt a h q q' H. cbn [Pools.AssignToPool] in H.
  unfold Pools.assigned. cbn [flat_map].
  destruct (nth_error sel idx) as [c|]; [|discriminate].
  destruct (Pools.AssignToPool_step TA pt a h q c) as [q1|] eqn:E;
    [|discriminate].
  exists c, q1. auto.
Qed.

Lemma Pools_assign_spec : forall TA indices sel pt a h q q',
  Pools.AssignToPool TA indices sel pt a h q = Some q' ->
  (forall x, Pools.JoinTime (Pools.groups q' x)
             = Pools.JoinTime (Pools.groups q x))
  /\ (forall t, Pools.fifo q t -> Pools.fifo q' t)
  /\ (forall x, ~ In x (Pools.assigned indices sel) ->
                Pools.groups q' x = Pools.groups q x)
  /\ (forall x, In x (Pools.assigned indices sel) ->
        Pools.teamId (Pools.groups q' x) = pt
        /\ Pools.GroupType (Pools.groups q' x)
           = (if Pools.teamId (Pools.groups q x) =? pt
              then Pools.GroupType (Pools.groups q x)
              else if pt =? TA then a else h))
  /\ (forall team,
        Pools.m_SelectionPools q' team
        = if team =? pt
          then Pools.m_SelectionPools q pt ++ Pools.assigned indices sel
          else Pools.m_SelectionPools q team)
  /\ (a <> h ->
      Permutation (Pools.m_QueuedGroups q' a ++ Pools.m_QueuedGroups q' h)
        (Pools.m_QueuedGroups q a ++ Pools.m_QueuedGroups q h)
      /\ forall t, t <> a -> t <> h ->
                   Pools.m_QueuedGroups q' t = Pools.m_QueuedGroups q t)
  /\ (forall x, Pools.housed TA a h q x -> Pools.housed TA a h q' x).
Proof.
  intros TA indices sel pt a h. induction indices as [|idx rest IH];
    intros q q' H.
  - inversion H; subst. unfold Pools.assigned. cbn [flat_map].
    split; [reflexivity|]. split; [auto|]. split; [reflexivity|].
    split; [intros x []|]. split.
    + intro team. destruct (team =? pt) eqn:E; [|reflexivity].
      apply Z.eqb_eq in E. subst. now rewrite app_nil_r.
    + split; [|auto]. intros _. split; [apply Permutation_refl|reflexivity].
  - destruct (Pools_assign_cons TA idx rest sel pt a h q q' H)
      as (c & q1 & Hc & Hstep & Hrest & Has).
    rewrite Has. set (g := Solo3v3.group c) in *.
    destruct (IH q1 q' Hrest) as (J & F & U & T & P & B & Hs).
    destruct (Pools_step_groups TA pt a h q c q1 Hstep) as (G1 & G2 & G3).
    fold g in G1, G2, G3.
    split; [|split; [|split; [|split; [|split; [|split]]]]].
    + intro x. rewrite J. apply (Pools_step_JoinTime TA pt a h q c q1 Hstep).
    + intros t Ht. apply F. apply (Pools_step_fifo TA pt a h q c q1 Hstep).
      exact Ht.
    + intros x Hx. rewrite U by (intro; apply Hx; now right).
      apply G1. intro; apply Hx; now left.
    + intros x Hx.
      destruct (in_dec Z.eq_dec x (Pools.assigned rest sel)) as [Hin|Hnin].
      * destruct (T x Hin) as [T1 T2]. split; [exact T1|]. rewrite T2.
        destruct (Z.eq_dec x g) as [->|Hxg].
        -- rewrite G2, Z.eqb_refl. exact G3.
        -- now rewrite (G1 x Hxg).
      * destruct Hx as [<-|Hx]; [|contradiction].
        rewrite (U g Hnin). auto.
    + intro team. rewrite P.
      rewrite !(Pools_step_pools TA pt a h q c q1 Hstep).
      rewrite Z.eqb_refl. fold g.
      destruct (team =? pt); [|reflexivity].
      now rewrite <- app_assoc.
    + intro Hah. destruct (B Hah) as [B1 B2].
      destruct (Pools_step_buckets TA pt a h q c q1 Hah Hstep) as [S1 S2].
      split; [now rewrite B1|].
      intros t Ha Hh. rewrite B2 by assumption. now apply S2.
    + intros x Hx. apply Hs. unfold Pools.housed in *.
      now apply (Pools_step_housed TA pt a h q c q1 Hstep).
Qed.

Lemma Pools_assign_succeeds : forall TA indices sel pt a h q,
  Forall (fun idx => (idx < length sel)%nat) indices ->
  (forall c, In c sel -> Pools.housed TA a h q (Solo3v3.group c)) ->
  exists q', Pools.AssignToPool TA indices sel pt a h q = Some q'.
Proof.
  intros TA indices sel pt a h. induction indices as [|idx rest IH];
    intros q HF Hh.
  - exists q. reflexivity.
  - inversion HF as [|? ? Hidx HF']; subst. cbn [Pools.AssignToPool].
    destruct (nth_error sel idx) as [c|] eqn:Hc.
    2:{ apply nth_error_None in Hc. lia. }
    destruct (Pools_step_succeeds TA pt a h q c) as (q1 & Hq1).
    { apply Hh. eapply nth_error_In; eauto. }
    rewrite Hq1. apply IH; [exact HF'|].
    intros c' Hc'. unfold Pools.housed.
    apply (Pools_step_housed TA pt a h q c q1 Hq1). now apply Hh.
Qed.

(** ** The place of a group that changes side *)

Lemma existsb_skip : forall (g y : Z) f b,
  y <> g ->
  existsb (Z.eqb g) (f ++ y :: b) = existsb (Z.eqb g) (f ++ b).
Proof.
  intros g y f b H. rewrite !existsb_app. cbn [existsb].
  now replace (g =? y) with false by (symmetry; apply Z.eqb_neq; congruence).
Qed.

Lemma Pools_precedes_skip : forall x g y f b,
  y <> x -> y <> g ->
  Pools.precedes x g (f ++ y :: b) = Pools.precedes x g (f ++ b).
Proof.
  intros x g y f b Hx Hg. induction f as [|z f IH]; cbn [app Pools.precedes].
  - now replace (y =? x) with false by (symmetry; apply Z.eqb_neq; exact Hx).
  - rewrite IH, (existsb_skip g y f b Hg). reflexivity.
Qed.

Lemma In_skip : forall (x y : Z) f b,
  y <> x -> (In x (f ++ y :: b) <-> In x (f ++ b)).
Proof.
  intros x y f b H. rewrite !in_app_iff. cbn [In]. intuition congruence.
Qed.

Lemma existsb_eqb_In : forall (g : Z) l,
  existsb (Z.eqb g) l = true <-> In g l.
Proof.
  intros g l. rewrite existsb_exists. split.
  - intros (y & Hy & E). apply Z.eqb_eq in E. now subst.
  - intro H. exists g. split; [exact H | apply Z.eqb_refl].
Qed.

Lemma Pools_precedes_iff : forall x g l,
  Pools.precedes x g l = true
  <-> exists l1 l2 l3, l = l1 ++ x :: l2 ++ g :: l3.
Proof.
  intros x g l. induction l as [|y rest IH]; cbn [Pools.precedes].
  - split; [discriminate|]. intros (l1 & l2 & l3 & H). destruct l1; discriminate.
  - rewrite orb_true_iff, andb_true_iff, Z.eqb_eq, existsb_eqb_In, IH. split.
    + intros [[-> Hg]|(l1 & l2 & l3 & ->)].
      * apply in_split in Hg. destruct Hg as (l2 & l3 & ->).
        now exists [], l2, l3.
      * now exists (y :: l1), l2, l3.
    + intros (l1 & l2 & l3 & H). destruct l1 as [|z l1]; cbn [app] in H;
        inversion H; subst.
      * left. split; [reflexivity|]. apply in_or_app. right. now left.
      * right. now exists l1, l2, l3.
Qed.

(** A step only inserts and erases the group of its candidate: the other
    groups keep their buckets and their order. *)
Lemma Pools_step_others : forall TA pt a h q c q1,
  Pools.AssignToPool_step TA pt a h q c = Some q1 ->
  forall t x g,
    x <> Solo3v3.group c -> g <> Solo3v3.group c ->
    Pools.precedes x g (Pools.m_QueuedGroups q1 t)
    = Pools.precedes x g (Pools.m_QueuedGroups q t)
    /\ (In x (Pools.m_QueuedGroups q1 t) <-> In x (Pools.m_QueuedGroups q t)).
Proof.
  intros TA pt a h q c q1 H t x g Hx Hg.
  destruct (Pools_step_inv TA pt a h q c q1 H) as [[_ ->]|[_ (l & Her & ->)]];
    cbn [Pools.m_QueuedGroups]; [split; reflexivity|].
  cbv zeta in Her.
  set (g2 := Solo3v3.group c) in *.
  set (target := if pt =? TA then a else h) in *.
  set (src := if Pools.teamId (Pools.groups q g2) =? TA then a else h) in *.
  set (gs' := Pools.update (Pools.groups q) g2 _) in *.
  destruct (Pools_insert_split gs' g2 (Pools.m_QueuedGroups q target))
    as (f & b & Eold & Eins & _).
  assert (Hins : forall t',
            Pools.precedes x g
              (Pools.update (Pools.m_QueuedGroups q) target
                 (Pools.insert_by_JoinTime gs' g2
                    (Pools.m_QueuedGroups q target)) t')
            = Pools.precedes x g (Pools.m_QueuedGroups q t')
            /\ (In x (Pools.update (Pools.m_QueuedGroups q) target
                        (Pools.insert_by_JoinTime gs' g2
                           (Pools.m_QueuedGroups q target)) t')
                <-> In x (Pools.m_QueuedGroups q t'))).
  { intro t'. unfold Pools.update.
    destruct (Z.eqb_spec t' target) as [->|_]; [|split; reflexivity].
    rewrite Eins, Eold. split.
    - apply Pools_precedes_skip; congruence.
    - apply In_skip. congruence. }
  unfold Pools.update at 1 3. destruct (Z.eqb_spec t src) as [->|_].
  - destruct (Pools_erase_first_split g2 _ l Her) as (l1 & l2 & E1 & E2 & _).
    destruct (Hins src) as [P I]. rewrite E1 in P, I. rewrite E2.
    rewrite <- P, <- I. split.
    + symmetry. apply Pools_precedes_skip; congruence.
    + symmetry. apply In_skip. congruence.
  - apply Hins.
Qed.

(** The step that moves [g] into another bucket puts it behind the groups
    that joined no later and in front of those that joined later. *)
Lemma Pools_step_place : forall TA pt a h q c q1,
  Pools.AssignToPool_step TA pt a h q c = Some q1 ->
  let g := Solo3v3.group c in
  let target := if pt =? TA then a else h in
  (if Pools.teamId (Pools.groups q g) =? TA then a else h) <> target ->
  Pools.fifo q target ->
  forall x, x <> g -> In x (Pools.m_QueuedGroups q target) ->
    (Pools.JoinTime (Pools.groups q x) <= Pools.JoinTime (Pools.groups q g) ->
     Pools.precedes x g (Pools.m_QueuedGroups q1 target) = true)
    /\ (Pools.JoinTime (Pools.groups q g) < Pools.JoinTime (Pools.groups q x) ->
        Pools.precedes g x (Pools.m_QueuedGroups q1 target) = true).
Proof.
  intros TA pt a h q c q1 H g target Hsrc Hfifo x Hxg Hx.
  destruct (Pools_step_inv TA pt a h q c q1 H) as [[E _]|[_ (l & Her & ->)]].
  { exfalso. apply Hsrc. fold g in E. rewrite E. reflexivity. }
  cbn [Pools.m_QueuedGroups]. fold g. fold target.
  set (src := if Pools.teamId (Pools.groups q g) =? TA then a else h) in *.
  rewrite (Pools_update_other _ _ src _ target) by congruence.
  rewrite Pools_update_same.
  rewrite Pools_insert_ext with (gs := Pools.groups q).
  2:{ intro y. unfold Pools.update.
      destruct (Z.eqb_spec y g) as [->|_]; reflexivity. }
  destruct (Pools_insert_split (Pools.groups q) g (Pools.m_QueuedGroups q target))
    as (f & b & Eold & Eins & Hf & Hb).
  rewrite Eins. unfold Pools.fifo in Hfifo. rewrite Eold in Hfifo, Hx.
  assert (Hback : forall y, In y b ->
            Pools.JoinTime (Pools.groups q g) < Pools.JoinTime (Pools.groups q y)).
  { intros y Hy. destruct b as [|z b]; [destruct Hy|].
    destruct Hy as [<-|Hy]; [exact Hb|].
    pose proof (StronglySorted_after _ _ f b z y Hfifo Hy) as Hzy.
    cbv beta in Hzy. lia. }
  rewrite Forall_forall in Hf.
  apply in_app_iff in Hx. split.
  - intro Hle. destruct Hx as [Hx|Hx].
    + apply Pools_precedes_iff. apply in_split in Hx.
      destruct Hx as (l1 & l2 & ->). exists l1, l2, b.
      now rewrite <- app_assoc.
    + specialize (Hback x Hx). lia.
  - intro Hlt. destruct Hx as [Hx|Hx].
    + specialize (Hf x Hx). cbv beta in Hf. lia.
    + apply Pools_precedes_iff. apply in_split in Hx.
      destruct Hx as (l1 & l2 & ->). now exists f, l1, l2.
Qed.

(** A step leaves alone the groups that are on the pool's side already
    and those of the other candidates. *)
Lemma Pools_step_stays : forall TA pt a h q c q1,
  Pools.AssignToPool_step TA pt a h q c = Some q1 ->
  forall t x g,
    Pools.teamId (Pools.groups q x) = pt \/ x <> Solo3v3.group c ->
    Pools.teamId (Pools.groups q g) = pt \/ g <> Solo3v3.group c ->
    Pools.precedes x g (Pools.m_QueuedGroups q1 t)
    = Pools.precedes x g (Pools.m_QueuedGroups q t)
    /\ (In x (Pools.m_QueuedGroups q1 t) <-> In x (Pools.m_QueuedGroups q t)).
Proof.
  intros TA pt a h q c q1 H t x g Hx Hg.
  destruct (Pools_step_inv TA pt a h q c q1 H) as [[_ ->]|[Hmv _]];
    [split; reflexivity|].
  apply (Pools_step_others TA pt a h q c q1 H).
  - destruct Hx as [Hx|Hx]; [|exact Hx]. intros ->. now apply Hmv.
  - destruct Hg as [Hg|Hg]; [|exact Hg]. intros ->. now apply Hmv.
Qed.

Lemma Pools_step_teamId : forall TA pt a h q c q1 u,
  Pools.AssignToPool_step TA pt a h q c = Some q1 ->
  Pools.teamId (Pools.groups q u) = pt ->
  Pools.teamId (Pools.groups q1 u) = pt.
Proof.
  intros TA pt a h q c q1 u H Hu.
  destruct (Pools_step_groups TA pt a h q c q1 H) as (G1 & G2 & _).
  destruct (Z.eq_dec u (Solo3v3.group c)) as [->|Hne]; [exact G2|].
  now rewrite (G1 u Hne).
Qed.

(** The call leaves the order of two groups as it is when each of them is
    on the pool's side already or is not assigned by the call. *)
Lemma Pools_assign_keeps_place : forall TA indices sel pt a h q q' g x t,
  Pools.AssignToPool TA indices sel pt a h q = Some q' ->
  Pools.teamId (Pools.groups q g) = pt \/ ~ In g (Pools.assigned indices sel) ->
  Pools.teamId (Pools.groups q x) = pt \/ ~ In x (Pools.assigned indices sel) ->
  Pools.precedes x g (Pools.m_QueuedGroups q' t)
  = Pools.precedes x g (Pools.m_QueuedGroups q t).
Proof.
  intros TA indices sel pt a h. induction indices as [|idx rest IH];
    intros q q' g x t H Hg Hx.
  - inversion H; subst. reflexivity.
  - destruct (Pools_assign_cons TA idx rest sel pt a h q q' H)
      as (c & q1 & Hc & Hstep & Hrest & Has).
    rewrite Has in Hg, Hx.
    rewrite (IH q1 q' g x t Hrest).
    + apply (Pools_step_stays TA pt a h q c q1 Hstep t x g).
      * destruct Hx as [Hx|Hx]; [now left|]. right. intro E. apply Hx. now left.
      * destruct Hg as [Hg|Hg]; [now left|]. right. intro E. apply Hg. now left.
    + destruct Hg as [Hg|Hg].
      * left. now apply (Pools_step_teamId TA pt a h q c q1 g Hstep).
      * right. intro Hin. apply Hg. now right.
    + destruct Hx as [Hx|Hx].
      * left. now apply (Pools_step_teamId TA pt a h q c q1 x Hstep).
      * right. intro Hin. apply Hx. now right.
Qed.

Lemma Pools_assign_place : forall TA indices sel pt a h q q' g x,
  Pools.AssignToPool TA indices sel pt a h q = Some q' ->
  let target := if pt =? TA then a else h in
  Pools.fifo q target ->
  In g (Pools.assigned indices sel) ->
  (if Pools.teamId (Pools.groups q g) =? TA then a else h) <> target ->
  In x (Pools.m_QueuedGroups q target) ->
  Pools.teamId (Pools.groups q x) = pt \/ ~ In x (Pools.assigned indices sel) ->
  (Pools.JoinTime (Pools.groups q x) <= Pools.JoinTime (Pools.groups q g) ->
   Pools.precedes x g (Pools.m_QueuedGroups q' target) = true)
  /\ (Pools.JoinTime (Pools.groups q g) < Pools.JoinTime (Pools.groups q x) ->
      Pools.precedes g x (Pools.m_QueuedGroups q' target) = true).
Proof.
  intros TA indices sel pt a h. induction indices as [|idx rest IH];
    intros q q' g x H target Hfifo Hg Hsrc Hx Hnx.
  - destruct Hg.
  - destruct (Pools_assign_cons TA idx rest sel pt a h q q' H)
      as (c & q1 & Hc & Hstep & Hrest & Has).
    rewrite Has in Hg, Hnx.
    assert (Hnx1 : Pools.teamId (Pools.groups q1 x) = pt
                   \/ ~ In x (Pools.assigned rest sel)).
    { destruct Hnx as [Hnx|Hnx].
      - left. now apply (Pools_step_teamId TA pt a h q c q1 x Hstep).
      - right. intro Hin. apply Hnx. now right. }
    assert (Hxs : Pools.teamId (Pools.groups q x) = pt
                  \/ x <> Solo3v3.group c).
    { destruct Hnx as [Hnx|Hnx]; [now left|]. right. intro E. apply Hnx.
      now left. }
    destruct (Pools_step_groups TA pt a h q c q1 Hstep) as (G1 & G2 & _).
    destruct (Z.eq_dec g (Solo3v3.group c)) as [E|Hne].
    + subst g.
      assert (Hxc : x <> Solo3v3.group c).
      { destruct Hxs as [Hxs|Hxs]; [|exact Hxs]. intro E. apply Hsrc.
        fold target. rewrite <- E, Hxs. reflexivity. }
      destruct (Pools_step_place TA pt a h q c q1 Hstep Hsrc Hfifo x Hxc Hx)
        as [S1 S2].
      fold target in S1, S2.
      rewrite (Pools_assign_keeps_place TA rest sel pt a h q1 q'
                 (Solo3v3.group c) x target Hrest (or_introl G2) Hnx1).
      rewrite (Pools_assign_keeps_place TA rest sel pt a h q1 q'
                 x (Solo3v3.group c) target Hrest Hnx1 (or_introl G2)).
      split; assumption.
    + destruct Hg as [Hg|Hg]; [congruence|].
      pose proof (Pools_step_JoinTime TA pt a h q c q1 Hstep) as J.
      rewrite <- (J x), <- (J g).
      apply (IH q1 q' g x Hrest).
      * apply (Pools_step_fifo TA pt a h q c q1 Hstep). exact Hfifo.
      * exact Hg.
      * rewrite (G1 g Hne). exact Hsrc.
      * apply (Pools_step_stays TA pt a h q c q1 Hstep
                 (if pt =? TA then a else h) x x Hxs Hxs). exact Hx.
      * exact Hnx1.
Qed.

(** X20 (reclassifying keeps the queue order).  AssignToPool never
    changes a join time, and a bucket whose groups are in join-time order
    is still in join-time order afterwards.  A group that the call moves
    over from the other bucket stands, in its new bucket, behind every
    group that was queued there, is on the pool's side already or is not
    assigned by the call, and joined at the same time or earlier, and in
    front of every such group that joined later. *)
Theorem X20_assign_keeps_queue_order :
  forall TEAM_ALLIANCE indices selected poolTeam allianceGroupType
         hordeGroupType q q',
    Pools.AssignToPool TEAM_ALLIANCE indices selected poolTeam
      allianceGroupType hordeGroupType q = Some q' ->
    (forall g, Pools.JoinTime (Pools.groups q' g)
               = Pools.JoinTime (Pools.groups q g))
    /\ (forall type, Pools.fifo q type -> Pools.fifo q' type)
    /\ (forall g x,
          let target :=
            if poolTeam =? TEAM_ALLIANCE then allianceGroupType
            else hordeGroupType in
          let source :=
            if Pools.teamId (Pools.groups q g) =? TEAM_ALLIANCE
            then allianceGroupType else hordeGroupType in
          Pools.fifo q target ->
          In g (Pools.assigned indices selected) ->
          source <> target ->
          In x (Pools.m_QueuedGroups q target) ->
          Pools.teamId (Pools.groups q x) = poolTeam
          \/ ~ In x (Pools.assigned indices selected) ->
          (Pools.JoinTime (Pools.groups q x) <= Pools.JoinTime (Pools.groups q g)
           -> exists l1 l2 l3,
                Pools.m_QueuedGroups q' target = l1 ++ x :: l2 ++ g :: l3)
          /\ (Pools.JoinTime (Pools.groups q g) < Pools.JoinTime (Pools.groups q x)
              -> exists l1 l2 l3,
                   Pools.m_QueuedGroups q' target = l1 ++ g :: l2 ++ x :: l3)).
Proof.
  intros TA indices sel pt a h q q' H.
  destruct (Pools_assign_spec TA indices sel pt a h q q' H) as (J & F & _).
  split; [exact J|]. split; [exact F|].
  intros g x target source Hfifo Hg Hsrc Hx Hnx.
  destruct (Pools_assign_place TA indices sel pt a h q q' g x H
              Hfifo Hg Hsrc Hx Hnx) as [P1 P2].
  split; intro Hjt; apply Pools_precedes_iff; auto.
Qed.

(** Group 1 of [tied_queue] joined when group 3 did; sent to side 1 it
    goes behind group 3. *)
Lemma X20_assign_keeps_queue_order_witness :
  exists q',
    Pools.AssignToPool 0 [0]%nat Pools.sample_selected 1 0 1
      Pools.tied_queue = Some q'
    /\ exists l1 l2 l3,
         Pools.m_QueuedGroups q' 1 = l1 ++ 3 :: l2 ++ 1 :: l3.
Proof.
  destruct (Pools.AssignToPool 0 [0]%nat Pools.sample_selected 1 0 1
              Pools.tied_queue) as [q'|] eqn:E;
    [|vm_compute in E; discriminate].
  exists q'. split; [reflexivity|].
  assert (Hfifo : Pools.fifo Pools.tied_queue 1).
  { unfold Pools.fifo. cbn [Pools.tied_queue Pools.m_QueuedGroups Z.eqb].
    repeat constructor. vm_compute. discriminate. }
  assert (Hg : In 1 (Pools.assigned [0]%nat Pools.sample_selected))
    by (now left).
  assert (Hx : In 3 (Pools.m_QueuedGroups Pools.tied_queue 1))
    by (now left).
  assert (Hnx : ~ In 3 (Pools.assigned [0]%nat Pools.sample_selected)).
  { intros [H|[]]. discriminate. }
  assert (Hjt : Pools.JoinTime (Pools.groups Pools.tied_queue 3)
                <= Pools.JoinTime (Pools.groups Pools.tied_queue 1))
    by (vm_compute; discriminate).
  exact (proj1 (proj2 (proj2 (X20_assign_keeps_queue_order 0 [0]%nat
                                Pools.sample_selected 1 0 1
                                Pools.tied_queue q' E))
                  1 3 Hfifo Hg ltac:(discriminate) Hx (or_intror Hnx))
           Hjt).
Defined.

(** X21 (what AssignToPool changes).  After the call every group of the
    given candidates is on the pool's side, with the group type of that
    side if it had to change side; all other groups are untouched.  The
    selection pool has received these groups in order, the other pools
    nothing.  The two faction buckets together hold the same groups as
    before, and no other bucket is touched. *)
Theorem X21_assign_outcome :
  forall TEAM_ALLIANCE indices selected poolTeam allianceGroupType
         hordeGroupType q q',
    Pools.AssignToPool TEAM_ALLIANCE indices selected poolTeam
      allianceGroupType hordeGroupType q = Some q' ->
    let given := Pools.assigned indices selected in
    (forall g, In g given ->
       Pools.teamId (Pools.groups q' g) = poolTeam
       /\ Pools.GroupType (Pools.groups q' g)
          = (if Pools.teamId (Pools.groups q g) =? poolTeam
             then Pools.GroupType (Pools.groups q g)
             else if poolTeam =? TEAM_ALLIANCE then allianceGroupType
                  else hordeGroupType))
    /\ (forall g, ~ In g given -> Pools.groups q' g = Pools.groups q g)
    /\ Pools.m_SelectionPools q' poolTeam
       = Pools.m_SelectionPools q poolTeam ++ given
    /\ (forall team, team <> poolTeam ->
          Pools.m_SelectionPools q' team = Pools.m_SelectionPools q team)
    /\ (allianceGroupType <> hordeGroupType ->
        Permutation
          (Pools.m_QueuedGroups q' allianceGroupType
           ++ Pools.m_QueuedGroups q' hordeGroupType)
          (Pools.m_QueuedGroups q allianceGroupType
           ++ Pools.m_QueuedGroups q hordeGroupType)
        /\ forall type,
             type <> allianceGroupType -> type <> hordeGroupType ->
             Pools.m_QueuedGroups q' type = Pools.m_QueuedGroups q type).
Proof.
  intros TA indices sel pt a h q q' H given.
  destruct (Pools_assign_spec TA indices sel pt a h q q' H)
    as (_ & _ & U & T & P & B & _).
  split; [exact T|]. split; [exact U|]. split.
  { rewrite P, Z.eqb_refl. reflexivity. }
  split; [|exact B].
  intros team Hne. rewrite P.
  now replace (team =? pt) with false by (symmetry; apply Z.eqb_neq; exact Hne).
Qed.

Lemma X21_assign_outcome_witness :
  exists q',
    Pools.AssignToPool 0 [0; 3]%nat Pools.sample_selected 1 0 1
      Pools.sample_queue = Some q'
    /\ Pools.m_SelectionPools q' 1 = [1; 4].
Proof.
  destruct (Pools.AssignToPool 0 [0; 3]%nat Pools.sample_selected 1 0 1
              Pools.sample_queue) as [q'|] eqn:E;
    [|vm_compute in E; discriminate].
  exists q'. split; [reflexivity|].
  exact (proj1 (proj2 (proj2 (X21_assign_outcome 0 [0; 3]%nat
                                Pools.sample_selected 1 0 1
                                Pools.sample_queue q' E)))).
Defined.

(** X22 (AssignToPool completes).  When the indices are within the
    selected candidates and every selected group sits in the bucket of its
    side, AssignToPool finds each group it has to move in its source bucket
    (it never erases [end()]), and afterwards every group that sat in the
    bucket of its side still does. *)
Theorem X22_assign_completes :
  forall TEAM_ALLIANCE indices selected poolTeam allianceGroupType
         hordeGroupType q,
    Forall (fun idx => (idx < length selected)%nat) indices ->
    (forall c, In c selected ->
       Pools.housed TEAM_ALLIANCE allianceGroupType hordeGroupType q
         (Solo3v3.group c)) ->
    exists q',
      Pools.AssignToPool TEAM_ALLIANCE indices selected poolTeam
        allianceGroupType hordeGroupType q = Some q'
      /\ forall g,
           Pools.housed TEAM_ALLIANCE allianceGroupType hordeGroupType q g ->
           Pools.housed TEAM_ALLIANCE allianceGroupType hordeGroupType q' g.
Proof.
  intros TA indices sel pt a h q HF Hh.
  destruct (Pools_assign_succeeds TA indices sel pt a h q HF Hh) as (q' & E).
  exists q'. split; [exact E|].
  destruct (Pools_assign_spec TA indices sel pt a h q q' E)
    as (_ & _ & _ & _ & _ & _ & Hs).
  exact Hs.
Qed.

Lemma X22_assign_completes_witness :
  exists q',
    Pools.AssignToPool 0 [0; 3]%nat Pools.sample_selected 1 0 1
      Pools.sample_queue = Some q'
    /\ forall g, Pools.housed 0 0 1 Pools.sample_queue g ->
                 Pools.housed 0 0 1 q' g.
Proof.
  apply (X22_assign_completes 0 [0; 3]%nat Pools.sample_selected 1 0 1
           Pools.sample_queue).
  - repeat constructor.
  - intros c Hc. unfold Pools.housed.
    repeat (destruct Hc as [<-|Hc]; [vm_compute; tauto|]). destruct Hc.
Defined.

(** * The whole of CheckSolo3v3Arena *)

Lemma NoDup_firstn : forall (A : Type) k (l : list A),
  NoDup l -> NoDup (firstn k l).
Proof.
  intros A k l H. rewrite <- (firstn_skipn k l) in H.
  eapply NoDup_app_remove_r; eauto.
Qed.

Lemma NoDup_app_intro : forall (A : Type) (l l' : list A),
  NoDup l -> NoDup l' -> (forall x, In x l -> ~ In x l') -> NoDup (l ++ l').
Proof.
  intros A l l' Hl Hl' Hd. induction Hl as [|x l Hx Hl IH]; simpl; [exact Hl'|].
  constructor.
  - intro Hin. apply in_app_iff in Hin. destruct Hin as [Hin|Hin]; [auto|].
    apply (Hd x); [now left|exact Hin].
  - apply IH. intros y Hy. apply Hd. now right.
Qed.

Lemma NoDup_map_inj : forall (A B : Type) (f : A -> B) (l : list A) x y,
  NoDup (map f l) -> In x l -> In y l -> f x = f y -> x = y.
Proof.
  intros A B f l. induction l as [|z l IH]; intros x y Hnd Hx Hy E;
    [destruct Hx|].
  simpl in Hnd. inversion Hnd as [|? ? Hz Hnd']; subst.
  destruct Hx as [<-|Hx], Hy as [<-|Hy]; auto.
  - exfalso. apply Hz. rewrite E. now apply in_map.
  - exfalso. apply Hz. rewrite <- E. now apply in_map.
Qed.

Lemma NoDup_map_incl : forall (A B : Type) (f : A -> B) (l l' : list A),
  NoDup (map f l) -> NoDup l' -> incl l' l -> NoDup (map f l').
Proof.
  intros A B f l l' Hnd Hl' Hincl. induction Hl' as [|x l' Hx Hl' IH]; simpl.
  - constructor.
  - constructor.
    + intro Hin. apply in_map_iff in Hin. destruct Hin as (y & E & Hy).
      assert (y = x).
      { apply (NoDup_map_inj _ _ f l); auto.
        - apply Hincl. now right.
        - apply Hincl. now left. }
      subst. contradiction.
    + apply IH. intros y Hy. apply Hincl. now right.
Qed.

Lemma Pools_assigned_app : forall l1 l2 sel,
  Pools.assigned (l1 ++ l2) sel
  = Pools.assigned l1 sel ++ Pools.assigned l2 sel.
Proof. intros. unfold Pools.assigned. apply flat_map_app. Qed.

Lemma Pools_assigned_seq : forall pre sel,
  Pools.assigned (seq (length pre) (length sel)) (pre ++ sel)
  = map Solo3v3.group sel.
Proof.
  intros pre sel. revert pre. induction sel as [|c sel IH]; intro pre.
  - reflexivity.
  - cbn [length seq map]. unfold Pools.assigned. cbn [flat_map].
    rewrite nth_error_app2 by lia. rewrite Nat.sub_diag. cbn [nth_error app].
    f_equal. specialize (IH (pre ++ [c])).
    rewrite length_app in IH. cbn [length] in IH.
    rewrite Nat.add_1_r, <- app_assoc in IH. exact IH.
Qed.

Lemma Pools_assigned_perm : forall l sel,
  Permutation l (seq 0 (length sel)) ->
  Permutation (Pools.assigned l sel) (map Solo3v3.group sel).
Proof.
  intros l sel H. rewrite <- (Pools_assigned_seq [] sel). cbn [length app].
  unfold Pools.assigned. now apply Permutation_flat_map.
Qed.

Lemma Pools_assigned_length : forall l sel,
  Forall (fun idx => (idx < length sel)%nat) l ->
  length (Pools.assigned l sel) = length l.
Proof.
  intros l sel H. induction H as [|idx l Hidx H IH]; [reflexivity|].
  unfold Pools.assigned in *. cbn [flat_map]. rewrite length_app, IH.
  destruct (nth_error sel idx) eqn:E; [reflexivity|].
  apply nth_error_None in E. lia.
Qed.

Lemma Pools_assigned_In : forall l sel g,
  In g (Pools.assigned l sel) -> exists c, In c sel /\ Solo3v3.group c = g.
Proof.
  intros l sel g H. unfold Pools.assigned in H. apply in_flat_map in H.
  destruct H as (idx & _ & H).
  destruct (nth_error sel idx) as [c|] eqn:E; [|destruct H].
  destruct H as [<-|[]]. exists c. split; [|reflexivity].
  eapply nth_error_In; eauto.
Qed.

(** The selected candidates are candidates of the queue, each once. *)
Lemma Arena_selected_sub : forall ign waited all ft ai sel t1 t2,
  Arena.CheckSolo3v3Arena ign waited all false ft ai = Some (sel, (t1, t2)) ->
  NoDup all -> NoDup sel /\ incl sel all.
Proof.
  intros ign waited all ft ai sel t1 t2 E Hnd.
  pose proof (Arena_CheckSolo3v3Arena_spec ign waited all ft ai) as H.
  cbv zeta in H. rewrite E in H. destruct H as (Hsel & _).
  destruct ft.
  - destruct (_ && _).
    + subst sel. split.
      * apply NoDup_app_intro.
        -- apply NoDup_firstn. now apply NoDup_filter.
        -- apply NoDup_firstn. now apply NoDup_filter.
        -- intros x Hx Hx'. apply firstn_incl in Hx, Hx'.
           apply filter_In in Hx, Hx'. destruct Hx as [_ Hx], Hx' as [_ Hx'].
           rewrite Hx in Hx'. discriminate.
      * intros x Hx. apply in_app_iff in Hx.
        destruct Hx as [Hx|Hx]; apply firstn_incl in Hx;
          apply filter_In in Hx; tauto.
    + subst sel. split.
      * apply NoDup_firstn. apply NoDup_filter. now apply NoDup_filter.
      * intros x Hx. apply firstn_incl in Hx. apply filter_In in Hx.
        destruct Hx as [Hx _]. apply filter_In in Hx. tauto.
  - subst sel. split; [now apply NoDup_firstn|].
    intros x Hx. now apply firstn_incl in Hx.
Qed.

Lemma Pools_Init_pools : forall TA TH q,
  Pools.m_SelectionPools (Pools.Init TH (Pools.Init TA q)) TA = []
  /\ Pools.m_SelectionPools (Pools.Init TH (Pools.Init TA q)) TH = [].
Proof.
  intros TA TH q. unfold Pools.Init. cbn [Pools.m_SelectionPools].
  unfold Pools.update. rewrite !Z.eqb_refl.
  destruct (TA =? TH); auto.
Qed.

(** X23 (a match fills both pools).  Outside arena testing, when the
    candidates come from different groups and each group sits in the
    bucket of its side, CheckSolo3v3Arena runs to its end.  If it returns
    false only the two pools were reset.  If it returns true each pool has
    received three groups, all six different and all from the candidates;
    the groups of the first pool are now on [TEAM_ALLIANCE], those of the
    second on [TEAM_HORDE].  In both cases no join time changes, buckets in
    join-time order stay so, and every group still sits in the bucket of
    its side. *)
Theorem X23_match_fills_both_pools :
  forall TEAM_ALLIANCE TEAM_HORDE (ign : Z -> Z -> bool)
         (waited : Solo3v3.Candidate -> bool) allCandidates filterTalents
         avoidIgnore allianceGroupType hordeGroupType q,
    TEAM_ALLIANCE <> TEAM_HORDE ->
    NoDup (map Solo3v3.group allCandidates) ->
    (forall c, In c allCandidates ->
       Pools.housed TEAM_ALLIANCE allianceGroupType hordeGroupType q
         (Solo3v3.group c)) ->
    exists matched q',
      Pools.CheckSolo3v3Arena TEAM_ALLIANCE TEAM_HORDE ign waited
        allCandidates false filterTalents avoidIgnore
        allianceGroupType hordeGroupType q = Some (matched, q')
      /\ (matched = false ->
          Pools.groups q' = Pools.groups q
          /\ Pools.m_QueuedGroups q' = Pools.m_QueuedGroups q
          /\ Pools.m_SelectionPools q' TEAM_ALLIANCE = []
          /\ Pools.m_SelectionPools q' TEAM_HORDE = [])
      /\ (matched = true ->
          let pool1 := Pools.m_SelectionPools q' TEAM_ALLIANCE in
          let pool2 := Pools.m_SelectionPools q' TEAM_HORDE in
          length pool1 = 3%nat /\ length pool2 = 3%nat
          /\ NoDup (pool1 ++ pool2)
          /\ (forall g, In g (pool1 ++ pool2) ->
                exists c, In c allCandidates /\ Solo3v3.group c = g)
          /\ (forall g, In g pool1 ->
                Pools.teamId (Pools.groups q' g) = TEAM_ALLIANCE)
          /\ (forall g, In g pool2 ->
                Pools.teamId (Pools.groups q' g) = TEAM_HORDE))
      /\ (forall g, Pools.JoinTime (Pools.groups q' g)
                    = Pools.JoinTime (Pools.groups q g))
      /\ (forall type, Pools.fifo q type -> Pools.fifo q' type)
      /\ (forall g,
            Pools.housed TEAM_ALLIANCE allianceGroupType hordeGroupType q g ->
            Pools.housed TEAM_ALLIANCE allianceGroupType hordeGroupType q' g).
Proof.
  intros TA TH ign waited all ft ai a h q Hne Hnd Hh.
  unfold Pools.CheckSolo3v3Arena. cbv zeta.
  set (q0 := Pools.Init TH (Pools.Init TA q)).
  destruct (Pools_Init_pools TA TH q) as [I1 I2]. fold q0 in I1, I2.
  destruct (Arena.CheckSolo3v3Arena ign waited all false ft ai)
    as [[sel [t1 t2]]|] eqn:E.
  2:{ exists false, q0. split; [reflexivity|]. split; [auto|].
      split; [discriminate|]. auto. }
  pose proof (Arena_CheckSolo3v3Arena_spec ign waited all ft ai) as Hspec.
  cbv zeta in Hspec. rewrite E in Hspec.
  destruct Hspec as (_ & Lsel & L1 & L2 & HP & _).
  destruct (Arena_selected_sub ign waited all ft ai sel t1 t2 E
              (NoDup_map_inv _ _ Hnd)) as [Hnds Hincl].
  assert (Hndg : NoDup (map Solo3v3.group sel))
    by (eapply NoDup_map_incl; eauto).
  assert (HF : Forall (fun idx => (idx < length sel)%nat) (t1 ++ t2)).
  { apply Forall_forall. intros idx Hidx.
    apply (Permutation_in _ HP) in Hidx. apply in_seq in Hidx. lia. }
  apply Forall_app in HF. destruct HF as [HF1 HF2].
  destruct (Pools_assign_succeeds TA t1 sel TA a h q0 HF1) as (q1 & E1).
  { intros c Hc. apply (Hh c). now apply Hincl. }
  destruct (Pools_assign_spec TA t1 sel TA a h q0 q1 E1)
    as (J1 & F1 & U1 & T1 & P1 & _ & S1).
  destruct (Pools_assign_succeeds TA t2 sel TH a h q1 HF2) as (q2 & E2).
  { intros c Hc. apply S1. apply (Hh c). now apply Hincl. }
  destruct (Pools_assign_spec TA t2 sel TH a h q1 q2 E2)
    as (J2 & F2 & U2 & T2 & P2 & _ & S2).
  rewrite E1, E2. exists true, q2. split; [reflexivity|].
  split; [discriminate|].
  assert (Hp1 : Pools.m_SelectionPools q2 TA = Pools.assigned t1 sel).
  { rewrite P2.
    replace (TA =? TH) with false by (symmetry; apply Z.eqb_neq; exact Hne).
    rewrite P1, Z.eqb_refl, I1. reflexivity. }
  assert (Hp2 : Pools.m_SelectionPools q2 TH = Pools.assigned t2 sel).
  { rewrite P2, Z.eqb_refl, P1.
    replace (TH =? TA) with false
      by (symmetry; apply Z.eqb_neq; congruence).
    rewrite I2. reflexivity. }
  assert (Hperm : Permutation (Pools.assigned t1 sel ++ Pools.assigned t2 sel)
                    (map Solo3v3.group sel)).
  { rewrite <- Pools_assigned_app. apply Pools_assigned_perm.
    rewrite Lsel. exact HP. }
  assert (Hnd12 : NoDup (Pools.assigned t1 sel ++ Pools.assigned t2 sel)).
  { eapply Permutation_NoDup; [symmetry; exact Hperm | exact Hndg]. }
  split; [|split; [|split]].
  - intros _. cbv zeta. rewrite Hp1, Hp2.
    split; [rewrite Pools_assigned_length by exact HF1; exact L1|].
    split; [rewrite Pools_assigned_length by exact HF2; exact L2|].
    split; [exact Hnd12|]. split; [|split].
    + intros g Hg. apply in_app_iff in Hg.
      destruct Hg as [Hg|Hg]; apply Pools_assigned_In in Hg;
        destruct Hg as (c & Hc & <-); exists c; auto.
    + intros g Hg. rewrite U2.
      * now apply T1.
      * intro Hg2. exact (NoDup_app_disjoint _ _ _ g Hnd12 Hg Hg2).
    + intros g Hg. now apply T2.
  - intro g. rewrite J2, J1. reflexivity.
  - intros t Ht. apply F2, F1. exact Ht.
  - intros g Hg. apply S2, S1. exact Hg.
Qed.

Lemma X23_match_fills_both_pools_witness :
  exists matched q',
    Pools.CheckSolo3v3Arena 0 1 (fun _ _ => false) (fun _ => true)
      (Pools.sample_selected ++ Pools.sample_selected56) false false true
      0 1 Pools.sample_queue6 = Some (matched, q')
    /\ (forall g, Pools.JoinTime (Pools.groups q' g)
                  = Pools.JoinTime (Pools.groups Pools.sample_queue6 g)).
Proof.
  destruct (X23_match_fills_both_pools 0 1 (fun _ _ => false) (fun _ => true)
              (Pools.sample_selected ++ Pools.sample_selected56) false true
              0 1 Pools.sample_queue6)
    as (m & q' & E & _ & _ & J & _).
  - lia.
  - vm_compute. repeat constructor; simpl; intuition discriminate.
  - intros c Hc. unfold Pools.housed.
    repeat (destruct Hc as [<-|Hc]; [vm_compute; tauto|]). destruct Hc.
  - exists m, q'. split; [exact E | exact J].
Defined.

(** * Too many players of one class *)

Lemma HasClassStackingConflict_pair : forall team pool lvl mask x y,
  In x team -> In y team -> x <> y ->
  ComposerCS.PoolPair pool lvl mask x y = true ->
  ComposerCS.HasClassStackingConflict team pool lvl mask = true.
Proof.
  intros team pool lvl mask x y Hx Hy Hne Hp.
  apply HasClassStackingConflict_iff.
  destruct (two_positions team x y Hx Hy Hne) as (l1 & l2 & l3 & [E|E]).
  - exists l1, x, l2, y, l3. auto.
  - exists l1, y, l2, x, l3. split; [exact E|].
    rewrite PoolPair_sym. exact Hp.
Qed.

Lemma StackingPair_same_class : forall a b lvl mask,
  1 <= lvl <= 6 ->
  ComposerCS.classId a = ComposerCS.classId b ->
  mask = 0
  \/ Z.land mask (ComposerCS.ClassIdToMaskBit (ComposerCS.classId a)) <> 0 ->
  (2 <= lvl <= 4 -> ComposerCS.role a = DPS /\ ComposerCS.role b = DPS) ->
  ComposerCS.StackingPair a b lvl mask = true.
Proof.
  intros a b lvl mask Hl Hc Hm Hr.
  assert (H1 : ComposerCS.StackingPair a b 1 mask = true).
  { rewrite StackingPair_level_1. apply andb_true_iff. split.
    - now apply Z.eqb_eq.
    - apply orb_true_iff. destruct Hm as [->|Hm]; [now left|right].
      apply negb_true_iff. now apply Z.eqb_neq. }
  assert (Hcases : lvl = 1 \/ (lvl = 2 \/ lvl = 3 \/ lvl = 4)
                   \/ (lvl = 5 \/ lvl = 6)) by lia.
  destruct Hcases as [->|[H24|H56]].
  - exact H1.
  - rewrite (StackingPair_level_2_4 a b lvl mask H24), H1.
    destruct (Hr ltac:(lia)) as [Ra Rb].
    unfold ComposerCS.isHealer. rewrite Ra, Rb. reflexivity.
  - rewrite (StackingPair_level_5_6 a b lvl mask H56).
    rewrite <- StackingPair_level_1. exact H1.
Qed.

(** X24 (three of a class cannot be split).  With the stacking filter at
    a level from 1 to 6, a selection that holds three players of one class
    selected by the mask (three damage dealers, for the levels 2 to 4) has
    no valid split: whichever way two teams are formed, two of the three
    share a team. *)
Theorem X24_three_of_a_class_block_every_split :
  forall sel ts ft adm lvl mask i j k a b c,
    0 <= ts -> ts * 2 < 2 ^ 32 -> Z.of_nat (length sel) < 2 ^ 32 ->
    1 <= lvl <= 6 ->
    i <> j -> i <> k -> j <> k ->
    nth_error sel i = Some a -> nth_error sel j = Some b ->
    nth_error sel k = Some c ->
    ComposerCS.classId a = ComposerCS.classId b ->
    ComposerCS.classId b = ComposerCS.classId c ->
    mask = 0
    \/ Z.land mask (ComposerCS.ClassIdToMaskBit (ComposerCS.classId a)) <> 0 ->
    (2 <= lvl <= 4 ->
     ComposerCS.role a = DPS /\ ComposerCS.role b = DPS
     /\ ComposerCS.role c = DPS) ->
    ComposerCS.valid (ComposerCS.FindBestTeamSplit sel ts ft adm lvl mask)
    = false.
Proof.
  intros sel ts ft adm lvl mask i j k a b c Hts Hfit Hlen Hl Hij Hik Hjk
    Ha Hb Hc Eab Ebc Hm Hr.
  destruct (ComposerCS.valid (ComposerCS.FindBestTeamSplit sel ts ft adm lvl mask))
    eqn:Hv; [exfalso|reflexivity].
  destruct (ComposerCS_split_optimal sel ts ft adm lvl mask Hts Hfit Hlen Hv)
    as ((_ & Hcd) & _).
  destruct (ComposerCS_split_structure sel ts ft adm lvl mask Hts Hfit Hlen Hv)
    as (_ & _ & _ & _ & _ & HP).
  set (r := ComposerCS.FindBestTeamSplit sel ts ft adm lvl mask) in *.
  set (t1 := ComposerCS.team1Indices r) in *.
  set (t2 := ComposerCS.team2Indices r) in *.
  unfold ComposerCS.ClassDiverse in Hcd.
  replace (0 <? lvl) with true in Hcd by (symmetry; apply Z.ltb_lt; lia).
  apply negb_true_iff, orb_false_iff in Hcd. destruct Hcd as [C1 C2].
  assert (Hseat : forall x p, nth_error sel x = Some p -> In x t1 \/ In x t2).
  { intros x p Hx. apply in_app_iff.
    apply (Permutation_in _ (Permutation_sym HP)). apply in_seq.
    assert (x < length sel)%nat by (apply nth_error_Some; congruence). lia. }
  assert (Hpair : forall x y p p',
            nth_error sel x = Some p -> nth_error sel y = Some p' ->
            ComposerCS.classId p = ComposerCS.classId p' ->
            ComposerCS.classId p = ComposerCS.classId a ->
            (2 <= lvl <= 4 ->
             ComposerCS.role p = DPS /\ ComposerCS.role p' = DPS) ->
            ComposerCS.PoolPair sel lvl mask x y = true).
  { intros x y p p' Hx Hy Ec Eca Hrr. apply PoolPair_Some.
    exists p, p'. split; [exact Hx|]. split; [exact Hy|].
    apply StackingPair_same_class; auto. now rewrite Eca. }
  assert (Hno : forall team x y p p',
            team = t1 \/ team = t2 ->
            In x team -> In y team -> x <> y ->
            nth_error sel x = Some p -> nth_error sel y = Some p' ->
            ComposerCS.classId p = ComposerCS.classId p' ->
            ComposerCS.classId p = ComposerCS.classId a ->
            (2 <= lvl <= 4 ->
             ComposerCS.role p = DPS /\ ComposerCS.role p' = DPS) ->
            False).
  { intros team x y p p' Ht Hx Hy Hne Hnx Hny Ec Eca Hrr.
    pose proof (HasClassStackingConflict_pair team sel lvl mask x y Hx Hy Hne
                  (Hpair x y p p' Hnx Hny Ec Eca Hrr)) as Hyes.
    destruct Ht as [-> | ->]; congruence. }
  assert (Rab : 2 <= lvl <= 4 -> ComposerCS.role a = DPS /\ ComposerCS.role b = DPS)
    by (intro H; destruct (Hr H) as (? & ? & ?); auto).
  assert (Rac : 2 <= lvl <= 4 -> ComposerCS.role a = DPS /\ ComposerCS.role c = DPS)
    by (intro H; destruct (Hr H) as (? & ? & ?); auto).
  assert (Rbc : 2 <= lvl <= 4 -> ComposerCS.role b = DPS /\ ComposerCS.role c = DPS)
    by (intro H; destruct (Hr H) as (? & ? & ?); auto).
  destruct (Hseat i a Ha) as [Hi|Hi], (Hseat j b Hb) as [Hj|Hj],
    (Hseat k c Hc) as [Hk|Hk].
  - exact (Hno t1 i j a b (or_introl eq_refl) Hi Hj Hij Ha Hb Eab eq_refl Rab).
  - exact (Hno t1 i j a b (or_introl eq_refl) Hi Hj Hij Ha Hb Eab eq_refl Rab).
  - exact (Hno t1 i k a c (or_introl eq_refl) Hi Hk Hik Ha Hc
             ltac:(congruence) eq_refl Rac).
  - exact (Hno t2 j k b c (or_intror eq_refl) Hj Hk Hjk Hb Hc Ebc
             ltac:(congruence) Rbc).
  - exact (Hno t1 j k b c (or_introl eq_refl) Hj Hk Hjk Hb Hc Ebc
             ltac:(congruence) Rbc).
  - exact (Hno t2 i k a c (or_intror eq_refl) Hi Hk Hik Ha Hc
             ltac:(congruence) eq_refl Rac).
  - exact (Hno t2 i j a b (or_intror eq_refl) Hi Hj Hij Ha Hb Eab eq_refl Rab).
  - exact (Hno t2 i j a b (or_intror eq_refl) Hi Hj Hij Ha Hb Eab eq_refl Rab).
Qed.

(** Three warriors among six players: no split at level 1 (compare the
    unit test ClassStacking_Level1_NoValidSplit_ReturnsInvalid). *)
Lemma X24_three_of_a_class_block_every_split_witness :
  ComposerCS.valid (ComposerCS.FindBestTeamSplit pool_warriors 3 true false 1 0)
  = false.
Proof.
  apply (X24_three_of_a_class_block_every_split pool_warriors 3 true false 1 0
           2%nat 3%nat 4%nat
           (queuedCS DPS 1500 0 1) (queuedCS DPS 1500 0 1)
           (queuedCS DPS 1500 0 1));
    try reflexivity; try lia; try discriminate.
Defined.

(** * The rating level *)

Lemma pick_fold_ext_in :
  forall (X S S' : Type) (accept accept' : X -> bool)
         (score : X -> S) (score' : X -> S')
         (better : S -> S -> bool) (better' : S' -> S' -> bool) l0 l o,
    (forall c, In c l0 -> accept c = accept' c) ->
    (forall c b, In c l0 -> In b l0 ->
       better (score c) (score b) = better' (score' c) (score' b)) ->
    incl l l0 ->
    (forall b, o = Some b -> In b l0) ->
    fold_left (pick accept score better) l o
    = fold_left (pick accept' score' better') l o.
Proof.
  intros X S S' accept accept' score score' better better' l0 l o Ha Hb.
  revert o. induction l as [|c l IH]; intros o Hl Ho; simpl; [reflexivity|].
  assert (Hc : In c l0) by (apply Hl; now left).
  assert (Hp : pick accept score better o c = pick accept' score' better' o c).
  { unfold pick. rewrite (Ha c Hc). destruct (accept' c); [|reflexivity].
    destruct o as [b|]; [|reflexivity]. now rewrite (Hb c b Hc (Ho b eq_refl)). }
  rewrite Hp. apply IH.
  - intros x Hx. apply Hl. now right.
  - intros b Hpick. unfold pick in Hpick.
    destruct (accept' c); [|now apply Ho].
    destruct o as [b0|].
    + destruct (better' (score' c) (score' b0)).
      * inversion Hpick; subst. exact Hc.
      * now apply Ho.
    + inversion Hpick; subst. exact Hc.
Qed.

Lemma Zsum_shift : forall (f g : nat -> Z) delta l,
  (forall i, In i l -> g i = f i + delta) ->
  Zsum g l = Zsum f l + delta * Z.of_nat (length l).
Proof.
  intros f g delta l H. induction l as [|x l IH]; cbn [Zsum fold_right length].
  - lia.
  - fold (Zsum g l). fold (Zsum f l).
    rewrite IH by (intros i Hi; apply H; now right).
    rewrite (H x (or_introl eq_refl)). lia.
Qed.

Lemma raise_SumMMR : forall delta sel t,
  Forall (fun i => (i < length sel)%nat) t ->
  Composer.SumMMR t (map (raise delta) sel)
  = Composer.SumMMR t sel + delta * Z.of_nat (length t).
Proof.
  intros delta sel t HF. unfold Composer.SumMMR. rewrite !fold_left_Zsum.
  rewrite (Zsum_shift (Composer.at_mmr sel)
             (Composer.at_mmr (map (raise delta) sel)) delta); [lia|].
  intros i Hi. rewrite Forall_forall in HF. specialize (HF i Hi).
  unfold Composer.at_mmr. rewrite nth_error_map.
  destruct (nth_error sel i) eqn:E; [reflexivity|].
  apply nth_error_None in E. lia.
Qed.

Lemma raiseCS_SumMMR : forall delta sel t,
  Forall (fun i => (i < length sel)%nat) t ->
  ComposerCS.SumMMR t (map (raiseCS delta) sel)
  = ComposerCS.SumMMR t sel + delta * Z.of_nat (length t).
Proof.
  intros delta sel t HF. unfold ComposerCS.SumMMR. rewrite !fold_left_Zsum.
  rewrite (Zsum_shift (ComposerCS.at_mmr sel)
             (ComposerCS.at_mmr (map (raiseCS delta) sel)) delta); [lia|].
  intros i Hi. rewrite Forall_forall in HF. specialize (HF i Hi).
  unfold ComposerCS.at_mmr. rewrite nth_error_map.
  destruct (nth_error sel i) eqn:E; [reflexivity|].
  apply nth_error_None in E. lia.
Qed.

(** The two halves of an even pool. *)
Lemma combos_halves : forall n k c,
  n = (2 * k)%nat -> In c (combos n k 0) ->
  length c = k /\ Forall (fun i => (i < n)%nat) c
  /\ length (complement_of c n) = k
  /\ Forall (fun i => (i < n)%nat) (complement_of c n)
  /\ BuildComplement k c n = complement_of c n.
Proof.
  intros n k c Hn Hc. assert (Hk : (k <= n)%nat) by lia.
  destruct (combos_sound n k 0 c Hk Hc) as (L & I & F).
  pose proof (complement_of_partition c n (increasing_from_NoDup _ _ I) F) as HP.
  apply Permutation_length in HP. rewrite length_app, length_seq in HP.
  split; [exact L|]. split; [exact F|]. split; [lia|]. split.
  - apply Forall_forall. intros i Hi. apply in_complement_of in Hi. tauto.
  - now apply combos_BuildComplement.
Qed.

Lemma raise_diff : forall delta sel k c,
  length sel = (2 * k)%nat -> In c (combos (length sel) k 0) ->
  Composer_diff (map (raise delta) sel) k (length sel) c
  = Composer_diff sel k (length sel) c.
Proof.
  intros delta sel k c Hn Hc.
  destruct (combos_halves _ k c Hn Hc) as (L1 & F1 & L2 & F2 & B).
  unfold Composer_diff, Composer.TeamDiff. rewrite B.
  rewrite !raise_SumMMR by assumption. rewrite L1, L2.
  rewrite !TeamDiff_abs. f_equal. lia.
Qed.

Lemma raiseCS_diff : forall delta sel k c,
  length sel = (2 * k)%nat -> In c (combos (length sel) k 0) ->
  ComposerCS_diff (map (raiseCS delta) sel) k (length sel) c
  = ComposerCS_diff sel k (length sel) c.
Proof.
  intros delta sel k c Hn Hc.
  destruct (combos_halves _ k c Hn Hc) as (L1 & F1 & L2 & F2 & B).
  unfold ComposerCS_diff, ComposerCS.TeamDiff. rewrite B.
  rewrite !raiseCS_SumMMR by assumption. rewrite L1, L2.
  rewrite !TeamDiff_abs. f_equal. lia.
Qed.

Lemma raise_keeps : forall delta sel k n ft adm c,
  Composer_keeps (map (raise delta) sel) k n ft adm c
  = Composer_keeps sel k n ft adm c.
Proof.
  intros. unfold Composer_keeps, Composer.RoleBalanced, Composer.CountHealers.
  rewrite !fold_left_count.
  assert (H : forall t,
            Zsum (fun i => if Composer.at_role (map (raise delta) sel) i
                           then 1 else 0) t
            = Zsum (fun i => if Composer.at_role sel i then 1 else 0) t).
  { intro t. apply Zsum_ext. intros i _. unfold Composer.at_role.
    rewrite nth_error_map. destruct (nth_error sel i); reflexivity. }
  now rewrite !H.
Qed.

Lemma raiseCS_PoolPair : forall delta sel lvl mask i j,
  ComposerCS.PoolPair (map (raiseCS delta) sel) lvl mask i j
  = ComposerCS.PoolPair sel lvl mask i j.
Proof.
  intros. unfold ComposerCS.PoolPair. rewrite !nth_error_map.
  destruct (nth_error sel i), (nth_error sel j); reflexivity.
Qed.

Lemma raiseCS_conflict : forall delta sel lvl mask t,
  ComposerCS.HasClassStackingConflict t (map (raiseCS delta) sel) lvl mask
  = ComposerCS.HasClassStackingConflict t sel lvl mask.
Proof.
  intros delta sel lvl mask t. induction t as [|i t IH]; simpl; [reflexivity|].
  rewrite IH. f_equal. clear IH. induction t as [|j t IH]; simpl; [reflexivity|].
  now rewrite IH, raiseCS_PoolPair.
Qed.

Lemma raiseCS_keeps : forall delta sel k n ft adm lvl mask c,
  ComposerCS_keeps (map (raiseCS delta) sel) k n ft adm lvl mask c
  = ComposerCS_keeps sel k n ft adm lvl mask c.
Proof.
  intros. unfold ComposerCS_keeps, ComposerCS.ClassDiverse.
  rewrite !raiseCS_conflict. f_equal.
  unfold ComposerCS.RoleBalanced, ComposerCS.CountHealers.
  rewrite !fold_left_count.
  assert (H : forall t,
            Zsum (fun i => if ComposerCS.at_role (map (raiseCS delta) sel) i
                           then 1 else 0) t
            = Zsum (fun i => if ComposerCS.at_role sel i then 1 else 0) t).
  { intro t. apply Zsum_ext. intros i _. unfold ComposerCS.at_role.
    rewrite nth_error_map. destruct (nth_error sel i); reflexivity. }
  now rewrite !H.
Qed.

(** X25 (only rating differences matter).  On a pool of exactly
    [2 * teamSize] players, as SelectCandidates returns it, raising or
    lowering every rating by the same amount changes nothing in the result
    of FindBestTeamSplit: same validity, same teams, same mmrDiff.  In
    particular players of equal rating are split with mmrDiff 0. *)
Theorem X25_rating_level_is_irrelevant :
  (forall sel ts ft adm delta,
     0 <= ts -> ts * 2 < 2 ^ 32 -> Z.of_nat (length sel) = 2 * ts ->
     Composer.FindBestTeamSplit (map (raise delta) sel) ts ft adm
     = Composer.FindBestTeamSplit sel ts ft adm
     /\ ((forall c, In c sel -> Composer.mmr c = delta) ->
         Composer.mmrDiff (Composer.FindBestTeamSplit sel ts ft adm) = 0))
  /\
  (forall sel ts ft adm lvl mask delta,
     0 <= ts -> ts * 2 < 2 ^ 32 -> Z.of_nat (length sel) = 2 * ts ->
     ComposerCS.FindBestTeamSplit (map (raiseCS delta) sel) ts ft adm lvl mask
     = ComposerCS.FindBestTeamSplit sel ts ft adm lvl mask
     /\ ((forall c, In c sel -> ComposerCS.mmr c = delta) ->
         ComposerCS.mmrDiff
           (ComposerCS.FindBestTeamSplit sel ts ft adm lvl mask) = 0)).
Proof.
  split.
  - intros sel ts ft adm delta Hts Hfit Hn.
    assert (Hlen : Z.of_nat (length sel) < 2 ^ 32) by lia.
    set (n := length sel) in *. set (k := Z.to_nat ts).
    assert (Hnk : n = (2 * k)%nat) by (unfold k; lia).
    assert (Hk : (k <= n)%nat) by lia.
    assert (Hfold :
      fold_left (pick (Composer_keeps (map (raise delta) sel) k n ft adm)
                   (Composer_diff (map (raise delta) sel) k n) Z_better)
        (combos n k 0) None
      = fold_left (pick (Composer_keeps sel k n ft adm)
                     (Composer_diff sel k n) Z_better) (combos n k 0) None).
    { apply pick_fold_ext_in with (l0 := combos n k 0).
      - intros c _. apply raise_keeps.
      - intros c b Hc Hb. unfold n. now rewrite !raise_diff.
      - apply incl_refl.
      - discriminate. }
    assert (Heq : Composer.FindBestTeamSplit (map (raise delta) sel) ts ft adm
                  = Composer.FindBestTeamSplit sel ts ft adm).
    { unfold Composer.FindBestTeamSplit. rewrite length_map. fold n.
      rewrite (wrap32_small (Z.of_nat n)) by lia.
      rewrite (wrap32_small (ts * 2)) by lia. rewrite Nat2Z.id. fold k.
      destruct (Z.of_nat n <? ts * 2); [reflexivity|].
      pose proof (Composer_Enumerate_tracks (map (raise delta) sel) k n ft adm
                    Hlen Hk) as H1.
      pose proof (Composer_Enumerate_tracks sel k n ft adm Hlen Hk) as H2.
      rewrite Hfold in H1. clear Hfold.
      destruct (fold_left (pick (Composer_keeps sel k n ft adm)
                             (Composer_diff sel k n) Z_better)
                  (combos n k 0) None) as [c|] eqn:Ef;
        simpl in H1, H2.
      - destruct H1 as (A1 & A2 & A3). destruct H2 as (B1 & B2 & B3).
        rewrite A1, B1. cbn [negb]. rewrite A2, B2, A3, B3.
        f_equal. unfold n. apply raise_diff; [exact Hnk|].
        pose proof (pick_fold_first_best (Composer_keeps sel k n ft adm)
                      (Composer_diff sel k n) Z_better
                      Z_better_trans Z_better_through (combos n k 0)) as Hfb.
        rewrite Ef in Hfb.
        now destruct (first_best_some_in _ _ _ _ _ _ _ Hfb).
      - rewrite H1, H2. reflexivity. }
    split; [exact Heq|].
    intros Hall.
    destruct (Composer.valid (Composer.FindBestTeamSplit sel ts ft adm)) eqn:Hv.
    + destruct (Composer_FindBestTeamSplit_valid sel ts ft adm Hts Hfit Hlen Hv)
        as (_ & Hfb & _ & HD).
      destruct (first_best_some_in _ _ _ _ _ _ _ Hfb) as [Hin _].
      fold n in Hin, HD. fold k in Hin, HD. rewrite HD.
      destruct (combos_halves n k _ Hnk Hin) as (L1 & F1 & L2 & F2 & B).
      unfold Composer_diff, Composer.TeamDiff. rewrite B.
      assert (Hsum : forall t, Forall (fun i => (i < n)%nat) t ->
                Composer.SumMMR t sel = delta * Z.of_nat (length t)).
      { intros t Ft. unfold Composer.SumMMR. rewrite fold_left_Zsum.
        rewrite (Zsum_shift (fun _ => 0) (Composer.at_mmr sel) delta).
        - rewrite Zsum_zero by reflexivity. lia.
        - intros i Hi. rewrite Forall_forall in Ft. specialize (Ft i Hi).
          unfold Composer.at_mmr.
          destruct (nth_error sel i) as [c|] eqn:E.
          + rewrite (Hall c (nth_error_In _ _ E)). lia.
          + apply nth_error_None in E. unfold n in Ft. lia. }
      rewrite !Hsum by assumption. rewrite L1, L2.
      rewrite TeamDiff_abs. lia.
    + clear Heq Hfold. revert Hv. unfold Composer.FindBestTeamSplit.
      destruct (_ <? _); [reflexivity|].
      destruct (negb _); [reflexivity|discriminate].
  - intros sel ts ft adm lvl mask delta Hts Hfit Hn.
    assert (Hlen : Z.of_nat (length sel) < 2 ^ 32) by lia.
    set (n := length sel) in *. set (k := Z.to_nat ts).
    assert (Hnk : n = (2 * k)%nat) by (unfold k; lia).
    assert (Hk : (k <= n)%nat) by lia.
    assert (Hfold :
      fold_left (pick (ComposerCS_keeps (map (raiseCS delta) sel) k n ft adm
                         lvl mask)
                   (ComposerCS_diff (map (raiseCS delta) sel) k n) Z_better)
        (combos n k 0) None
      = fold_left (pick (ComposerCS_keeps sel k n ft adm lvl mask)
                     (ComposerCS_diff sel k n) Z_better) (combos n k 0) None).
    { apply pick_fold_ext_in with (l0 := combos n k 0).
      - intros c _. apply raiseCS_keeps.
      - intros c b Hc Hb. unfold n. now rewrite !raiseCS_diff.
      - apply incl_refl.
      - discriminate. }
    assert (Heq : ComposerCS.FindBestTeamSplit (map (raiseCS delta) sel) ts ft
                    adm lvl mask
                  = ComposerCS.FindBestTeamSplit sel ts ft adm lvl mask).
    { unfold ComposerCS.FindBestTeamSplit. rewrite length_map. fold n.
      rewrite (wrap32_small (Z.of_nat n)) by lia.
      rewrite (wrap32_small (ts * 2)) by lia. rewrite Nat2Z.id. fold k.
      destruct (Z.of_nat n <? ts * 2); [reflexivity|].
      pose proof (ComposerCS_Enumerate_tracks (map (raiseCS delta) sel) k n ft
                    adm lvl mask Hlen Hk) as H1.
      pose proof (ComposerCS_Enumerate_tracks sel k n ft adm lvl mask Hlen Hk)
        as H2.
      rewrite Hfold in H1. clear Hfold.
      destruct (fold_left (pick (ComposerCS_keeps sel k n ft adm lvl mask)
                             (ComposerCS_diff sel k n) Z_better)
                  (combos n k 0) None) as [c|] eqn:Ef;
        simpl in H1, H2.
      - destruct H1 as (A1 & A2 & A3). destruct H2 as (B1 & B2 & B3).
        rewrite A1, B1. cbn [negb]. rewrite A2, B2, A3, B3.
        f_equal. unfold n. apply raiseCS_diff; [exact Hnk|].
        pose proof (pick_fold_first_best
                      (ComposerCS_keeps sel k n ft adm lvl mask)
                      (ComposerCS_diff sel k n) Z_better
                      Z_better_trans Z_better_through (combos n k 0)) as Hfb.
        rewrite Ef in Hfb.
        now destruct (first_best_some_in _ _ _ _ _ _ _ Hfb).
      - rewrite H1, H2. reflexivity. }
    split; [exact Heq|].
    intros Hall.
    destruct (ComposerCS.valid
                (ComposerCS.FindBestTeamSplit sel ts ft adm lvl mask)) eqn:Hv.
    + destruct (ComposerCS_FindBestTeamSplit_valid sel ts ft adm lvl mask
                  Hts Hfit Hlen Hv) as (_ & Hfb & _ & HD).
      destruct (first_best_some_in _ _ _ _ _ _ _ Hfb) as [Hin _].
      fold n in Hin, HD. fold k in Hin, HD. rewrite HD.
      destruct (combos_halves n k _ Hnk Hin) as (L1 & F1 & L2 & F2 & B).
      unfold ComposerCS_diff, ComposerCS.TeamDiff. rewrite B.
      assert (Hsum : forall t, Forall (fun i => (i < n)%nat) t ->
                ComposerCS.SumMMR t sel = delta * Z.of_nat (length t)).
      { intros t Ft. unfold ComposerCS.SumMMR. rewrite fold_left_Zsum.
        rewrite (Zsum_shift (fun _ => 0) (ComposerCS.at_mmr sel) delta).
        - rewrite Zsum_zero by reflexivity. lia.
        - intros i Hi. rewrite Forall_forall in Ft. specialize (Ft i Hi).
          unfold ComposerCS.at_mmr.
          destruct (nth_error sel i) as [c|] eqn:E.
          + rewrite (Hall c (nth_error_In _ _ E)). lia.
          + apply nth_error_None in E. unfold n in Ft. lia. }
      rewrite !Hsum by assumption. rewrite L1, L2.
      rewrite TeamDiff_abs. lia.
    + clear Heq Hfold. revert Hv. unfold ComposerCS.FindBestTeamSplit.
      destruct (_ <? _); [reflexivity|].
      destruct (negb _); [reflexivity|discriminate].
Qed.

Lemma X25_rating_level_is_irrelevant_witness :
  Composer.FindBestTeamSplit (map (raise 1000) pool_spread) 3 true false
  = Composer.FindBestTeamSplit pool_spread 3 true false.
Proof.
  apply (proj1 X25_rating_level_is_irrelevant pool_spread 3 true false 1000);
    [lia | reflexivity | reflexivity].
Defined.

(** * Phase 2 and the tested selector *)

Lemma filter_map_toComposerAt :
  forall jt (p : Composer.QueuedCandidate -> bool) l,
    filter p (map (toComposerAt jt) l)
    = map (toComposerAt jt) (filter (fun c => p (toComposerAt jt c)) l).
Proof.
  intros jt p l. induction l as [|c l IH]; simpl; [reflexivity|].
  destruct (p (toComposerAt jt c)); simpl; now rewrite IH.
Qed.

Lemma toComposerAt_isHealer : forall jt c,
  Composer.isHealer (toComposerAt jt c) = Arena.isHealer c.
Proof.
  intros jt c. unfold Composer.isHealer, Arena.isHealer, toComposerAt.
  cbn [Composer.role].
  destruct (Solo3v3.TalentCat_eqb (Solo3v3.role c) Solo3v3.HEALER); reflexivity.
Qed.

Lemma filter_ext_bool : forall (A : Type) (p p' : A -> bool) l,
  (forall x, p x = p' x) -> filter p l = filter p' l.
Proof.
  intros A p p' l H. induction l as [|x l IH]; simpl; [reflexivity|].
  now rewrite H, IH.
Qed.

(** X26 (phase 2 and the tested selector agree).  With the wait test
    [JoinTime + allDpsTimerMs <= now] on 32 bits, phase 2 of
    CheckSolo3v3Arena and MatchmakingComposer::SelectCandidates, run on the
    same queue, accept and refuse the same queues, select the same players
    in the same order and set allDpsMatch alike, for every [MinPlayers]. *)
Theorem X26_phase_2_mirrors_selector :
  forall (JoinTime : Solo3v3.Candidate -> Z) allDpsTimerMs now
         allCandidates MinPlayers filterTalents out,
    let waited c := wrap32 (JoinTime c + allDpsTimerMs) <=? now in
    let phase2 := Arena.SelectPhase waited allCandidates MinPlayers
                    filterTalents in
    let popped :=
      negb (Arena.size allCandidates <? wrap32 (MinPlayers * 2))
      && negb (Arena.size (fst phase2) <? wrap32 (MinPlayers * 2)) in
    let res :=
      Composer.SelectCandidates (map (toComposerAt JoinTime) allCandidates)
        MinPlayers filterTalents allDpsTimerMs now out in
    0 <= MinPlayers -> MinPlayers * 2 < 2 ^ 32 ->
    fst res = popped
    /\ (popped = true ->
        Composer.selected (snd res) = map (toComposerAt JoinTime) (fst phase2)
        /\ Composer.allDpsMatch (snd res) = snd phase2).
Proof.
  intros jt t now all mp ft out waited phase2 popped res Hmp Hfit.
  unfold res, popped, phase2. clear res popped phase2.
  rewrite Composer_SelectCandidates_eq. cbv zeta.
  unfold Arena.SelectPhase, Arena.size.
  rewrite length_map, !filter_map_toComposerAt, !length_map.
  rewrite (filter_ext_bool _ (fun c => Composer.isHealer (toComposerAt jt c))
             Arena.isHealer) by apply toComposerAt_isHealer.
  rewrite (filter_ext_bool _
             (fun c => negb (Composer.isHealer (toComposerAt jt c)))
             (fun c => negb (Arena.isHealer c)))
    by (intro c; now rewrite toComposerAt_isHealer).
  change (fun c => wrap32 (Composer.joinTime (toComposerAt jt c) + t) <=? now)
    with waited.
  rewrite (Z.gtb_ltb mp 1).
  set (k := wrap32 (mp * 2)).
  assert (Hk : k = mp * 2) by (unfold k; apply wrap32_small; lia).
  set (h := filter Arena.isHealer all).
  set (d := filter (fun c => negb (Arena.isHealer c)) all).
  set (hN := if 1 <? mp then 2 else 0).
  assert (HhN : (hN = 2 /\ 2 <= mp) \/ hN = 0).
  { unfold hN. destruct (Z.ltb_spec 1 mp); [left; lia | now right]. }
  set (dN := wrap32 (k - hN)).
  assert (HdN : dN = mp * 2 - hN).
  { unfold dN, k, hN. rewrite needed_nowrap by lia. lia. }
  destruct (Z.of_nat (length all) <? k) eqn:Hsmall; cbn [negb andb fst snd].
  - split; [reflexivity|discriminate].
  - apply Z.ltb_ge in Hsmall.
    destruct ft; cbn [negb fst snd].
    + destruct ((hN <=? Z.of_nat (length h)) && (dN <=? Z.of_nat (length d)))
        eqn:Hstd; cbn [fst snd Composer.selected Composer.allDpsMatch].
      * apply andb_true_iff in Hstd. destruct Hstd as [H1 H2].
        apply Z.leb_le in H1, H2.
        assert (Hlen : Z.of_nat (length (firstn (Z.to_nat hN) h
                                         ++ firstn (Z.to_nat dN) d)) = k).
        { rewrite length_app, !length_firstn. lia. }
        rewrite Hlen, Z.ltb_irrefl. cbn [negb].
        split; [reflexivity|]. intros _.
        rewrite map_app, !firstn_map. auto.
      * replace (length h =? 0)%nat with (Z.of_nat (length h) =? 0).
        2:{ destruct (Nat.eqb_spec (length h) 0) as [E|E];
            [apply Z.eqb_eq | apply Z.eqb_neq]; lia. }
        destruct (Z.of_nat (length h) =? 0).
        -- destruct (k <=? Z.of_nat (length (filter waited d))) eqn:Hw;
             cbn [fst snd Composer.selected Composer.allDpsMatch].
           ++ apply Z.leb_le in Hw.
              assert (Hlen : Z.of_nat (length (firstn (Z.to_nat k)
                                                 (filter waited d))) = k).
              { rewrite length_firstn. lia. }
              rewrite Hlen, Z.ltb_irrefl. cbn [negb].
              split; [reflexivity|]. intros _. rewrite firstn_map. auto.
           ++ cbn [length Z.of_nat].
              destruct (0 <? k) eqn:H0; cbn [negb].
              ** split; [reflexivity|discriminate].
              ** exfalso. apply Z.ltb_ge in H0. apply Z.leb_gt in Hw. lia.
        -- cbn [fst snd length Z.of_nat].
           destruct (0 <? k) eqn:H0; cbn [negb].
           ++ split; [reflexivity|discriminate].
           ++ exfalso. apply Z.ltb_ge in H0.
              apply andb_false_iff in Hstd.
              destruct Hstd as [H|H]; apply Z.leb_gt in H; lia.
    + cbn [fst snd Composer.selected Composer.allDpsMatch].
      assert (Hlen : Z.of_nat (length (firstn (Z.to_nat k) all)) = k).
      { rewrite length_firstn. lia. }
      rewrite Hlen, Z.ltb_irrefl. cbn [negb].
      split; [reflexivity|]. intros _. rewrite firstn_map. auto.
Qed.

Lemma X26_phase_2_mirrors_selector_witness :
  fst (Composer.SelectCandidates
         (map (toComposerAt (fun _ => 0)) arena_pool) 3 true 60000 100000
         {| Composer.selected := []; Composer.allDpsMatch := false |})
  = true.
Proof.
  assert (H0 : 0 <= 3) by lia.
  assert (H1 : 3 * 2 < 2 ^ 32) by reflexivity.
  rewrite (proj1 (X26_phase_2_mirrors_selector (fun _ => 0) 60000 100000
                    arena_pool 3 true
                    {| Composer.selected := []; Composer.allDpsMatch := false |}
                    H0 H1)).
  reflexivity.
Defined.

(** * The free slot *)

(** X27 (the first free slot).  GetFirstAvailableSlot returns a category
    in which one of the two teams still has room whenever there is such a
    category, trying melee, then ranged, then healer; only when all six
    slots are taken does it return the (taken) melee slot. *)
Theorem X27_first_available_slot :
  forall soloTeam,
    let slot := GetFirstAvailableSlot soloTeam in
    let free cat := soloTeam 0%nat cat = false \/ soloTeam 1%nat cat = false in
    ((exists cat, free cat) -> free slot)
    /\ ((forall cat, ~ free cat) -> slot = Solo3v3.MELEE)
    /\ (slot = Solo3v3.RANGE -> ~ free Solo3v3.MELEE)
    /\ (slot = Solo3v3.HEALER -> ~ free Solo3v3.MELEE /\ ~ free Solo3v3.RANGE).
Proof.
  intros soloTeam slot free. unfold slot, free, GetFirstAvailableSlot.
  destruct (soloTeam 0%nat Solo3v3.MELEE) eqn:M0,
           (soloTeam 1%nat Solo3v3.MELEE) eqn:M1,
           (soloTeam 0%nat Solo3v3.RANGE) eqn:R0,
           (soloTeam 1%nat Solo3v3.RANGE) eqn:R1,
           (soloTeam 0%nat Solo3v3.HEALER) eqn:H0,
           (soloTeam 1%nat Solo3v3.HEALER) eqn:H1;
    cbn [negb orb];
    (split; [|split; [|split]]);
    try (intros _; rewrite ?M0, ?M1, ?R0, ?R1, ?H0, ?H1; tauto);
    try discriminate;
    try (intros _; rewrite ?M0, ?M1, ?R0, ?R1; intuition discriminate);
    try (intros Hfull; exfalso;
         first [ apply (Hfull Solo3v3.MELEE); rewrite M0, M1; tauto
               | apply (Hfull Solo3v3.RANGE); rewrite R0, R1; tauto
               | apply (Hfull Solo3v3.HEALER); rewrite H0, H1; tauto ]);
    try reflexivity.
  intros [cat Hcat]. exfalso.
  destruct cat; rewrite ?M0, ?M1, ?R0, ?R1, ?H0, ?H1 in Hcat;
    destruct Hcat; discriminate.
Qed.

(** * Seat 0 *)

Lemma complement_of_increasing : forall c n,
  increasing_from 0 (complement_of c n).
Proof. intros c n. unfold complement_of. apply filter_seq_increasing. Qed.

(** In the list of the combinations of half the seats, the complement of
    a combination without seat 0 comes earlier. *)
Lemma complement_comes_first : forall n k t1 pre post,
  n = (2 * k)%nat -> (1 <= k)%nat ->
  combos n k 0 = pre ++ t1 :: post ->
  ~ In 0%nat t1 ->
  In (complement_of t1 n) pre
  /\ Permutation t1 (complement_of (complement_of t1 n) n)
  /\ BuildComplement k t1 n = complement_of t1 n
  /\ BuildComplement k (complement_of t1 n) n
     = complement_of (complement_of t1 n) n.
Proof.
  intros n k t1 pre post Hn Hk Hsplit H0.
  assert (Hin : In t1 (combos n k 0)).
  { rewrite Hsplit. apply in_app_iff. right. now left. }
  destruct (combos_halves n k t1 Hn Hin) as (L1 & F1 & L2 & F2 & B1).
  assert (Hkn : (k <= n)%nat) by lia.
  destruct (combos_sound n k 0 t1 Hkn Hin) as (_ & I1 & _).
  set (c' := complement_of t1 n) in *.
  assert (I2 : increasing_from 0 c') by apply complement_of_increasing.
  assert (Hc' : In c' (combos n k 0)) by (apply combos_complete; auto).
  assert (HP : Permutation (t1 ++ c') (seq 0 n)).
  { apply complement_of_partition; [|exact F1].
    eapply increasing_from_NoDup; eauto. }
  assert (Hback : Permutation t1 (complement_of c' n)).
  { apply (partition_complement_unique c' t1 c' n); auto.
    - eapply increasing_from_NoDup; eauto.
    - rewrite Permutation_app_comm. exact HP. }
  assert (H0c : In 0%nat c').
  { apply in_complement_of. split; [lia | exact H0]. }
  assert (Hlex : lex_ltb c' t1 = true /\ lex_ltb t1 c' = false).
  { destruct t1 as [|x t1]; [simpl in L1; lia|].
    destruct c' as [|y rest] eqn:Ec; [destruct H0c|].
    assert (y = 0%nat).
    { simpl in I2. destruct I2 as [_ I2]. destruct H0c as [E|E]; [exact E|].
      pose proof (increasing_from_ge _ _ _ I2 E). lia. }
    assert (x <> 0%nat) by (intro; subst; apply H0; now left).
    subst y. simpl.
    replace (0 <? x)%nat with true by (symmetry; apply Nat.ltb_lt; lia).
    replace (x <? 0)%nat with false by (symmetry; apply Nat.ltb_ge; lia).
    replace (x =? 0)%nat with false by (symmetry; apply Nat.eqb_neq; lia).
    auto. }
  destruct Hlex as [Hlt Hnlt].
  split; [|split; [exact Hback|split; [exact B1|]]].
  - rewrite Hsplit in Hc'. apply in_app_iff in Hc'.
    destruct Hc' as [Hc'|[Hc'|Hc']]; [exact Hc'| |].
    + exfalso. rewrite <- Hc', lex_ltb_irrefl in Hlt. discriminate.
    + exfalso. pose proof (combos_lex_sorted n k 0) as Hs.
      rewrite Hsplit in Hs.
      pose proof (StronglySorted_after _ _ _ _ _ _ Hs Hc') as Hr.
      cbv beta in Hr. congruence.
  - apply combos_BuildComplement; [exact Hkn|].
    apply combos_complete; auto.
Qed.

Lemma Composer_RoleBalanced_sym : forall ft adm a b pool,
  Composer.RoleBalanced ft adm a b pool = Composer.RoleBalanced ft adm b a pool.
Proof.
  intros ft adm a b pool. unfold Composer.RoleBalanced.
  destruct ft; [|reflexivity].
  rewrite (orb_comm (negb (Composer.CountHealers a pool =? 0))).
  rewrite (orb_comm (negb (Composer.CountHealers a pool =? 1))).
  reflexivity.
Qed.

Lemma Composer_TeamDiff_sym : forall a b pool,
  Composer.TeamDiff a b pool = Composer.TeamDiff b a pool.
Proof.
  intros a b pool. unfold Composer.TeamDiff. rewrite !TeamDiff_abs. lia.
Qed.

Lemma ComposerCS_RoleBalanced_sym : forall ft adm a b pool,
  ComposerCS.RoleBalanced ft adm a b pool
  = ComposerCS.RoleBalanced ft adm b a pool.
Proof.
  intros ft adm a b pool. unfold ComposerCS.RoleBalanced.
  destruct ft; [|reflexivity].
  rewrite (orb_comm (negb (ComposerCS.CountHealers a pool =? 0))).
  rewrite (orb_comm (negb (ComposerCS.CountHealers a pool =? 1))).
  reflexivity.
Qed.

Lemma ComposerCS_ClassDiverse_sym : forall lvl mask a b pool,
  ComposerCS.ClassDiverse lvl mask a b pool
  = ComposerCS.ClassDiverse lvl mask b a pool.
Proof.
  intros. unfold ComposerCS.ClassDiverse. now rewrite orb_comm.
Qed.

Lemma ComposerCS_TeamDiff_sym : forall a b pool,
  ComposerCS.TeamDiff a b pool = ComposerCS.TeamDiff b a pool.
Proof.
  intros a b pool. unfold ComposerCS.TeamDiff. rewrite !TeamDiff_abs. lia.
Qed.

Lemma Z_better_irrefl : forall s, Z_better s s = false.
Proof. intro s. unfold Z_better. apply Z.ltb_irrefl. Qed.

Lemma lex_better_irrefl : forall s, lex_better s s = false.
Proof.
  intros [a b]. unfold lex_better. cbn [fst snd].
  now rewrite !Z.ltb_irrefl, andb_false_r.
Qed.

(** The first best of a symmetric search has seat 0 in its first team. *)
Lemma first_best_has_seat_0 :
  forall (S : Type) (accept : list nat -> bool) (score : list nat -> S)
         (better : S -> S -> bool) n k t1,
    (forall s, better s s = false) ->
    n = (2 * k)%nat -> (1 <= k)%nat ->
    first_best accept score better (combos n k 0) (Some t1) ->
    (~ In 0%nat t1 ->
     accept (complement_of t1 n) = accept t1
     /\ score (complement_of t1 n) = score t1) ->
    In 0%nat t1.
Proof.
  intros S accept score better n k t1 Hirr Hn Hk Hfb Hsym.
  destruct (in_dec Nat.eq_dec 0%nat t1) as [H|H]; [exact H|exfalso].
  destruct Hfb as (pre & post & Hsplit & Hacc & Hpre & _).
  destruct (complement_comes_first n k t1 pre post Hn Hk Hsplit H)
    as (Hin & _).
  destruct (Hsym H) as [Ha Hs].
  specialize (Hpre _ Hin). rewrite Ha, Hs, Hirr in Hpre.
  specialize (Hpre Hacc). discriminate.
Qed.

(** X28 (seat 0 plays in the first team).  When the pool has exactly
    [2 * teamSize] players, the split keeps the first best combination in
    index order, and a split and its mirror image score alike: so the first
    team of every valid result contains seat 0, the player at the head of
    the selection, and the second team does not.  This holds for both
    revisions of the composer and for the production search. *)
Theorem X28_seat_0_is_in_team_1 :
  (forall sel ts ft adm,
     1 <= ts -> ts * 2 < 2 ^ 32 -> Z.of_nat (length sel) = 2 * ts ->
     Composer.valid (Composer.FindBestTeamSplit sel ts ft adm) = true ->
     In 0%nat (Composer.team1Indices (Composer.FindBestTeamSplit sel ts ft adm))
     /\ ~ In 0%nat (Composer.team2Indices
                      (Composer.FindBestTeamSplit sel ts ft adm)))
  /\
  (forall sel ts ft adm lvl mask,
     1 <= ts -> ts * 2 < 2 ^ 32 -> Z.of_nat (length sel) = 2 * ts ->
     ComposerCS.valid (ComposerCS.FindBestTeamSplit sel ts ft adm lvl mask)
     = true ->
     In 0%nat (ComposerCS.team1Indices
                 (ComposerCS.FindBestTeamSplit sel ts ft adm lvl mask))
     /\ ~ In 0%nat (ComposerCS.team2Indices
                      (ComposerCS.FindBestTeamSplit sel ts ft adm lvl mask)))
  /\
  (forall (ign : Z -> Z -> bool) sel mp ft adm ai t1 t2,
     1 <= mp -> mp * 2 < 2 ^ 32 -> Z.of_nat (length sel) = 2 * mp ->
     Solo3v3.CheckSolo3v3Arena_split ign sel mp ft adm ai = Some (t1, t2) ->
     In 0%nat t1 /\ ~ In 0%nat t2).
Proof.
  split; [|split].
  - intros sel ts ft adm Hts Hfit Hn Hv.
    assert (Hlen : Z.of_nat (length sel) < 2 ^ 32) by lia.
    destruct (Composer_FindBestTeamSplit_valid sel ts ft adm
                ltac:(lia) Hfit Hlen Hv) as (_ & Hfb & Ht2 & _).
    set (n := length sel) in *. set (k := Z.to_nat ts) in *.
    assert (Hnk : n = (2 * k)%nat) by (unfold k; lia).
    assert (Hk1 : (1 <= k)%nat) by (unfold k; lia).
    split; [|rewrite Ht2; intro H; apply in_complement_of in H;
             apply (proj2 H)];
    apply (first_best_has_seat_0 _ _ _ _ n k _ Z_better_irrefl Hnk Hk1 Hfb);
    intro H0;
    (destruct Hfb as (pre & post & Hsplit & _);
     destruct (complement_comes_first n k _ pre post Hnk Hk1 Hsplit H0)
       as (_ & Hback & B1 & B2);
     unfold Composer_keeps, Composer_diff; rewrite B1, B2;
     rewrite <- (Composer_RoleBalanced_perm ft adm sel _ _ _ _
                   (Permutation_refl _) Hback);
     rewrite <- (Composer_TeamDiff_perm sel _ _ _ _
                   (Permutation_refl _) Hback);
     split; [apply Composer_RoleBalanced_sym | apply Composer_TeamDiff_sym]).
  - intros sel ts ft adm lvl mask Hts Hfit Hn Hv.
    assert (Hlen : Z.of_nat (length sel) < 2 ^ 32) by lia.
    destruct (ComposerCS_FindBestTeamSplit_valid sel ts ft adm lvl mask
                ltac:(lia) Hfit Hlen Hv) as (_ & Hfb & Ht2 & _).
    set (n := length sel) in *. set (k := Z.to_nat ts) in *.
    assert (Hnk : n = (2 * k)%nat) by (unfold k; lia).
    assert (Hk1 : (1 <= k)%nat) by (unfold k; lia).
    split; [|rewrite Ht2; intro H; apply in_complement_of in H;
             apply (proj2 H)];
    apply (first_best_has_seat_0 _ _ _ _ n k _ Z_better_irrefl Hnk Hk1 Hfb);
    intro H0;
    (destruct Hfb as (pre & post & Hsplit & _);
     destruct (complement_comes_first n k _ pre post Hnk Hk1 Hsplit H0)
       as (_ & Hback & B1 & B2);
     unfold ComposerCS_keeps, ComposerCS_diff; rewrite B1, B2;
     rewrite <- (ComposerCS_RoleBalanced_perm ft adm sel _ _ _ _
                   (Permutation_refl _) Hback);
     rewrite <- (ComposerCS_ClassDiverse_perm lvl mask sel _ _ _ _
                   (Permutation_refl _) Hback);
     rewrite <- (ComposerCS_TeamDiff_perm sel _ _ _ _
                   (Permutation_refl _) Hback);
     split; [|apply ComposerCS_TeamDiff_sym];
     now rewrite ComposerCS_RoleBalanced_sym, ComposerCS_ClassDiverse_sym).
  - intros ign sel mp ft adm ai t1 t2 Hmp Hfit Hn E.
    assert (Hlen : Z.of_nat (length sel) < 2 ^ 32) by lia.
    assert (Hk : (Z.to_nat mp <= length sel)%nat) by lia.
    destruct (Solo3v3_split_first_best ign sel mp ft adm ai t1 t2
                ltac:(lia) Hk Hlen E) as (Hfb & Ht2).
    set (n := length sel) in *. set (k := Z.to_nat mp) in *.
    assert (Hnk : n = (2 * k)%nat) by (unfold k; lia).
    assert (Hk1 : (1 <= k)%nat) by (unfold k; lia).
    assert (H0 : In 0%nat t1).
    { apply (first_best_has_seat_0 _ _ _ _ n k _ lex_better_irrefl
               Hnk Hk1 Hfb).
      intro H0.
      destruct Hfb as (pre & post & Hsplit & _).
      destruct (complement_comes_first n k _ pre post Hnk Hk1 Hsplit H0)
        as (_ & Hback & B1 & B2).
      unfold Solo3v3_keeps, Solo3v3_score. rewrite B1, B2.
      rewrite <- (Solo3v3_RoleBalanced_perm ft adm sel _ _ _ _
                    (Permutation_refl _) Hback).
      rewrite <- (Solo3v3_TeamDiff_perm sel _ _ _ _
                    (Permutation_refl _) Hback).
      rewrite <- (Solo3v3_TeamIgnores_perm ign sel ai _ _ _ _
                    (Permutation_refl _) Hback).
      rewrite <- !toComposer_RoleBalanced, <- !toComposer_TeamDiff.
      split; [apply Composer_RoleBalanced_sym|].
      f_equal; [apply Composer_TeamDiff_sym|].
      unfold Solo3v3.TeamIgnores. lia. }
    split; [exact H0|]. rewrite Ht2. intro H. apply in_complement_of in H.
    tauto.
Qed.

Lemma X28_seat_0_is_in_team_1_witness :
  In 0%nat (Composer.team1Indices
              (Composer.FindBestTeamSplit pool_spread 3 true false)).
Proof.
  apply (proj1 X28_seat_0_is_in_team_1 pool_spread 3 true false);
    [lia | reflexivity | reflexivity | vm_compute; reflexivity].
Defined.
